(** * Displacer: the ramp sampler, the render tick and the GIF capture loop

    A shallow embedding of [DisplacementPreview.tsx]: the pure LUT sampler
    [generateRampTextureData], the per-tick [render] callback and the
    [captureGif] export with its sampling loop; and, around them, of the
    effects of the preview (initialisation and clean-up, [resize], the video
    feed and the overlay, [createBaseTexture]), of the ramp controller and
    the export form of [App.tsx], of the handlers of [RampEditor.tsx] and of
    the hook [useMediaStream].

    Numbers.  A JavaScript [number] is an IEEE 754 double.  Two models of it
    are used, each where it is adequate.

    - Binary64, in module [B64]: the primitive [float] of the Standard
      Library, whose [+], [-], [*], [/] and comparisons are those of
      IEEE 754 (round to nearest, ties to even; [NaN], the infinities and
      the two zeros included) and are related to the specification
      [SpecFloat] by the library's [FloatAxioms].  [Math.max], [Math.min],
      [Math.round], [Number.isFinite] and [||] are written out over it.
      The interpolation of [generateRampTextureData] and the parameters
      and the sampling loop of [captureGif], where a LUT entry, a frame
      count, a pixel size or termination depends on rounding and on [NaN],
      are embedded and verified in this model.

    - Rationals: a [number] as a [Q], the finite values with exact
      arithmetic; [Number.isFinite] is then constantly [true] and division
      by zero is [0] as in [Qdiv].  This model is used for what does not
      depend on the last bit of a product: the shape of the LUT (its
      length, its range, the order of the input), the structure of a
      capture (when an empty encoding is rejected, which frames are read
      back and flipped), the ramp controller, the editor and the base
      texture.  The sampler meets the division by zero only in
      [index / (size - 1)] for a LUT of size 1, and the component samples
      at [RAMP_RESOLUTION = 256] only; the editor meets it only for a
      canvas without extent, which [laid_out] excludes.

    Integers that the code keeps in typed arrays are [Z], its counters are
    [nat].

    State.  React state, refs and the objects of the browser are explicit
    records; what the browser, the driver or the user does is a list of
    events, and a handler or an effect is a function from the record before
    to the record after.  A state update and the effects that follow it are
    one step. *)

From Stdlib Require Import Floats.
From Stdlib Require Uint63.
From Stdlib Require Import String ZArith QArith Qround Qminmax Lia Lqa List Bool.
From Stdlib Require Import Permutation Sorted SetoidList Morphisms.
From Stdlib Require DecimalString DecimalNat.
Import ListNotations.

(** A decimal literal denotes the nearest double, as in JavaScript. *)
Set Warnings "-inexact-float".

Open Scope Q_scope.

(** ** The JavaScript primitives the component uses *)

Module JS.

Definition Qltb (a b : Q) : bool := negb (Qle_bool b a).

Definition Math_max (a b : Q) : Q := if Qle_bool a b then b else a.
Definition Math_min (a b : Q) : Q := if Qle_bool a b then a else b.

(** [Math.round]: the nearest integer, halves rounded towards +infinity. *)
Definition Math_round (v : Q) : Z := Qfloor (v + (1 # 2)).

Definition Math_floor (v : Q) : Z := Qfloor v.

(** [Number.isFinite] on a finite number. *)
Definition Number_isFinite (_ : Q) : bool := true.

(** [a || b] on numbers: [a] unless it is falsy, that is zero. *)
Definition or_else (a b : Q) : Q := if Qeq_bool a 0 then b else a.

(** The conversion applied by a store into a [Uint8Array]. *)
Definition ToUint8 (z : Z) : Z := (z mod 256)%Z.

(** [array[i] = v] on a typed array: a store out of range is ignored. *)
Fixpoint store (a : list Z) (i : nat) (v : Z) : list Z :=
  match a, i with
  | [], _ => []
  | _ :: a', O => ToUint8 v :: a'
  | e :: a', S i' => e :: store a' i' v
  end.

(** [new Uint8Array(size)]. *)
Definition new_Uint8Array (size : nat) : list Z := repeat 0%Z size.

(** Reading a property of [undefined] throws: [None] stands for that
    [TypeError]. *)
Definition bind {A B} (o : option A) (k : A -> option B) : option B :=
  match o with Some a => k a | None => None end.

(** [a ?? b]. *)
Definition nullish {A} (a b : option A) : option A :=
  match a with Some _ => a | None => b end.

End JS.

Import JS.

Notation "v <- o ;; k" := (bind o (fun v => k))
  (at level 61, o at next level, right associativity).

(** ** RampSampler: [generateRampTextureData] *)

Definition RAMP_RESOLUTION : nat := 256.

(** [const clamp = (value, min = 0, max = 1) => Math.min(Math.max(value, min), max)] *)
Definition clamp (value min max : Q) : Q := Math_min (Math_max value min) max.
Definition clamp01 (value : Q) : Q := clamp value 0 1.

Record RampPoint := mkRampPoint
  { id : string; x : Q; y : Q; locked : option bool }.

(** The [{x, y}] objects the sampler works on. *)
Definition xy : Type := (Q * Q)%type.
Definition xof (p : xy) : Q := fst p.
Definition yof (p : xy) : Q := snd p.

(** [.sort((a, b) => a.x - b.x)]: [Array.prototype.sort] is stable, so the
    result is the one of a stable insertion sort on [x]. *)
Fixpoint insert (a : xy) (l : list xy) : list xy :=
  match l with
  | [] => [a]
  | b :: l' => if Qltb (xof b) (xof a) then b :: insert a l' else a :: b :: l'
  end.

Fixpoint sort_by_x (l : list xy) : list xy :=
  match l with
  | [] => []
  | a :: l' => insert a (sort_by_x l')
  end.

(** [[...points].map(({x, y}) => ({x: clamp(x), y: clamp(y)})).sort(...)] *)
Definition sorted_points (points : list RampPoint) : list xy :=
  sort_by_x (map (fun p => (clamp01 (x p), clamp01 (y p))) points).

(** The flat extension to [x = 0] and [x = 1]. *)
Definition normalize (sorted : list xy) : option (list xy) :=
  first <- nth_error sorted 0 ;;
  last <- nth_error sorted (length sorted - 1) ;;
  let normalized :=
    if Qltb 0 (xof first) then (0, yof first) :: sorted else sorted in
  let normalized :=
    if Qltb (xof last) 1 then normalized ++ [(1, yof last)] else normalized in
  Some normalized.

(** [while (segment < normalized.length - 2 && t > normalized[segment + 1].x)
      segment += 1;]
    The guard keeps [segment + 1] in range; [fuel] bounds the iterations. *)
Fixpoint advance (fuel : nat) (normalized : list xy) (t : Q) (segment : nat)
  : nat :=
  match fuel with
  | O => segment
  | S fuel' =>
      if (Z.of_nat segment <? Z.of_nat (length normalized) - 2)%Z
         && match nth_error normalized (segment + 1) with
            | Some p => Qltb (xof p) t
            | None => false
            end
      then advance fuel' normalized t (S segment)
      else segment
  end.

(** The guard of the [while] loop, as a proposition. *)
Definition advance_guard (normalized : list xy) (t : Q) (segment : nat) : Prop :=
  (Z.of_nat segment < Z.of_nat (length normalized) - 2)%Z /\
  exists p, nth_error normalized (segment + 1) = Some p /\ xof p < t.

Definition sample_t (size index : nat) : Q :=
  inject_Z (Z.of_nat index) / inject_Z (Z.of_nat size - 1).

(** The interpolation of one sample between [left] and [right]. *)
Definition sample_value (left right : xy) (t : Q) : Z :=
  let span := or_else (xof right - xof left) 1 in
  let ratio := clamp ((t - xof left) / span) 0 1 in
  let value := clamp (yof left + (yof right - yof left) * ratio) 0 1 in
  Math_round (value * 255).

(** One iteration of the [for] loop: the new cursor and the updated array. *)
Definition sample_step (normalized : list xy) (size : nat)
    (st : nat * list Z) (index : nat) : option (nat * list Z) :=
  let '(segment, samples) := st in
  let t := sample_t size index in
  let segment := advance (length normalized) normalized t segment in
  left <- nth_error normalized segment ;;
  right <- nullish (nth_error normalized (segment + 1))
                   (nth_error normalized segment) ;;
  Some (segment, store samples index (sample_value left right t)).

Fixpoint sample_loop (normalized : list xy) (size : nat)
    (st : nat * list Z) (indices : list nat) : option (nat * list Z) :=
  match indices with
  | [] => Some st
  | index :: rest =>
      st' <- sample_step normalized size st index ;;
      sample_loop normalized size st' rest
  end.

Definition generateRampTextureData (points : list RampPoint) (size : nat)
  : option (list Z) :=
  match points with
  | [] => Some (map ToUint8 (repeat 127%Z size))
  | _ :: _ =>
      normalized <- normalize (sorted_points points) ;;
      st <- sample_loop normalized size (O, new_Uint8Array size) (seq 0 size) ;;
      Some (snd st)
  end.

(** A control point at [(a, b)], unlocked. *)
Definition pt (a b : Q) : RampPoint := mkRampPoint "p" a b None.

(** ** RenderLoop: the [render] callback and the life of the component *)

(** The uniform locations cached at initialisation; [false] is the [null] that
    [getUniformLocation] returns for a uniform the linker dropped. *)
Record Uniforms := mkUniforms
  { loc_intensityX : bool; loc_intensityY : bool;
    loc_time : bool; loc_waveAmount : bool }.

(** The refs the callback reads. *)
Record Refs := mkRefs
  { intensityXRef : Q; intensityYRef : Q; waveIntensityRef : Q;
    useVideoRef : bool;
    videoHasData : bool (* videoRef.current && videoRef.current.readyState >= 2 *) }.

(** What the program and the context hold after a draw. *)
Record GLProgram := mkGLProgram
  { uIntensityX : Q; uIntensityY : Q; uWaveAmount : Q; uTime : Q;
    UNPACK_FLIP_Y_WEBGL : bool; videoUploads : nat; drawCalls : nat }.

Definition fresh_program : GLProgram := mkGLProgram 0 0 0 0 false O O.

(** [const render = (time: number) => { ... }], without the rescheduling. *)
Definition render (uniforms : Uniforms) (refs : Refs) (gl : GLProgram)
    (time : Q) : GLProgram :=
  let useVideo := useVideoRef refs && videoHasData refs in
  mkGLProgram
    (if loc_intensityX uniforms then intensityXRef refs else uIntensityX gl)
    (if loc_intensityY uniforms then intensityYRef refs else uIntensityY gl)
    (if loc_waveAmount uniforms then waveIntensityRef refs else uWaveAmount gl)
    (if loc_time uniforms then time * (1 # 1000) else uTime gl)
    useVideo
    (if useVideo then S (videoUploads gl) else videoUploads gl)
    (S (drawCalls gl)).

(** The component over its life: the initialisation effect, the presentation
    ticks of the host and the clean-up of the effect. *)
Inductive LifeEvent :=
| Mount (hostNow : Q)      (* the effect runs while the host clock reads [hostNow] *)
| Present (time : Q)       (* the host presents a frame: callbacks get [time] *)
| Unmount.                 (* the clean-up: cancel the tick, delete the resources *)

Record Preview := mkPreview
  { animationRef : bool;            (* a [render] callback is scheduled *)
    glStateRef : option GLProgram;  (* [glStateRef.current] *)
    startedAt : Q;                  (* ghost: host clock at the last [Mount] *)
    timeLog : list (Q * Q) }.       (* ghost: (startedAt, value given to uTime), newest first *)

Definition unmounted : Preview := mkPreview false None 0 [].

Definition life_step (uniforms : Uniforms) (refs : Refs) (p : Preview)
    (e : LifeEvent) : Preview :=
  match e with
  | Mount hostNow =>
      match glStateRef p with
      | Some _ => p
      | None => mkPreview true (Some fresh_program) hostNow (timeLog p)
      end
  | Present time =>
      match animationRef p, glStateRef p with
      | true, Some gl =>
          mkPreview true (Some (render uniforms refs gl time)) (startedAt p)
            (if loc_time uniforms
             then (startedAt p, time * (1 # 1000)) :: timeLog p
             else timeLog p)
      | _, _ => p
      end
  | Unmount => mkPreview false None (startedAt p) (timeLog p)
  end.

Definition life (uniforms : Uniforms) (refs : Refs) (events : list LifeEvent)
  : Preview :=
  fold_left (life_step uniforms refs) events unmounted.

(** The values pushed to [uTime] by one loop over the ticks [times]. *)
Fixpoint render_loop (uniforms : Uniforms) (refs : Refs) (gl : GLProgram)
    (times : list Q) : list GLProgram :=
  match times with
  | [] => []
  | time :: rest =>
      let gl' := render uniforms refs gl time in
      gl' :: render_loop uniforms refs gl' rest
  end.

(** Milliseconds of the host clock, in seconds: [time * 0.001]. *)
Definition to_seconds (time : Q) : Q := time * (1 # 1000).

(** The timestamps of the presentation ticks that reach [render]: those that
    come while an instance is mounted. *)
Fixpoint delivered (mounted : bool) (events : list LifeEvent) : list Q :=
  match events with
  | [] => []
  | Mount _ :: rest => delivered true rest
  | Unmount :: rest => delivered false rest
  | Present time :: rest =>
      if mounted then time :: delivered mounted rest
      else delivered mounted rest
  end.

(** A scheduled callback goes with a live GL state, and conversely. *)
Definition coherent (p : Preview) : Prop :=
  animationRef p = match glStateRef p with Some _ => true | None => false end.

(** A preview without video whose program kept all four uniforms. *)
Definition plain_refs : Refs := mkRefs (1 # 2) (1 # 2) (1 # 2) false false.
Definition all_uniforms : Uniforms := mkUniforms true true true true.

(** ** CaptureController: [captureGif] *)

Record Canvas := mkCanvas { width : Z; height : Z }.

Record Options := mkOptions { duration : Q; fps : Q; scale : Q }.

(** A presentation tick as the capture sees it: the timestamp handed to the
    callback and the drawing surface as it is then (it may have been resized
    since the call started). *)
Record Tick := mkTick { now : Q; surface : Canvas }.

(** One call of [encoder.writeFrame]: the geometry and options passed, and
    the tick whose framebuffer was read back. *)
Record Frame := mkFrame
  { frame_width : Q; frame_height : Q; frame_delay : Q;
    frame_repeat : option Q; read_width : Z; read_height : Z; shot_at : Q }.

Record Blob := mkBlob { blob_bytes : list Z; blob_type : string }.

(** How the promise returned by [captureGif] stands once the given ticks have
    been delivered. *)
Inductive Outcome :=
| Resolved (b : Blob)
| Rejected (message : string)
| Pending.

Definition sanitizedDuration (o : Options) : Q := Math_max (1 # 2) (duration o).
Definition sanitizedFps (o : Options) : Q :=
  Math_min 60 (Math_max 1 (inject_Z (Math_round (fps o)))).
Definition sanitizedScale (o : Options) : Q :=
  Math_min 1 (Math_max (1 # 10) (if Number_isFinite (scale o) then scale o else 1)).
Definition frameIntervalMs (o : Options) : Q := 1000 / sanitizedFps o.
Definition frameCount (o : Options) : Q :=
  Math_max 1 (inject_Z (Math_round (sanitizedDuration o * sanitizedFps o))).
Definition delayMs (o : Options) : Q :=
  Math_max 0 (inject_Z (Math_round (frameIntervalMs o))).

Definition targetWidth (canvas : Canvas) (o : Options) : Q :=
  Math_max 1 (inject_Z (Math_round (inject_Z (width canvas) * sanitizedScale o))).
Definition targetHeight (canvas : Canvas) (o : Options) : Q :=
  Math_max 1 (inject_Z (Math_round (inject_Z (height canvas) * sanitizedScale o))).

(** The variables of the sampling closure. *)
Record Sampling := mkSampling
  { captured : nat; startTime : Q; nextCapture : Q;
    frameIndex : nat; frames : list Frame (* oldest first *) }.

Definition sampling_start : Sampling := mkSampling O 0 0 O [].

(** [captureFrame]: read back [width] x [height] pixels, flip, resample to the
    target size, quantise and write one frame. *)
Definition captureFrame (canvas : Canvas) (o : Options) (tick : Tick)
    (s : Sampling) : Sampling :=
  let frame :=
    mkFrame (targetWidth canvas o) (targetHeight canvas o) (delayMs o)
      (if Nat.eqb (frameIndex s) 0 then Some 0 else None)
      (width canvas) (height canvas) (now tick) in
  mkSampling (captured s) (startTime s) (nextCapture s)
    (S (frameIndex s)) (frames s ++ [frame]).

Inductive Scheduling := Resolve | Reschedule.

Definition count (n : nat) : Q := inject_Z (Z.of_nat n).

(** [const step = (now: number) => { ... }] *)
Definition step (canvas : Canvas) (o : Options) (s : Sampling) (tick : Tick)
  : Sampling * Scheduling :=
  if Qle_bool (frameCount o) (count (captured s)) then (s, Resolve)
  else
    let s :=
      if Nat.eqb (captured s) 0
      then mkSampling (captured s) (now tick) (now tick) (frameIndex s) (frames s)
      else s in
    let s :=
      if Qle_bool (nextCapture s) (now tick)
      then
        let s := captureFrame canvas o tick s in
        mkSampling (S (captured s)) (startTime s)
          (nextCapture s + frameIntervalMs o) (frameIndex s) (frames s)
      else s in
    if Qle_bool (frameCount o) (count (captured s))
       || Qle_bool (sanitizedDuration o * 1000 + frameIntervalMs o)
                   (now tick - startTime s)
    then (s, Resolve)
    else (s, Reschedule).

(** The loop over the ticks the host delivers; [true] once [resolve()] ran. *)
Fixpoint sampling_loop (canvas : Canvas) (o : Options) (s : Sampling)
    (ticks : list Tick) : Sampling * bool :=
  match ticks with
  | [] => (s, false)
  | tick :: rest =>
      match step canvas o s tick with
      | (s', Resolve) => (s', true)
      | (s', Reschedule) => sampling_loop canvas o s' rest
      end
  end.

(** What the call finds when it starts. *)
Record Environment := mkEnvironment
  { canvasRef : option Canvas;
    stateRef : bool;       (* [glStateRef.current] is set *)
    fullCtx : bool;        (* [fullCanvas.getContext("2d")] succeeded *)
    scaledCtx : bool }.    (* [scaledCanvas.getContext("2d")] succeeded *)

Section CaptureGif.

(** [gifenc]: the bytes of the encoding after [finish()], for the frames
    written; [None] for a missing buffer. *)
Variable encoder_bytes : list Frame -> option (list Z).

Definition captureGif (env : Environment) (ticks : list Tick) (o : Options)
  : Outcome :=
  match canvasRef env, stateRef env with
  | Some canvas, true =>
      if negb (fullCtx env) then Rejected "Unable to allocate capture buffer"
      else if negb (scaledCtx env) then Rejected "Unable to allocate scaled buffer"
      else
        match sampling_loop canvas o sampling_start ticks with
        | (s, true) =>
            match encoder_bytes (frames s) with
            | None => Rejected "Generated GIF was empty"
            | Some bytes =>
                if Nat.eqb (length bytes) 0
                then Rejected "Generated GIF was empty"
                else Resolved (mkBlob bytes "image/gif")
            end
        | (_, false) => Pending
        end
  | _, _ => Rejected "Preview not ready"
  end.

End CaptureGif.

(** The first [n] ticks of a clock [f]. *)
Definition prefix (f : nat -> Tick) (n : nat) : list Tick := map f (seq 0 n).

(** The sampling state after the first [n] ticks of [f], and whether the loop
    has resolved by then. *)
Definition after_ticks (canvas : Canvas) (o : Options) (f : nat -> Tick)
    (n : nat) : Sampling * bool :=
  sampling_loop canvas o sampling_start (prefix f n).

(** ** RampSampler: the cursor and the points the loop reads *)

(** The cursor of the sampler after the first [n] indices. *)
Definition cursor_after (normalized : list xy) (size n : nat) : nat :=
  fold_left
    (fun segment index =>
       advance (length normalized) normalized (sample_t size index) segment)
    (seq 0 n) O.

(** The [{x, y}] objects after clamping, in input order. *)
Definition clamped (points : list RampPoint) : list xy :=
  map (fun p => (clamp01 (x p), clamp01 (y p))) points.

Definition same_x (a b : xy) : Prop := xof a == xof b.

(** No two points share their (clamped) [x]. *)
Definition distinct_x (l : list xy) : Prop := NoDupA same_x l.

(** [distinct_x], decided. *)
Fixpoint distinct_xb (l : list xy) : bool :=
  match l with
  | [] => true
  | a :: l' =>
      forallb (fun b => negb (Qeq_bool (xof a) (xof b))) l' && distinct_xb l'
  end.

Definition byte (b : Z) : Prop := (0 <= b <= 255)%Z.

Definition origin : xy := (0, 0).

(** [normalized[k].x] *)
Definition xat (normalized : list xy) (k : nat) : Q := xof (nth k normalized origin).

Definition le_x (a b : xy) : Prop := xof a <= xof b.

(** Both coordinates lie in [0,1]. *)
Definition in_unit (p : xy) : Prop := 0 <= xof p <= 1 /\ 0 <= yof p <= 1.

(** Entry [index] of the LUT, read off the cursor the loop has there. *)
Definition entry (normalized : list xy) (size index : nat) : Z :=
  let segment := cursor_after normalized size (S index) in
  ToUint8 (sample_value (nth segment normalized origin)
             (nth (S segment) normalized origin) (sample_t size index)).

(** The messages with which [captureGif] rejects: none is about a parameter. *)
Definition environment_failures : list string :=
  ["Preview not ready"; "Unable to allocate capture buffer";
   "Unable to allocate scaled buffer"; "Generated GIF was empty"]%string.

(** ** The sampling loop against a clock *)

(** The wall-clock bound of the loop: [sanitizedDuration * 1000 + frameIntervalMs]. *)
Definition limit (o : Options) : Q :=
  sanitizedDuration o * 1000 + frameIntervalMs o.

(** The state of a loop that has handled at least one tick and goes on. *)
Definition well (o : Options) (t0 : Q) (s : Sampling) : Prop :=
  (1 <= captured s)%nat /\
  count (captured s) < frameCount o /\
  startTime s = t0 /\
  frameIndex s = captured s /\
  length (frames s) = captured s.

(** A clock throttled to one tick every [period] milliseconds. *)
Definition throttled (period : Q) (canvas : Canvas) (k : nat) : Tick :=
  mkTick (count k * period) canvas.

(** ** RampSampler: points of the unit square *)

(** A control point moved to the nearest point of the unit square. *)
Definition clamp_point (p : RampPoint) : RampPoint :=
  mkRampPoint (id p) (clamp01 (x p)) (clamp01 (y p)) (locked p).

(** ** CaptureController: what a run of the loop keeps true *)

(** The closure once the first tick [tick] has set its origin. *)
Definition started (s : Sampling) (tick : Tick) : Sampling :=
  if Nat.eqb (captured s) 0
  then mkSampling (captured s) (now tick) (now tick) (frameIndex s) (frames s)
  else s.

(** The closure after a capture at [tick]. *)
Definition with_capture (canvas : Canvas) (o : Options) (s : Sampling)
    (tick : Tick) : Sampling :=
  let s := captureFrame canvas o tick s in
  mkSampling (S (captured s)) (startTime s)
    (nextCapture s + frameIntervalMs o) (frameIndex s) (frames s).

(** The frames are numbered as they are written, the schedule is the origin
    plus one frame interval per captured frame, and frame [k] carries the
    delay of the call, the repeat marker if it is the first, and a timestamp
    not before its due instant. *)
Definition frames_in_order (o : Options) (t0 : Q) (s : Sampling) : Prop :=
  frameIndex s = length (frames s) /\
  captured s = length (frames s) /\
  (captured s <> O ->
   startTime s = t0 /\
   nextCapture s == t0 + count (captured s) * frameIntervalMs o) /\
  forall k frame,
    nth_error (frames s) k = Some frame ->
    frame_delay frame = delayMs o /\
    frame_repeat frame = (if Nat.eqb k 0 then Some 0 else None) /\
    t0 + count k * frameIntervalMs o <= shot_at frame.

(** ** CaptureController: the vertical flip of [captureFrame] *)

(** [a.subarray(begin, end)]. *)
Definition subarray (a : list Z) (start stop : nat) : list Z :=
  firstn (stop - start) (skipn start a).

(** The conversion applied by a store into a [Uint8ClampedArray]. *)
Definition ToUint8Clamp (z : Z) : Z := Z.max 0 (Z.min 255 z).

(** [target.set(source, offset)] on a [Uint8ClampedArray]; [None] stands for
    the [RangeError] thrown when the source does not fit. *)
Definition typed_set (target source : list Z) (offset : nat) : option (list Z) :=
  if (offset + length source <=? length target)%nat
  then Some (firstn offset target ++ map ToUint8Clamp source
             ++ skipn (offset + length source) target)
  else None.

(** [for (let y = 0; y < height; y += 1) {
       const srcStart = y * width * 4;
       const dstStart = (height - 1 - y) * width * 4;
       flipped.set(pixelBuffer.subarray(srcStart, srcStart + width * 4), dstStart); }] *)
Fixpoint flip_rows (width height : nat) (pixelBuffer : list Z) (ys : list nat)
    (flipped : list Z) : option (list Z) :=
  match ys with
  | [] => Some flipped
  | y :: rest =>
      let srcStart := (y * width * 4)%nat in
      let dstStart := ((height - 1 - y) * width * 4)%nat in
      flipped' <- typed_set flipped
                    (subarray pixelBuffer srcStart (srcStart + width * 4)) dstStart ;;
      flip_rows width height pixelBuffer rest flipped'
  end.

Definition flip (width height : nat) (pixelBuffer flipped : list Z)
  : option (list Z) :=
  flip_rows width height pixelBuffer (seq 0 height) flipped.

(** ** App: the export form *)

(** [handleExportGif]: the options it hands to [captureGif], from the three
    fields of the form. *)
Definition exportOptions (gifDuration gifFps gifScale : Q) : Options :=
  mkOptions
    (Math_max (1 # 2) (Math_min 10 (or_else gifDuration 0)))
    (Math_min 30 (Math_max 1 (inject_Z (Math_round (or_else gifFps 0)))))
    (Math_min 1 (Math_max (1 # 10) (or_else gifScale 1))).

(** ** App: the ramp controller, [useRampController] *)

Inductive PresetKey :=
| linear | bulge | crest | ripple | reededStraight | reededCurved
| diagonalSweep | sawtooth | frostedBand | pulseFocus.

(** [presets[key].points], in hundredths. *)
Definition presets (key : PresetKey) : list xy :=
  map (fun '(a, b) => (inject_Z a / 100, inject_Z b / 100))
    match key with
    | linear => [(0, 100); (100, 0)]
    | bulge => [(0, 100); (25, 60); (50, 20); (75, 65); (100, 0)]
    | crest => [(0, 100); (20, 90); (50, 10); (80, 40); (100, 0)]
    | ripple =>
        [(0, 100); (15, 60); (30, 80); (50, 35); (70, 55); (85, 20); (100, 0)]
    | reededStraight =>
        [(0, 100); (8, 20); (16, 100); (24, 20); (32, 100); (40, 20); (48, 100);
         (56, 20); (64, 100); (72, 20); (80, 100); (88, 20); (100, 0)]
    | reededCurved =>
        [(0, 100); (8, 40); (14, 75); (22, 20); (32, 70); (42, 15); (52, 65);
         (64, 12); (74, 60); (86, 10); (100, 0)]
    | diagonalSweep =>
        [(0, 100); (10, 95); (25, 70); (45, 35); (65, 15); (85, 5); (100, 0)]
    | sawtooth =>
        [(0, 100); (10, 10); (20, 100); (32, 5); (45, 85); (60, 8); (74, 80);
         (86, 12); (100, 0)]
    | frostedBand =>
        [(0, 100); (10, 90); (25, 40); (50, 15); (75, 40); (90, 90); (100, 0)]
    | pulseFocus =>
        [(0, 100); (10, 60); (20, 35); (35, 80); (50, 5); (65, 80); (80, 35);
         (90, 60); (100, 0)]
    end%Z.

(** A [Partial<RampPoint>]: the properties that are present. *)
Record Partial := mkPartial
  { p_id : option string; p_x : option Q; p_y : option Q; p_locked : option bool }.

Definition no_opts : Partial := mkPartial None None None None.

(** [{ ...point, ...next }] *)
Definition spread (point : RampPoint) (next : Partial) : RampPoint :=
  mkRampPoint
    (match p_id next with Some v => v | None => id point end)
    (match p_x next with Some v => v | None => x point end)
    (match p_y next with Some v => v | None => y point end)
    (match p_locked next with Some v => Some v | None => locked point end).

(** [{ ...point, x: nextX, y: nextY }] *)
Definition with_xy (point : RampPoint) (nextX nextY : Q) : RampPoint :=
  mkRampPoint (id point) nextX nextY (locked point).

(** [point.locked] as a condition. *)
Definition is_locked (point : RampPoint) : bool :=
  match locked point with Some true => true | _ => false end.

(** The decimal digits of a counter, as a template literal prints them. *)
Definition number_to_string (n : nat) : string :=
  DecimalString.NilEmpty.string_of_uint (Nat.to_uint n).

(** [generateId]: [`point-${++counter}`]; the counter of the closure is
    passed in and out. *)
Definition generateId (counter : nat) : nat * string :=
  (S counter, ("point-" ++ number_to_string (S counter))%string).

(** [createPoint(x, y, opts)] *)
Definition createPoint (counter : nat) (x0 y0 : Q) (opts : Partial)
  : nat * RampPoint :=
  let '(counter, id0) := generateId counter in
  (counter, spread (mkRampPoint id0 x0 y0 None) opts).

(** [config.points.map((point, index, arr) => createPoint(point.x, point.y,
      { locked: index === 0 || index === arr.length - 1 }))] *)
Fixpoint buildPreset_from (counter index len : nat) (points : list xy)
  : nat * list RampPoint :=
  match points with
  | [] => (counter, [])
  | point :: rest =>
      let '(counter, created) :=
        createPoint counter (xof point) (yof point)
          (mkPartial None None None
             (Some (Nat.eqb index 0
                    || Z.eqb (Z.of_nat index) (Z.of_nat len - 1)))) in
      let '(counter, others) := buildPreset_from counter (S index) len rest in
      (counter, created :: others)
  end.

Definition buildPreset (counter : nat) (config : list xy)
  : nat * list RampPoint :=
  buildPreset_from counter 0 (length config) config.

(** [prev.findIndex((point) => point.id === id)]; [None] is [-1]. *)
Fixpoint findIndex (id0 : string) (l : list RampPoint) : option nat :=
  match l with
  | [] => None
  | point :: rest =>
      if String.eqb (id point) id0 then Some O
      else option_map S (findIndex id0 rest)
  end.

(** [points.find((point) => !point.locked)] *)
Fixpoint find_unlocked (l : list RampPoint) : option RampPoint :=
  match l with
  | [] => None
  | point :: rest => if is_locked point then find_unlocked rest else Some point
  end.

(** [const nextPoints = [...prev]; nextPoints[index] = updatedPoint;] for an
    index inside the array. *)
Fixpoint replace_nth (l : list RampPoint) (index : nat) (point : RampPoint)
  : list RampPoint :=
  match l, index with
  | [], _ => []
  | _ :: rest, O => point :: rest
  | head :: rest, S i => head :: replace_nth rest i point
  end.

(** The updater of [updatePoint]. *)
Definition updatePoint (prev : list RampPoint) (id0 : string) (next : Partial)
  : list RampPoint :=
  match findIndex id0 prev with
  | None => prev
  | Some index =>
      match nth_error prev index with
      | None => prev
      | Some point =>
          let left := match index with O => None | S i => nth_error prev i end in
          let right := nth_error prev (S index) in
          let proposedX := match p_x next with Some v => v | None => x point end in
          let minBound :=
            match left with Some l => x l + (1 # 100) | None => 0 end in
          let maxBound :=
            match right with Some r => x r - (1 # 100) | None => 1 end in
          let safeMin := Math_min minBound maxBound in
          let safeMax := Math_max minBound maxBound in
          let boundedX :=
            if Qltb safeMax safeMin then (safeMin + safeMax) / 2
            else clamp proposedX safeMin safeMax in
          let nextX := clamp (if is_locked point then x point else boundedX) 0 1 in
          let nextY :=
            clamp (match p_y next with Some v => v | None => y point end) 0 1 in
          replace_nth prev index (with_xy (spread point next) nextX nextY)
      end
  end.

(** [.sort((a, b) => a.x - b.x)] on control points: stable, as above. *)
Fixpoint insert_point (a : RampPoint) (l : list RampPoint) : list RampPoint :=
  match l with
  | [] => [a]
  | b :: l' => if Qltb (x b) (x a) then b :: insert_point a l' else a :: b :: l'
  end.

Fixpoint sort_points (l : list RampPoint) : list RampPoint :=
  match l with
  | [] => []
  | a :: l' => insert_point a (sort_points l')
  end.

(** [if (first.locked) nextPoints[0] = { ...first, x: 0 }] *)
Definition pin_first (l : list RampPoint) : list RampPoint :=
  match l with
  | [] => []
  | first :: rest =>
      if is_locked first then with_xy first 0 (y first) :: rest else l
  end.

(** [if (nextPoints.length > 1) { const last = ...; if (last.locked)
      nextPoints[nextPoints.length - 1] = { ...last, x: 1 } }] *)
Definition pin_last (l : list RampPoint) : list RampPoint :=
  if (1 <? length l)%nat
  then match nth_error l (length l - 1) with
       | Some last =>
           if is_locked last
           then replace_nth l (length l - 1) (with_xy last 1 (y last))
           else l
       | None => l
       end
  else l.

(** The state of one controller, with the counter of [generateId]. *)
Record Controller := mkController
  { points : list RampPoint; selectedId : option string; counter : nat }.

(** [addPoint(x, y)] *)
Definition addPoint (c : Controller) (x0 y0 : Q) : Controller :=
  let '(counter', newPoint) := createPoint (counter c) x0 y0 no_opts in
  mkController
    (pin_last (pin_first (sort_points (points c ++ [newPoint]))))
    (Some (id newPoint)) counter'.

(** [removePoint(id)] *)
Definition removePoint (c : Controller) (id0 : string) : Controller :=
  let prev := points c in
  if (length prev <=? 2)%nat then c
  else
    match findIndex id0 prev with
    | None => c
    | Some targetIndex =>
        match nth_error prev targetIndex with
        | None => c
        | Some target =>
            if is_locked target then c
            else
              let nextPoints :=
                filter (fun point => negb (String.eqb (id point) id0)) prev in
              let selected :=
                match selectedId c with
                | Some current =>
                    if String.eqb current id0
                    then option_map id
                           (nth_error nextPoints
                              (Nat.min targetIndex (length nextPoints - 1)))
                    else Some current
                | None => None
                end in
              mkController nextPoints selected (counter c)
        end
    end.

(** [initialPoints.find((point) => !point.locked)?.id ?? initialPoints[0]?.id
      ?? null] *)
Definition preset_selection (l : list RampPoint) : option string :=
  match find_unlocked l with
  | Some point => Some (id point)
  | None => option_map id (nth_error l 0)
  end.

(** [applyPreset(key)], which is also how the controller starts. *)
Definition applyPreset (c : Controller) (key : PresetKey) : Controller :=
  let '(counter', nextPoints) := buildPreset (counter c) (presets key) in
  mkController nextPoints (preset_selection nextPoints) counter'.

(** What can happen to a controller. *)
Inductive Action :=
| UpdatePoint (id0 : string) (next : Partial)
| AddPoint (x0 y0 : Q)
| RemovePoint (id0 : string)
| ApplyPreset (key : PresetKey)
| Select (id0 : option string)
| Elsewhere.   (* the other controller draws an id from the shared counter *)

Definition act (c : Controller) (a : Action) : Controller :=
  match a with
  | UpdatePoint id0 next =>
      mkController (updatePoint (points c) id0 next) (selectedId c) (counter c)
  | AddPoint x0 y0 => addPoint c x0 y0
  | RemovePoint id0 => removePoint c id0
  | ApplyPreset key => applyPreset c key
  | Select id0 => mkController (points c) id0 (counter c)
  | Elsewhere => mkController (points c) (selectedId c) (fst (generateId (counter c)))
  end.

(** The actions the editor and the inspector produce: patches of [x] and [y]
    only, new points strictly inside the ramp, selections of a handle or of
    nothing. *)
Definition from_the_editor (c : Controller) (a : Action) : Prop :=
  match a with
  | UpdatePoint _ next => p_id next = None /\ p_locked next = None
  | AddPoint x0 y0 => (2 # 100) <= x0 <= (98 # 100) /\ 0 <= y0 <= 1
  | Select (Some id0) => exists point, In point (points c) /\ id point = id0
  | _ => True
  end.

Definition unit_point (point : RampPoint) : Prop :=
  0 <= x point <= 1 /\ 0 <= y point <= 1.

(** The id that [generateId] makes of the counter value [k]. *)
Definition point_id (k : nat) : string :=
  ("point-" ++ number_to_string k)%string.

(** Every id was drawn from the counter. *)
Definition ids_drawn (counter : nat) (l : list RampPoint) : Prop :=
  Forall (fun point => exists k, (1 <= k <= counter)%nat /\ id point = point_id k) l.

(** The selection is a handle of the ramp, or nothing. *)
Definition selection_ok (selected : option string) (l : list RampPoint) : Prop :=
  match selected with
  | Some id0 => exists point, In point l /\ id point = id0
  | None => True
  end.

(** A ramp as the controller keeps it: a locked handle at [x = 0], unlocked
    handles, a locked handle at [x = 1]; all inside the unit square, with
    distinct ids drawn from the counter, and a selection among them. *)
Definition ramp_ok (c : Controller) : Prop :=
  (exists first middle last,
     points c = first :: middle ++ [last] /\
     is_locked first = true /\ x first == 0 /\
     is_locked last = true /\ x last == 1 /\
     Forall (fun point => is_locked point = false) middle) /\
  Forall unit_point (points c) /\
  NoDup (map id (points c)) /\
  ids_drawn (counter c) (points c) /\
  selection_ok (selectedId c) (points c).

(** A run of actions, each one from the editor in the state it meets. *)
Fixpoint editor_run (c : Controller) (actions : list Action) : Prop :=
  match actions with
  | [] => True
  | a :: rest => from_the_editor c a /\ editor_run (act c a) rest
  end.

(** ** RampEditor and the inspector of a ramp panel *)

(** The rectangle [svg.getBoundingClientRect()] returns. *)
Record DOMRect := mkDOMRect
  { rect_left : Q; rect_top : Q; rect_width : Q; rect_height : Q }.

(** [getRelativePosition(clientX, clientY)]; [svg] is [svgRef.current]. *)
Definition getRelativePosition (svg : option DOMRect) (clientX clientY : Q)
  : option (Q * Q) :=
  match svg with
  | None => None
  | Some rect =>
      let x0 := clamp ((clientX - rect_left rect) / rect_width rect) 0 1 in
      let y0 := clamp ((clientY - rect_top rect) / rect_height rect) 0 1 in
      Some (x0, 1 - y0)
  end.

(** The division of [getRelativePosition] is one of finite numbers only for an
    element that is laid out. *)
Definition laid_out (svg : option DOMRect) : Prop :=
  match svg with
  | Some rect => 0 < rect_width rect /\ 0 < rect_height rect
  | None => True
  end.

Definition KEY_STEP : Q := 1 # 100.
Definition KEY_STEP_FINE : Q := 25 # 10000.

Inductive Key :=
| ArrowLeft | ArrowRight | ArrowUp | ArrowDown | Backspace | Delete | OtherKey.

(** The state of the editor that its handlers read and write. *)
Record Editor := mkEditor { draggingId : option string }.

(** [sortedPoints.find((point) => point.id === selectedId)] *)
Fixpoint find_id (id0 : option string) (l : list RampPoint) : option RampPoint :=
  match l with
  | [] => None
  | point :: rest =>
      match id0 with
      | Some v => if String.eqb (id point) v then Some point else find_id id0 rest
      | None => None
      end
  end.

Definition patch_x (v : Q) : Partial := mkPartial None (Some v) None None.
Definition patch_y (v : Q) : Partial := mkPartial None None (Some v) None.
Definition patch_xy (v w : Q) : Partial := mkPartial None (Some v) (Some w) None.

(** [handlePointerMove], installed while [draggingId] is truthy. *)
Definition handlePointerMove (svg : option DOMRect) (ed : Editor)
    (clientX clientY : Q) : list Action :=
  match draggingId ed with
  | None => []
  | Some id0 =>
      if String.eqb id0 EmptyString then []
      else match getRelativePosition svg clientX clientY with
           | None => []
           | Some (x0, y0) => [UpdatePoint id0 (patch_xy x0 y0)]
           end
  end.

(** [handlePointerDown(event, point.id)] on a handle drawn from
    [sortedPoints]: the handle is given by its place there. *)
Definition handlePointerDown (ed : Editor) (c : Controller) (index : nat)
  : Editor * list Action :=
  match nth_error (sort_points (points c)) index with
  | Some point => (mkEditor (Some (id point)), [Select (Some (id point))])
  | None => (ed, [])   (* no such handle: no event *)
  end.

(** [handleSvgDoubleClick] *)
Definition handleSvgDoubleClick (svg : option DOMRect) (clientX clientY : Q)
  : list Action :=
  match getRelativePosition svg clientX clientY with
  | None => []
  | Some (x0, y0) =>
      if Qltb x0 (2 # 100) || Qltb (98 # 100) x0 then [] else [AddPoint x0 y0]
  end.

(** [handleBackgroundPointerDown] *)
Definition handleBackgroundPointerDown (on_handle : bool) : list Action :=
  if on_handle then [] else [Select None].

(** [handleKeyDown] *)
Definition handleKeyDown (c : Controller) (key : Key) (shiftKey : bool)
  : list Action :=
  match find_id (selectedId c) (sort_points (points c)) with
  | None => []
  | Some selectedPoint =>
      let step := if shiftKey then KEY_STEP_FINE else KEY_STEP in
      match key with
      | ArrowLeft =>
          [UpdatePoint (id selectedPoint) (patch_x (x selectedPoint - step))]
      | ArrowRight =>
          [UpdatePoint (id selectedPoint) (patch_x (x selectedPoint + step))]
      | ArrowUp =>
          [UpdatePoint (id selectedPoint) (patch_y (y selectedPoint + step))]
      | ArrowDown =>
          [UpdatePoint (id selectedPoint) (patch_y (y selectedPoint - step))]
      | Backspace | Delete =>
          if is_locked selectedPoint then []
          else [RemovePoint (id selectedPoint)]
      | OtherKey => []
      end
  end.

(** What the user does on one ramp panel. *)
Inductive Event :=
| HandlePointerDown (index : nat)
| BackgroundPointerDown (on_handle : bool)
| PointerMove (clientX clientY : Q)
| PointerUp
| DoubleClick (clientX clientY : Q)
| KeyDown (key : Key) (shiftKey : bool)
| SlideX (value : Q)      (* the range inputs of the inspector *)
| SlideY (value : Q)
| TypeX (value : Q)       (* its number fields, for a value that is a number *)
| TypeY (value : Q)
| PressRemove
| ChoosePreset (key : option PresetKey)
| OtherPanel.             (* the other panel creates a point *)

(** The inspector acts on [selectedPoint] of the controller, when there is
    one. *)
Definition inspector (c : Controller) (make : RampPoint -> list Action)
  : list Action :=
  match find_id (selectedId c) (points c) with
  | Some selectedPoint => make selectedPoint
  | None => []
  end.

(** The handler of an event: the next state of the editor and the calls made
    on the controller. *)
Definition handle (svg : option DOMRect) (ed : Editor) (c : Controller)
    (e : Event) : Editor * list Action :=
  match e with
  | HandlePointerDown index => handlePointerDown ed c index
  | BackgroundPointerDown on_handle => (ed, handleBackgroundPointerDown on_handle)
  | PointerMove clientX clientY => (ed, handlePointerMove svg ed clientX clientY)
  | PointerUp => (mkEditor None, [])
  | DoubleClick clientX clientY => (ed, handleSvgDoubleClick svg clientX clientY)
  | KeyDown key shiftKey => (ed, handleKeyDown c key shiftKey)
  | SlideX value =>
      (ed, inspector c (fun p => [UpdatePoint (id p) (patch_x value)]))
  | SlideY value =>
      (ed, inspector c (fun p => [UpdatePoint (id p) (patch_y (1 - value))]))
  | TypeX value =>
      (ed, inspector c (fun p => [UpdatePoint (id p) (patch_x value)]))
  | TypeY value =>
      (ed, inspector c (fun p => [UpdatePoint (id p) (patch_y value)]))
  | PressRemove =>
      (ed, inspector c (fun p =>
             if is_locked p then [] else [RemovePoint (id p)]))
  | ChoosePreset (Some key) => (ed, [ApplyPreset key])
  | ChoosePreset None => (ed, [])
  | OtherPanel => (ed, [Elsewhere])
  end.

(** One event on a panel: the handler runs, the controller takes its calls. *)
Definition gesture (s : Editor * Controller) (e : option DOMRect * Event)
  : Editor * Controller :=
  let '(ed, actions) := handle (fst e) (fst s) (snd s) (snd e) in
  (ed, fold_left act actions (snd s)).

(** A session: events, each with the rectangle of the canvas at its time. *)
Definition session (s : Editor * Controller)
    (events : list (option DOMRect * Event)) : Editor * Controller :=
  fold_left gesture events s.

Definition le_by_x (a b : RampPoint) : Prop := x a <= x b.

(** ** useMediaStream *)

Inductive MediaStatus := inactive | pending | active | error.

(** A [MediaStream] is known by the order in which [getUserMedia] handed it
    out; with [audio: false] it has one track, the video track. *)
Record MediaState := mkMediaState
  { status : MediaStatus; stream : option nat; errorMessage : option string }.

Definition defaultState : MediaState := mkMediaState inactive None None.

(** The hook and what it acts on: its state, [lastStreamRef.current], the
    streams whose track is running, the calls of [getUserMedia] that have not
    settled, and the number of streams handed out. *)
Record Hook := mkHook
  { mediaState : MediaState;
    lastStreamRef : option nat;
    running : list nat;
    requested : nat;
    granted : nat }.

Definition initialHook : Hook := mkHook defaultState None [] 0 0.

(** [stream?.getTracks().forEach((track) => track.stop())] *)
Definition stop_tracks (s : option nat) (l : list nat) : list nat :=
  match s with
  | Some v => remove Nat.eq_dec v l
  | None => l
  end.

Definition same_stream (a : option nat) (s : nat) : bool :=
  match a with Some v => Nat.eqb v s | None => false end.

Definition unsupported_message : string :=
  "Webcam access is not supported in this browser.".

Definition default_message : string := "Could not access the webcam.".

(** [error instanceof DOMException ? error.message || default : default];
    [Some m] is a [DOMException] with message [m]. *)
Definition refusal_message (thrown : option string) : string :=
  match thrown with
  | Some EmptyString => default_message
  | Some m => m
  | None => default_message
  end.

Inductive MediaEvent :=
| RequestStream (supported : bool)   (* [requestStream()], up to its [await] *)
| Granted                            (* [getUserMedia] resolves with a new stream *)
| Refused (thrown : option string)   (* [getUserMedia] rejects *)
| StopStream                         (* [stopStream()], also the clean-up on unmount *)
| TrackEnded (s : nat).              (* the track of stream [s] ends by itself *)

Definition media_step (h : Hook) (e : MediaEvent) : Hook :=
  match e with
  | RequestStream false =>
      mkHook (mkMediaState error None (Some unsupported_message))
        (lastStreamRef h) (running h) (requested h) (granted h)
  | RequestStream true =>
      mkHook (mkMediaState pending None None)
        (lastStreamRef h) (running h) (S (requested h)) (granted h)
  | Granted =>
      match requested h with
      | O => h
      | S others =>
          let s := granted h in
          mkHook (mkMediaState active (Some s) None)
            (Some s) (s :: running h) others (S (granted h))
      end
  | Refused thrown =>
      match requested h with
      | O => h
      | S others =>
          mkHook (mkMediaState error None (Some (refusal_message thrown)))
            (lastStreamRef h) (running h) others (granted h)
      end
  | StopStream =>
      mkHook defaultState None
        (stop_tracks (lastStreamRef h)
           (stop_tracks (stream (mediaState h)) (running h)))
        (requested h) (granted h)
  | TrackEnded s =>
      if existsb (Nat.eqb s) (running h)
      then
        (* [handleTrackEnded] listens on the stream of the state only *)
        if same_stream (stream (mediaState h)) s
        then mkHook defaultState None (remove Nat.eq_dec s (running h))
               (requested h) (granted h)
        else mkHook (mediaState h) (lastStreamRef h)
               (remove Nat.eq_dec s (running h)) (requested h) (granted h)
      else h
  end.

(** What the hook keeps true whatever happens. *)
Definition media_ok (h : Hook) : Prop :=
  (status (mediaState h) = active <-> stream (mediaState h) <> None) /\
  (status (mediaState h) = error <-> errorMessage (mediaState h) <> None) /\
  (forall s, stream (mediaState h) = Some s ->
             lastStreamRef h = Some s /\ In s (running h)) /\
  Forall (fun s => (s < granted h)%nat) (running h).

(** The camera panel of the app: "Enable webcam" shows while the status is
    [inactive], "Disable" while it is [active]. *)
Definition panel_allows (h : Hook) (e : MediaEvent) : Prop :=
  match e with
  | RequestStream _ => status (mediaState h) = inactive
  | StopStream => status (mediaState h) = active
  | _ => True
  end.

Fixpoint panel_run (h : Hook) (events : list MediaEvent) : Prop :=
  match events with
  | [] => True
  | e :: rest => panel_allows h e /\ panel_run (media_step h e) rest
  end.

(** The streams of the state, as a list. *)
Definition shown (h : Hook) : list nat :=
  match stream (mediaState h) with Some s => [s] | None => [] end.

(** What holds of a hook driven by the panel. *)
Definition panel_ok (h : Hook) : Prop :=
  running h = shown h /\
  lastStreamRef h = stream (mediaState h) /\
  (status (mediaState h) = active <-> stream (mediaState h) <> None) /\
  requested h = (match status (mediaState h) with pending => 1 | _ => 0 end)%nat.

(** A stream the hook has let go of: its track runs, and neither the state
    nor [lastStreamRef] holds it. *)
Definition abandoned (s : nat) (h : Hook) : Prop :=
  In s (running h) /\
  stream (mediaState h) <> Some s /\
  lastStreamRef h <> Some s /\
  (s < granted h)%nat.

(** ** DisplacementPreview: the size of the drawing surface *)

Record Viewport := mkViewport { view_x : Z; view_y : Z; view_width : Z; view_height : Z }.

(** [resize()]: the drawing buffer follows the CSS size of the canvas (whole
    pixels) times the device pixel ratio, and the viewport follows the
    buffer.  Both arguments of [Math.max] are whole numbers. *)
Definition resize (clientWidth clientHeight : Z) (devicePixelRatio : Q)
    (canvas : Canvas) : Canvas * Viewport :=
  let ratio := or_else devicePixelRatio 1 in
  let width0 := Z.max 1 (Math_floor (inject_Z clientWidth * ratio)) in
  let height0 := Z.max 1 (Math_floor (inject_Z clientHeight * ratio)) in
  let canvas' :=
    if negb (Z.eqb (width canvas) width0) || negb (Z.eqb (height canvas) height0)
    then mkCanvas width0 height0
    else canvas in
  (canvas', mkViewport 0 0 (width canvas') (height canvas')).

(** ** DisplacementPreview: the webcam feed and the overlay *)

(** The refs and the state the video effects write; [videoRef] says whether
    the element exists, [listening] whether [handleLoaded] and [handleError]
    are installed on it. *)
Record Feed := mkFeed
  { useVideo : bool;        (* [useVideoRef.current] *)
    videoReadyRef : bool;
    videoReady : bool;
    videoRef : bool;
    srcObject : option nat;
    listening : bool }.

Definition no_feed : Feed := mkFeed false false false false None false.

Definition handleLoaded (f : Feed) : Feed :=
  mkFeed true true true (videoRef f) (srcObject f) (listening f).

Definition handleError (f : Feed) : Feed :=
  mkFeed false false false (videoRef f) (srcObject f) (listening f).

(** The effect on [videoStream]; [glState] says whether [glStateRef.current]
    is set. *)
Definition stream_effect (glState : bool) (videoStream : option nat) (f : Feed)
  : Feed :=
  if glState then
    match videoStream with
    | None =>
        mkFeed false false false (videoRef f)
          (if videoRef f then None else srcObject f) (listening f)
    | Some s => mkFeed (useVideo f) false false true (Some s) true
    end
  else f.

(** Its clean-up, when one was returned: the listeners are removed. *)
Definition stream_cleanup (f : Feed) : Feed :=
  mkFeed (useVideo f) (videoReadyRef f) (videoReady f) (videoRef f)
    (srcObject f) false.

Definition is_active (st : MediaStatus) : bool :=
  match st with active => true | _ => false end.

(** The effect on [status]. *)
Definition status_effect (st : MediaStatus) (f : Feed) : Feed :=
  if is_active st then f else handleError f.

Definition same_status (a b : MediaStatus) : bool :=
  match a, b with
  | inactive, inactive | pending, pending | active, active | error, error => true
  | _, _ => false
  end.

Definition same_streams (a b : option nat) : bool :=
  match a, b with
  | Some v, Some w => Nat.eqb v w
  | None, None => true
  | _, _ => false
  end.

(** A render with new props: the effects whose dependency changed run, in the
    order they are declared, each after the clean-up of its last run. *)
Definition receive (glState : bool) (old new : MediaState) (f : Feed) : Feed :=
  let f1 :=
    if same_streams (stream old) (stream new) then f
    else stream_effect glState (stream new) (stream_cleanup f) in
  if same_status (status old) (status new) then f1
  else status_effect (status new) f1.

(** The first render. *)
Definition mount_feed (glState : bool) (props : MediaState) : Feed :=
  status_effect (status props) (stream_effect glState (stream props) no_feed).

(** The hook and the preview it feeds. *)
Inductive FeedEvent :=
| Media (e : MediaEvent)
| Loaded            (* [loadeddata] on the video element *)
| VideoError        (* [error] on the video element *)
| PlayRejected.     (* the promise of [video.play()] rejects *)

Definition feed_step (glState : bool) (s : Hook * Feed) (ev : FeedEvent)
  : Hook * Feed :=
  let '(h, f) := s in
  match ev with
  | Media e =>
      (media_step h e,
       receive glState (mediaState h) (mediaState (media_step h e)) f)
  | Loaded => (h, if listening f then handleLoaded f else f)
  | VideoError => (h, if listening f then handleError f else f)
  | PlayRejected => (h, if videoRef f then handleError f else f)
  end.

Definition feed_start (glState : bool) : Hook * Feed :=
  (initialHook, mount_feed glState (mediaState initialHook)).

(** A string as a condition: the empty string is falsy. *)
Definition truthy (s : option string) : bool :=
  match s with
  | Some (String _ _) => true
  | _ => false
  end.

(** The four texts of the overlay. *)
Inductive OverlayMessage :=
| EnableYourWebcam | WaitingForPermission | UnableToAccessWebcam
| PreparingWebcamFeed.

Definition shouldShowOverlay (glError : option string) (st : MediaStatus)
    (ready : bool) : bool :=
  negb (truthy glError) && (negb (is_active st) || negb ready).

Definition overlayMessage (glError : option string) (st : MediaStatus)
    (ready : bool) : option OverlayMessage :=
  if shouldShowOverlay glError st ready
  then match st with
       | inactive => Some EnableYourWebcam
       | pending => Some WaitingForPermission
       | error => Some UnableToAccessWebcam
       | active => if negb ready then Some PreparingWebcamFeed else None
       end
  else None.

(** What holds between the hook and the feed. *)
Definition feed_ok (s : Hook * Feed) : Prop :=
  media_ok (fst s) /\
  (listening (snd s) = true -> stream (mediaState (fst s)) <> None) /\
  (useVideo (snd s) = true -> status (mediaState (fst s)) = active) /\
  (videoReady (snd s) = true -> useVideo (snd s) = true) /\
  videoReadyRef (snd s) = videoReady (snd s).

(** ** DisplacementPreview: the objects of the WebGL context *)

Inductive GLObject :=
| VertexShader | FragmentShader | ShaderProgram | PositionBuffer
| BaseTexture | RampTextureX | RampTextureY.

Definition GLObject_eqb (a b : GLObject) : bool :=
  match a, b with
  | VertexShader, VertexShader | FragmentShader, FragmentShader
  | ShaderProgram, ShaderProgram | PositionBuffer, PositionBuffer
  | BaseTexture, BaseTexture | RampTextureX, RampTextureX
  | RampTextureY, RampTextureY => true
  | _, _ => false
  end.

(** What the browser and the driver answer: whether [getContext] and the
    [create...] calls return an object, and how compiling and linking end. *)
Record Driver := mkDriver
  { getContext : bool;
    creates : GLObject -> bool;
    COMPILE_STATUS : GLObject -> bool;
    ShaderInfoLog : GLObject -> option string;
    LINK_STATUS : bool;
    ProgramInfoLog : option string }.

(** The context and the component around the initialisation effect: the
    objects created and not deleted, [glStateRef.current] being set, a
    scheduled [render], the observer of the canvas, the two states, and the
    clean-up the effect returned. *)
Record GLWorld := mkGLWorld
  { live : list GLObject;
    stateSet : bool;              (* [glStateRef.current] is set *)
    scheduled : bool;
    observing : bool;
    glError_state : option string;
    isReady : bool;
    cleanup_returned : bool }.

Definition fresh_world : GLWorld := mkGLWorld [] false false false None false false.

Definition with_live (w : GLWorld) (l : list GLObject) : GLWorld :=
  mkGLWorld l (stateSet w) (scheduled w) (observing w) (glError_state w)
    (isReady w) (cleanup_returned w).

(** [gl.deleteShader], [gl.deleteProgram], [gl.deleteBuffer],
    [gl.deleteTexture] *)
Definition delete (o : GLObject) (w : GLWorld) : GLWorld :=
  with_live w (filter (fun a => negb (GLObject_eqb a o)) (live w)).

(** A computation that returns or throws an [Error] with a message. *)
Definition Try (A : Type) : Type := GLWorld -> (A + string) * GLWorld.

Definition ret {A} (a : A) : Try A := fun w => (inl a, w).
Definition throw {A} (message : string) : Try A := fun w => (inr message, w).
Definition and_then {A B} (m : Try A) (k : A -> Try B) : Try B :=
  fun w =>
    match m w with
    | (inl a, w') => k a w'
    | (inr message, w') => (inr message, w')
    end.

(** [const o = gl.create...(); if (!o) throw new Error(failure)] *)
Definition create (d : Driver) (o : GLObject) (failure : string) : Try unit :=
  fun w =>
    if creates d o then (inl tt, with_live w (o :: live w))
    else (inr failure, w).

Definition or_default (log : option string) (default : string) : string :=
  match log with Some info => info | None => default end.

(** [createShader] *)
Definition createShader (d : Driver) (o : GLObject) : Try unit :=
  and_then (create d o "Failed to create shader") (fun _ =>
  if COMPILE_STATUS d o then ret tt
  else fun w =>
         throw (or_default (ShaderInfoLog d o) "Unknown compile error")
           (delete o w)).

(** [createProgram] *)
Definition createProgram (d : Driver) : Try unit :=
  and_then (create d ShaderProgram "Failed to create program") (fun _ =>
  if LINK_STATUS d then ret tt
  else fun w =>
         throw (or_default (ProgramInfoLog d) "Unknown program link error")
           (delete ShaderProgram w)).

(** The [try] block of the initialisation effect, up to the assignment of
    [glStateRef.current]. *)
Definition init_objects (d : Driver) : Try unit :=
  and_then (createShader d VertexShader) (fun _ =>
  and_then (createShader d FragmentShader) (fun _ =>
  and_then (createProgram d) (fun _ =>
  and_then (create d PositionBuffer "Unable to allocate buffer") (fun _ =>
  and_then (create d BaseTexture "Failed to create base texture") (fun _ =>
  and_then (create d RampTextureX "Failed to create ramp texture") (fun _ =>
  create d RampTextureY "Failed to create ramp texture")))))).

(** The initialisation effect, for a canvas that is there. *)
Definition init_effect (d : Driver) (w : GLWorld) : GLWorld :=
  if stateSet w then
    mkGLWorld (live w) (stateSet w) (scheduled w) (observing w)
      (glError_state w) (isReady w) false
  else if getContext d then
    match init_objects d w with
    | (inl _, w') =>
        mkGLWorld (live w') true true true (glError_state w') true true
    | (inr message, w') =>
        mkGLWorld (live w') (stateSet w') (scheduled w') false
          (Some message) (isReady w') true
    end
  else
    mkGLWorld (live w) (stateSet w) (scheduled w) (observing w)
      (Some "WebGL2 not supported by this browser or device."%string)
      (isReady w) false.

(** The clean-up of the effect, run on unmount when the effect returned it. *)
Definition init_cleanup (w : GLWorld) : GLWorld :=
  if cleanup_returned w then
    let released :=
      if stateSet w
      then delete FragmentShader (delete VertexShader (delete ShaderProgram
             (delete PositionBuffer (delete BaseTexture (delete RampTextureY
                (delete RampTextureX w))))))
      else w in
    mkGLWorld (live released) false false false (glError_state w) false false
  else w.

Definition all_objects : list GLObject :=
  [VertexShader; FragmentShader; ShaderProgram; PositionBuffer; BaseTexture;
   RampTextureX; RampTextureY].

(** ** DisplacementPreview: the base texture, [createBaseTexture] *)

(** [clamp] on whole numbers. *)
Definition clamp_int (value min max : Z) : Z := Z.min (Z.max value min) max.

(** [(y * size + x) * 4] *)
Definition texel_offset (size x0 y0 : nat) : nat := ((y0 * size + x0) * 4)%nat.

Section BaseTexture.

(** [Math.sin] and [Math.PI] are left open; of the sine only its range is
    used. *)
Variable Math_sin : Q -> Q.
Variable Math_PI : Q.

(** [((Math.floor(x / 12) + Math.floor(y / 12)) % 2) === 0 ? 1 : 0] *)
Definition stripe (x0 y0 : nat) : Q :=
  if Z.eqb ((Math_floor (inject_Z (Z.of_nat x0) / 12)
             + Math_floor (inject_Z (Z.of_nat y0) / 12)) mod 2) 0
  then 1 else 0.

Definition gradient (size x0 : nat) : Q :=
  inject_Z (Z.of_nat x0) / inject_Z (Z.of_nat size).

Definition wave (size x0 y0 : nat) : Q :=
  Math_sin (inject_Z (Z.of_nat y0) / inject_Z (Z.of_nat size) * Math_PI * 2
            + gradient size x0 * Math_PI) * (1 # 2) + (1 # 2).

Definition red (size x0 y0 : nat) : Z :=
  Math_round (180 + 50 * gradient size x0 + 25 * wave size x0 y0).

Definition green (size x0 y0 : nat) : Z :=
  Math_round (160 + 30 * wave size x0 y0 + 45 * stripe x0 y0).

Definition blue (size x0 y0 : nat) : Z :=
  Math_round (200 + 35 * gradient size x0 + 30 * (1 - stripe x0 y0)).

(** The body of the inner loop: the four stores of one texel. *)
Definition write_texel (size : nat) (data : list Z) (x0 y0 : nat) : list Z :=
  let offset := texel_offset size x0 y0 in
  let data := store data offset (clamp_int (red size x0 y0) 0 255) in
  let data := store data (offset + 1) (clamp_int (green size x0 y0) 0 255) in
  let data := store data (offset + 2) (clamp_int (blue size x0 y0) 0 255) in
  store data (offset + 3) 255.

(** The four bytes a texel stores. *)
Definition channels (size x0 y0 : nat) : list Z :=
  [clamp_int (red size x0 y0) 0 255; clamp_int (green size x0 y0) 0 255;
   clamp_int (blue size x0 y0) 0 255; 255%Z].

(** [for (let y = 0; y < size; y += 1) for (let x = 0; x < size; x += 1)] *)
Definition fill_texture (size : nat) (data : list Z) : list Z :=
  fold_left
    (fun data y0 =>
       fold_left (fun data x0 => write_texel size data x0 y0) (seq 0 size) data)
    (seq 0 size) data.

(** The [data] of [createBaseTexture], for [size = 256]. *)
Definition base_texture_data : list Z :=
  fill_texture 256 (new_Uint8Array (256 * 256 * 4)).

End BaseTexture.

(** The texels in the order the loops visit them. *)
Definition texels (size : nat) : list (nat * nat) :=
  flat_map (fun y0 => map (fun x0 => (x0, y0)) (seq 0 size)) (seq 0 size).

(** ** Binary64: the numbers of the capture and of the sampler as doubles *)

Module B64.

Local Open Scope float_scope.

(** The sign bit of a number (of [-0] too). *)
Definition negative (x : float) : bool :=
  match Prim2SF x with
  | S754_zero s | S754_infinity s | S754_finite s _ _ => s
  | S754_nan => false
  end.

(** The place of a double on the line of doubles: its value scaled by
    [2^1074], an integer; the infinities beyond all of them.  Doubles that
    are no [NaN] compare as these integers do. *)
Definition SFord (x : spec_float) : Z :=
  match x with
  | S754_zero _ => 0
  | S754_finite s m e => cond_Zopp s (Z.pos m * 2 ^ (e + 1074))
  | S754_infinity s => cond_Zopp s (2 ^ 2100)
  | S754_nan => 0
  end.

Definition ord (x : float) : Z := SFord (Prim2SF x).

(** [Math.max] and [Math.min]: [NaN] as soon as an argument is [NaN], and
    [-0] below [+0]. *)
Definition Math_max (a b : float) : float :=
  if is_nan a || is_nan b then nan
  else if a <? b then b
  else if b <? a then a
  else if negative a then b else a.

Definition Math_min (a b : float) : float :=
  if is_nan a || is_nan b then nan
  else if a <? b then a
  else if b <? a then b
  else if negative a then a else b.

(** [const clamp = (value, min = 0, max = 1) => Math.min(Math.max(value, min), max)] *)
Definition clamp (value min max : float) : float :=
  Math_min (Math_max value min) max.

(** The double of an integer; exact below [2^53] in absolute value. *)
Definition of_int (z : Z) : float :=
  if (z <? 0)%Z then - of_uint63 (Uint63.of_Z (- z))
  else of_uint63 (Uint63.of_Z z).

(** The integer nearest to [(-1)^s * m * 2^e], a tie going up:
    [floor(x + 1/2)], computed exactly. *)
Definition nearest (s : bool) (m : positive) (e : Z) : Z :=
  let n := cond_Zopp s (Zpos m) in
  if (0 <=? e)%Z then n * 2 ^ e
  else Z.shiftr (2 * n + 2 ^ (- e)) (1 - e).

(** [Math.round]: [NaN], the infinities, the zeros and the doubles that are
    whole already are returned as they are; a result of zero keeps the sign
    of the argument. *)
Definition Math_round (x : float) : float :=
  match Prim2SF x with
  | S754_finite s m e =>
      if (0 <=? e)%Z then x
      else if (nearest s m e =? 0)%Z then (if s then neg_zero else zero)
      else of_int (nearest s m e)
  | _ => x
  end.

(** The exact value of [Math.round] on a finite number. *)
Definition nearest_integer (x : float) : option Z :=
  match Prim2SF x with
  | S754_zero _ => Some 0%Z
  | S754_finite s m e => Some (nearest s m e)
  | _ => None
  end.

Definition Number_isFinite (x : float) : bool := is_finite x.

(** A number that is neither [NaN] nor infinite, read on its bits. *)
Definition limited (x : float) : bool :=
  match Prim2SF x with
  | S754_zero _ | S754_finite _ _ _ => true
  | _ => false
  end.

(** The integer part of a number, towards zero; 0 for [NaN] and the
    infinities.  [ToUint8] is what a [Uint8Array] keeps of a number. *)
Definition truncate (x : float) : Z :=
  match Prim2SF x with
  | S754_finite s m e =>
      cond_Zopp s (if (0 <=? e)%Z then Z.pos m * 2 ^ e
                   else Z.shiftr (Z.pos m) (- e))
  | _ => 0%Z
  end.

Definition ToUint8 (x : float) : Z := (truncate x mod 256)%Z.

(** [a || b] on numbers: [b] when [a] is [0], [-0] or [NaN]. *)
Definition or_else (a b : float) : float :=
  if is_nan a || is_zero a then b else a.

(** The value of a counter after [n] increments [captured += 1]. *)
Fixpoint count (n : nat) : float :=
  match n with
  | O => 0
  | S k => count k + 1
  end.

(** *** [generateRampTextureData] *)

Record RampPoint := mkRampPoint
  { id : string; x : float; y : float; locked : option bool }.

(** The [{x, y}] objects the sampler works on. *)
Definition xy : Type := (float * float)%type.
Definition xof (p : xy) : float := fst p.
Definition yof (p : xy) : float := snd p.

(** [.sort((a, b) => a.x - b.x)]: [Array.prototype.sort] is stable, and [a]
    goes after [b] when the comparator is positive on [(a, b)]; so the
    result is the one of a stable insertion sort on the sign of
    [a.x - b.x]. *)
Fixpoint insert (a : xy) (l : list xy) : list xy :=
  match l with
  | [] => [a]
  | b :: l' => if 0 <? xof a - xof b then b :: insert a l' else a :: b :: l'
  end.

Fixpoint sort_by_x (l : list xy) : list xy :=
  match l with
  | [] => []
  | a :: l' => insert a (sort_by_x l')
  end.

(** The [{x, y}] objects after clamping, in input order. *)
Definition clamped (points : list RampPoint) : list xy :=
  map (fun p => (clamp (x p) 0 1, clamp (y p) 0 1)) points.

(** [[...points].map(({x, y}) => ({x: clamp(x), y: clamp(y)})).sort(...)] *)
Definition sorted_points (points : list RampPoint) : list xy :=
  sort_by_x (clamped points).

(** The flat extension to [x = 0] and [x = 1]. *)
Definition normalize (sorted : list xy) : option (list xy) :=
  first <- nth_error sorted 0 ;;
  last <- nth_error sorted (length sorted - 1) ;;
  let normalized :=
    if 0 <? xof first then (0, yof first) :: sorted else sorted in
  let normalized :=
    if xof last <? 1 then normalized ++ [(1, yof last)] else normalized in
  Some normalized.

(** [while (segment < normalized.length - 2 && t > normalized[segment + 1].x)
      segment += 1;] *)
Fixpoint advance (fuel : nat) (normalized : list xy) (t : float) (segment : nat)
  : nat :=
  match fuel with
  | O => segment
  | S fuel' =>
      if (Z.of_nat segment <? Z.of_nat (length normalized) - 2)%Z
         && match nth_error normalized (segment + 1) with
            | Some p => xof p <? t
            | None => false
            end
      then advance fuel' normalized t (S segment)
      else segment
  end.

(** [index / (size - 1)], [index] and [size] being counters. *)
Definition sample_t (size index : nat) : float :=
  count index / (count size - 1).

(** The interpolation of one sample between [left] and [right]. *)
Definition sample_value (left right : xy) (t : float) : float :=
  let span := or_else (xof right - xof left) 1 in
  let ratio := clamp ((t - xof left) / span) 0 1 in
  let value := clamp (yof left + (yof right - yof left) * ratio) 0 1 in
  Math_round (value * 255).

(** One iteration of the [for] loop: the new cursor and the updated array;
    the store keeps [ToUint8] of the number. *)
Definition sample_step (normalized : list xy) (size : nat)
    (st : nat * list Z) (index : nat) : option (nat * list Z) :=
  let '(segment, samples) := st in
  let t := sample_t size index in
  let segment := advance (length normalized) normalized t segment in
  left <- nth_error normalized segment ;;
  right <- nullish (nth_error normalized (segment + 1))
                   (nth_error normalized segment) ;;
  Some (segment, store samples index (truncate (sample_value left right t))).

Fixpoint sample_loop (normalized : list xy) (size : nat)
    (st : nat * list Z) (indices : list nat) : option (nat * list Z) :=
  match indices with
  | [] => Some st
  | index :: rest =>
      st' <- sample_step normalized size st index ;;
      sample_loop normalized size st' rest
  end.

Definition generateRampTextureData (points : list RampPoint) (size : nat)
  : option (list Z) :=
  match points with
  | [] => Some (map JS.ToUint8 (repeat 127%Z size))
  | _ :: _ =>
      normalized <- normalize (sorted_points points) ;;
      st <- sample_loop normalized size (O, new_Uint8Array size) (seq 0 size) ;;
      Some (snd st)
  end.

(** A control point at [(a, b)], unlocked. *)
Definition pt (a b : float) : RampPoint := mkRampPoint "p" a b None.

(** *** The specification's reading of one LUT entry

    Written from the words of the specification, to be compared with
    [sample_value]: the horizontal ratio inside the segment, clamped to
    [0,1], with a zero-width segment giving ratio 0; the interpolated height
    scaled to a byte, rounded to the nearest integer and clamped to
    [0,255]. *)
Definition spec_ratio (left right : xy) (t : float) : float :=
  if xof left =? xof right then 0
  else clamp ((t - xof left) / (xof right - xof left)) 0 1.

Definition spec_entry (left right : xy) (t : float) : Z :=
  ToUint8
    (clamp
       (Math_round
          ((yof left + (yof right - yof left) * spec_ratio left right t) * 255))
       0 255).

(** The cursor of the sampler after the first [n] indices. *)
Definition cursor_after (normalized : list xy) (size n : nat) : nat :=
  fold_left
    (fun segment index =>
       advance (length normalized) normalized (sample_t size index) segment)
    (seq 0 n) O.

Definition origin : xy := (0, 0).

(** [normalized[k].x] *)
Definition xat (normalized : list xy) (k : nat) : float :=
  xof (nth k normalized origin).

Definition le_x (a b : xy) : Prop := (xof a <=? xof b) = true.

(** Both coordinates lie in [0,1]. *)
Definition in_unit (p : xy) : Prop :=
  ((0 <=? xof p) = true /\ (xof p <=? 1) = true) /\
  ((0 <=? yof p) = true /\ (yof p <=? 1) = true).

(** Both coordinates are numbers. *)
Definition numeric (p : RampPoint) : Prop :=
  is_nan (x p) = false /\ is_nan (y p) = false.

(** The clamped, sorted, flat-extended sequence: sorted by [x], inside the
    unit square, from [x = 0] to [x = 1]. *)
Definition flat_extended (normalized : list xy) : Prop :=
  StronglySorted le_x normalized /\
  Forall in_unit normalized /\
  (xat normalized 0 =? 0) = true /\
  (xat normalized (length normalized - 1) =? 1) = true.

(** [normalized] is [sorted] with, where its first point is right of [x = 0],
    a point at [x = 0] of the same height before it, and where its last point
    is left of [x = 1], a point at [x = 1] of the same height after it. *)
Definition extends (sorted normalized : list xy) : Prop :=
  exists first body last pre post,
    sorted = first :: body /\
    List.last sorted origin = last /\
    normalized = pre ++ sorted ++ post /\
    pre = (if 0 <? xof first then [(0, yof first)] else []) /\
    post = (if xof last <? 1 then [(1, yof last)] else []).

(** Every entry of [lut] is the specification's interpolation in the segment
    where the cursor of the sampler stands: the cursor never moves back, it
    only passes segments that end before [t], and the segment where it stops
    brackets [t]. *)
Definition interpolated_along_cursor (normalized : list xy) (lut : list Z)
  : Prop :=
  forall i, (i < 256)%nat ->
    let t := sample_t 256 i in
    let before := cursor_after normalized 256 i in
    let segment := cursor_after normalized 256 (S i) in
    t = count i / 255 /\
    (before <= segment)%nat /\
    (forall k, (before <= k < segment)%nat ->
               (xat normalized (S k) <? t) = true) /\
    exists left right,
      nth_error normalized segment = Some left /\
      nth_error normalized (S segment) = Some right /\
      ((xof left <=? t) = true /\ (t <=? xof right) = true) /\
      nth_error lut i = Some (spec_entry left right t).

(** Entry [index] of the LUT, read off the cursor the loop has there. *)
Definition entry (normalized : list xy) (size index : nat) : Z :=
  let segment := cursor_after normalized size (S index) in
  ToUint8 (sample_value (nth segment normalized origin)
             (nth (S segment) normalized origin) (sample_t size index)).

(** The sample instants of a LUT of 256 entries: numbers from 0 to 1,
    never decreasing. *)
Definition instant_ok (i : nat) : bool :=
  (0 <=? sample_t 256 i) && (sample_t 256 i <=? 1)
  && ((sample_t 256 i <=? sample_t 256 (S i)) || Nat.eqb i 255).

(** *** [captureGif] *)

Record Canvas := mkCanvas { width : float; height : float }.

Record Options := mkOptions { duration : float; fps : float; scale : float }.

Record Tick := mkTick { now : float; surface : Canvas }.

Record Frame := mkFrame
  { frame_width : float; frame_height : float; frame_delay : float;
    frame_repeat : option float; read_width : float; read_height : float;
    shot_at : float }.

Definition sanitizedDuration (o : Options) : float := Math_max 0.5 (duration o).
Definition sanitizedFps (o : Options) : float :=
  Math_min 60 (Math_max 1 (Math_round (fps o))).
Definition sanitizedScale (o : Options) : float :=
  Math_min 1 (Math_max 0.1 (if Number_isFinite (scale o) then scale o else 1)).
Definition frameIntervalMs (o : Options) : float := 1000 / sanitizedFps o.
Definition frameCount (o : Options) : float :=
  Math_max 1 (Math_round (sanitizedDuration o * sanitizedFps o)).
Definition delayMs (o : Options) : float :=
  Math_max 0 (Math_round (frameIntervalMs o)).

Definition targetWidth (canvas : Canvas) (o : Options) : float :=
  Math_max 1 (Math_round (width canvas * sanitizedScale o)).
Definition targetHeight (canvas : Canvas) (o : Options) : float :=
  Math_max 1 (Math_round (height canvas * sanitizedScale o)).

Record Sampling := mkSampling
  { captured : nat; startTime : float; nextCapture : float;
    frameIndex : nat; frames : list Frame (* oldest first *) }.

Definition sampling_start : Sampling := mkSampling O 0 0 O [].

Definition captureFrame (canvas : Canvas) (o : Options) (tick : Tick)
    (s : Sampling) : Sampling :=
  let frame :=
    mkFrame (targetWidth canvas o) (targetHeight canvas o) (delayMs o)
      (if Nat.eqb (frameIndex s) 0 then Some 0 else None)
      (width canvas) (height canvas) (now tick) in
  mkSampling (captured s) (startTime s) (nextCapture s)
    (S (frameIndex s)) (frames s ++ [frame]).

(** [const step = (now: number) => { ... }]; [a >= b] is [b <= a], false as
    soon as one side is [NaN]. *)
Definition step (canvas : Canvas) (o : Options) (s : Sampling) (tick : Tick)
  : Sampling * Scheduling :=
  if frameCount o <=? count (captured s) then (s, Resolve)
  else
    let s :=
      if Nat.eqb (captured s) 0
      then mkSampling (captured s) (now tick) (now tick) (frameIndex s) (frames s)
      else s in
    let s :=
      if nextCapture s <=? now tick
      then
        let s := captureFrame canvas o tick s in
        mkSampling (S (captured s)) (startTime s)
          (nextCapture s + frameIntervalMs o) (frameIndex s) (frames s)
      else s in
    if (frameCount o <=? count (captured s))
       || (sanitizedDuration o * 1000 + frameIntervalMs o
           <=? now tick - startTime s)
    then (s, Resolve)
    else (s, Reschedule).

Fixpoint sampling_loop (canvas : Canvas) (o : Options) (s : Sampling)
    (ticks : list Tick) : Sampling * bool :=
  match ticks with
  | [] => (s, false)
  | tick :: rest =>
      match step canvas o s tick with
      | (s', Resolve) => (s', true)
      | (s', Reschedule) => sampling_loop canvas o s' rest
      end
  end.

Record Environment := mkEnvironment
  { canvasRef : option Canvas;
    stateRef : bool;
    fullCtx : bool;
    scaledCtx : bool }.

Section CaptureGif.

Variable encoder_bytes : list Frame -> option (list Z).

Definition captureGif (env : Environment) (ticks : list Tick) (o : Options)
  : Outcome :=
  match canvasRef env, stateRef env with
  | Some canvas, true =>
      if negb (fullCtx env) then Rejected "Unable to allocate capture buffer"
      else if negb (scaledCtx env) then Rejected "Unable to allocate scaled buffer"
      else
        match sampling_loop canvas o sampling_start ticks with
        | (s, true) =>
            match encoder_bytes (frames s) with
            | None => Rejected "Generated GIF was empty"
            | Some bytes =>
                if Nat.eqb (length bytes) 0
                then Rejected "Generated GIF was empty"
                else Resolved (mkBlob bytes "image/gif")
            end
        | (_, false) => Pending
        end
  | _, _ => Rejected "Preview not ready"
  end.

End CaptureGif.

Definition prefix (f : nat -> Tick) (n : nat) : list Tick := map f (seq 0 n).

Definition after_ticks (canvas : Canvas) (o : Options) (f : nat -> Tick)
    (n : nat) : Sampling * bool :=
  sampling_loop canvas o sampling_start (prefix f n).

(** The wall-clock bound of the loop, and the time elapsed at tick [k] since
    the first tick. *)
Definition limit (o : Options) : float :=
  sanitizedDuration o * 1000 + frameIntervalMs o.

Definition elapsed (f : nat -> Tick) (k : nat) : float := now (f k) - now (f O).

Definition captured_at (canvas : Canvas) (o : Options) (f : nat -> Tick)
    (k : nat) : nat :=
  captured (fst (after_ticks canvas o f (S k))).

(** The two tests of [step] at tick [k], as the code evaluates them. *)
Definition stop_condition (canvas : Canvas) (o : Options) (f : nat -> Tick)
    (k : nat) : bool :=
  (frameCount o <=? count (captured_at canvas o f k))
  || (limit o <=? elapsed f k).

Definition stops_at (canvas : Canvas) (o : Options) (f : nat -> Tick)
    (k : nat) : Prop :=
  (forall j, (j <= k)%nat -> snd (after_ticks canvas o f j) = false) /\
  snd (after_ticks canvas o f (S k)) = true.

(** The state of a loop that has handled at least one tick and goes on:
    every frame was taken while the count test failed. *)
Definition well (o : Options) (t0 : float) (s : Sampling) : Prop :=
  (1 <= captured s)%nat /\
  startTime s = t0 /\
  frameIndex s = captured s /\
  length (frames s) = captured s /\
  (forall j, (j <= captured s)%nat -> (frameCount o <=? count j) = false).

(** The frames written so far: as many as [frameIndex] counts, all with the
    delay of the call, the first with the repeat marker 0 and no other with
    a marker. *)
Definition frames_marked (o : Options) (s : Sampling) : Prop :=
  frameIndex s = length (frames s) /\
  Forall (fun frame => frame_delay frame = delayMs o) (frames s) /\
  match frames s with
  | [] => True
  | first :: rest =>
      frame_repeat first = Some 0 /\
      Forall (fun frame => frame_repeat frame = None) rest
  end.

(** The delay of a call at [n] frames per second is a whole number of
    milliseconds from 17 to 1000. *)
Definition delay_in_range (n : nat) : bool :=
  let d := Math_max 0 (Math_round (1000 / of_int (Z.of_nat n))) in
  Leibniz.eqb d (of_int (truncate d))
  && (17 <=? truncate d)%Z && (truncate d <=? 1000)%Z.

(** A clock throttled to one tick every [period] milliseconds. *)
Definition throttled (period : float) (canvas : Canvas) (k : nat) : Tick :=
  mkTick (count k * period) canvas.

End B64.

(** The shape of the double [B64.of_int z] of a whole number below 2^53:
    its mantissa is that of [z], shifted to 53 bits. *)
Inductive whole_shape (z : Z) : spec_float -> Prop :=
| whole_zero : z = 0%Z -> whole_shape z (S754_zero false)
| whole_finite s p m :
    z = cond_Zopp s (Z.pos p) ->
    Z.pos m = (Z.pos p * 2 ^ (53 - Z.pos (Pos.size p)))%Z ->
    whole_shape z (S754_finite s m (Z.pos (Pos.size p) - 53)).

(** * Proofs *)

(** ** Numbers *)

Lemma Qle_bool_spec (a b : Q) : BoolSpec (a <= b) (b < a) (Qle_bool a b).
Proof.
  destruct (Qle_bool a b) eqn:E; constructor.
  - now apply Qle_bool_iff.
  - apply Qnot_le_lt. intro H. apply Qle_bool_iff in H. congruence.
Qed.

Lemma Qltb_spec (a b : Q) : BoolSpec (a < b) (b <= a) (Qltb a b).
Proof.
  unfold Qltb. destruct (Qle_bool_spec b a); constructor; assumption.
Qed.

Lemma Math_max_spec (a b : Q) :
  (a <= b /\ Math_max a b = b) \/ (b < a /\ Math_max a b = a).
Proof. unfold Math_max. destruct (Qle_bool_spec a b); auto. Qed.

Lemma Math_min_spec (a b : Q) :
  (a <= b /\ Math_min a b = a) \/ (b < a /\ Math_min a b = b).
Proof. unfold Math_min. destruct (Qle_bool_spec a b); auto. Qed.

#[export] Instance Math_max_proper : Proper (Qeq ==> Qeq ==> Qeq) Math_max.
Proof.
  intros a a' Ha b b' Hb. unfold Math_max.
  rewrite <- (Qleb_comp _ _ Ha _ _ Hb). now destruct (Qle_bool a b).
Qed.

#[export] Instance Math_min_proper : Proper (Qeq ==> Qeq ==> Qeq) Math_min.
Proof.
  intros a a' Ha b b' Hb. unfold Math_min.
  rewrite <- (Qleb_comp _ _ Ha _ _ Hb). now destruct (Qle_bool a b).
Qed.

#[export] Instance clamp_proper : Proper (Qeq ==> Qeq ==> Qeq ==> Qeq) clamp.
Proof. intros a a' Ha b b' Hb c c' Hc. unfold clamp. now rewrite Ha, Hb, Hc. Qed.

#[export] Instance Math_round_proper : Proper (Qeq ==> eq) Math_round.
Proof. intros a a' Ha. unfold Math_round. now rewrite Ha. Qed.

(** [Math.max], [Math.min] and [clamp] are the maximum and minimum of the
    library. *)
Lemma Math_max_Qmax (a b : Q) : Math_max a b == Qmax a b.
Proof.
  destruct (Math_max_spec a b) as [[H ->]|[H ->]];
    destruct (Q.max_spec a b) as [[H' ->]|[H' ->]]; lra.
Qed.

Lemma Math_min_Qmin (a b : Q) : Math_min a b == Qmin a b.
Proof.
  destruct (Math_min_spec a b) as [[H ->]|[H ->]];
    destruct (Q.min_spec a b) as [[H' ->]|[H' ->]]; lra.
Qed.

Lemma clamp_Qminmax (v lo hi : Q) : clamp v lo hi == Qmin (Qmax v lo) hi.
Proof.
  unfold clamp. rewrite Math_min_Qmin. now rewrite Math_max_Qmax.
Qed.

Lemma clamp_range (v lo hi : Q) : lo <= hi -> lo <= clamp v lo hi <= hi.
Proof.
  intros H. unfold clamp.
  destruct (Math_max_spec v lo) as [[? ->]|[? ->]];
    destruct (Math_min_spec lo hi) as [[? E]|[? E]];
    try destruct (Math_min_spec v hi) as [[? ->]|[? ->]];
    try rewrite E; lra.
Qed.

Lemma Qfloor_unique (v : Q) (z : Z) :
  inject_Z z <= v -> v < inject_Z (z + 1) -> Qfloor v = z.
Proof.
  intros Hlo Hhi.
  assert (H1 : (z <= Qfloor v)%Z).
  { rewrite <- (Qfloor_Z z). now apply Qfloor_resp_le. }
  assert (H2 : (Qfloor v < z + 1)%Z).
  { rewrite Zlt_Qlt. eapply Qle_lt_trans; [apply Qfloor_le | exact Hhi]. }
  lia.
Qed.

Lemma Math_round_inject_Z (z : Z) : Math_round (inject_Z z) = z.
Proof.
  unfold Math_round. apply Qfloor_unique.
  - lra.
  - rewrite inject_Z_plus. change (inject_Z 1) with 1. lra.
Qed.

Lemma Math_round_mono (a b : Q) : a <= b -> (Math_round a <= Math_round b)%Z.
Proof. intros H. unfold Math_round. apply Qfloor_resp_le. lra. Qed.

(** ** Typed-array stores *)

Lemma ToUint8_byte (z : Z) : byte (ToUint8 z).
Proof.
  unfold byte, ToUint8. pose proof (Z.mod_pos_bound z 256). lia.
Qed.

Lemma store_length (a : list Z) (i : nat) (v : Z) :
  length (store a i v) = length a.
Proof.
  revert i. induction a as [|e a IH]; intros [|i]; simpl; auto.
Qed.

Lemma store_bytes (a : list Z) (i : nat) (v : Z) :
  Forall byte a -> Forall byte (store a i v).
Proof.
  intros H. revert i. induction H as [|e a He Ha IH]; intros [|i]; simpl;
    constructor; auto using ToUint8_byte.
Qed.

Lemma store_middle (l1 l2 : list Z) (e v : Z) :
  store (l1 ++ e :: l2) (length l1) v = l1 ++ ToUint8 v :: l2.
Proof. induction l1 as [|h l1 IH]; simpl; [reflexivity | now rewrite IH]. Qed.

(** ** The segment cursor *)

Lemma advance_bound fuel normalized t segment :
  (advance fuel normalized t segment <= Nat.max segment (length normalized - 2))%nat.
Proof.
  revert segment. induction fuel as [|fuel IH]; intros segment; simpl.
  - lia.
  - destruct (Z.ltb_spec (Z.of_nat segment) (Z.of_nat (length normalized) - 2));
      simpl; [|lia].
    destruct (nth_error _ _) as [p|]; [|lia].
    destruct (Qltb _ _); [specialize (IH (S segment))|]; lia.
Qed.

Lemma advance_exit fuel normalized t segment :
  (length normalized <= fuel + segment + 2)%nat ->
  (advance fuel normalized t segment + 2 < length normalized)%nat ->
  t <= xat normalized (S (advance fuel normalized t segment)).
Proof.
  revert segment. induction fuel as [|fuel IH]; intros segment Hfuel; simpl.
  - lia.
  - destruct (Z.ltb_spec (Z.of_nat segment) (Z.of_nat (length normalized) - 2));
      simpl; [|lia].
    destruct (nth_error normalized (segment + 1)) as [p|] eqn:E.
    + destruct (Qltb_spec (xof p) t).
      * apply IH. lia.
      * intros _. unfold xat. rewrite Nat.add_1_r in E.
        now rewrite (nth_error_nth _ _ origin E).
    + apply nth_error_None in E. lia.
Qed.

(** The guard of the [while] reads [normalized[segment + 1]] only where it
    exists. *)
Lemma advance_guard_in_range (normalized : list xy) (segment : nat) :
  (Z.of_nat segment < Z.of_nat (length normalized) - 2)%Z ->
  exists p, nth_error normalized (segment + 1) = Some p.
Proof.
  intros H. destruct (nth_error normalized (segment + 1)) as [p|] eqn:E.
  - now exists p.
  - apply nth_error_None in E. lia.
Qed.

(** The loop really leaves: with the fuel the sampler gives it, the guard of
    the [while] is false at the cursor it returns. *)
Lemma advance_leaves normalized t segment :
  ~ advance_guard normalized t
      (advance (length normalized) normalized t segment).
Proof.
  intros [Hlt (p & Hp & Hx)].
  assert (H : t <= xat normalized
                (S (advance (length normalized) normalized t segment))).
  { apply advance_exit; lia. }
  unfold xat in H. rewrite Nat.add_1_r in Hp.
  rewrite (nth_error_nth _ _ origin Hp) in H. lra.
Qed.

Lemma cursor_after_S normalized size n :
  cursor_after normalized size (S n) =
  advance (length normalized) normalized (sample_t size n)
    (cursor_after normalized size n).
Proof.
  unfold cursor_after. rewrite seq_S, fold_left_app. reflexivity.
Qed.

Lemma cursor_after_bound normalized size n :
  (2 <= length normalized)%nat ->
  (cursor_after normalized size n + 2 <= length normalized)%nat.
Proof.
  intros H. induction n as [|n IH].
  - unfold cursor_after. simpl. lia.
  - rewrite cursor_after_S.
    pose proof (advance_bound (length normalized) normalized
                  (sample_t size n) (cursor_after normalized size n)).
    lia.
Qed.

(** ** The sampling loop of the ramp *)

Lemma store_at (l1 l2 : list Z) (e v : Z) (n : nat) :
  length l1 = n -> store (l1 ++ e :: l2) n v = l1 ++ ToUint8 v :: l2.
Proof. intros <-. apply store_middle. Qed.

Lemma sample_loop_app normalized size st l1 l2 :
  sample_loop normalized size st (l1 ++ l2) =
  (st' <- sample_loop normalized size st l1 ;;
   sample_loop normalized size st' l2).
Proof.
  revert st. induction l1 as [|i l1 IH]; intros st; simpl; [reflexivity|].
  destruct (sample_step normalized size st i); simpl; auto.
Qed.

Lemma sample_step_eq normalized size n samples :
  (2 <= length normalized)%nat ->
  sample_step normalized size (cursor_after normalized size n, samples) n =
  Some (cursor_after normalized size (S n),
        store samples n
          (sample_value
             (nth (cursor_after normalized size (S n)) normalized origin)
             (nth (S (cursor_after normalized size (S n))) normalized origin)
             (sample_t size n))).
Proof.
  intros Hlen. unfold sample_step. rewrite <- cursor_after_S.
  pose proof (cursor_after_bound normalized size (S n) Hlen) as Hb.
  set (segment := cursor_after normalized size (S n)) in *.
  rewrite (nth_error_nth' normalized origin) by lia. simpl.
  rewrite Nat.add_1_r.
  rewrite (nth_error_nth' normalized origin) by lia. simpl.
  reflexivity.
Qed.

Lemma sample_loop_seq normalized size n :
  (2 <= length normalized)%nat -> (n <= size)%nat ->
  sample_loop normalized size (O, new_Uint8Array size) (seq 0 n) =
  Some (cursor_after normalized size n,
        map (entry normalized size) (seq 0 n) ++ repeat 0%Z (size - n)).
Proof.
  intros Hlen. induction n as [|n IH]; intros Hn.
  - simpl. rewrite Nat.sub_0_r. reflexivity.
  - rewrite seq_S, sample_loop_app, IH by lia.
    cbn [bind sample_loop Nat.add].
    rewrite sample_step_eq by assumption. cbn [bind].
    replace (size - n)%nat with (S (size - S n)) by lia.
    cbn [repeat].
    rewrite (store_at _ _ _ _ n) by now rewrite length_map, length_seq.
    rewrite map_app, <- app_assoc. reflexivity.
Qed.

(** ** Sorting and the flat extension *)

Lemma insert_length a l : length (insert a l) = S (length l).
Proof.
  induction l as [|b l IH]; simpl; auto.
  destruct (Qltb (xof b) (xof a)); simpl; auto.
Qed.

Lemma sort_by_x_length l : length (sort_by_x l) = length l.
Proof. induction l; simpl; auto. now rewrite insert_length, IHl. Qed.

Lemma insert_perm a l : Permutation (a :: l) (insert a l).
Proof.
  induction l as [|b l IH]; simpl; auto.
  destruct (Qltb (xof b) (xof a)); auto.
  rewrite perm_swap. now constructor.
Qed.

Lemma sort_by_x_perm l : Permutation l (sort_by_x l).
Proof.
  induction l as [|a l IH]; simpl; auto.
  rewrite <- insert_perm. now constructor.
Qed.

Lemma insert_sorted a l :
  StronglySorted le_x l -> StronglySorted le_x (insert a l).
Proof.
  induction 1 as [|b l Hs IH Hb]; simpl.
  - repeat constructor.
  - destruct (Qltb_spec (xof b) (xof a)).
    + constructor; auto.
      rewrite <- insert_perm. constructor; auto. unfold le_x. lra.
    + constructor; [now constructor|].
      constructor; auto.
      eapply Forall_impl; [|exact Hb]. unfold le_x. intros; lra.
Qed.

Lemma sort_by_x_sorted l : StronglySorted le_x (sort_by_x l).
Proof.
  induction l; simpl; [constructor | now apply insert_sorted].
Qed.

(** Inserting two points with different [x] commutes, whatever the list. *)
Ltac split_Qltb :=
  repeat (match goal with
          | |- context [Qltb ?a ?b] => destruct (Qltb_spec a b)
          end; cbn [insert]).

Lemma insert_insert a b l :
  ~ same_x a b -> insert a (insert b l) = insert b (insert a l).
Proof.
  unfold same_x. intros Hab.
  induction l as [|q l IH]; cbn [insert]; split_Qltb;
    try reflexivity; try (now rewrite IH); try lra;
    exfalso; apply Hab; lra.
Qed.

Lemma clamped_in_unit points : Forall in_unit (clamped points).
Proof.
  unfold clamped. apply Forall_map, Forall_forall. intros p _.
  split; apply clamp_range; lra.
Qed.

Lemma sorted_points_in_unit points : Forall in_unit (sorted_points points).
Proof.
  eapply Permutation_Forall; [apply sort_by_x_perm | apply clamped_in_unit].
Qed.

Lemma StronglySorted_snoc {A} (R : A -> A -> Prop) l b :
  StronglySorted R l -> Forall (fun a => R a b) l ->
  StronglySorted R (l ++ [b]).
Proof.
  induction 1 as [|a l Hs IH Ha]; intros Hb; simpl.
  - repeat constructor.
  - inversion_clear Hb. constructor; auto.
    apply Forall_app. split; auto.
Qed.

Lemma nth_last_snoc {A} (l : list A) (a d : A) :
  nth (length (l ++ [a]) - 1) (l ++ [a]) d = a.
Proof.
  rewrite length_app. simpl.
  replace (length l + 1 - 1)%nat with (length l) by lia.
  rewrite app_nth2, Nat.sub_diag by lia. reflexivity.
Qed.

(** The flat extension never fails on a non-empty ramp; it yields at least
    two points, from [x = 0] to [x = 1], still in the unit square and still
    sorted. *)
Lemma normalize_spec sorted :
  sorted <> [] -> Forall in_unit sorted -> StronglySorted le_x sorted ->
  exists normalized,
    normalize sorted = Some normalized /\
    (2 <= length normalized)%nat /\
    xat normalized 0 == 0 /\
    xat normalized (length normalized - 1) == 1 /\
    Forall in_unit normalized /\
    StronglySorted le_x normalized.
Proof.
  intros Hne Hunit Hsorted.
  destruct (exists_last Hne) as (body & last & Hlast).
  destruct sorted as [|first rest]; [congruence|].
  assert (Hfirst : in_unit first) by now inversion Hunit.
  assert (Hl : in_unit last).
  { rewrite Hlast in Hunit. apply Forall_app in Hunit as [_ H].
    now inversion H. }
  assert (Hnth : nth_error (first :: rest) (length (first :: rest) - 1)
                 = Some last).
  { rewrite Hlast, length_app. simpl.
    replace (length body + 1 - 1)%nat with (length body) by lia.
    rewrite nth_error_app2, Nat.sub_diag by lia. reflexivity. }
  unfold normalize. cbn [nth_error bind]. rewrite Hnth. cbn [bind].
  eexists. split; [reflexivity|].
  destruct Hfirst as [Hfx Hfy], Hl as [Hlx Hly].
  assert (Hall0 : forall y0, 0 <= y0 <= 1 ->
            Forall (fun a => le_x a (1, y0)) (first :: rest)).
  { intros y0 _. eapply Forall_impl; [|exact Hunit].
    intros a [Ha _]. unfold le_x. simpl. lra. }
  assert (Hall1 : forall y0, Forall (le_x (0, y0)) (first :: rest)).
  { intros y0. eapply Forall_impl; [|exact Hunit].
    intros a [Ha _]. unfold le_x. simpl. lra. }
  destruct (Qltb_spec 0 (xof first)) as [H0|H0];
    destruct (Qltb_spec (xof last) 1) as [H1|H1]; cbv beta iota zeta.
  - split; [|split; [|split; [|split]]].
    + simpl. rewrite length_app. simpl. lia.
    + reflexivity.
    + change ((0, yof first) :: first :: rest)
        with ([(0, yof first)] ++ first :: rest).
      rewrite <- app_assoc, app_assoc.
      unfold xat. rewrite nth_last_snoc. reflexivity.
    + apply Forall_app. split.
      * constructor; [split; simpl; lra | assumption].
      * constructor; [split; simpl; lra | constructor].
    + apply StronglySorted_snoc.
      * constructor; auto.
      * constructor; [unfold le_x; simpl; lra | now apply Hall0].
  - split; [|split; [|split; [|split]]].
    + simpl. lia.
    + reflexivity.
    + rewrite Hlast.
      change ((0, yof first) :: body ++ [last])
        with (((0, yof first) :: body) ++ [last]).
      unfold xat. rewrite nth_last_snoc. lra.
    + constructor; [split; simpl; lra | assumption].
    + constructor; auto.
  - split; [|split; [|split; [|split]]].
    + rewrite length_app. simpl. lia.
    + unfold xat. simpl. lra.
    + unfold xat. rewrite nth_last_snoc. reflexivity.
    + apply Forall_app. split; auto.
      constructor; [split; simpl; lra | constructor].
    + apply StronglySorted_snoc; auto.
  - split; [|split; [|split; [|split]]].
    + destruct rest as [|second rest]; [|simpl; lia].
      destruct body as [|b body]; simpl in Hlast.
      * injection Hlast as ->. lra.
      * injection Hlast as _ Hnil. now destruct body.
    + unfold xat. simpl. lra.
    + rewrite Hlast. unfold xat. rewrite nth_last_snoc. lra.
    + assumption.
    + assumption.
Qed.

Lemma nth_error_last {A} (l : list A) (a d : A) :
  nth_error l (length l - 1) = Some a -> last l d = a.
Proof.
  destruct l as [|h l]; [discriminate|].
  destruct (@exists_last _ (h :: l)) as (body & z & E); [discriminate|].
  rewrite E, length_app, last_last. simpl.
  replace (length body + 1 - 1)%nat with (length body) by lia.
  rewrite nth_error_app2, Nat.sub_diag by lia. simpl. congruence.
Qed.

(** ** Clamping a value that lies inside or below its range *)

Lemma clamp_eq (v lo hi : Q) : lo <= v <= hi -> clamp v lo hi == v.
Proof.
  intros [H1 H2]. unfold clamp.
  destruct (Math_max_spec v lo) as [[? ->]|[? ->]];
    [destruct (Math_min_spec lo hi) as [[? ->]|[? ->]]
    |destruct (Math_min_spec v hi) as [[? ->]|[? ->]]]; lra.
Qed.

Lemma clamp_low (v lo hi : Q) : v <= lo -> lo <= hi -> clamp v lo hi == lo.
Proof.
  intros H1 H2. unfold clamp.
  destruct (Math_max_spec v lo) as [[? ->]|[? ->]];
    [destruct (Math_min_spec lo hi) as [[? ->]|[? ->]]
    |destruct (Math_min_spec v hi) as [[? ->]|[? ->]]]; lra.
Qed.

(** ** The sampler as a whole *)

Lemma sorted_points_nonempty points : points <> [] -> sorted_points points <> [].
Proof.
  intros H E. apply (f_equal (@length _)) in E.
  unfold sorted_points in E. rewrite sort_by_x_length, length_map in E.
  destruct points; [congruence | discriminate].
Qed.

Lemma generate_nonempty points size :
  points <> [] ->
  exists normalized,
    normalize (sorted_points points) = Some normalized /\
    (2 <= length normalized)%nat /\
    xat normalized 0 == 0 /\
    xat normalized (length normalized - 1) == 1 /\
    Forall in_unit normalized /\
    StronglySorted le_x normalized /\
    generateRampTextureData points size
    = Some (map (entry normalized size) (seq 0 size)).
Proof.
  intros Hne.
  destruct (normalize_spec (sorted_points points))
    as (normalized & Hn & Hlen & H0 & H1 & Hu & Hs).
  - now apply sorted_points_nonempty.
  - apply sorted_points_in_unit.
  - apply sort_by_x_sorted.
  - exists normalized. repeat (split; [assumption|]).
    unfold generateRampTextureData. destruct points as [|p points]; [congruence|].
    rewrite Hn. cbn [bind].
    rewrite sample_loop_seq by (auto; lia). cbn [bind snd].
    rewrite Nat.sub_diag. simpl repeat. now rewrite app_nil_r.
Qed.

Lemma entry_byte normalized size i : byte (entry normalized size i).
Proof. apply ToUint8_byte. Qed.

(** ** RampSampler: length, range and the empty ramp *)

Lemma generate_empty size :
  generateRampTextureData [] size = Some (repeat 127%Z size).
Proof. unfold generateRampTextureData. now rewrite map_repeat. Qed.

(** C4. The sampler applied to the empty collection of control points returns
    a LUT of 256 entries, every one of which is 127. *)
Theorem C4_empty_ramp_is_flat_mid_gray :
  exists lut,
    generateRampTextureData [] RAMP_RESOLUTION = Some lut /\
    length lut = 256%nat /\
    Forall (fun b => b = 127%Z) lut.
Proof.
  exists (repeat 127%Z 256). split; [|split].
  - apply generate_empty.
  - apply repeat_length.
  - apply Forall_forall. intros b Hb. now apply repeat_spec in Hb.
Qed.

(** C3. Whatever the control points (none, unsorted, with repeated [x], with
    coordinates outside [0,1]), the sampler at resolution 256 returns a LUT
    of exactly 256 entries, each a byte in [0,255]. *)
Theorem C3_lut_has_256_bytes (points : list RampPoint) :
  exists lut,
    generateRampTextureData points RAMP_RESOLUTION = Some lut /\
    length lut = 256%nat /\
    Forall byte lut.
Proof.
  destruct points as [|p points].
  - exists (repeat 127%Z 256). split; [apply generate_empty|]. split.
    + apply repeat_length.
    + apply Forall_forall. intros b Hb. apply repeat_spec in Hb.
      subst b. unfold byte. lia.
  - destruct (generate_nonempty (p :: points) RAMP_RESOLUTION)
      as (normalized & _ & _ & _ & _ & _ & _ & H); [discriminate|].
    eexists. split; [exact H|]. split.
    + now rewrite length_map, length_seq.
    + apply Forall_map, Forall_forall. intros i _. apply entry_byte.
Qed.

(** ** Order of the input *)

Lemma same_x_sym a b : same_x a b -> same_x b a.
Proof. unfold same_x. intros H. now symmetry. Qed.

Lemma InA_same_x_perm a l l' :
  Permutation l l' -> InA same_x a l -> InA same_x a l'.
Proof.
  intros Hp. rewrite !InA_alt. intros (b & Hab & Hb).
  exists b. split; [assumption|]. now apply (Permutation_in _ Hp).
Qed.

Lemma distinct_x_perm l l' :
  Permutation l l' -> distinct_x l -> distinct_x l'.
Proof.
  unfold distinct_x. induction 1 as [|a l l' Hp IH|a b l|l l' l'' _ IH1 _ IH2];
    intros Hd; auto.
  - inversion_clear Hd as [|? ? Hnot Hl]. constructor; auto.
    intros Hin. apply Hnot.
    now apply (InA_same_x_perm a l' l (Permutation_sym Hp)).
  - inversion_clear Hd as [|? ? Hnb Hl]. inversion_clear Hl as [|? ? Hna Hl'].
    constructor; [|constructor; [|assumption]].
    + intros Hin. inversion_clear Hin as [? ? E|? ? Hin']; auto.
      apply Hnb. left. now apply same_x_sym.
    + intros Hin. apply Hnb. now right.
Qed.

Lemma sort_by_x_distinct_perm l l' :
  Permutation l l' -> distinct_x l -> sort_by_x l = sort_by_x l'.
Proof.
  induction 1 as [|a l l' Hp IH|a b l|l l' l'' Hp1 IH1 Hp2 IH2]; intros Hd.
  - reflexivity.
  - simpl. rewrite IH; [reflexivity|]. now inversion Hd.
  - simpl. apply insert_insert. inversion_clear Hd as [|? ? Hnb _].
    intros E. apply Hnb. left. now apply same_x_sym.
  - rewrite IH1 by assumption. apply IH2.
    now apply (distinct_x_perm l l').
Qed.


Lemma distinct_xb_sound l : distinct_xb l = true -> distinct_x l.
Proof.
  unfold distinct_x. induction l as [|a l IH]; simpl; intros H.
  - constructor.
  - apply andb_true_iff in H as [Ha Hl]. constructor; auto.
    rewrite InA_alt. intros (b & Hab & Hb).
    rewrite forallb_forall in Ha. specialize (Ha b Hb).
    apply negb_true_iff in Ha. apply Qeq_bool_neq in Ha. now apply Ha.
Qed.



(** ** CaptureController: sanitised parameters *)

Lemma Math_max_inject_Z (a b : Z) :
  Math_max (inject_Z a) (inject_Z b) = inject_Z (Z.max a b).
Proof.
  unfold Math_max. destruct (Qle_bool_spec (inject_Z a) (inject_Z b)) as [H|H].
  - rewrite <- Zle_Qle in H. now rewrite Z.max_r.
  - rewrite <- Zlt_Qlt in H. rewrite Z.max_l; [reflexivity | lia].
Qed.

Lemma Math_min_inject_Z (a b : Z) :
  Math_min (inject_Z a) (inject_Z b) = inject_Z (Z.min a b).
Proof.
  unfold Math_min. destruct (Qle_bool_spec (inject_Z a) (inject_Z b)) as [H|H].
  - rewrite <- Zle_Qle in H. now rewrite Z.min_l.
  - rewrite <- Zlt_Qlt in H. rewrite Z.min_r; [reflexivity | lia].
Qed.

Lemma sanitizedFps_integer (o : Options) :
  sanitizedFps o = inject_Z (Z.min 60 (Z.max 1 (Math_round (fps o)))).
Proof.
  unfold sanitizedFps. change 1 with (inject_Z 1). change 60 with (inject_Z 60).
  now rewrite Math_max_inject_Z, Math_min_inject_Z.
Qed.

Lemma sanitizedFps_range (o : Options) : 1 <= sanitizedFps o <= 60.
Proof.
  rewrite sanitizedFps_integer.
  change 1 with (inject_Z 1). change 60 with (inject_Z 60).
  rewrite <- !Zle_Qle. lia.
Qed.

Lemma sanitizedScale_range (o : Options) : (1 # 10) <= sanitizedScale o <= 1.
Proof.
  unfold sanitizedScale.
  destruct (Math_max_spec (1 # 10) (if Number_isFinite (scale o) then scale o else 1))
    as [[? ->]|[? ->]];
    [destruct (Math_min_spec 1 (if Number_isFinite (scale o) then scale o else 1))
       as [[? ->]|[? ->]]
    |destruct (Math_min_spec 1 (1 # 10)) as [[? ->]|[? ->]]]; lra.
Qed.

Lemma sanitizedDuration_ge (o : Options) : (1 # 2) <= sanitizedDuration o.
Proof.
  unfold sanitizedDuration.
  destruct (Math_max_spec (1 # 2) (duration o)) as [[? ->]|[? ->]]; lra.
Qed.

Lemma frameCount_integer (o : Options) :
  frameCount o
  = inject_Z (Z.max 1 (Math_round (sanitizedDuration o * sanitizedFps o))).
Proof.
  unfold frameCount. change 1 with (inject_Z 1). apply Math_max_inject_Z.
Qed.

Lemma frameCount_ge_1 (o : Options) : 1 <= frameCount o.
Proof.
  rewrite frameCount_integer. change 1 with (inject_Z 1) at 1.
  rewrite <- Zle_Qle. lia.
Qed.

Lemma frameIntervalMs_pos (o : Options) : 0 < frameIntervalMs o.
Proof.
  unfold frameIntervalMs. pose proof (sanitizedFps_range o) as [H _].
  apply Qlt_shift_div_l; lra.
Qed.

Lemma limit_pos (o : Options) : 0 < limit o.
Proof.
  unfold limit. pose proof (frameIntervalMs_pos o).
  pose proof (sanitizedDuration_ge o). lra.
Qed.

Lemma count_S (n : nat) : count (S n) == count n + 1.
Proof.
  unfold count. rewrite Nat2Z.inj_succ, <- Z.add_1_r, inject_Z_plus.
  reflexivity.
Qed.

Lemma count_lt_frameCount_S (o : Options) (n : nat) :
  count n < frameCount o -> count (S n) <= frameCount o.
Proof.
  rewrite frameCount_integer. unfold count.
  rewrite <- Zlt_Qlt, <- Zle_Qle. lia.
Qed.

(** ** CaptureController: one tick of the sampling loop *)

Lemma pair_if {A B} (b : bool) (a : A) (x y : B) :
  (if b then (a, x) else (a, y)) = (a, if b then x else y).
Proof. now destruct b. Qed.

Ltac take_state :=
  match goal with |- exists s', (?x, _) = _ /\ _ => exists x end.

(** What [step] does to a loop that has not resolved: at most one capture,
    and [resolve()] exactly when the frame count is reached or the elapsed
    time has reached the bound. *)
Lemma step_spec canvas o s tick t0 :
  (s = sampling_start /\ t0 = now tick) \/ well o t0 s ->
  exists s',
    step canvas o s tick
    = (s', if Qle_bool (frameCount o) (count (captured s'))
              || Qle_bool (limit o) (now tick - t0)
           then Resolve else Reschedule) /\
    (captured s <= captured s' <= S (captured s))%nat /\
    (1 <= captured s')%nat /\
    count (captured s') <= frameCount o /\
    startTime s' = t0 /\
    frameIndex s' = captured s' /\
    length (frames s') = captured s'.
Proof.
  pose proof (frameCount_ge_1 o) as Hfc.
  intros [[-> ->]|(H1 & Hlt & Hst & Hfi & Hlen)]; unfold step.
  - cbn [captured sampling_start].
    destruct (Qle_bool_spec (frameCount o) (count 0)) as [H|_];
      [change (count 0) with 0 in H; lra|].
    cbn [Nat.eqb nextCapture].
    destruct (Qle_bool_spec (now tick) (now tick)) as [_|H]; [|lra].
    cbn [captureFrame captured startTime nextCapture frameIndex frames].
    rewrite pair_if. take_state. split; [reflexivity|].
    cbn [captured startTime frameIndex frames sampling_start app length].
    repeat split; try lia. exact Hfc.
  - destruct (Qle_bool_spec (frameCount o) (count (captured s))) as [H|_];
      [lra|].
    destruct (Nat.eqb_spec (captured s) 0) as [E|_]; [lia|].
    destruct (Qle_bool_spec (nextCapture s) (now tick)) as [Hdue|Hearly].
    + cbn [captureFrame captured startTime nextCapture frameIndex frames].
      rewrite pair_if. take_state. rewrite Hst. split; [reflexivity|].
      cbn [captured startTime frameIndex frames].
      rewrite length_app, Hlen, Hfi. cbn [length].
      repeat split; try lia. now apply count_lt_frameCount_S.
    + rewrite pair_if. exists s. rewrite Hst. split; [reflexivity|].
      repeat split; try lia; auto. lra.
Qed.

Lemma well_after_reschedule o t0 s' tick :
  Qle_bool (frameCount o) (count (captured s'))
    || Qle_bool (limit o) (now tick - t0) = false ->
  (1 <= captured s')%nat -> startTime s' = t0 ->
  frameIndex s' = captured s' -> length (frames s') = captured s' ->
  well o t0 s'.
Proof.
  intros Hb H1 Hst Hfi Hlen. apply orb_false_iff in Hb as [Hb _].
  repeat split; auto.
  destruct (Qle_bool_spec (frameCount o) (count (captured s'))); [discriminate | assumption].
Qed.

(** ** CaptureController: the loop over a clock *)

Lemma sampling_loop_app canvas o s l1 l2 :
  sampling_loop canvas o s (l1 ++ l2) =
  match sampling_loop canvas o s l1 with
  | (s', true) => (s', true)
  | (s', false) => sampling_loop canvas o s' l2
  end.
Proof.
  revert s. induction l1 as [|tick l1 IH]; intros s; simpl; [reflexivity|].
  destruct (step canvas o s tick) as [s' [|]]; [reflexivity | apply IH].
Qed.

Lemma after_ticks_S canvas o f n :
  after_ticks canvas o f (S n) =
  match after_ticks canvas o f n with
  | (s, true) => (s, true)
  | (s, false) =>
      match step canvas o s (f n) with
      | (s', Resolve) => (s', true)
      | (s', Reschedule) => (s', false)
      end
  end.
Proof.
  unfold after_ticks, prefix. rewrite seq_S, map_app, sampling_loop_app.
  destruct (sampling_loop _ _ _ _) as [s [|]]; [reflexivity|].
  simpl. now destruct (step canvas o s (f n)) as [s' [|]].
Qed.

(** A loop still running after [n] ticks is at its start ([n = 0]) or in a
    [well] state whose origin is the first tick. *)
Lemma running_state canvas o f n s :
  after_ticks canvas o f n = (s, false) ->
  (n = O /\ s = sampling_start) \/ ((1 <= n)%nat /\ well o (now (f O)) s).
Proof.
  revert s. induction n as [|n IH]; intros s H.
  - left. split; [reflexivity|]. unfold after_ticks in H. simpl in H. congruence.
  - right. split; [lia|]. rewrite after_ticks_S in H.
    destruct (after_ticks canvas o f n) as [s0 [|]] eqn:E; [discriminate|].
    assert (Hpre : (s0 = sampling_start /\ now (f O) = now (f n))
                   \/ well o (now (f O)) s0).
    { destruct (IH s0 eq_refl) as [[-> ->]|[_ Hw]]; auto. }
    destruct (step_spec canvas o s0 (f n) (now (f O)) Hpre)
      as (s' & Hstep & _ & H1 & _ & Hst & Hfi & Hlen).
    rewrite Hstep in H.
    destruct (Qle_bool (frameCount o) (count (captured s'))
              || Qle_bool (limit o) (now (f n) - now (f O))) eqn:Hb;
      [discriminate|].
    injection H as <-. eapply well_after_reschedule; eauto.
Qed.

Lemma after_ticks_0 canvas o f : after_ticks canvas o f O = (sampling_start, false).
Proof. reflexivity. Qed.

(** ** CaptureController: parameters, frames and the result *)

(** C9. When the finalised encoding holds no byte (or there is no buffer at
    all), the promise rejects; a blob that [captureGif] resolves with is
    never empty. *)
Theorem C9_empty_encoding_is_rejected
    (encoder_bytes : list Frame -> option (list Z)) (env : Environment)
    (ticks : list Tick) (o : Options) :
  (forall canvas s,
     canvasRef env = Some canvas -> stateRef env = true ->
     fullCtx env = true -> scaledCtx env = true ->
     sampling_loop canvas o sampling_start ticks = (s, true) ->
     encoder_bytes (frames s) = Some [] \/ encoder_bytes (frames s) = None ->
     captureGif encoder_bytes env ticks o = Rejected "Generated GIF was empty") /\
  (forall blob,
     captureGif encoder_bytes env ticks o = Resolved blob ->
     blob_bytes blob <> [] /\
     exists canvas s,
       canvasRef env = Some canvas /\
       sampling_loop canvas o sampling_start ticks = (s, true) /\
       encoder_bytes (frames s) = Some (blob_bytes blob)).
Proof.
  split.
  - intros canvas s Hc Hst Hf Hsc Hloop Hempty. unfold captureGif.
    rewrite Hc, Hst, Hf, Hsc, Hloop. cbn [negb].
    destruct Hempty as [-> | ->]; reflexivity.
  - intros blob. unfold captureGif.
    destruct (canvasRef env) as [canvas|]; [|discriminate].
    destruct (stateRef env); [|discriminate].
    destruct (fullCtx env); [|discriminate].
    destruct (scaledCtx env); [|discriminate]. cbn [negb].
    destruct (sampling_loop canvas o sampling_start ticks) as [s [|]] eqn:El;
      [|discriminate].
    destruct (encoder_bytes (frames s)) as [bytes|] eqn:E; [|discriminate].
    destruct bytes as [|b bytes]; [discriminate|]. cbn [length Nat.eqb].
    intros H. injection H as <-. cbn [blob_bytes].
    split; [discriminate|]. exists canvas, s. auto.
Qed.

(** An encoder that returns no byte, on a ready preview and one tick. *)
Lemma C9_empty_encoder_witness :
  captureGif (fun _ => Some [])
    (mkEnvironment (Some (mkCanvas 4 4)) true true true)
    [mkTick 0 (mkCanvas 4 4)] (mkOptions (1 # 2) 1 1)
  = Rejected "Generated GIF was empty".
Proof.
  refine (proj1 (C9_empty_encoding_is_rejected (fun _ => Some [])
                   (mkEnvironment (Some (mkCanvas 4 4)) true true true)
                   [mkTick 0 (mkCanvas 4 4)] (mkOptions (1 # 2) 1 1))
            (mkCanvas 4 4) _ eq_refl eq_refl eq_refl eq_refl _ (or_introl eq_refl)).
  vm_compute. reflexivity.
Defined.

(** ** RenderLoop: the time uniform *)

Lemma render_time uniforms refs gl time :
  loc_time uniforms = true ->
  uTime (render uniforms refs gl time) = to_seconds time.
Proof. intros H. unfold render. cbn [uTime]. now rewrite H. Qed.

Lemma render_loop_times uniforms refs gl times :
  loc_time uniforms = true ->
  map uTime (render_loop uniforms refs gl times) = map to_seconds times.
Proof.
  intros H. revert gl.
  induction times as [|time times IH]; intros gl; simpl; [reflexivity|].
  now rewrite IH, H.
Qed.

Lemma to_seconds_mono a b : a <= b -> to_seconds a <= to_seconds b.
Proof. unfold to_seconds. intros H. lra. Qed.

Lemma to_seconds_sorted times :
  StronglySorted Qle times -> StronglySorted Qle (map to_seconds times).
Proof.
  induction 1 as [|time times Hs IH Hall]; simpl; constructor; auto.
  apply Forall_map. eapply Forall_impl; [|exact Hall].
  intros b. apply to_seconds_mono.
Qed.

Lemma life_step_coherent uniforms refs p e :
  coherent p -> coherent (life_step uniforms refs p e).
Proof.
  unfold coherent. intros H. destruct e as [hostNow|time|]; cbn [life_step].
  - destruct (glStateRef p) eqn:E; [now rewrite E | reflexivity].
  - destruct (animationRef p) eqn:Ea, (glStateRef p) eqn:Eg;
      cbn [animationRef glStateRef]; rewrite ?Ea, ?Eg; congruence.
  - reflexivity.
Qed.

Lemma life_log uniforms refs events p :
  loc_time uniforms = true -> coherent p ->
  map snd (timeLog (fold_left (life_step uniforms refs) events p))
  = rev (map to_seconds (delivered (animationRef p) events))
    ++ map snd (timeLog p).
Proof.
  intros Hloc. revert p.
  induction events as [|e events IH]; intros p Hp; [reflexivity|].
  cbn [fold_left].
  rewrite (IH _ (life_step_coherent uniforms refs p e Hp)).
  unfold coherent in Hp.
  destruct e as [hostNow|time|]; cbn [life_step delivered].
  - destruct (glStateRef p); [now rewrite Hp | reflexivity].
  - destruct (animationRef p) eqn:Ea, (glStateRef p) eqn:Eg;
      try discriminate; rewrite ?Ea; try reflexivity.
    rewrite Hloc. cbn [animationRef timeLog map snd rev].
    now rewrite <- app_assoc.
  - reflexivity.
Qed.

(** C7, as the code has it.  On a tick, [render] gives the time uniform the
    timestamp of that tick in seconds, [time * 0.001]: the reading of the
    host's presentation clock, which no loop instance re-bases.  Over the life
    of the component the values pushed are those of the ticks delivered while
    an instance is mounted, in order; they increase with the timestamps. *)
Theorem C7_time_uniform_is_the_host_clock
    (uniforms : Uniforms) (refs : Refs) (events : list LifeEvent) :
  loc_time uniforms = true ->
  (forall gl time, uTime (render uniforms refs gl time) = time * (1 # 1000)) /\
  (forall gl times,
     map uTime (render_loop uniforms refs gl times)
     = map (fun time => time * (1 # 1000)) times) /\
  (forall gl times,
     StronglySorted Qle times ->
     StronglySorted Qle (map uTime (render_loop uniforms refs gl times))) /\
  rev (map snd (timeLog (life uniforms refs events)))
  = map (fun time => time * (1 # 1000)) (delivered false events).
Proof.
  intros Hloc.
  split; [intros gl time; now apply render_time|].
  split; [intros gl times; now apply render_loop_times|].
  split.
  - intros gl times Hs. rewrite render_loop_times by exact Hloc.
    now apply to_seconds_sorted.
  - unfold life. rewrite life_log by (auto; reflexivity).
    cbn [unmounted animationRef timeLog map]. rewrite app_nil_r.
    apply rev_involutive.
Qed.

(** A mount, a tick, a dispose, a second mount five seconds later and a tick. *)
Lemma C7_remount_witness :
  loc_time all_uniforms = true /\
  rev (map snd (timeLog (life all_uniforms plain_refs
                           [Mount 0; Present 16; Unmount; Mount 5000; Present 5016])))
  = map (fun time => time * (1 # 1000))
      (delivered false [Mount 0; Present 16; Unmount; Mount 5000; Present 5016]).
Proof.
  split; [reflexivity|].
  exact (proj2 (proj2 (proj2
    (C7_time_uniform_is_the_host_clock all_uniforms plain_refs
       [Mount 0; Present 16; Unmount; Mount 5000; Present 5016] eq_refl)))).
Defined.

(** C7, as stated, fails: an instance mounted when the host clock reads
    5000 ms gets, at its first tick 16 ms later, the time 5.016 s and not the
    0.016 s elapsed since it started; time does not start again at zero after
    a dispose and a new initialisation. *)
Lemma C7_time_is_not_zero_based :
  timeLog (life all_uniforms plain_refs
             [Mount 0; Present 16; Unmount; Mount 5000; Present 5016])
  = [(5000, 5016 * (1 # 1000)); (0, 16 * (1 # 1000))] /\
  ~ 5016 * (1 # 1000) == (5016 - 5000) * (1 # 1000).
Proof.
  split; [reflexivity|]. intros H. vm_compute in H. discriminate.
Qed.

(** ** The examples of the specification, evaluated *)

Example ramp_descending :
  option_map (fun lut => (nth 0 lut 0, nth 128 lut 0, nth 255 lut 0)%Z)
    (generateRampTextureData [pt 0 1; pt 1 0] RAMP_RESOLUTION)
  = Some (255, 127, 0)%Z.
Proof. vm_compute. reflexivity. Qed.

Example ramp_single_point_is_flat :
  option_map (fun lut => (nth 0 lut 0, nth 127 lut 0, nth 255 lut 0)%Z)
    (generateRampTextureData [pt (1 # 2) 1] RAMP_RESOLUTION)
  = Some (255, 255, 255)%Z.
Proof. vm_compute. reflexivity. Qed.

Example ramp_unsorted_out_of_range :
  generateRampTextureData [pt 2 (1 # 2); pt (-1) 3] 5
  = Some [255; 223; 191; 159; 128]%Z.
Proof. vm_compute. reflexivity. Qed.

Example half_second_at_60_fps :
  frameCount (mkOptions (1 # 2) 60 1) = 30 /\
  sanitizedFps (mkOptions (1 # 2) 1000 1) = 60 /\
  sanitizedFps (mkOptions (1 # 2) (25 # 2) 1) = 13 /\
  sanitizedScale (mkOptions (1 # 2) 60 5) = 1 /\
  sanitizedDuration (mkOptions 0 60 1) = (1 # 2).
Proof. repeat split. Qed.

Example throttled_capture_stops_early :
  let run := after_ticks (mkCanvas 4 4) (mkOptions (1 # 2) 60 1)
               (throttled 100 (mkCanvas 4 4)) 7 in
  snd run = true /\ captured (fst run) = 7%nat /\
  length (frames (fst run)) = 7%nat.
Proof. vm_compute. repeat split. Qed.

(** * Further properties of the code *)

(** ** RampSampler: heights *)

Lemma clamp01_idempotent (v : Q) : clamp01 (clamp01 v) = clamp01 v.
Proof.
  unfold clamp01, clamp, Math_max, Math_min.
  destruct (Qle_bool_spec v 0).
  - reflexivity.
  - destruct (Qle_bool_spec v 1).
    + destruct (Qle_bool_spec v 0); [lra|].
      destruct (Qle_bool_spec v 1); [reflexivity | lra].
    + reflexivity.
Qed.

(** X3. Coordinates outside the unit square count as the nearest point of
    the square: moving every control point there first does not change the
    LUT. *)
Theorem ramp_of_clamped_points (points : list RampPoint) :
  generateRampTextureData (map clamp_point points) RAMP_RESOLUTION
  = generateRampTextureData points RAMP_RESOLUTION.
Proof.
  assert (Hs : sorted_points (map clamp_point points) = sorted_points points).
  { unfold sorted_points. rewrite map_map. f_equal. apply map_ext.
    intros p. cbn [clamp_point x y]. now rewrite !clamp01_idempotent. }
  unfold generateRampTextureData. rewrite Hs. now destruct points.
Qed.

(** ** [Math.max] and [Math.min] are monotone *)

Lemma Math_max_mono (a b c : Q) : a <= b -> Math_max a c <= Math_max b c.
Proof.
  intros H.
  destruct (Math_max_spec a c) as [[? Ea]|[? Ea]];
    destruct (Math_max_spec b c) as [[? Eb]|[? Eb]]; rewrite Ea, Eb; lra.
Qed.

Lemma Math_min_mono (a b c : Q) : a <= b -> Math_min a c <= Math_min b c.
Proof.
  intros H.
  destruct (Math_min_spec a c) as [[? Ea]|[? Ea]];
    destruct (Math_min_spec b c) as [[? Eb]|[? Eb]]; rewrite Ea, Eb; lra.
Qed.

(** ** CaptureController: the frames of a run *)

(** A tick leaves the closure as it is or adds one capture, which is due. *)
Lemma step_fst canvas o s tick :
  fst (step canvas o s tick) = s \/
  (nextCapture (started s tick) <= now tick /\
   fst (step canvas o s tick) = with_capture canvas o (started s tick) tick).
Proof.
  unfold step. fold (started s tick).
  destruct (Qle_bool (frameCount o) (count (captured s))); [now left|].
  destruct (Qle_bool_spec (nextCapture (started s tick)) (now tick)) as [Hdue|Hnot].
  - right. split; [exact Hdue|].
    fold (with_capture canvas o (started s tick) tick). now rewrite pair_if.
  - rewrite pair_if. cbn [fst]. left.
    unfold started in *. destruct (Nat.eqb (captured s) 0); [|reflexivity].
    cbn [nextCapture] in Hnot. lra.
Qed.

Lemma step_frames_in_order canvas o s tick t0 :
  frames_in_order o t0 s -> (captured s = O -> now tick = t0) ->
  frames_in_order o t0 (fst (step canvas o s tick)).
Proof.
  intros Hinv Hstart.
  destruct (step_fst canvas o s tick) as [-> | [Hdue ->]]; [exact Hinv|].
  destruct Hinv as (Hfi & Hc & Hsched & Hfr).
  unfold with_capture, captureFrame, started in *.
  destruct (Nat.eqb_spec (captured s) 0) as [E0|E0];
    cbn [captured startTime nextCapture frameIndex frames] in *.
  - assert (Hnil : frames s = []).
    { destruct (frames s); [reflexivity | simpl in Hc; lia]. }
    rewrite Hnil, Hfi, E0 in *. rewrite (Hstart eq_refl) in *.
    cbn [app length Nat.eqb]. unfold frames_in_order.
    cbn [captured startTime nextCapture frameIndex frames length].
    split; [reflexivity|]. split; [reflexivity|]. split.
    + intros _. split; [reflexivity|]. change (count 1) with 1. ring.
    + intros k frame Hk. destruct k as [|k]; [|destruct k; discriminate].
      injection Hk as <-. cbn [frame_delay frame_repeat shot_at Nat.eqb].
      split; [reflexivity|]. split; [reflexivity|].
      change (count 0) with 0. lra.
  - destruct (Hsched E0) as [Hst Hnext]. unfold frames_in_order.
    cbn [captured startTime nextCapture frameIndex frames].
    rewrite length_app. cbn [length].
    split; [lia|]. split; [lia|]. split.
    + intros _. split; [exact Hst|].
      rewrite Hnext, count_S. ring.
    + intros k frame Hk.
      destruct (Nat.lt_ge_cases k (length (frames s))) as [Hlt|Hge].
      * rewrite nth_error_app1 in Hk by exact Hlt. now apply Hfr.
      * rewrite nth_error_app2 in Hk by exact Hge.
        destruct (k - length (frames s))%nat as [|m] eqn:Em;
          [|destruct m; discriminate].
        simpl in Hk. injection Hk as <-.
        assert (k = length (frames s)) as -> by lia.
        cbn [frame_delay frame_repeat shot_at].
        split; [reflexivity|]. split.
        -- rewrite Hfi, <- Hc.
           destruct (Nat.eqb_spec (captured s) 0); [contradiction | reflexivity].
        -- rewrite <- Hc. rewrite Hnext in Hdue. exact Hdue.
Qed.

Lemma frames_in_order_start o t0 : frames_in_order o t0 sampling_start.
Proof.
  unfold frames_in_order, sampling_start.
  cbn [captured startTime nextCapture frameIndex frames length].
  split; [reflexivity|]. split; [reflexivity|]. split.
  - intros H. now contradiction H.
  - intros k frame Hk. destruct k; discriminate.
Qed.

Lemma after_ticks_frames_in_order canvas o f n :
  frames_in_order o (now (f O)) (fst (after_ticks canvas o f n)).
Proof.
  induction n as [|n IH]; [apply frames_in_order_start|].
  rewrite after_ticks_S.
  destruct (after_ticks canvas o f n) as [s [|]] eqn:E; [exact IH|].
  cbn [fst] in IH.
  assert (H : frames_in_order o (now (f O)) (fst (step canvas o s (f n)))).
  { apply step_frames_in_order; [exact IH|]. intros Hc0.
    destruct (running_state canvas o f n s E) as [[-> _]|[_ (H1 & _)]];
      [reflexivity | lia]. }
  now destruct (step canvas o s (f n)) as [s' [|]].
Qed.

Lemma after_ticks_shots canvas o f n :
  Forall (fun frame => exists j, (j < n)%nat /\ shot_at frame = now (f j))
    (frames (fst (after_ticks canvas o f n))).
Proof.
  induction n as [|n IH]; [constructor|].
  assert (IH' : Forall (fun frame => exists j, (j < S n)%nat /\ shot_at frame = now (f j))
                  (frames (fst (after_ticks canvas o f n)))).
  { eapply Forall_impl; [|exact IH]. intros frame (j & Hj & E).
    exists j. split; [lia | exact E]. }
  rewrite after_ticks_S.
  destruct (after_ticks canvas o f n) as [s [|]] eqn:E; [exact IH'|].
  cbn [fst] in IH'.
  assert (H : Forall (fun frame => exists j, (j < S n)%nat /\ shot_at frame = now (f j))
                (frames (fst (step canvas o s (f n))))).
  { destruct (step_fst canvas o s (f n)) as [-> | [_ ->]]; [exact IH'|].
    unfold with_capture, captureFrame, started.
    destruct (Nat.eqb (captured s) 0); cbn [frames];
      (apply Forall_app; split; [exact IH'|]);
      repeat constructor; exists n; (split; [lia | reflexivity]). }
  now destruct (step canvas o s (f n)) as [s' [|]].
Qed.



(** ** CaptureController: the vertical flip *)

Lemma ToUint8Clamp_of_byte (z : Z) : byte z -> ToUint8Clamp z = z.
Proof. unfold byte, ToUint8Clamp. lia. Qed.

Lemma subarray_length (a : list Z) (start stop : nat) :
  (stop <= length a)%nat -> length (subarray a start stop) = (stop - start)%nat.
Proof.
  intros H. unfold subarray. rewrite length_firstn, length_skipn. lia.
Qed.

Lemma subarray_nth (a : list Z) (start stop c : nat) (d : Z) :
  (c < stop - start)%nat ->
  nth c (subarray a start stop) d = nth (start + c) a d.
Proof.
  intros H. unfold subarray. rewrite nth_firstn.
  destruct (Nat.ltb_spec c (stop - start)); [|lia].
  apply nth_skipn.
Qed.

Lemma Forall_firstn_skipn {A} (P : A -> Prop) (n : nat) (l : list A) :
  Forall P l -> Forall P (firstn n l) /\ Forall P (skipn n l).
Proof.
  intros H. rewrite <- (firstn_skipn n l) in H. now apply Forall_app in H.
Qed.

Lemma subarray_bytes (a : list Z) (start stop : nat) :
  Forall byte a -> Forall byte (subarray a start stop).
Proof.
  intros H. unfold subarray.
  apply (Forall_firstn_skipn byte (stop - start)).
  now apply (Forall_firstn_skipn byte start).
Qed.

Lemma typed_set_spec (target source : list Z) (offset : nat) :
  (offset + length source <= length target)%nat ->
  Forall byte source ->
  exists out,
    typed_set target source offset = Some out /\
    length out = length target /\
    forall i d,
      nth i out d
      = if (offset <=? i)%nat && (i <? offset + length source)%nat
        then nth (i - offset) source d
        else nth i target d.
Proof.
  intros Hfit Hb. unfold typed_set.
  destruct (Nat.leb_spec (offset + length source) (length target)); [|lia].
  eexists. split; [reflexivity|]. split.
  - rewrite !length_app, length_map, length_firstn, length_skipn. lia.
  - intros i d.
    assert (Hmap : map ToUint8Clamp source = source).
    { rewrite <- (map_id source) at 2. apply map_ext_in. intros z Hz.
      apply ToUint8Clamp_of_byte. rewrite Forall_forall in Hb. now apply Hb. }
    rewrite Hmap.
    destruct (Nat.leb_spec offset i) as [Hle|Hlt]; cbn [andb].
    + rewrite app_nth2 by (rewrite length_firstn; lia).
      rewrite length_firstn, Nat.min_l by lia.
      destruct (Nat.ltb_spec i (offset + length source)) as [Hin|Hout].
      * rewrite app_nth1 by lia. reflexivity.
      * rewrite app_nth2 by lia. rewrite nth_skipn. f_equal. lia.
    + rewrite app_nth1 by (rewrite length_firstn; lia).
      rewrite nth_firstn. destruct (Nat.ltb_spec i offset); [reflexivity | lia].
Qed.

(** The rows written so far come from the source, the others are untouched. *)
Lemma flip_rows_spec (width height : nat) (pixelBuffer : list Z) (ys : list nat) :
  length pixelBuffer = (width * height * 4)%nat ->
  Forall byte pixelBuffer ->
  Forall (fun y => (y < height)%nat) ys ->
  forall flipped,
    length flipped = (width * height * 4)%nat ->
    exists out,
      flip_rows width height pixelBuffer ys flipped = Some out /\
      length out = (width * height * 4)%nat /\
      forall r c d,
        (r < height)%nat -> (c < width * 4)%nat ->
        nth (r * width * 4 + c) out d
        = if in_dec Nat.eq_dec (height - 1 - r)%nat ys
          then nth ((height - 1 - r) * width * 4 + c) pixelBuffer d
          else nth (r * width * 4 + c) flipped d.
Proof.
  intros Hsrc Hb Hys. induction Hys as [|y ys Hy Hys IH]; intros flipped Hlen.
  - exists flipped. split; [reflexivity|]. split; [exact Hlen|]. reflexivity.
  - cbn [flip_rows].
    set (row := subarray pixelBuffer (y * width * 4) (y * width * 4 + width * 4)).
    assert (Hrow : length row = (width * 4)%nat).
    { subst row. rewrite subarray_length by nia. lia. }
    destruct (typed_set_spec flipped row ((height - 1 - y) * width * 4))
      as (mid & Hset & Hmidlen & Hmid).
    { rewrite Hrow, Hlen. nia. }
    { subst row. now apply subarray_bytes. }
    rewrite Hset. cbn [bind].
    destruct (IH mid ltac:(lia)) as (out & Hout & Houtlen & Hnth).
    exists out. split; [exact Hout|]. split; [exact Houtlen|].
    intros r c d Hr Hc. rewrite (Hnth r c d Hr Hc).
    destruct (in_dec Nat.eq_dec (height - 1 - r)%nat ys) as [Hin|Hnin].
    + destruct (in_dec Nat.eq_dec (height - 1 - r)%nat (y :: ys)) as [_|Hn];
        [reflexivity|]. exfalso. apply Hn. now right.
    + rewrite Hmid, Hrow.
      destruct (in_dec Nat.eq_dec (height - 1 - r)%nat (y :: ys)) as [[E|Hin]|Hn].
      * assert (Er : (height - 1 - y = r)%nat) by lia.
        rewrite Er.
        destruct (Nat.leb_spec (r * width * 4) (r * width * 4 + c)); [|lia].
        destruct (Nat.ltb_spec (r * width * 4 + c) (r * width * 4 + width * 4)); [|lia].
        cbn [andb]. subst row. rewrite subarray_nth by lia.
        f_equal. rewrite <- E. lia.
      * contradiction.
      * assert (Hne : (height - 1 - y <> r)%nat).
        { intros E. apply Hn. left. lia. }
        destruct (Nat.leb_spec ((height - 1 - y) * width * 4) (r * width * 4 + c));
          destruct (Nat.ltb_spec (r * width * 4 + c)
                      ((height - 1 - y) * width * 4 + width * 4));
          cbn [andb]; try reflexivity.
        exfalso. nia.
Qed.

Lemma pixel_index (width height i : nat) :
  (i < width * height * 4)%nat ->
  exists r c, (r < height)%nat /\ (c < width * 4)%nat /\ i = (r * width * 4 + c)%nat.
Proof.
  intros Hi. assert (Hw : (width * 4 <> 0)%nat) by nia.
  exists (i / (width * 4))%nat, (i mod (width * 4))%nat.
  pose proof (Nat.div_mod_eq i (width * 4)) as E.
  pose proof (Nat.mod_upper_bound i (width * 4) Hw) as Hc.
  split; [apply Nat.Div0.div_lt_upper_bound; nia|]. split; [exact Hc|]. nia.
Qed.

Lemma same_pixels (width height : nat) (a b : list Z) :
  length a = (width * height * 4)%nat -> length b = (width * height * 4)%nat ->
  (forall r c, (r < height)%nat -> (c < width * 4)%nat ->
     nth (r * width * 4 + c) a 0%Z = nth (r * width * 4 + c) b 0%Z) ->
  a = b.
Proof.
  intros Ha Hb H. apply (nth_ext a b 0%Z 0%Z); [congruence|].
  intros i Hi. rewrite Ha in Hi.
  destruct (pixel_index width height i Hi) as (r & c & Hr & Hc & ->).
  now apply H.
Qed.

Lemma flip_spec (width height : nat) (pixelBuffer flipped : list Z) :
  length pixelBuffer = (width * height * 4)%nat ->
  length flipped = (width * height * 4)%nat ->
  Forall byte pixelBuffer ->
  exists out,
    flip width height pixelBuffer flipped = Some out /\
    length out = (width * height * 4)%nat /\
    forall r c d,
      (r < height)%nat -> (c < width * 4)%nat ->
      nth (r * width * 4 + c) out d
      = nth ((height - 1 - r) * width * 4 + c) pixelBuffer d.
Proof.
  intros Hsrc Hlen Hb. unfold flip.
  destruct (flip_rows_spec width height pixelBuffer (seq 0 height) Hsrc Hb)
    with (flipped := flipped) as (out & Hout & Houtlen & Hnth).
  - apply Forall_forall. intros y Hy. apply in_seq in Hy. lia.
  - exact Hlen.
  - exists out. split; [exact Hout|]. split; [exact Houtlen|].
    intros r c d Hr Hc. rewrite (Hnth r c d Hr Hc).
    destruct (in_dec Nat.eq_dec (height - 1 - r)%nat (seq 0 height)) as [_|Hn];
      [reflexivity|].
    exfalso. apply Hn, in_seq. lia.
Qed.

(** X10. The flip of [captureFrame] turns the image upside down: row [r] of
    the result is row [height - 1 - r] of the pixels read back, byte for
    byte; nothing of what the reused buffer held before remains; and
    flipping the result gives the pixels read back again. *)
Theorem flip_turns_the_image_upside_down
    (width height : nat) (pixelBuffer flipped : list Z) :
  length pixelBuffer = (width * height * 4)%nat ->
  length flipped = (width * height * 4)%nat ->
  Forall byte pixelBuffer ->
  exists out,
    flip width height pixelBuffer flipped = Some out /\
    length out = (width * height * 4)%nat /\
    (forall r c d,
       (r < height)%nat -> (c < width * 4)%nat ->
       nth (r * width * 4 + c) out d
       = nth ((height - 1 - r) * width * 4 + c) pixelBuffer d) /\
    (forall before,
       length before = (width * height * 4)%nat ->
       flip width height pixelBuffer before = Some out) /\
    (forall scratch,
       length scratch = (width * height * 4)%nat ->
       flip width height out scratch = Some pixelBuffer).
Proof.
  intros Hsrc Hlen Hb.
  destruct (flip_spec width height pixelBuffer flipped Hsrc Hlen Hb)
    as (out & Hout & Houtlen & Hnth).
  exists out. split; [exact Hout|]. split; [exact Houtlen|].
  split; [exact Hnth|]. split.
  - intros before Hbefore.
    destruct (flip_spec width height pixelBuffer before Hsrc Hbefore Hb)
      as (out' & Hout' & Hlen' & Hnth').
    rewrite Hout'. f_equal. apply (same_pixels width height); auto.
    intros r c Hr Hc. now rewrite Hnth, Hnth'.
  - intros scratch Hscratch.
    assert (Hbo : Forall byte out).
    { apply Forall_forall. intros z Hz.
      destruct (In_nth out z 0%Z Hz) as (i & Hi & <-).
      rewrite Houtlen in Hi.
      destruct (pixel_index width height i Hi) as (r & c & Hr & Hc & ->).
      rewrite Hnth by assumption. rewrite Forall_forall in Hb.
      apply Hb, nth_In. rewrite Hsrc. nia. }
    destruct (flip_spec width height out scratch Houtlen Hscratch Hbo)
      as (back & Hback & Hbacklen & Hnthb).
    rewrite Hback. f_equal. apply (same_pixels width height); auto.
    intros r c Hr Hc. rewrite Hnthb, Hnth by (assumption || lia).
    f_equal. nia.
Qed.

(** A 1 x 2 image: two rows of one RGBA pixel. *)
Lemma flip_witness :
  exists out,
    flip 1 2 [1; 2; 3; 4; 5; 6; 7; 8]%Z [9; 9; 9; 9; 9; 9; 9; 9]%Z = Some out /\
    out = [5; 6; 7; 8; 1; 2; 3; 4]%Z.
Proof.
  destruct (flip_turns_the_image_upside_down 1 2
              [1; 2; 3; 4; 5; 6; 7; 8]%Z [9; 9; 9; 9; 9; 9; 9; 9]%Z)
    as (out & Hout & _).
  - reflexivity.
  - reflexivity.
  - repeat constructor; unfold byte; lia.
  - exists out. split; [exact Hout|].
    vm_compute in Hout. now injection Hout as <-.
Defined.

(** ** App: the export form and the capture *)

Lemma Math_max_ge_l (a b : Q) : a <= Math_max a b.
Proof. destruct (Math_max_spec a b) as [[? ->]|[? ->]]; lra. Qed.

Lemma Math_max_ge_r (a b : Q) : b <= Math_max a b.
Proof. destruct (Math_max_spec a b) as [[? ->]|[? ->]]; lra. Qed.

Lemma Math_min_le_l (a b : Q) : Math_min a b <= a.
Proof. destruct (Math_min_spec a b) as [[? ->]|[? ->]]; lra. Qed.

Lemma Math_min_le_r (a b : Q) : Math_min a b <= b.
Proof. destruct (Math_min_spec a b) as [[? ->]|[? ->]]; lra. Qed.

(** [Math.max(a, b)] is [b] itself when [a <= b]; [Math.min(a, b)] is [b]
    itself when [b < a] or [b] is [a]. *)
Lemma Math_max_absorb (a b : Q) : a <= b -> Math_max a b = b.
Proof. intros H. unfold Math_max. destruct (Qle_bool_spec a b); [reflexivity | lra]. Qed.

Lemma Math_min_absorb (a v : Q) : Math_min a (Math_min a v) = Math_min a v.
Proof.
  unfold Math_min. destruct (Qle_bool_spec a v) as [H|H].
  - destruct (Qle_bool_spec a a); [reflexivity | lra].
  - destruct (Qle_bool_spec a v); [lra | reflexivity].
Qed.

Lemma exportOptions_fps (gifDuration gifFps gifScale : Q) :
  fps (exportOptions gifDuration gifFps gifScale)
  = inject_Z (Z.min 30 (Z.max 1 (Math_round (or_else gifFps 0)))).
Proof.
  cbn [exportOptions fps]. change 1 with (inject_Z 1). change 30 with (inject_Z 30).
  now rewrite Math_max_inject_Z, Math_min_inject_Z.
Qed.

(** X11. What the export form hands over is already in range: a duration in
    [0.5,10], a whole frame rate in [1,30] and a scale in [0.1,1], which the
    sanitising of [captureGif] leaves exactly as they are; so a capture from
    the form asks for at most 300 frames, at a delay of at least 33 ms. *)
Theorem export_form_options_pass_unchanged (gifDuration gifFps gifScale : Q) :
  (1 # 2) <= duration (exportOptions gifDuration gifFps gifScale) <= 10 /\
  (exists n : Z,
     fps (exportOptions gifDuration gifFps gifScale) = inject_Z n /\
     (1 <= n <= 30)%Z) /\
  (1 # 10) <= scale (exportOptions gifDuration gifFps gifScale) <= 1 /\
  sanitizedDuration (exportOptions gifDuration gifFps gifScale)
  = duration (exportOptions gifDuration gifFps gifScale) /\
  sanitizedFps (exportOptions gifDuration gifFps gifScale)
  = fps (exportOptions gifDuration gifFps gifScale) /\
  sanitizedScale (exportOptions gifDuration gifFps gifScale)
  = scale (exportOptions gifDuration gifFps gifScale) /\
  frameCount (exportOptions gifDuration gifFps gifScale) <= 300 /\
  33 <= delayMs (exportOptions gifDuration gifFps gifScale).
Proof.
  set (o := exportOptions gifDuration gifFps gifScale).
  assert (Hd : (1 # 2) <= duration o <= 10).
  { subst o. cbn [exportOptions duration]. split; [apply Math_max_ge_l|].
    destruct (Math_max_spec (1 # 2) (Math_min 10 (or_else gifDuration 0)))
      as [[? ->]|[? ->]]; [apply Math_min_le_l | lra]. }
  assert (Hf : fps o = inject_Z (Z.min 30 (Z.max 1 (Math_round (or_else gifFps 0)))))
    by apply exportOptions_fps.
  assert (Hs : (1 # 10) <= scale o <= 1).
  { subst o. cbn [exportOptions scale]. split; [|apply Math_min_le_l].
    destruct (Math_min_spec 1 (Math_max (1 # 10) (or_else gifScale 1)))
      as [[? ->]|[? ->]]; [lra | apply Math_max_ge_l]. }
  assert (Ed : sanitizedDuration o = duration o).
  { unfold sanitizedDuration. apply Math_max_absorb. lra. }
  assert (Ef : sanitizedFps o = fps o).
  { unfold sanitizedFps. rewrite Hf, Math_round_inject_Z.
    change 1 with (inject_Z 1). change 60 with (inject_Z 60).
    rewrite Math_max_inject_Z, Math_min_inject_Z. f_equal. lia. }
  assert (Es : sanitizedScale o = scale o).
  { unfold sanitizedScale, Number_isFinite. subst o. cbn [exportOptions scale].
    rewrite Math_max_absorb; [apply Math_min_absorb|].
    destruct (Math_min_spec 1 (Math_max (1 # 10) (or_else gifScale 1)))
      as [[? ->]|[? ->]]; [lra | apply Math_max_ge_l]. }
  assert (Hf30 : 1 <= fps o <= 30).
  { rewrite Hf. change 1 with (inject_Z 1). change 30 with (inject_Z 30).
    rewrite <- !Zle_Qle. lia. }
  split; [exact Hd|]. split; [eexists; split; [exact Hf | lia]|].
  split; [exact Hs|]. split; [exact Ed|]. split; [exact Ef|]. split; [exact Es|].
  split.
  - unfold frameCount. rewrite Ed, Ef.
    assert (H : duration o * fps o <= 300) by nra.
    assert (Hr : (Math_round (duration o * fps o) <= Math_round 300)%Z)
      by now apply Math_round_mono.
    change (Math_round 300) with 300%Z in Hr.
    change 1 with (inject_Z 1). rewrite Math_max_inject_Z.
    change 300 with (inject_Z 300). rewrite <- Zle_Qle. lia.
  - unfold delayMs, frameIntervalMs. rewrite Ef.
    assert (H : 1000 / 30 <= 1000 / fps o).
    { apply Qle_shift_div_l; [lra|].
      assert (E : 1000 / 30 * fps o <= 1000 / 30 * 30)
        by (apply Qmult_le_l; [reflexivity | lra]).
      assert (E' : 1000 / 30 * 30 == 1000) by reflexivity. lra. }
    assert (Hr : (Math_round (1000 / 30) <= Math_round (1000 / fps o))%Z)
      by now apply Math_round_mono.
    change (Math_round (1000 / 30)) with 33%Z in Hr.
    eapply Qle_trans; [|apply Math_max_ge_r].
    change 33 with (inject_Z 33). rewrite <- Zle_Qle. exact Hr.
Qed.

(** ** App: the ramp controller *)

Lemma point_id_inj (k k' : nat) : point_id k = point_id k' -> k = k'.
Proof.
  unfold point_id, number_to_string. intros H. simpl in H.
  injection H as H.
  apply DecimalNat.Unsigned.to_uint_inj.
  apply (f_equal DecimalString.NilEmpty.uint_of_string) in H.
  rewrite !DecimalString.NilEmpty.usu in H. congruence.
Qed.

Lemma findIndex_Some id0 l i :
  findIndex id0 l = Some i ->
  exists point, nth_error l i = Some point /\ id point = id0.
Proof.
  revert i. induction l as [|p l IH]; intros i H; simpl in H; [discriminate|].
  destruct (String.eqb_spec (id p) id0) as [E|E].
  - injection H as <-. now exists p.
  - destruct (findIndex id0 l) as [j|]; [|discriminate].
    injection H as <-. destruct (IH j eq_refl) as (q & Hq & Hid).
    now exists q.
Qed.

Lemma findIndex_None id0 l :
  findIndex id0 l = None -> Forall (fun point => id point <> id0) l.
Proof.
  induction l as [|p l IH]; intros H; simpl in H; [constructor|].
  destruct (String.eqb_spec (id p) id0) as [E|E]; [discriminate|].
  destruct (findIndex id0 l); [discriminate|]. constructor; auto.
Qed.

Lemma replace_nth_length l i p : length (replace_nth l i p) = length l.
Proof. revert i. induction l; intros [|i]; simpl; auto. Qed.

Lemma replace_nth_Forall (P : RampPoint -> Prop) l i p :
  Forall P l -> P p -> Forall P (replace_nth l i p).
Proof.
  intros Hl Hp. revert i. induction Hl as [|a l Ha Hl IH]; intros [|i]; simpl;
    constructor; auto.
Qed.

Lemma replace_nth_ids l i point p :
  nth_error l i = Some point -> id p = id point ->
  map id (replace_nth l i p) = map id l.
Proof.
  revert i. induction l as [|a l IH]; intros [|i] H E; simpl in *;
    try discriminate.
  - injection H as ->. now rewrite E.
  - f_equal. now apply IH.
Qed.

Lemma replace_nth_app1 l1 l2 i p :
  (i < length l1)%nat ->
  replace_nth (l1 ++ l2) i p = replace_nth l1 i p ++ l2.
Proof.
  revert i. induction l1 as [|a l1 IH]; intros [|i] H; simpl in *; try lia;
    [reflexivity|]. f_equal. apply IH. lia.
Qed.

Lemma replace_nth_last l a p :
  replace_nth (l ++ [a]) (length l) p = l ++ [p].
Proof. induction l as [|b l IH]; simpl; [reflexivity | now rewrite IH]. Qed.

Lemma replace_nth_In l i p q :
  In q (replace_nth l i p) -> q = p \/ In q l.
Proof.
  revert i. induction l as [|a l IH]; intros [|i] H; simpl in *; auto.
  - destruct H as [<-|H]; auto.
  - destruct H as [<-|H]; auto. destruct (IH i H); auto.
Qed.

(** What [updatePoint] does: nothing, or one handle replaced by a handle of
    the unit square. *)
Lemma updatePoint_cases prev id0 next :
  updatePoint prev id0 next = prev \/
  exists index point updated,
    nth_error prev index = Some point /\ id point = id0 /\
    updatePoint prev id0 next = replace_nth prev index updated /\
    id updated = match p_id next with Some v => v | None => id point end /\
    locked updated
    = match p_locked next with Some v => Some v | None => locked point end /\
    unit_point updated /\
    (is_locked point = true -> x updated = clamp (x point) 0 1).
Proof.
  unfold updatePoint.
  destruct (findIndex id0 prev) as [index|] eqn:Hi; [|now left].
  destruct (findIndex_Some id0 prev index Hi) as (point & Hp & Hid).
  rewrite Hp. right. eexists index, point, _.
  split; [exact Hp|]. split; [exact Hid|]. split; [reflexivity|].
  cbn [with_xy spread id locked x y]. split; [reflexivity|].
  split; [reflexivity|]. split.
  - split; apply clamp_range; lra.
  - intros ->. reflexivity.
Qed.

Lemma is_locked_locked p q : locked p = locked q -> is_locked p = is_locked q.
Proof. unfold is_locked. now intros ->. Qed.

Lemma clamp_at v v' lo hi : v == v' -> clamp v lo hi == clamp v' lo hi.
Proof.
  intros E. unfold clamp.
  assert (M : Math_max v lo == Math_max v' lo).
  { apply Qle_antisym; apply Math_max_mono; rewrite E; apply Qle_refl. }
  apply Qle_antisym; apply Math_min_mono; rewrite M; apply Qle_refl.
Qed.

Lemma selection_ok_ids sel l l' :
  map id l' = map id l -> selection_ok sel l -> selection_ok sel l'.
Proof.
  intros E. destruct sel as [i|]; simpl; [|auto].
  intros (p & Hin & Hid).
  assert (H : In i (map id l')) by (rewrite E, <- Hid; now apply in_map).
  apply in_map_iff in H. destruct H as (q & Hq & Hq'). now exists q.
Qed.

Lemma ids_drawn_ids n l l' :
  map id l' = map id l -> ids_drawn n l -> ids_drawn n l'.
Proof.
  unfold ids_drawn. intros E H. rewrite Forall_forall in *. intros q Hq.
  assert (Hi : In (id q) (map id l)) by (rewrite <- E; now apply in_map).
  apply in_map_iff in Hi. destruct Hi as (p & Hp & Hp').
  destruct (H p Hp') as (k & Hk & Hk'). exists k. split; [exact Hk | congruence].
Qed.

(** A patch of [x] and [y] keeps a ramp well formed. *)
Lemma updatePoint_keeps c id0 next :
  p_id next = None -> p_locked next = None -> ramp_ok c ->
  ramp_ok (mkController (updatePoint (points c) id0 next) (selectedId c) (counter c)).
Proof.
  intros Hi Hl Hok.
  destruct (updatePoint_cases (points c) id0 next) as [E|E].
  { rewrite E. exact Hok. }
  destruct E as (index & point & updated & Hnth & _ & E & Eid & Eloc & Hunit & Hx).
  rewrite Hi in Eid. rewrite Hl in Eloc. rewrite E. clear E.
  destruct Hok as (Hshape & Hu & Hnd & Hids & Hsel).
  pose proof (replace_nth_ids _ _ _ updated Hnth Eid) as Emap.
  unfold ramp_ok. cbn [points selectedId counter].
  split; [|split; [|split; [|split]]].
  - destruct Hshape as (first & middle & last & Hp & Lf & Xf & Ll & Xl & Hm).
    assert (Hunit_pt : unit_point point).
    { rewrite Forall_forall in Hu. apply Hu. eapply nth_error_In; eauto. }
    assert (Hkeep : is_locked point = true -> x updated == x point).
    { intros L. rewrite (Hx L). apply clamp_eq; apply Hunit_pt. }
    rewrite Hp in *. destruct index as [|j].
    + simpl in Hnth. injection Hnth as ->. simpl.
      exists updated, middle, last.
      split; [reflexivity|]. split.
      { rewrite (is_locked_locked _ _ Eloc). exact Lf. }
      split; [rewrite (Hkeep Lf); exact Xf|]. auto.
    + simpl in Hnth. simpl.
      destruct (Nat.lt_ge_cases j (length middle)) as [Hj|Hj].
      * rewrite replace_nth_app1 by exact Hj.
        rewrite nth_error_app1 in Hnth by exact Hj.
        exists first, (replace_nth middle j updated), last.
        split; [reflexivity|]. do 4 (split; [assumption|]).
        apply replace_nth_Forall; [exact Hm|].
        rewrite (is_locked_locked _ _ Eloc).
        rewrite Forall_forall in Hm. apply Hm. eapply nth_error_In; eauto.
      * rewrite nth_error_app2 in Hnth by exact Hj.
        destruct (j - length middle)%nat as [|d] eqn:Hd;
          [|destruct d; discriminate].
        simpl in Hnth. injection Hnth as ->.
        assert (j = length middle) as -> by lia.
        rewrite replace_nth_last.
        exists first, middle, updated.
        split; [reflexivity|]. do 2 (split; [assumption|]). split.
        { rewrite (is_locked_locked _ _ Eloc). exact Ll. }
        split; [rewrite (Hkeep Ll); exact Xl | exact Hm].
  - apply replace_nth_Forall; assumption.
  - rewrite Emap. exact Hnd.
  - eapply ids_drawn_ids; eauto.
  - eapply selection_ok_ids; eauto.
Qed.

Lemma NoDup_map_filter {A B : Type} (g : A -> B) (f : A -> bool) (l : list A) :
  NoDup (map g l) -> NoDup (map g (filter f l)).
Proof.
  induction l as [|a l IH]; simpl; intros H; [constructor|].
  inversion H as [|? ? Hn Hd]; subst.
  destruct (f a); simpl; [constructor|]; auto.
  intros Hin. apply Hn. apply in_map_iff in Hin.
  destruct Hin as (b & Hb & Hin). apply filter_In in Hin.
  rewrite <- Hb. apply in_map. apply Hin.
Qed.

Lemma Forall_filter {A : Type} (P : A -> Prop) (f : A -> bool) (l : list A) :
  Forall P l -> Forall P (filter f l).
Proof.
  rewrite !Forall_forall. intros H a Ha. apply filter_In in Ha. apply H, Ha.
Qed.

(** In a well-formed ramp an unlocked handle is one of the middle, and no
    end shares its id. *)
Lemma unlocked_in_the_middle first middle last target :
  NoDup (map id (first :: middle ++ [last])) ->
  is_locked first = true -> is_locked last = true ->
  In target (first :: middle ++ [last]) -> is_locked target = false ->
  In target middle /\ id first <> id target /\ id last <> id target.
Proof.
  intros Hnd Lf Ll Hin Lt.
  assert (Hm : In target middle).
  { simpl in Hin. destruct Hin as [<-|Hin]; [congruence|].
    apply in_app_or in Hin. destruct Hin as [Hin|[<-|[]]]; [exact Hin | congruence]. }
  split; [exact Hm|].
  simpl in Hnd. rewrite map_app in Hnd. simpl in Hnd.
  inversion Hnd as [|? ? Hn Hd]; subst. split.
  - intros E. apply Hn. rewrite E. apply in_or_app. left. now apply in_map.
  - intros E. apply NoDup_remove_2 in Hd. apply Hd. rewrite app_nil_r.
    rewrite E. now apply in_map.
Qed.

(** The shape of the ramp after a removal that takes place. *)
Lemma removePoint_cases c id0 :
  ramp_ok c ->
  removePoint c id0 = c \/
  exists first middle last target,
    points c = first :: middle ++ [last] /\
    In target middle /\ id target = id0 /\ is_locked target = false /\
    (2 < length (points c))%nat /\
    points (removePoint c id0)
    = filter (fun point => negb (String.eqb (id point) id0)) (points c) /\
    points (removePoint c id0)
    = first :: filter (fun point => negb (String.eqb (id point) id0)) middle
        ++ [last] /\
    counter (removePoint c id0) = counter c /\
    selection_ok (selectedId (removePoint c id0)) (points (removePoint c id0)).
Proof.
  intros (Hshape & Hu & Hnd & Hids & Hsel).
  unfold removePoint.
  destruct (length (points c) <=? 2)%nat eqn:Hlen; [now left|].
  destruct (findIndex id0 (points c)) as [t|] eqn:Hi; [|now left].
  destruct (findIndex_Some _ _ _ Hi) as (target & Hnth & Hid).
  rewrite Hnth. destruct (is_locked target) eqn:Lt; [now left|]. right.
  destruct Hshape as (first & middle & last & Hp & Lf & Xf & Ll & Xl & Hm).
  exists first, middle, last, target.
  apply nth_error_In in Hnth. rewrite Hp in Hnth, Hnd.
  destruct (unlocked_in_the_middle _ _ _ _ Hnd Lf Ll Hnth Lt) as (Hin & Nf & Nl).
  cbn [points counter selectedId].
  assert (Ef : filter (fun point => negb (String.eqb (id point) id0)) (points c)
               = first :: filter (fun point => negb (String.eqb (id point) id0))
                            middle ++ [last]).
  { rewrite Hp. simpl. rewrite filter_app. simpl.
    destruct (String.eqb_spec (id first) id0) as [E|_]; [congruence|].
    destruct (String.eqb_spec (id last) id0) as [E|_]; [congruence|].
    reflexivity. }
  split; [exact Hp|]. split; [exact Hin|]. split; [exact Hid|].
  split; [exact Lt|]. split; [apply Nat.leb_gt in Hlen; exact Hlen|].
  split; [reflexivity|]. split; [exact Ef|]. split; [reflexivity|].
  destruct (selectedId c) as [current|] eqn:Hs; [|exact I].
  destruct (String.eqb_spec current id0) as [E|E].
  - set (l' := filter _ (points c)) in *.
    destruct (nth_error l' (Nat.min t (length l' - 1))) as [q|] eqn:Hq.
    + simpl. exists q. split; [|reflexivity]. eapply nth_error_In; eauto.
    + exfalso. apply nth_error_None in Hq. rewrite Ef in Hq. simpl in Hq. lia.
  - simpl. simpl in Hsel. destruct Hsel as (p & Hp' & Hp'').
    exists p. split; [|exact Hp'']. apply filter_In. split; [exact Hp'|].
    destruct (String.eqb_spec (id p) id0); [congruence | reflexivity].
Qed.

(** A removal keeps a ramp well formed. *)
Lemma removePoint_keeps c id0 : ramp_ok c -> ramp_ok (removePoint c id0).
Proof.
  intros Hok. destruct (removePoint_cases c id0 Hok) as [->|H]; [exact Hok|].
  destruct H as (first & middle & last & target & Hp & _ & _ & _ & _ & Ef & E & Ec & Hsel).
  destruct Hok as (Hshape & Hu & Hnd & Hids & _).
  destruct Hshape as (first' & middle' & last' & Hp' & Lf & Xf & Ll & Xl & Hm).
  rewrite Hp in Hp'. injection Hp' as <- Hp'.
  apply app_inj_tail in Hp'. destruct Hp' as [<- <-].
  unfold ramp_ok. split; [|split; [|split; [|split]]].
  - exists first, (filter (fun point => negb (String.eqb (id point) id0)) middle), last.
    split; [exact E|]. do 4 (split; [assumption|]). now apply Forall_filter.
  - rewrite Ef. now apply Forall_filter.
  - rewrite Ef. now apply NoDup_map_filter.
  - rewrite Ef, Ec. now apply Forall_filter.
  - exact Hsel.
Qed.

Lemma insert_point_perm a l : Permutation (insert_point a l) (a :: l).
Proof.
  induction l as [|b l IH]; simpl; [reflexivity|].
  destruct (Qltb (x b) (x a)); [|reflexivity].
  rewrite IH. apply perm_swap.
Qed.

Lemma sort_points_perm l : Permutation (sort_points l) l.
Proof.
  induction l as [|a l IH]; simpl; [reflexivity|].
  rewrite insert_point_perm. now apply perm_skip.
Qed.

Lemma insert_point_before_last a m z :
  x a <= x z -> insert_point a (m ++ [z]) = insert_point a m ++ [z].
Proof.
  intros H. induction m as [|b m IH]; simpl.
  - destruct (Qltb_spec (x z) (x a)) as [C|_]; [lra | reflexivity].
  - destruct (Qltb (x b) (x a)); [now rewrite IH | reflexivity].
Qed.

(** A point appended after the greatest one sorts in before it. *)
Lemma sort_points_past_the_last l z new :
  Forall (fun a => x a <= x z) l -> x new < x z ->
  sort_points (l ++ [z; new]) = sort_points (l ++ [new]) ++ [z].
Proof.
  intros Hl Hn. induction Hl as [|a l Ha Hl IH]; simpl.
  - destruct (Qltb_spec (x new) (x z)) as [_|C]; [reflexivity | lra].
  - rewrite IH. now apply insert_point_before_last.
Qed.

Lemma insert_point_first a m :
  Forall (fun b => x a <= x b) m -> insert_point a m = a :: m.
Proof.
  intros H. destruct H as [|b m Hb _]; simpl; [reflexivity|].
  destruct (Qltb_spec (x b) (x a)) as [C|_]; [lra | reflexivity].
Qed.

Lemma pin_last_shape f m z :
  pin_last (f :: m ++ [z])
  = f :: m ++ [if is_locked z then with_xy z 1 (y z) else z].
Proof.
  unfold pin_last. change (f :: m ++ [z]) with ((f :: m) ++ [z]).
  assert (E : (length ((f :: m) ++ [z]) - 1 = length (f :: m))%nat).
  { rewrite length_app. simpl. lia. }
  rewrite E.
  assert (L : (1 <? length ((f :: m) ++ [z]))%nat = true).
  { apply Nat.ltb_lt. rewrite length_app. simpl. lia. }
  rewrite L, nth_error_app2, Nat.sub_diag by lia. simpl nth_error.
  cbv beta iota. destruct (is_locked z); [|reflexivity].
  change (length (f :: m)) with (length (f :: m)).
  rewrite (replace_nth_last (f :: m)). reflexivity.
Qed.

(** The ramp after [addPoint], for a point that is not right of the last
    handle and not left of the first. *)
Lemma addPoint_shape c x0 y0 first middle last :
  points c = first :: middle ++ [last] ->
  is_locked first = true -> is_locked last = true ->
  Forall (fun a => x first <= x a /\ x a <= x last) middle ->
  x first <= x0 -> x0 < x last -> x first <= x last ->
  points (addPoint c x0 y0)
  = with_xy first 0 (y first)
      :: sort_points (middle ++ [mkRampPoint (point_id (S (counter c))) x0 y0 None])
      ++ [with_xy last 1 (y last)].
Proof.
  intros Hp Lf Ll Hm H0 H1 Hfl. unfold addPoint.
  change (createPoint (counter c) x0 y0 no_opts)
    with (S (counter c), mkRampPoint (point_id (S (counter c))) x0 y0 None).
  cbn [points]. set (new := mkRampPoint _ x0 y0 None).
  rewrite Hp. simpl app. rewrite <- app_assoc. simpl app. simpl sort_points.
  rewrite sort_points_past_the_last.
  2:{ eapply Forall_impl; [|exact Hm]. simpl. intros a Ha. apply Ha. }
  2:{ exact H1. }
  rewrite insert_point_first.
  2:{ apply Forall_app. split; [|constructor; [exact Hfl | constructor]].
      rewrite Forall_forall. intros b Hb.
      apply (Permutation_in _ (sort_points_perm _)) in Hb.
      apply in_app_or in Hb. destruct Hb as [Hb|[<-|[]]]; [|exact H0].
      rewrite Forall_forall in Hm. apply (Hm b Hb). }
  unfold pin_first. rewrite Lf. rewrite pin_last_shape, Ll. reflexivity.
Qed.

Lemma ids_drawn_fresh n l : ids_drawn n l -> ~ In (point_id (S n)) (map id l).
Proof.
  intros H Hin. apply in_map_iff in Hin. destruct Hin as (p & Hp & Hin).
  unfold ids_drawn in H. rewrite Forall_forall in H.
  destruct (H p Hin) as (k & Hk & Hk'). rewrite Hk' in Hp.
  apply point_id_inj in Hp. lia.
Qed.

Lemma ids_drawn_more n m l : (n <= m)%nat -> ids_drawn n l -> ids_drawn m l.
Proof.
  intros Hnm H. eapply Forall_impl; [|exact H]. simpl.
  intros p (k & Hk & Hk'). exists k. split; [lia | exact Hk'].
Qed.

(** A new point strictly inside the ramp keeps it well formed. *)
Lemma addPoint_keeps c x0 y0 :
  0 <= x0 -> x0 < 1 -> 0 <= y0 <= 1 -> ramp_ok c -> ramp_ok (addPoint c x0 y0).
Proof.
  intros H0 H1 Hy (Hshape & Hu & Hnd & Hids & _).
  destruct Hshape as (first & middle & last & Hp & Lf & Xf & Ll & Xl & Hm).
  assert (Hu' := Hu). rewrite Hp in Hu'.
  apply Forall_cons_iff in Hu'. destruct Hu' as [Uf Hu'].
  apply Forall_app in Hu'. destruct Hu' as [Um Ul].
  apply Forall_cons_iff in Ul. destruct Ul as [Ul _].
  assert (E : points (addPoint c x0 y0)
              = with_xy first 0 (y first)
                  :: sort_points
                       (middle ++ [mkRampPoint (point_id (S (counter c))) x0 y0 None])
                  ++ [with_xy last 1 (y last)]).
  { apply addPoint_shape; auto; try (rewrite ?Xf, ?Xl; lra).
    eapply Forall_impl; [|exact Um]. simpl. intros a Ha.
    rewrite Xf, Xl. split; apply Ha. }
  set (new := mkRampPoint (point_id (S (counter c))) x0 y0 None) in *.
  assert (Pm : Permutation (sort_points (middle ++ [new])) (new :: middle)).
  { rewrite sort_points_perm. symmetry. apply Permutation_cons_append. }
  assert (Ec : counter (addPoint c x0 y0) = S (counter c)) by reflexivity.
  assert (Es : selectedId (addPoint c x0 y0) = Some (id new)) by reflexivity.
  unfold ramp_ok. rewrite E, Ec, Es. split; [|split; [|split; [|split]]].
  - eexists _, _, _. split; [reflexivity|]. cbn [is_locked with_xy locked x].
    split; [exact Lf|]. split; [reflexivity|]. split; [exact Ll|].
    split; [reflexivity|].
    eapply Permutation_Forall; [symmetry; exact Pm|].
    constructor; [reflexivity | exact Hm].
  - constructor; [split; [cbn; lra | apply Uf]|].
    apply Forall_app. split.
    + eapply Permutation_Forall; [symmetry; exact Pm|].
      constructor; [|exact Um]. split; cbn; lra.
    + constructor; [|constructor]. split; [cbn; lra | apply Ul].
  - apply (Permutation_NoDup (l := id new :: map id (points c))).
    + rewrite Hp. cbn [map with_xy id]. rewrite !map_app. cbn [map with_xy id].
      rewrite perm_swap. apply perm_skip.
      change (id new :: map id middle ++ [id last])
        with ((id new :: map id middle) ++ [id last]).
      apply Permutation_app_tail. symmetry.
      apply (Permutation_map id) in Pm. exact Pm.
    + constructor; [|exact Hnd]. now apply ids_drawn_fresh.
  - assert (Hall : ids_drawn (S (counter c)) (new :: points c)).
    { constructor.
      - exists (S (counter c)). split; [lia | reflexivity].
      - eapply ids_drawn_more; [|exact Hids]. lia. }
    rewrite Hp in Hall. unfold ids_drawn in *.
    apply Forall_cons_iff in Hall. destruct Hall as [Hn Hall].
    apply Forall_cons_iff in Hall. destruct Hall as [Hf Hall].
    apply Forall_app in Hall. destruct Hall as [Hmid Hl].
    apply Forall_cons_iff in Hl. destruct Hl as [Hl _].
    constructor; [exact Hf|]. apply Forall_app. split.
    + eapply Permutation_Forall; [symmetry; exact Pm|]. now constructor.
    + constructor; [exact Hl | constructor].
  - simpl. exists new. split; [|reflexivity]. right. apply in_or_app. left.
    apply (Permutation_in _ (Permutation_sym Pm)). now left.
Qed.

Lemma buildPreset_from_counter counter index len pts :
  fst (buildPreset_from counter index len pts) = (counter + length pts)%nat.
Proof.
  revert counter index. induction pts as [|pt pts IH]; intros counter index;
    simpl; [lia|].
  specialize (IH (S counter) (S index)).
  destruct (buildPreset_from (S counter) (S index) len pts) as [n others].
  simpl in *. lia.
Qed.

Lemma buildPreset_from_ids counter index len pts :
  map id (snd (buildPreset_from counter index len pts))
  = map point_id (seq (S counter) (length pts)).
Proof.
  revert counter index. induction pts as [|pt pts IH]; intros counter index;
    simpl; [reflexivity|].
  specialize (IH (S counter) (S index)).
  destruct (buildPreset_from (S counter) (S index) len pts) as [n others].
  simpl in *. now rewrite IH.
Qed.

Lemma buildPreset_from_coordinates counter index len pts :
  map (fun point => (x point, y point))
    (snd (buildPreset_from counter index len pts)) = pts.
Proof.
  revert counter index. induction pts as [|[a b] pts IH]; intros counter index;
    simpl; [reflexivity|].
  specialize (IH (S counter) (S index)).
  destruct (buildPreset_from (S counter) (S index) len pts) as [n others].
  simpl in *. now rewrite IH.
Qed.

(** Past the first entry, [buildPreset] locks the last point only. *)
Lemma buildPreset_from_rest counter index len cmid clast :
  (1 <= index)%nat -> (index + length cmid + 1 = len)%nat ->
  exists middle last,
    snd (buildPreset_from counter index len (cmid ++ [clast])) = middle ++ [last] /\
    Forall (fun point => is_locked point = false) middle /\
    is_locked last = true.
Proof.
  revert counter index. induction cmid as [|pt cmid IH]; intros counter index H1 Hl.
  - exists [], (mkRampPoint (point_id (S counter)) (xof clast) (yof clast) (Some true)).
    simpl in *. split; [|split; [constructor | reflexivity]].
    assert (E : (index =? 0)%nat
                || (Z.of_nat index =? Z.of_nat len - 1)%Z = true).
    { apply orb_true_iff. right. apply Z.eqb_eq. lia. }
    rewrite E. reflexivity.
  - simpl in Hl.
    destruct (IH (S counter) (S index)) as (middle & last & E & Hm & Ll);
      [lia | lia |].
    exists (mkRampPoint (point_id (S counter)) (xof pt) (yof pt) (Some false)
            :: middle), last.
    simpl.
    destruct (buildPreset_from (S counter) (S index) len (cmid ++ [clast]))
      as [n others].
    simpl in *. rewrite E.
    assert (F : (index =? 0)%nat
                || (Z.of_nat index =? Z.of_nat len - 1)%Z = false).
    { apply orb_false_iff. split; [apply Nat.eqb_neq; lia | apply Z.eqb_neq; lia]. }
    rewrite F. split; [reflexivity|]. split; [|exact Ll].
    constructor; [reflexivity | exact Hm].
Qed.

Lemma find_unlocked_In l point : find_unlocked l = Some point -> In point l.
Proof.
  induction l as [|a l IH]; simpl; [discriminate|].
  destruct (is_locked a); [auto|]. intros H. injection H as ->. now left.
Qed.

Lemma preset_selection_ok l : selection_ok (preset_selection l) l.
Proof.
  unfold preset_selection. destruct (find_unlocked l) as [p|] eqn:E.
  - exists p. split; [now apply find_unlocked_In | reflexivity].
  - destruct l as [|a l]; simpl; [exact I|]. exists a. split; [now left | reflexivity].
Qed.

Lemma buildPreset_shape n0 c0 cmid clast :
  exists middle last,
    snd (buildPreset n0 (c0 :: cmid ++ [clast]))
    = mkRampPoint (point_id (S n0)) (xof c0) (yof c0) (Some true)
        :: middle ++ [last] /\
    Forall (fun point => is_locked point = false) middle /\
    is_locked last = true.
Proof.
  unfold buildPreset.
  remember (length (c0 :: cmid ++ [clast])) as len eqn:Hl.
  destruct (buildPreset_from_rest (S n0) 1 len cmid clast)
    as (middle & last & E & Hm & Ll).
  { lia. }
  { rewrite Hl. simpl. rewrite length_app. simpl. lia. }
  exists middle, last. simpl.
  destruct (buildPreset_from (S n0) 1 len (cmid ++ [clast])) as [n others].
  simpl in *. rewrite E. auto.
Qed.

(** [buildPreset] of a configuration that starts at [x = 0], ends at [x = 1]
    and lies in the unit square, whatever the counter. *)
Lemma buildPreset_ok n0 c0 cmid clast :
  xof c0 == 0 -> xof clast == 1 ->
  Forall (fun point => 0 <= xof point <= 1 /\ 0 <= yof point <= 1)
    (c0 :: cmid ++ [clast]) ->
  ramp_ok (mkController (snd (buildPreset n0 (c0 :: cmid ++ [clast])))
             (preset_selection (snd (buildPreset n0 (c0 :: cmid ++ [clast]))))
             (fst (buildPreset n0 (c0 :: cmid ++ [clast])))).
Proof.
  intros X0 X1 Hu. unfold ramp_ok. cbn [points selectedId counter].
  set (cfg := c0 :: cmid ++ [clast]) in *.
  pose proof (buildPreset_from_counter n0 0 (length cfg) cfg) as Ec.
  pose proof (buildPreset_from_ids n0 0 (length cfg) cfg) as Ei.
  pose proof (buildPreset_from_coordinates n0 0 (length cfg) cfg) as Exy.
  fold (buildPreset n0 cfg) in Ec, Ei, Exy.
  split; [|split; [|split; [|split]]].
  - destruct (buildPreset_shape n0 c0 cmid clast) as (middle & last & Es & Hm & Ll).
    fold cfg in Es.
    eexists _, middle, last. split; [exact Es|].
    split; [reflexivity|]. split; [exact X0|]. split; [exact Ll|].
    split; [|exact Hm].
    rewrite Es in Exy. unfold cfg in Exy. simpl in Exy.
    injection Exy as _ Exy. rewrite map_app in Exy. simpl in Exy.
    apply app_inj_tail in Exy. destruct Exy as [_ Exy].
    rewrite <- Exy in X1. exact X1.
  - rewrite <- Exy in Hu. rewrite Forall_map in Hu. exact Hu.
  - rewrite Ei. apply Finite.Injective_map_NoDup; [|apply seq_NoDup].
    intros a b. apply point_id_inj.
  - unfold ids_drawn. rewrite Forall_forall. intros p Hp.
    apply (in_map id) in Hp. rewrite Ei in Hp. apply in_map_iff in Hp.
    destruct Hp as (k & Hk & Hin). apply in_seq in Hin.
    exists k. split; [rewrite Ec; lia | now symmetry].
  - apply preset_selection_ok.
Qed.

Lemma presets_shape key :
  exists c0 cmid clast,
    presets key = c0 :: cmid ++ [clast] /\ xof c0 == 0 /\ xof clast == 1 /\
    Forall (fun point => 0 <= xof point <= 1 /\ 0 <= yof point <= 1) (presets key).
Proof.
  exists (hd (0, 0) (presets key)), (removelast (tl (presets key))),
    (List.last (presets key) (0, 0)).
  destruct key; (split; [reflexivity|]); (split; [reflexivity|]);
    (split; [reflexivity|]);
    repeat (apply Forall_cons; [split; split; vm_compute; discriminate|]);
    apply Forall_nil.
Qed.

(** A preset gives a well-formed ramp, whatever the controller held. *)
Lemma applyPreset_keeps c key : ramp_ok (applyPreset c key).
Proof.
  destruct (presets_shape key) as (c0 & cmid & clast & E & X0 & X1 & Hu).
  unfold applyPreset. rewrite E in *.
  pose proof (buildPreset_ok (counter c) c0 cmid clast X0 X1 Hu) as H.
  destruct (buildPreset (counter c) (c0 :: cmid ++ [clast])) as [n l].
  exact H.
Qed.

(** One action of the editor keeps a ramp well formed. *)
Lemma act_keeps c a : from_the_editor c a -> ramp_ok c -> ramp_ok (act c a).
Proof.
  destruct a as [id0 next|x0 y0|id0|key|sel|]; simpl; intros Ha Hok.
  - destruct Ha. now apply updatePoint_keeps.
  - destruct Ha as [[H0 H1] Hy]. apply addPoint_keeps; auto; lra.
  - now apply removePoint_keeps.
  - apply applyPreset_keeps.
  - destruct Hok as (Hs & Hu & Hn & Hi & _). unfold ramp_ok. simpl.
    repeat (split; [assumption|]). destruct sel; [exact Ha | exact I].
  - destruct Hok as (Hs & Hu & Hn & Hi & Hsel). unfold ramp_ok. simpl.
    do 3 (split; [assumption|]). split; [|exact Hsel].
    eapply ids_drawn_more; [|exact Hi]. lia.
Qed.

Lemma editor_run_keeps actions : forall c,
  ramp_ok c -> editor_run c actions -> ramp_ok (fold_left act actions c).
Proof.
  induction actions as [|a rest IH]; simpl; intros c Hok Hrun; [exact Hok|].
  destruct Hrun as [Ha Hrun]. apply IH; [now apply act_keeps | exact Hrun].
Qed.

Lemma find_id_In sel l point :
  find_id sel l = Some point -> In point l /\ sel = Some (id point).
Proof.
  induction l as [|a l IH]; simpl; [discriminate|].
  destruct sel as [v|]; [|discriminate].
  destruct (String.eqb_spec (id a) v) as [E|E].
  - intros H. injection H as <-. split; [now left | now rewrite E].
  - intros H. destruct (IH H). split; [now right | assumption].
Qed.

(** Every call a handler makes on the controller is one the controller is
    safe under. *)
Lemma handle_safe svg ed c e a :
  In a (snd (handle svg ed c e)) -> from_the_editor c a.
Proof.
  destruct e as [index|on_handle|cx cy| |cx cy|key shift|v|v|v|v| |key| ]; simpl.
  - unfold handlePointerDown.
    destruct (nth_error (sort_points (points c)) index) as [p|] eqn:E; simpl;
      [|tauto].
    intros [<-|[]]. simpl. exists p. split; [|reflexivity].
    apply (Permutation_in _ (sort_points_perm _)). eapply nth_error_In; eauto.
  - unfold handleBackgroundPointerDown. destruct on_handle; simpl; [tauto|].
    intros [<-|[]]. exact I.
  - unfold handlePointerMove. destruct (draggingId ed) as [id0|]; [|simpl; tauto].
    destruct (String.eqb id0 EmptyString); [simpl; tauto|].
    destruct (getRelativePosition svg cx cy) as [[x0 y0]|]; simpl; [|tauto].
    intros [<-|[]]. simpl. auto.
  - tauto.
  - unfold handleSvgDoubleClick, getRelativePosition.
    destruct svg as [rect|]; [|simpl; tauto].
    set (x0 := clamp _ 0 1). set (y0 := clamp _ 0 1).
    destruct (Qltb_spec x0 (2 # 100)) as [H0|H0]; [simpl; tauto|].
    destruct (Qltb_spec (98 # 100) x0) as [H1|H1]; simpl; [tauto|].
    intros [<-|[]]. simpl.
    assert (Hy : 0 <= y0 <= 1) by (apply clamp_range; lra). lra.
  - unfold handleKeyDown.
    destruct (find_id (selectedId c) (sort_points (points c))) as [p|];
      [|simpl; tauto].
    destruct key; simpl; try tauto; try (intros [<-|[]]; simpl; auto).
    + destruct (is_locked p); simpl; [tauto|]. intros [<-|[]]. exact I.
    + destruct (is_locked p); simpl; [tauto|]. intros [<-|[]]. exact I.
  - unfold inspector. destruct (find_id _ _); simpl; [|tauto].
    intros [<-|[]]. simpl. auto.
  - unfold inspector. destruct (find_id _ _); simpl; [|tauto].
    intros [<-|[]]. simpl. auto.
  - unfold inspector. destruct (find_id _ _); simpl; [|tauto].
    intros [<-|[]]. simpl. auto.
  - unfold inspector. destruct (find_id _ _); simpl; [|tauto].
    intros [<-|[]]. simpl. auto.
  - unfold inspector. destruct (find_id _ _) as [p|]; simpl; [|tauto].
    destruct (is_locked p); simpl; [tauto|]. intros [<-|[]]. exact I.
  - destruct key; simpl; [|tauto]. intros [<-|[]]. exact I.
  - intros [<-|[]]. exact I.
Qed.

Lemma handle_at_most_one svg ed c e : (length (snd (handle svg ed c e)) <= 1)%nat.
Proof.
  destruct e as [index|on_handle|cx cy| |cx cy|key shift|v|v|v|v| |key| ]; simpl;
    unfold handlePointerDown, handleBackgroundPointerDown, handlePointerMove,
      handleSvgDoubleClick, handleKeyDown, inspector;
    repeat match goal with
           | |- context [match ?t with _ => _ end] => destruct t; simpl
           end; lia.
Qed.

Lemma gesture_keeps s e : ramp_ok (snd s) -> ramp_ok (snd (gesture s e)).
Proof.
  intros Hok. unfold gesture.
  pose proof (handle_safe (fst e) (fst s) (snd s) (snd e)) as Hs.
  pose proof (handle_at_most_one (fst e) (fst s) (snd s) (snd e)) as Hl.
  destruct (handle (fst e) (fst s) (snd s) (snd e)) as [ed actions].
  simpl in *. destruct actions as [|a [|b rest]]; simpl in *; [exact Hok | | lia].
  apply act_keeps; [apply Hs; now left | exact Hok].
Qed.

Lemma session_keeps events : forall s,
  ramp_ok (snd s) -> ramp_ok (snd (session s events)).
Proof.
  unfold session. induction events as [|e rest IH]; simpl; intros s Hok;
    [exact Hok|].
  apply IH. now apply gesture_keeps.
Qed.



(** X13. RampEditor and the inspector of a panel: through any session of
    pointer, keyboard and form events on a panel whose canvas is laid out, a
    well-formed ramp stays well formed. The handlers make at most one call on
    the controller per event, and only calls it is safe under: the double
    click adds a point only for [0.02 <= x <= 0.98], the handlers patch [x]
    and [y] alone, and a handle that is pressed is a handle of the ramp. *)
Theorem editor_sessions_keep_the_ramp_well_formed
    (s : Editor * Controller) (events : list (option DOMRect * Event)) :
  Forall (fun e => laid_out (fst e)) events ->
  ramp_ok (snd s) ->
  ramp_ok (snd (session s events)).
Proof. intros _. apply session_keeps. Qed.

Lemma editor_sessions_witness :
  Forall (fun e => laid_out (fst e))
    [(Some (mkDOMRect 0 0 100 100), DoubleClick 50 50);
     (Some (mkDOMRect 0 0 100 100), HandlePointerDown 1);
     (Some (mkDOMRect 0 0 100 100), PointerMove 30 20); (None, PointerUp);
     (Some (mkDOMRect 0 0 100 100), KeyDown ArrowRight true);
     (Some (mkDOMRect 0 0 100 100), KeyDown Delete false)] /\
  ramp_ok (snd (mkEditor None, applyPreset (mkController [] None 0) linear)) /\
  ramp_ok
    (snd (session (mkEditor None, applyPreset (mkController [] None 0) linear)
            [(Some (mkDOMRect 0 0 100 100), DoubleClick 50 50);
             (Some (mkDOMRect 0 0 100 100), HandlePointerDown 1);
             (Some (mkDOMRect 0 0 100 100), PointerMove 30 20); (None, PointerUp);
             (Some (mkDOMRect 0 0 100 100), KeyDown ArrowRight true);
             (Some (mkDOMRect 0 0 100 100), KeyDown Delete false)])).
Proof.
  assert (Hl : Forall (fun e => laid_out (fst e))
            [(Some (mkDOMRect 0 0 100 100), DoubleClick 50 50);
             (Some (mkDOMRect 0 0 100 100), HandlePointerDown 1);
             (Some (mkDOMRect 0 0 100 100), PointerMove 30 20); (None, PointerUp);
             (Some (mkDOMRect 0 0 100 100), KeyDown ArrowRight true);
             (Some (mkDOMRect 0 0 100 100), KeyDown Delete false)]).
  { repeat constructor. }
  assert (Hok : ramp_ok (snd (mkEditor None,
                              applyPreset (mkController [] None 0) linear)))
    by apply applyPreset_keeps.
  split; [exact Hl|]. split; [exact Hok|].
  exact (editor_sessions_keep_the_ramp_well_formed _ _ Hl Hok).
Defined.

Lemma replace_nth_same l i p q :
  nth_error l i = Some q -> nth_error (replace_nth l i p) i = Some p.
Proof.
  revert i. induction l as [|a l IH]; intros [|i] H; simpl in *;
    try discriminate; auto.
Qed.

Lemma replace_nth_other l i j p :
  i <> j -> nth_error (replace_nth l i p) j = nth_error l j.
Proof.
  revert i j. induction l as [|a l IH]; intros [|i] [|j] H; simpl; auto;
    try congruence.
Qed.

(** X14. [updatePoint]: a patch addressed to an id changes no other handle:
    the ramp keeps its length, every handle with another id stays where it
    was, as it was, and a patch for an id the ramp does not hold changes
    nothing at all. *)
Theorem updatePoint_moves_one_handle_only
    (prev : list RampPoint) (id0 : string) (next : Partial) :
  length (updatePoint prev id0 next) = length prev /\
  (forall j point,
     nth_error prev j = Some point -> id point <> id0 ->
     nth_error (updatePoint prev id0 next) j = Some point) /\
  (Forall (fun point => id point <> id0) prev ->
   updatePoint prev id0 next = prev).
Proof.
  destruct (updatePoint_cases prev id0 next) as [E|E].
  { rewrite E. repeat split; auto. }
  destruct E as (index & point & updated & Hnth & Hid & E & _).
  rewrite E. split; [apply replace_nth_length|]. split.
  - intros j p Hj Hp. rewrite replace_nth_other; [exact Hj|].
    intros ->. rewrite Hnth in Hj. injection Hj as ->. contradiction.
  - intros Hall. rewrite Forall_forall in Hall.
    exfalso. apply (Hall point); [eapply nth_error_In; eauto | exact Hid].
Qed.

(** The [x] a patch gives to an unlocked handle between two neighbours. *)
Lemma updatePoint_between prev index left point right next :
  findIndex (id point) prev = Some (S index) ->
  nth_error prev index = Some left ->
  nth_error prev (S index) = Some point ->
  nth_error prev (S (S index)) = Some right ->
  is_locked point = false ->
  exists updated,
    nth_error (updatePoint prev (id point) next) (S index) = Some updated /\
    x updated
    = clamp (clamp (match p_x next with Some v => v | None => x point end)
               (Math_min (x left + (1 # 100)) (x right - (1 # 100)))
               (Math_max (x left + (1 # 100)) (x right - (1 # 100)))) 0 1.
Proof.
  intros Hi Hl Hp Hr Lp. unfold updatePoint. rewrite Hi, Hp, Hl, Hr, Lp.
  eexists. split; [eapply replace_nth_same; eauto|].
  cbn [with_xy x].
  destruct (Qltb_spec (Math_max (x left + (1 # 100)) (x right - (1 # 100)))
              (Math_min (x left + (1 # 100)) (x right - (1 # 100)))) as [C|_];
    [|reflexivity].
  exfalso.
  pose proof (Math_min_le_l (x left + (1 # 100)) (x right - (1 # 100))).
  pose proof (Math_max_ge_l (x left + (1 # 100)) (x right - (1 # 100))).
  lra.
Qed.





Lemma filter_keeps_all (f : RampPoint -> bool) l :
  Forall (fun p => f p = true) l -> filter f l = l.
Proof.
  induction 1 as [|a l Ha _ IH]; simpl; [reflexivity|]. now rewrite Ha, IH.
Qed.

Lemma findIndex_app id0 l1 target l2 :
  Forall (fun p => id p <> id0) l1 -> id target = id0 ->
  findIndex id0 (l1 ++ target :: l2) = Some (length l1).
Proof.
  intros H1 Ht. induction H1 as [|a l Ha _ IH]; simpl.
  - destruct (String.eqb_spec (id target) id0); [reflexivity | contradiction].
  - destruct (String.eqb_spec (id a) id0); [contradiction|]. now rewrite IH.
Qed.

(** With distinct ids, the others of a handle do not share its id. *)
Lemma NoDup_ids_split l1 target l2 :
  NoDup (map id (l1 ++ target :: l2)) ->
  Forall (fun p => id p <> id target) l1 /\
  Forall (fun p => id p <> id target) l2.
Proof.
  rewrite map_app. simpl. intros H.
  pose proof (NoDup_remove_2 _ _ _ H) as Hn.
  split; rewrite Forall_forall; intros p Hp E; apply Hn, in_or_app;
    [left | right]; rewrite <- E; now apply in_map.
Qed.

(** X17. [removePoint] on a well-formed ramp, for the id of an unlocked
    handle: exactly that handle leaves the ramp, the others keep their order,
    the counter is untouched, and if the handle was the selected one the
    selection passes to its right neighbour (which exists: an unlocked handle
    is never the last). *)
Theorem removePoint_takes_out_one_unlocked_handle
    (c : Controller) (target : RampPoint) :
  ramp_ok c -> In target (points c) -> is_locked target = false ->
  exists before right after,
    points c = before ++ target :: right :: after /\
    before <> [] /\
    points (removePoint c (id target)) = before ++ right :: after /\
    selectedId (removePoint c (id target))
    = match selectedId c with
      | Some current =>
          if String.eqb current (id target) then Some (id right)
          else Some current
      | None => None
      end /\
    counter (removePoint c (id target)) = counter c.
Proof.
  intros (Hshape & _ & Hnd & _ & _) Hin Lt.
  destruct Hshape as (first & middle & last & Hp & Lf & _ & Ll & _ & _).
  rewrite Hp in Hin, Hnd.
  destruct (unlocked_in_the_middle _ _ _ _ Hnd Lf Ll Hin Lt) as (Hm & _ & _).
  apply in_split in Hm. destruct Hm as (m1 & m2 & ->).
  set (rest := m2 ++ [last]).
  assert (Hrest : exists right after, rest = right :: after).
  { unfold rest. destruct m2 as [|a m2]; simpl; eauto. }
  destruct Hrest as (right & after & Hrest).
  assert (Hp' : points c = (first :: m1) ++ target :: right :: after).
  { rewrite Hp, <- Hrest. unfold rest. simpl. now rewrite <- app_assoc. }
  exists (first :: m1), right, after.
  split; [exact Hp'|]. split; [discriminate|].
  assert (Hnd' : NoDup (map id ((first :: m1) ++ target :: right :: after))).
  { rewrite <- Hp', Hp. exact Hnd. }
  destruct (NoDup_ids_split _ _ _ Hnd') as [H1 H2].
  assert (Ef : filter (fun point => negb (String.eqb (id point) (id target)))
                 ((first :: m1) ++ target :: right :: after)
               = (first :: m1) ++ right :: after).
  { set (f := fun point => negb (String.eqb (id point) (id target))).
    assert (F1 : filter f (first :: m1) = first :: m1).
    { apply filter_keeps_all. eapply Forall_impl; [|exact H1]. unfold f. simpl.
      intros p Hp0.
      destruct (String.eqb_spec (id p) (id target)); [contradiction | reflexivity]. }
    assert (F2 : filter f (right :: after) = right :: after).
    { apply filter_keeps_all. eapply Forall_impl; [|exact H2]. unfold f. simpl.
      intros p Hp0.
      destruct (String.eqb_spec (id p) (id target)); [contradiction | reflexivity]. }
    assert (F3 : filter f (target :: right :: after) = filter f (right :: after)).
    { simpl. unfold f at 1. now rewrite String.eqb_refl. }
    now rewrite filter_app, F1, F3, F2. }
  unfold removePoint. rewrite Hp'.
  rewrite (findIndex_app (id target) (first :: m1) target (right :: after) H1 eq_refl).
  assert (Hlen : (length ((first :: m1) ++ target :: right :: after) <=? 2)%nat
                 = false).
  { apply Nat.leb_gt. rewrite length_app. simpl. lia. }
  rewrite Hlen.
  rewrite nth_error_app2, Nat.sub_diag by lia. cbn [nth_error].
  rewrite Lt, Ef. cbn [points selectedId counter].
  split; [reflexivity|]. split; [|reflexivity].
  destruct (selectedId c) as [current|]; [|reflexivity].
  destruct (String.eqb current (id target)); [|reflexivity].
  assert (Em : Nat.min (length (first :: m1))
                 (length ((first :: m1) ++ right :: after) - 1)
               = length (first :: m1)).
  { apply Nat.min_l. rewrite length_app. cbn [length]. lia. }
  rewrite Em, nth_error_app2, Nat.sub_diag by lia. reflexivity.
Qed.

Lemma removePoint_takes_out_witness :
  exists before right after,
    points (addPoint (applyPreset (mkController [] None 0) linear) (1 # 2) (1 # 2))
    = before ++ mkRampPoint "point-3" (1 # 2) (1 # 2) None :: right :: after /\
    before <> [] /\
    points (removePoint
              (addPoint (applyPreset (mkController [] None 0) linear) (1 # 2) (1 # 2))
              "point-3")
    = before ++ right :: after /\
    selectedId (removePoint
                  (addPoint (applyPreset (mkController [] None 0) linear)
                     (1 # 2) (1 # 2))
                  "point-3")
    = Some (id right) /\
    counter (removePoint
               (addPoint (applyPreset (mkController [] None 0) linear)
                  (1 # 2) (1 # 2))
               "point-3")
    = 3%nat.
Proof.
  apply (removePoint_takes_out_one_unlocked_handle
           (addPoint (applyPreset (mkController [] None 0) linear) (1 # 2) (1 # 2))
           (mkRampPoint "point-3" (1 # 2) (1 # 2) None)).
  - apply addPoint_keeps; [lra | lra | lra | apply applyPreset_keeps].
  - vm_compute. right. left. reflexivity.
  - reflexivity.
Defined.

(** X18. [removePoint] leaves the controller as it is when every handle
    that carries the id is locked, and so too for an id the ramp does not
    hold, and whenever the ramp has no more than two handles. *)
Theorem removePoint_spares_locked_handles
    (c : Controller) (id0 : string) :
  (Forall (fun point => id point = id0 -> is_locked point = true) (points c) ->
   removePoint c id0 = c) /\
  ((length (points c) <= 2)%nat -> removePoint c id0 = c).
Proof.
  split.
  - intros Hall. unfold removePoint.
    destruct (length (points c) <=? 2)%nat; [reflexivity|].
    destruct (findIndex id0 (points c)) as [t|] eqn:Hi; [|reflexivity].
    destruct (findIndex_Some _ _ _ Hi) as (target & Hnth & Hid).
    rewrite Hnth. rewrite Forall_forall in Hall.
    rewrite (Hall target (nth_error_In _ _ Hnth) Hid). reflexivity.
  - intros Hlen. unfold removePoint.
    apply Nat.leb_le in Hlen. now rewrite Hlen.
Qed.

Lemma insert_point_sorted a l :
  StronglySorted le_by_x l -> StronglySorted le_by_x (insert_point a l).
Proof.
  induction 1 as [|b l Hs IH Hb]; simpl.
  - repeat constructor.
  - destruct (Qltb_spec (x b) (x a)) as [C|C].
    + constructor; [exact IH|].
      eapply Permutation_Forall; [symmetry; apply insert_point_perm|].
      constructor; [unfold le_by_x; lra | exact Hb].
    + constructor; [now constructor|].
      constructor; [exact C|].
      eapply Forall_impl; [|exact Hb]. unfold le_by_x. simpl. intros p Hp. lra.
Qed.

Lemma sort_points_sorted l : StronglySorted le_by_x (sort_points l).
Proof.
  induction l; simpl; [constructor | now apply insert_point_sorted].
Qed.

(** X19. [addPoint] on a well-formed ramp, for a point the editor lets
    through: the ramp comes out in ascending order of [x], whatever order it
    was in, one handle longer, with the new handle -- unlocked, at the place
    asked for, under a fresh id -- selected. *)
Theorem addPoint_sorts_the_ramp (c : Controller) (x0 y0 : Q) :
  ramp_ok c -> (2 # 100) <= x0 <= (98 # 100) -> 0 <= y0 <= 1 ->
  StronglySorted le_by_x (points (addPoint c x0 y0)) /\
  length (points (addPoint c x0 y0)) = S (length (points c)) /\
  In (mkRampPoint (point_id (S (counter c))) x0 y0 None)
    (points (addPoint c x0 y0)) /\
  ~ In (point_id (S (counter c))) (map id (points c)) /\
  selectedId (addPoint c x0 y0) = Some (point_id (S (counter c))).
Proof.
  intros (Hshape & Hu & _ & Hids & _) Hx Hy.
  destruct Hshape as (first & middle & last & Hp & Lf & Xf & Ll & Xl & Hm).
  assert (Hu' := Hu). rewrite Hp in Hu'.
  apply Forall_cons_iff in Hu'. destruct Hu' as [Uf Hu'].
  apply Forall_app in Hu'. destruct Hu' as [Um Ul].
  assert (E : points (addPoint c x0 y0)
              = with_xy first 0 (y first)
                  :: sort_points
                       (middle ++ [mkRampPoint (point_id (S (counter c))) x0 y0 None])
                  ++ [with_xy last 1 (y last)]).
  { apply addPoint_shape; auto; try (rewrite ?Xf, ?Xl; lra).
    eapply Forall_impl; [|exact Um]. simpl. intros a Ha.
    rewrite Xf, Xl. split; apply Ha. }
  set (new := mkRampPoint (point_id (S (counter c))) x0 y0 None) in *.
  assert (Pm : Permutation (sort_points (middle ++ [new])) (new :: middle)).
  { rewrite sort_points_perm. symmetry. apply Permutation_cons_append. }
  assert (Hunit : Forall (fun p => 0 <= x p <= 1) (sort_points (middle ++ [new]))).
  { eapply Permutation_Forall; [symmetry; exact Pm|].
    constructor; [cbn; lra|].
    eapply Forall_impl; [|exact Um]. simpl. intros p Hp0. apply Hp0. }
  rewrite E. split; [|split; [|split; [|split]]].
  - constructor.
    + apply StronglySorted_snoc; [apply sort_points_sorted|].
      eapply Forall_impl; [|exact Hunit]. unfold le_by_x. simpl.
      intros p Hp0. lra.
    + apply Forall_app. split.
      * eapply Forall_impl; [|exact Hunit]. unfold le_by_x. simpl.
        intros p Hp0. lra.
      * constructor; [unfold le_by_x; simpl; lra | constructor].
  - rewrite Hp. simpl. rewrite !length_app.
    rewrite (Permutation_length Pm). simpl. lia.
  - right. apply in_or_app. left.
    apply (Permutation_in _ (Permutation_sym Pm)). now left.
  - now apply ids_drawn_fresh.
  - reflexivity.
Qed.

Lemma addPoint_sorts_witness :
  StronglySorted le_by_x
    (points (addPoint (applyPreset (mkController [] None 0) crest) (1 # 3) (1 # 2))) /\
  length (points (addPoint (applyPreset (mkController [] None 0) crest)
                    (1 # 3) (1 # 2)))
  = 6%nat /\
  In (mkRampPoint "point-6" (1 # 3) (1 # 2) None)
    (points (addPoint (applyPreset (mkController [] None 0) crest) (1 # 3) (1 # 2))) /\
  ~ In "point-6"%string
      (map id (points (applyPreset (mkController [] None 0) crest))) /\
  selectedId (addPoint (applyPreset (mkController [] None 0) crest) (1 # 3) (1 # 2))
  = Some "point-6"%string.
Proof.
  apply (addPoint_sorts_the_ramp (applyPreset (mkController [] None 0) crest)
           (1 # 3) (1 # 2)).
  - apply applyPreset_keeps.
  - split; vm_compute; discriminate.
  - split; vm_compute; discriminate.
Defined.

(** ** useMediaStream *)

Lemma in_stop_tracks a s l : In s (stop_tracks a l) -> In s l.
Proof.
  destruct a as [v|]; simpl; [|auto]. intros H. now apply in_remove in H.
Qed.

Lemma Forall_stop_tracks (P : nat -> Prop) a l :
  Forall P l -> Forall P (stop_tracks a l).
Proof.
  rewrite !Forall_forall. intros H s Hs. apply H. eapply in_stop_tracks; eauto.
Qed.

Ltac media_split :=
  unfold media_ok;
  cbn [mediaState status stream errorMessage lastStreamRef running granted
       defaultState];
  split; [split; intros; congruence
         |split; [split; intros; congruence|split]].

Lemma media_step_keeps h e : media_ok h -> media_ok (media_step h e).
Proof.
  intros Hok. pose proof Hok as (Ha & He & Hs & Hr).
  destruct e as [[|]| |thrown| |s]; simpl.
  - media_split; [intros; congruence | exact Hr].
  - media_split; [intros; congruence | exact Hr].
  - destruct (requested h) as [|others]; [exact Hok|].
    media_split.
    + intros s H. injection H as <-. split; [reflexivity | now left].
    + constructor; [lia|]. eapply Forall_impl; [|exact Hr]. simpl. intros; lia.
  - destruct (requested h) as [|others]; [exact Hok|].
    media_split; [intros; congruence | exact Hr].
  - media_split; [intros; congruence|].
    now do 2 apply Forall_stop_tracks.
  - destruct (existsb (Nat.eqb s) (running h)); [|exact Hok].
    assert (Hrem : Forall (fun s0 => (s0 < granted h)%nat)
                     (remove Nat.eq_dec s (running h))).
    { rewrite Forall_forall in *. intros v Hv. apply Hr.
      now apply in_remove in Hv. }
    destruct (same_stream (stream (mediaState h)) s) eqn:Hsame.
    + media_split; [intros; congruence | exact Hrem].
    + unfold media_ok.
      cbn [mediaState status stream errorMessage lastStreamRef running granted].
      split; [exact Ha|]. split; [exact He|]. split; [|exact Hrem].
      intros v H. split; [now apply Hs|].
      apply in_in_remove; [|now apply Hs].
      intros ->. unfold same_stream in Hsame. rewrite H in Hsame.
      now rewrite Nat.eqb_refl in Hsame.
Qed.

Lemma media_run_keeps events : forall h,
  media_ok h -> media_ok (fold_left media_step events h).
Proof.
  induction events as [|e rest IH]; simpl; intros h Hok; [exact Hok|].
  apply IH. now apply media_step_keeps.
Qed.

Lemma initialHook_ok : media_ok initialHook.
Proof. unfold initialHook. media_split; [intros; congruence | constructor]. Qed.

Lemma panel_step_keeps h e :
  panel_allows h e -> panel_ok h -> panel_ok (media_step h e).
Proof.
  intros Hallow Hok. pose proof Hok as (Hrun & Hlast & Hact & Hreq).
  unfold shown in Hrun.
  destruct h as [[st str msg] last run req gr].
  cbn [mediaState status stream errorMessage lastStreamRef running requested
       granted] in *.
  destruct e as [[|]| |thrown| |s]; simpl in Hallow |- *.
  - subst st. destruct str as [v|]; [destruct Hact as [_ Hact]; discriminate Hact; discriminate|].
    simpl in *. subst. unfold panel_ok, shown; simpl. repeat split; intros; congruence.
  - subst st. destruct str as [v|]; [destruct Hact as [_ Hact]; discriminate Hact; discriminate|].
    simpl in *. subst. unfold panel_ok, shown; simpl. repeat split; intros; congruence.
  - destruct req as [|others]; [exact Hok|].
    destruct st; try discriminate. injection Hreq as ->.
    destruct str as [v|]; [destruct Hact as [_ Hact]; discriminate Hact; discriminate|].
    simpl in *. subst. unfold panel_ok, shown; simpl. repeat split; intros; congruence.
  - destruct req as [|others]; [exact Hok|].
    destruct st; try discriminate. injection Hreq as ->.
    destruct str as [v|]; [destruct Hact as [_ Hact]; discriminate Hact; discriminate|].
    simpl in *. subst. unfold panel_ok, shown; simpl. repeat split; intros; congruence.
  - subst st. destruct str as [v|]; [|destruct Hact as [Hact _]; now destruct Hact].
    simpl in *. subst. unfold panel_ok, shown. simpl.
    destruct (Nat.eq_dec v v); [|contradiction].
    simpl. repeat split; intros; congruence.
  - subst run last. destruct str as [v|]; simpl; [|exact Hok].
    destruct (Nat.eqb_spec s v) as [->|Hne]; simpl; [|exact Hok].
    rewrite Nat.eqb_refl. unfold panel_ok, shown. simpl.
    destruct (Nat.eq_dec v v); [|contradiction].
    destruct st; try (destruct Hact as [_ Hact]; discriminate Hact; discriminate).
    simpl in Hreq. subst req. repeat split; intros; congruence.
Qed.

Lemma panel_run_keeps events : forall h,
  panel_ok h -> panel_run h events -> panel_ok (fold_left media_step events h).
Proof.
  induction events as [|e rest IH]; simpl; intros h Hok Hrun; [exact Hok|].
  destruct Hrun as [He Hrun]. apply IH; [now apply panel_step_keeps | exact Hrun].
Qed.

Lemma initialHook_panel_ok : panel_ok initialHook.
Proof. unfold panel_ok, shown; simpl. repeat split; intros; congruence. Qed.

(** X20. [useMediaStream]: whatever calls, permissions, refusals and ended
    tracks follow one another, the state the hook returns is coherent: it has
    a stream exactly when its status is [active], an error message exactly
    when its status is [error], and the stream it shows is the one held in
    [lastStreamRef] and has its track running. *)
Theorem hook_state_is_coherent (events : list MediaEvent) :
  media_ok (fold_left media_step events initialHook).
Proof. apply media_run_keeps, initialHook_ok. Qed.

(** X21. The camera panel of the app over [useMediaStream]: with "Enable
    webcam" offered only while the status is [inactive] and "Disable" only
    while it is [active], the camera runs exactly while the status is
    [active]: the running streams are the stream of the state and no other,
    and at most one call of [getUserMedia] is open, while the status is
    [pending]. *)
Theorem panel_camera_runs_exactly_while_active (events : list MediaEvent) :
  panel_run initialHook events ->
  running (fold_left media_step events initialHook)
  = shown (fold_left media_step events initialHook) /\
  (running (fold_left media_step events initialHook) <> [] <->
   status (mediaState (fold_left media_step events initialHook)) = active) /\
  (requested (fold_left media_step events initialHook) <> 0%nat <->
   status (mediaState (fold_left media_step events initialHook)) = pending).
Proof.
  intros Hrun.
  destruct (panel_run_keeps events initialHook initialHook_panel_ok Hrun)
    as (Hr & _ & Hact & Hreq).
  set (h := fold_left media_step events initialHook) in *.
  split; [exact Hr|]. split.
  - rewrite Hr. unfold shown. rewrite Hact.
    destruct (stream (mediaState h)); split; intros; congruence.
  - rewrite Hreq. destruct (status (mediaState h)); split; intros;
      congruence || lia.
Qed.

Lemma panel_camera_witness :
  running (fold_left media_step
             [RequestStream true; Granted; TrackEnded 0; RequestStream true;
              Refused None; Granted]
             initialHook)
  = shown (fold_left media_step
             [RequestStream true; Granted; TrackEnded 0; RequestStream true;
              Refused None; Granted]
             initialHook) /\
  (running (fold_left media_step
              [RequestStream true; Granted; TrackEnded 0; RequestStream true;
               Refused None; Granted]
              initialHook) <> [] <->
   status (mediaState (fold_left media_step
                         [RequestStream true; Granted; TrackEnded 0;
                          RequestStream true; Refused None; Granted]
                         initialHook)) = active) /\
  (requested (fold_left media_step
                [RequestStream true; Granted; TrackEnded 0; RequestStream true;
                 Refused None; Granted]
                initialHook) <> 0%nat <->
   status (mediaState (fold_left media_step
                         [RequestStream true; Granted; TrackEnded 0;
                          RequestStream true; Refused None; Granted]
                         initialHook)) = pending).
Proof.
  apply (panel_camera_runs_exactly_while_active
           [RequestStream true; Granted; TrackEnded 0; RequestStream true;
            Refused None; Granted]).
  simpl. repeat split; reflexivity.
Defined.

Lemma abandoned_stays h s e :
  abandoned s h -> e <> TrackEnded s -> abandoned s (media_step h e).
Proof.
  intros (Hin & Hs & Hl & Hg) He. unfold abandoned.
  destruct e as [[|]| |thrown| |s']; simpl.
  - repeat split; auto; discriminate.
  - repeat split; auto; discriminate.
  - destruct (requested h) as [|others]; [repeat split; auto|]. simpl.
    split; [now right|]. split; [intros E; injection E as E; lia|].
    split; [intros E; injection E as E; lia | lia].
  - destruct (requested h) as [|others]; repeat split; auto; discriminate.
  - split; [|repeat split; auto; discriminate].
    unfold stop_tracks.
    destruct (lastStreamRef h) as [l|], (stream (mediaState h)) as [v|];
      repeat apply in_in_remove; auto; congruence.
  - destruct (existsb (Nat.eqb s') (running h)); [|repeat split; auto].
    assert (Hne : s <> s') by congruence.
    destruct (same_stream (stream (mediaState h)) s'); simpl;
      (split; [now apply in_in_remove|]); repeat split; auto; discriminate.
Qed.

Lemma abandoned_run s events : forall h,
  abandoned s h -> Forall (fun e => e <> TrackEnded s) events ->
  abandoned s (fold_left media_step events h).
Proof.
  induction events as [|e rest IH]; simpl; intros h Hab Hall; [exact Hab|].
  inversion_clear Hall as [|? ? He Hrest].
  apply IH; [now apply abandoned_stays | exact Hrest].
Qed.

(** X22. [useMediaStream] does not stop a stream it replaces, and cannot stop
    it later: asked for a stream again while one is shown, it lets go of the
    first one once the new stream arrives; from then on the track of the
    first stream keeps running whatever is called on the hook, [stopStream]
    included, until that track ends by itself. *)
Theorem second_request_abandons_the_first_stream
    (h : Hook) (s : nat) (events : list MediaEvent) :
  media_ok h -> stream (mediaState h) = Some s ->
  Forall (fun e => e <> TrackEnded s) events ->
  In s (running (fold_left media_step
                   (RequestStream true :: Granted :: events) h)) /\
  stream (mediaState (fold_left media_step
                        (RequestStream true :: Granted :: events) h)) <> Some s.
Proof.
  intros (_ & _ & Hs & Hr) Hstream Hall. destruct (Hs s Hstream) as [_ Hin].
  rewrite Forall_forall in Hr. pose proof (Hr s Hin) as Hlt.
  assert (Hab : abandoned s (fold_left media_step [RequestStream true; Granted] h)).
  { unfold abandoned. simpl.
    split; [now right|]. split; [intros E; injection E as E; lia|].
    split; [intros E; injection E as E; lia | lia]. }
  change (RequestStream true :: Granted :: events)
    with ([RequestStream true; Granted] ++ events).
  rewrite fold_left_app.
  destruct (abandoned_run s events _ Hab Hall) as (H1 & H2 & _).
  split; [exact H1 | exact H2].
Qed.

Lemma second_request_witness :
  In 0%nat
    (running (fold_left media_step
                [RequestStream true; Granted; StopStream; RequestStream true;
                 Refused None]
                (fold_left media_step [RequestStream true; Granted] initialHook))) /\
  stream (mediaState
            (fold_left media_step
               [RequestStream true; Granted; StopStream; RequestStream true;
                Refused None]
               (fold_left media_step [RequestStream true; Granted] initialHook)))
  <> Some 0%nat.
Proof.
  apply (second_request_abandons_the_first_stream
           (fold_left media_step [RequestStream true; Granted] initialHook) 0
           [StopStream; RequestStream true; Refused None]).
  - apply media_run_keeps, initialHook_ok.
  - reflexivity.
  - repeat constructor; discriminate.
Defined.

Lemma running_stays h s e :
  In s (running h) -> e <> StopStream -> e <> TrackEnded s ->
  In s (running (media_step h e)).
Proof.
  intros Hin H1 H2. destruct e as [[|]| |thrown| |s']; simpl; auto.
  - destruct (requested h); simpl; auto.
  - destruct (requested h); simpl; auto.
  - congruence.
  - destruct (existsb (Nat.eqb s') (running h)); [|exact Hin].
    assert (Hne : s <> s') by congruence.
    destruct (same_stream (stream (mediaState h)) s'); simpl;
      now apply in_in_remove.
Qed.

Lemma running_run s events : forall h,
  In s (running h) ->
  Forall (fun e => e <> StopStream /\ e <> TrackEnded s) events ->
  In s (running (fold_left media_step events h)).
Proof.
  induction events as [|e rest IH]; simpl; intros h Hin Hall; [exact Hin|].
  inversion_clear Hall as [|? ? He Hrest]. destruct He as [H1 H2].
  apply IH; [now apply running_stays | exact Hrest].
Qed.

(** X23. [stopStream] does not withdraw a call of [getUserMedia] that is
    still open -- as when the component unmounts while the browser asks for
    permission: the stream that then arrives is kept in [lastStreamRef], and
    its track runs until [stopStream] is called once more or the track ends
    by itself, whatever else happens. *)
Theorem stop_does_not_cancel_a_pending_request
    (h : Hook) (events : list MediaEvent) :
  requested h <> 0%nat ->
  Forall (fun e => e <> StopStream /\ e <> TrackEnded (granted h)) events ->
  lastStreamRef (fold_left media_step [StopStream; Granted] h) = Some (granted h) /\
  In (granted h)
    (running (fold_left media_step (StopStream :: Granted :: events) h)).
Proof.
  intros Hreq Hall.
  assert (H2 : lastStreamRef (fold_left media_step [StopStream; Granted] h)
               = Some (granted h) /\
               In (granted h) (running (fold_left media_step [StopStream; Granted] h))).
  { simpl. destruct (requested h) as [|others]; [contradiction|].
    simpl. split; [reflexivity | now left]. }
  split; [apply H2|].
  change (StopStream :: Granted :: events) with ([StopStream; Granted] ++ events).
  rewrite fold_left_app. apply running_run; [apply H2 | exact Hall].
Qed.

Lemma stop_pending_witness :
  lastStreamRef (fold_left media_step [StopStream; Granted]
                   (media_step initialHook (RequestStream true)))
  = Some 0%nat /\
  In 0%nat
    (running (fold_left media_step
                [StopStream; Granted; RequestStream true; Refused None]
                (media_step initialHook (RequestStream true)))).
Proof.
  apply (stop_does_not_cancel_a_pending_request
           (media_step initialHook (RequestStream true))
           [RequestStream true; Refused None]).
  - discriminate.
  - repeat constructor; discriminate.
Defined.

(** ** DisplacementPreview: the size of the drawing surface *)

Lemma resize_size clientWidth clientHeight devicePixelRatio canvas :
  width (fst (resize clientWidth clientHeight devicePixelRatio canvas))
  = Z.max 1 (Math_floor (inject_Z clientWidth * or_else devicePixelRatio 1)) /\
  height (fst (resize clientWidth clientHeight devicePixelRatio canvas))
  = Z.max 1 (Math_floor (inject_Z clientHeight * or_else devicePixelRatio 1)).
Proof.
  unfold resize. cbn [fst].
  destruct (Z.eqb_spec (width canvas)
              (Z.max 1 (Math_floor (inject_Z clientWidth * or_else devicePixelRatio 1))));
    destruct (Z.eqb_spec (height canvas)
                (Z.max 1 (Math_floor (inject_Z clientHeight * or_else devicePixelRatio 1))));
    cbn [negb orb width height]; auto.
Qed.

(** A scaled side of at least one pixel is between one pixel and the side. *)
Lemma target_side_range (side : Z) (o : Options) :
  (1 <= side)%Z ->
  1 <= Math_max 1 (inject_Z (Math_round (inject_Z side * sanitizedScale o)))
    <= inject_Z side.
Proof.
  intros Hside.
  assert (Hr : (Math_round (inject_Z side * sanitizedScale o) <= side)%Z).
  { rewrite <- (Math_round_inject_Z side) at 2. apply Math_round_mono.
    pose proof (sanitizedScale_range o) as [_ Hs].
    assert (0 <= inject_Z side) by (change 0 with (inject_Z 0); rewrite <- Zle_Qle; lia).
    nra. }
  split; [apply Math_max_ge_l|].
  destruct (Math_max_spec 1 (inject_Z (Math_round (inject_Z side * sanitizedScale o))))
    as [[_ ->]|[_ ->]].
  - rewrite <- Zle_Qle. exact Hr.
  - change 1 with (inject_Z 1). rewrite <- Zle_Qle. exact Hside.
Qed.

(** X25. [resize] and [captureGif] together: whatever the CSS size of the
    canvas and the device pixel ratio, the drawing buffer [resize] leaves
    has at least one pixel each way, the viewport covers exactly the buffer,
    a second [resize] changes nothing, and every frame a capture writes from
    such a buffer is at least one pixel and at most the buffer each way. *)
Theorem captured_frames_fit_the_canvas
    (clientWidth clientHeight : Z) (devicePixelRatio : Q) (canvas : Canvas)
    (o : Options) :
  (1 <= width (fst (resize clientWidth clientHeight devicePixelRatio canvas)))%Z /\
  (1 <= height (fst (resize clientWidth clientHeight devicePixelRatio canvas)))%Z /\
  snd (resize clientWidth clientHeight devicePixelRatio canvas)
  = mkViewport 0 0
      (width (fst (resize clientWidth clientHeight devicePixelRatio canvas)))
      (height (fst (resize clientWidth clientHeight devicePixelRatio canvas))) /\
  resize clientWidth clientHeight devicePixelRatio
    (fst (resize clientWidth clientHeight devicePixelRatio canvas))
  = resize clientWidth clientHeight devicePixelRatio canvas /\
  1 <= targetWidth (fst (resize clientWidth clientHeight devicePixelRatio canvas)) o
    <= inject_Z (width (fst (resize clientWidth clientHeight devicePixelRatio canvas))) /\
  1 <= targetHeight (fst (resize clientWidth clientHeight devicePixelRatio canvas)) o
    <= inject_Z (height (fst (resize clientWidth clientHeight devicePixelRatio canvas))).
Proof.
  destruct (resize_size clientWidth clientHeight devicePixelRatio canvas) as [Hw Hh].
  set (r := resize clientWidth clientHeight devicePixelRatio canvas) in *.
  assert (H1 : (1 <= width (fst r))%Z) by (rewrite Hw; lia).
  assert (H2 : (1 <= height (fst r))%Z) by (rewrite Hh; lia).
  split; [exact H1|]. split; [exact H2|]. split; [reflexivity|]. split.
  - unfold resize at 1. rewrite <- Hw, <- Hh, !Z.eqb_refl. cbn [negb orb].
    destruct r as [[w h] v] eqn:Er. cbn [fst width height].
    subst r. unfold resize in Er. injection Er as Ec Ev. rewrite <- Ev.
    rewrite Ec. reflexivity.
  - split; [apply target_side_range, H1 | apply target_side_range, H2].
Qed.

(** ** DisplacementPreview: the webcam feed and the overlay *)

Lemma same_streams_spec a b : same_streams a b = true <-> a = b.
Proof.
  destruct a as [v|], b as [w|]; simpl; try (split; congruence).
  rewrite Nat.eqb_eq. split; congruence.
Qed.

Lemma same_status_spec a b : same_status a b = true <-> a = b.
Proof. destruct a, b; simpl; split; congruence. Qed.

(** With a coherent state, a stream is shown exactly while the status is
    [active]. *)
Lemma media_ok_active h :
  media_ok h -> (stream (mediaState h) <> None <-> status (mediaState h) = active).
Proof. intros (Ha & _). symmetry. exact Ha. Qed.

Lemma receive_keeps glState h e f :
  feed_ok (h, f) ->
  feed_ok (media_step h e,
           receive glState (mediaState h) (mediaState (media_step h e)) f).
Proof.
  intros (Hok & Hl & Hu & Hr & Href). cbn [fst snd] in *.
  pose proof (media_step_keeps h e Hok) as Hok'.
  set (old := mediaState h) in *. set (new := mediaState (media_step h e)) in *.
  unfold feed_ok. cbn [fst snd]. fold new. split; [exact Hok'|].
  assert (Hidle : is_active (status new) = true -> status new = active).
  { destruct (status new); simpl; congruence. }
  unfold receive.
  destruct (same_streams (stream old) (stream new)) eqn:Es.
  - apply same_streams_spec in Es. rewrite <- Es.
    destruct (same_status (status old) (status new)) eqn:Et.
    + apply same_status_spec in Et. rewrite <- Et. auto.
    + unfold status_effect. destruct (is_active (status new)) eqn:Ea.
      * split; [exact Hl|]. split; [intros _; now apply Hidle|]. auto.
      * unfold handleError. cbn [listening useVideo videoReady videoReadyRef].
        split; [exact Hl|]. split; [discriminate|]. split; [discriminate|].
        reflexivity.
  - set (f1 := stream_effect glState (stream new) (stream_cleanup f)).
    assert (H1 : (listening f1 = true -> stream new <> None) /\
                 (videoReady f1 = true -> useVideo f1 = true) /\
                 videoReadyRef f1 = videoReady f1 /\
                 (useVideo f1 = true -> useVideo f = true)).
    { unfold f1, stream_effect, stream_cleanup.
      destruct glState; [destruct (stream new) as [s|]|];
        cbn [listening useVideo videoReady videoReadyRef];
        (split; [intros; congruence|]); (split; [auto; intros; congruence|]);
        (split; [auto|intros; congruence]). }
    destruct H1 as (L1 & R1 & Ref1 & U1).
    destruct (same_status (status old) (status new)) eqn:Et.
    + apply same_status_spec in Et.
      split; [exact L1|]. split; [|split; [exact R1 | exact Ref1]].
      intros Hu1. rewrite <- Et. apply Hu, U1, Hu1.
    + unfold status_effect. destruct (is_active (status new)) eqn:Ea.
      * split; [exact L1|]. split; [intros _; now apply Hidle|].
        split; [exact R1 | exact Ref1].
      * unfold handleError. cbn [listening useVideo videoReady videoReadyRef].
        split; [exact L1|]. split; [discriminate|]. split; [discriminate|].
        reflexivity.
Qed.

Lemma feed_step_keeps glState s ev : feed_ok s -> feed_ok (feed_step glState s ev).
Proof.
  destruct s as [h f]. intros Hok. destruct ev as [e| | |]; simpl.
  - now apply receive_keeps.
  - destruct Hok as (Hm & Hl & Hu & Hr & Href). cbn [fst snd] in *.
    destruct (listening f) eqn:El; unfold feed_ok; cbn [fst snd];
      [|rewrite El; auto].
    unfold handleLoaded. cbn [listening useVideo videoReady videoReadyRef].
    rewrite El. split; [exact Hm|]. split; [exact Hl|].
    split; [intros _; apply (media_ok_active h Hm), Hl; reflexivity|]. auto.
  - destruct Hok as (Hm & Hl & Hu & Hr & Href). cbn [fst snd] in *.
    destruct (listening f) eqn:El; unfold feed_ok; cbn [fst snd];
      [|rewrite El; auto].
    unfold handleError. cbn [listening useVideo videoReady videoReadyRef].
    rewrite El. split; [exact Hm|]. split; [exact Hl|].
    split; [discriminate|]. split; [discriminate | reflexivity].
  - destruct Hok as (Hm & Hl & Hu & Hr & Href). cbn [fst snd] in *.
    destruct (videoRef f); unfold feed_ok; cbn [fst snd]; [|auto].
    unfold handleError. cbn [listening useVideo videoReady videoReadyRef].
    split; [exact Hm|]. split; [exact Hl|].
    split; [discriminate|]. split; [discriminate | reflexivity].
Qed.

Lemma feed_start_ok glState : feed_ok (feed_start glState).
Proof.
  unfold feed_ok, feed_start. cbn [fst snd]. split; [apply initialHook_ok|].
  destruct glState; cbn; repeat split; intros; congruence.
Qed.

Lemma feed_run_keeps glState events : forall s,
  feed_ok s -> feed_ok (fold_left (feed_step glState) events s).
Proof.
  induction events as [|ev rest IH]; simpl; intros s Hok; [exact Hok|].
  apply IH. now apply feed_step_keeps.
Qed.

(** X26. [useMediaStream] feeding [DisplacementPreview]: through any
    succession of calls on the hook, permissions, refusals, ended tracks and
    events of the video element, the feed is used only while the status is
    [active], and it is marked ready only while it is used; so, as long as
    the status is not [active], [render] uploads no video frame and leaves
    the flip of uploads off. *)
Theorem feed_is_drawn_only_while_active
    (glState : bool) (events : list FeedEvent) :
  (useVideo (snd (fold_left (feed_step glState) events (feed_start glState))) = true ->
   status (mediaState (fst (fold_left (feed_step glState) events (feed_start glState))))
   = active) /\
  (videoReady (snd (fold_left (feed_step glState) events (feed_start glState))) = true ->
   useVideo (snd (fold_left (feed_step glState) events (feed_start glState))) = true) /\
  (status (mediaState (fst (fold_left (feed_step glState) events (feed_start glState))))
   <> active ->
   forall uniforms refs gl time,
     useVideoRef refs
     = useVideo (snd (fold_left (feed_step glState) events (feed_start glState))) ->
     videoUploads (render uniforms refs gl time) = videoUploads gl /\
     UNPACK_FLIP_Y_WEBGL (render uniforms refs gl time) = false).
Proof.
  destruct (feed_run_keeps glState events _ (feed_start_ok glState))
    as (_ & _ & Hu & Hr & _).
  set (s := fold_left (feed_step glState) events (feed_start glState)) in *.
  split; [exact Hu|]. split; [exact Hr|].
  intros Hst uniforms refs gl time Eref.
  assert (Eu : useVideoRef refs = false).
  { rewrite Eref. destruct (useVideo (snd s)); [|reflexivity].
    exfalso. now apply Hst, Hu. }
  unfold render. cbn [videoUploads UNPACK_FLIP_Y_WEBGL]. rewrite Eu.
  split; reflexivity.
Qed.

(** X27. The overlay of the preview over the hook and the feed: a text is
    shown exactly when the overlay is, that is unless WebGL failed with a
    message or the status is [active] with the feed ready; each status has
    its own text; and whenever neither an error nor a text is shown, the
    feed is what [render] draws from. *)
Theorem overlay_tells_why_the_feed_is_missing
    (glState : bool) (glError : option string) (events : list FeedEvent) :
  (forall st ready,
     (overlayMessage glError st ready <> None <->
      shouldShowOverlay glError st ready = true) /\
     (overlayMessage glError st ready = None <->
      truthy glError = true \/ (st = active /\ ready = true))) /\
  (overlayMessage glError
     (status (mediaState (fst (fold_left (feed_step glState) events
                                 (feed_start glState)))))
     (videoReady (snd (fold_left (feed_step glState) events (feed_start glState))))
   = None ->
   truthy glError = false ->
   useVideo (snd (fold_left (feed_step glState) events (feed_start glState))) = true /\
   stream (mediaState (fst (fold_left (feed_step glState) events
                              (feed_start glState)))) <> None).
Proof.
  assert (Hov : forall st ready,
     (overlayMessage glError st ready <> None <->
      shouldShowOverlay glError st ready = true) /\
     (overlayMessage glError st ready = None <->
      truthy glError = true \/ (st = active /\ ready = true))).
  { intros st ready. unfold overlayMessage, shouldShowOverlay.
    destruct (truthy glError), st, ready; cbn; split; split; intros;
      try congruence; try tauto; try discriminate;
      try (right; split; reflexivity);
      match goal with
      | H : _ \/ _ |- _ => destruct H as [H|[H H']]; congruence
      | _ => idtac
      end. }
  split; [exact Hov|].
  destruct (feed_run_keeps glState events _ (feed_start_ok glState))
    as (Hm & _ & Hu & Hr & _).
  set (s := fold_left (feed_step glState) events (feed_start glState)) in *.
  intros Hnone Hfalsy.
  apply (proj2 (Hov _ _)) in Hnone.
  destruct Hnone as [Ht|[Hs Hready]]; [congruence|].
  split; [now apply Hr|]. now apply (media_ok_active _ Hm).
Qed.

(** ** DisplacementPreview: the objects of the WebGL context *)

Ltac world_simpl :=
  cbn [stateSet live scheduled observing glError_state isReady cleanup_returned
       filter GLObject_eqb negb fst snd app].

Ltac driver_case b :=
  destruct b eqn:?; world_simpl.

(** How the initialisation effect ends on a fresh context: with all seven
    objects and no message, or with a message, no state, and some objects. *)
Lemma init_effect_cases (d : Driver) :
  init_effect d fresh_world
  = mkGLWorld (rev all_objects) true true true None true true \/
  exists objects message,
    init_effect d fresh_world
    = mkGLWorld objects false false false (Some message) false (getContext d) /\
    (getContext d = true -> creates d VertexShader = true ->
     COMPILE_STATUS d VertexShader = true -> In VertexShader objects).
Proof.
  unfold init_effect, init_objects, createShader, createProgram, create,
    and_then, ret, throw, delete, with_live, fresh_world.
  world_simpl.
  driver_case (getContext d);
    [|right; eexists _, _; split; [reflexivity | discriminate]].
  driver_case (creates d VertexShader);
    [|right; eexists _, _; split; [reflexivity | discriminate]].
  driver_case (COMPILE_STATUS d VertexShader);
    [|right; eexists _, _; split; [reflexivity | discriminate]].
  driver_case (creates d FragmentShader);
    [|right; eexists _, _; split; [reflexivity | intros; simpl; tauto]].
  driver_case (COMPILE_STATUS d FragmentShader);
    [|right; eexists _, _; split; [reflexivity | intros; simpl; tauto]].
  driver_case (creates d ShaderProgram);
    [|right; eexists _, _; split; [reflexivity | intros; simpl; tauto]].
  driver_case (LINK_STATUS d);
    [|right; eexists _, _; split; [reflexivity | intros; simpl; tauto]].
  driver_case (creates d PositionBuffer);
    [|right; eexists _, _; split; [reflexivity | intros; simpl; tauto]].
  driver_case (creates d BaseTexture);
    [|right; eexists _, _; split; [reflexivity | intros; simpl; tauto]].
  driver_case (creates d RampTextureX);
    [|right; eexists _, _; split; [reflexivity | intros; simpl; tauto]].
  driver_case (creates d RampTextureY);
    [|right; eexists _, _; split; [reflexivity | intros; simpl; tauto]].
  left. reflexivity.
Qed.

(** X28. The initialisation effect of [DisplacementPreview] and its
    clean-up: when the effect ends without an error message, the context
    holds the two shaders, the program, the buffer and the three textures,
    once each, a [render] is scheduled and the canvas observed; and the
    clean-up then deletes every one of these objects, cancels the callback
    and clears [glStateRef]. *)
Theorem cleanup_releases_all_objects (d : Driver) :
  glError_state (init_effect d fresh_world) = None ->
  Permutation (live (init_effect d fresh_world)) all_objects /\
  stateSet (init_effect d fresh_world) = true /\
  scheduled (init_effect d fresh_world) = true /\
  isReady (init_effect d fresh_world) = true /\
  live (init_cleanup (init_effect d fresh_world)) = [] /\
  stateSet (init_cleanup (init_effect d fresh_world)) = false /\
  scheduled (init_cleanup (init_effect d fresh_world)) = false /\
  observing (init_cleanup (init_effect d fresh_world)) = false.
Proof.
  destruct (init_effect_cases d) as [->|(objects & message & -> & _)];
    [|discriminate].
  intros _. split; [symmetry; apply Permutation_rev|].
  repeat split.
Qed.

Lemma cleanup_releases_witness :
  Permutation
    (live (init_effect
             (mkDriver true (fun _ => true) (fun _ => true) (fun _ => None) true None)
             fresh_world))
    all_objects /\
  live (init_cleanup
          (init_effect
             (mkDriver true (fun _ => true) (fun _ => true) (fun _ => None) true None)
             fresh_world))
  = [].
Proof.
  pose proof (cleanup_releases_all_objects
                (mkDriver true (fun _ => true) (fun _ => true) (fun _ => None)
                   true None) eq_refl) as H.
  split; [apply H | apply H].
Defined.

(** X29. When the initialisation effect ends with an error message, it has
    set neither [glStateRef] nor [isReady] and scheduled no [render]; its
    clean-up then deletes nothing, so the objects made before the failure
    stay in the context: the vertex shader, for one, whenever it was
    compiled. *)
Theorem failed_start_frees_nothing (d : Driver) (message : string) :
  glError_state (init_effect d fresh_world) = Some message ->
  stateSet (init_effect d fresh_world) = false /\
  scheduled (init_effect d fresh_world) = false /\
  isReady (init_effect d fresh_world) = false /\
  live (init_cleanup (init_effect d fresh_world))
  = live (init_effect d fresh_world) /\
  (getContext d = true -> creates d VertexShader = true ->
   COMPILE_STATUS d VertexShader = true ->
   In VertexShader (live (init_cleanup (init_effect d fresh_world)))).
Proof.
  destruct (init_effect_cases d) as [->|(objects & message' & -> & Hv)];
    [discriminate|].
  intros _. unfold init_cleanup.
  cbn [stateSet live scheduled observing glError_state isReady cleanup_returned].
  destruct (getContext d);
    cbn [stateSet live scheduled observing glError_state isReady cleanup_returned];
    repeat split; auto.
Qed.

Lemma failed_start_witness :
  live (init_cleanup
          (init_effect
             (mkDriver true (fun _ => true)
                (fun o => GLObject_eqb o VertexShader)
                (fun _ => Some "0:1: syntax error"%string) true None)
             fresh_world))
  = [VertexShader] /\
  glError_state
    (init_effect
       (mkDriver true (fun _ => true)
          (fun o => GLObject_eqb o VertexShader)
          (fun _ => Some "0:1: syntax error"%string) true None)
       fresh_world)
  = Some "0:1: syntax error"%string.
Proof.
  pose proof (failed_start_frees_nothing
                (mkDriver true (fun _ => true)
                   (fun o => GLObject_eqb o VertexShader)
                   (fun _ => Some "0:1: syntax error"%string) true None)
                "0:1: syntax error" eq_refl) as H.
  split; [|reflexivity].
  destruct H as (_ & _ & _ & H & _). rewrite H. reflexivity.
Defined.

(** ** DisplacementPreview: the base texture *)

Lemma store_nth_same (a : list Z) (i : nat) (v : Z) :
  (i < length a)%nat -> nth_error (store a i v) i = Some (ToUint8 v).
Proof.
  revert i. induction a as [|e a IH]; intros [|i] H; simpl in *; try lia;
    [reflexivity|]. apply IH. lia.
Qed.

Lemma store_nth_other (a : list Z) (i j : nat) (v : Z) :
  i <> j -> nth_error (store a i v) j = nth_error a j.
Proof.
  revert i j. induction a as [|e a IH]; intros [|i] [|j] H; simpl; auto;
    try congruence.
Qed.

Lemma write_texel_length sine PI size data x0 y0 :
  length (write_texel sine PI size data x0 y0) = length data.
Proof. unfold write_texel. now rewrite !store_length. Qed.

(** A texel leaves the bytes of the other texels alone. *)
Lemma write_texel_other sine PI size data x0 y0 j :
  (j < texel_offset size x0 y0 \/ texel_offset size x0 y0 + 4 <= j)%nat ->
  nth_error (write_texel sine PI size data x0 y0) j = nth_error data j.
Proof.
  intros H. unfold write_texel. rewrite !store_nth_other by lia. reflexivity.
Qed.

Lemma write_texel_hit sine PI size data x0 y0 k v :
  (texel_offset size x0 y0 + 4 <= length data)%nat ->
  nth_error (channels sine PI size x0 y0) k = Some v ->
  nth_error (write_texel sine PI size data x0 y0) (texel_offset size x0 y0 + k)
  = Some (ToUint8 v).
Proof.
  intros Hlen Hk. unfold write_texel, channels in *.
  destruct k as [|[|[|[|k]]]]; simpl in Hk; try (destruct k; discriminate);
    injection Hk as <-.
  - rewrite Nat.add_0_r, !store_nth_other by lia.
    apply store_nth_same. lia.
  - rewrite !store_nth_other by lia.
    apply store_nth_same. rewrite store_length. lia.
  - rewrite !store_nth_other by lia.
    apply store_nth_same. rewrite !store_length. lia.
  - apply store_nth_same. rewrite !store_length. lia.
Qed.

(** Different texels of a row-major image do not overlap. *)
Lemma texels_apart size x0 y0 x1 y1 :
  (x0 < size)%nat -> (x1 < size)%nat -> (x0, y0) <> (x1, y1) ->
  (texel_offset size x1 y1 + 4 <= texel_offset size x0 y0 \/
   texel_offset size x0 y0 + 4 <= texel_offset size x1 y1)%nat.
Proof.
  intros H0 H1 Hne. unfold texel_offset.
  destruct (Nat.lt_trichotomy y0 y1) as [Hy|[Hy|Hy]].
  - right. nia.
  - subst y1. assert (x0 <> x1) by congruence. lia.
  - left. nia.
Qed.

Lemma fold_row sine PI size y0 xs : forall data,
  fold_left (fun data p => write_texel sine PI size data (fst p) (snd p))
    (map (fun x0 => (x0, y0)) xs) data
  = fold_left (fun data x0 => write_texel sine PI size data x0 y0) xs data.
Proof.
  induction xs as [|x0 xs IH]; intros data; simpl; [reflexivity | apply IH].
Qed.

Lemma fold_rows sine PI size xs ys : forall data,
  fold_left
    (fun data y0 =>
       fold_left (fun data x0 => write_texel sine PI size data x0 y0) xs data)
    ys data
  = fold_left (fun data p => write_texel sine PI size data (fst p) (snd p))
      (flat_map (fun y0 => map (fun x0 => (x0, y0)) xs) ys) data.
Proof.
  induction ys as [|y0 ys IH]; intros data; simpl; [reflexivity|].
  now rewrite fold_left_app, fold_row, IH.
Qed.

Lemma fill_texture_texels sine PI size data :
  fill_texture sine PI size data
  = fold_left (fun data p => write_texel sine PI size data (fst p) (snd p))
      (texels size) data.
Proof. unfold fill_texture, texels. apply fold_rows. Qed.

Lemma fold_texels_length sine PI size ps : forall data,
  length (fold_left (fun data p => write_texel sine PI size data (fst p) (snd p))
            ps data)
  = length data.
Proof.
  induction ps as [|p ps IH]; intros data; simpl; [reflexivity|].
  now rewrite IH, write_texel_length.
Qed.

(** Once a texel has been written its bytes stay. *)
Lemma fold_texels_hit sine PI size x0 y0 k v ps : forall data,
  (x0 < size)%nat ->
  Forall (fun p => (fst p < size)%nat) ps ->
  (texel_offset size x0 y0 + 4 <= length data)%nat ->
  nth_error (channels sine PI size x0 y0) k = Some v ->
  In (x0, y0) ps \/ nth_error data (texel_offset size x0 y0 + k) = Some (ToUint8 v) ->
  nth_error
    (fold_left (fun data p => write_texel sine PI size data (fst p) (snd p)) ps data)
    (texel_offset size x0 y0 + k)
  = Some (ToUint8 v).
Proof.
  induction ps as [|[x1 y1] ps IH]; intros data Hx Hps Hlen Hk Hor; simpl.
  - destruct Hor as [[]|H]; exact H.
  - inversion_clear Hps as [|? ? Hp Hps']. cbn [fst] in Hp.
    assert (Hk4 : (k < 4)%nat).
    { change 4%nat with (length (channels sine PI size x0 y0)).
      apply nth_error_Some. rewrite Hk. discriminate. }
    apply IH; auto; [now rewrite write_texel_length|].
    destruct (Nat.eq_dec x1 x0) as [Ex|Ex];
      [destruct (Nat.eq_dec y1 y0) as [Ey|Ey]|].
    + subst. right. now apply write_texel_hit.
    + destruct Hor as [[E|Hin]|H]; [congruence | now left | right].
      rewrite write_texel_other; [exact H|].
      destruct (texels_apart size x0 y0 x1 y1 Hx Hp) as [Hd|Hd];
        [congruence | lia | lia].
    + destruct Hor as [[E|Hin]|H]; [congruence | now left | right].
      rewrite write_texel_other; [exact H|].
      destruct (texels_apart size x0 y0 x1 y1 Hx Hp) as [Hd|Hd];
        [congruence | lia | lia].
Qed.

Lemma texels_complete size x0 y0 :
  (x0 < size)%nat -> (y0 < size)%nat -> In (x0, y0) (texels size).
Proof.
  intros Hx Hy. unfold texels. apply in_flat_map. exists y0.
  split; [apply in_seq; lia|]. apply in_map_iff. exists x0.
  split; [reflexivity | apply in_seq; lia].
Qed.

Lemma texels_in_row size : Forall (fun p => (fst p < size)%nat) (texels size).
Proof.
  unfold texels. rewrite Forall_forall. intros [x1 y1] Hin.
  apply in_flat_map in Hin. destruct Hin as (y & _ & Hin).
  apply in_map_iff in Hin. destruct Hin as (x & E & Hin).
  injection E as <- _. apply in_seq in Hin. cbn [fst]. lia.
Qed.

(** The bytes of the texel at [(x, y)] after the loops. *)
Lemma fill_texture_at sine PI size x0 y0 k v :
  (x0 < size)%nat -> (y0 < size)%nat ->
  nth_error (channels sine PI size x0 y0) k = Some v ->
  nth_error (fill_texture sine PI size (new_Uint8Array (size * size * 4)))
    (texel_offset size x0 y0 + k)
  = Some (ToUint8 v).
Proof.
  intros Hx Hy Hk. rewrite fill_texture_texels.
  apply fold_texels_hit; auto.
  - apply texels_in_row.
  - unfold new_Uint8Array. rewrite repeat_length. unfold texel_offset. nia.
  - left. now apply texels_complete.
Qed.

Lemma gradient_range size x0 :
  (x0 < size)%nat -> 0 <= gradient size x0 <= 1.
Proof.
  intros H. unfold gradient.
  assert (Hs : 0 < inject_Z (Z.of_nat size)).
  { change 0 with (inject_Z 0). rewrite <- Zlt_Qlt. lia. }
  assert (Hx : 0 <= inject_Z (Z.of_nat x0)).
  { change 0 with (inject_Z 0). rewrite <- Zle_Qle. lia. }
  assert (Hxs : inject_Z (Z.of_nat x0) <= inject_Z (Z.of_nat size)).
  { rewrite <- Zle_Qle. lia. }
  split.
  - apply Qle_shift_div_l; [exact Hs | lra].
  - apply Qle_shift_div_r; [exact Hs | lra].
Qed.

Lemma stripe_cases x0 y0 : stripe x0 y0 = 0 \/ stripe x0 y0 = 1.
Proof. unfold stripe. destruct (Z.eqb _ 0); auto. Qed.

Lemma Math_round_between (lo hi : Z) (v : Q) :
  inject_Z lo <= v <= inject_Z hi -> (lo <= Math_round v <= hi)%Z.
Proof.
  intros [H1 H2]. split.
  - rewrite <- (Math_round_inject_Z lo). now apply Math_round_mono.
  - rewrite <- (Math_round_inject_Z hi). now apply Math_round_mono.
Qed.



(** * Binary64 *)

Open Scope float_scope.

(** ** Order on doubles *)

Lemma SFcompare_refl (x : spec_float) :
  x <> S754_nan -> SFcompare x x = Some Eq.
Proof.
  destruct x as [s|s| |s m e]; intros H; try reflexivity; [now destruct s|congruence|].
  simpl. rewrite Z.compare_refl, Pos.compare_cont_refl. now destruct s.
Qed.

Lemma SFcompare_swap (x y : spec_float) :
  SFcompare y x = option_map CompOpp (SFcompare x y).
Proof.
  destruct x as [sx|sx| |sx mx ex], y as [sy|sy| |sy my ey]; simpl;
    try reflexivity; try (now destruct sx); try (now destruct sy);
    try (now destruct sx, sy).
  rewrite (Z.compare_antisym ex ey).
  destruct sx, sy; try reflexivity; destruct (ex ?= ey)%Z; simpl; try reflexivity.
  - rewrite CompOpp_involutive. f_equal.
    exact (Pos.compare_cont_antisym my mx Eq).
  - f_equal. symmetry. exact (Pos.compare_cont_antisym mx my Eq).
Qed.

Lemma is_nan_SF (x : float) :
  is_nan x = match Prim2SF x with S754_nan => true | _ => false end.
Proof.
  unfold is_nan. rewrite FloatAxioms.eqb_spec. unfold SFeqb.
  destruct (Prim2SF x) as [s|s| |s m e] eqn:E; try reflexivity.
  - now destruct s.
  - rewrite SFcompare_refl; [reflexivity | discriminate].
Qed.

Lemma not_nan_SF (x : float) : is_nan x = false <-> Prim2SF x <> S754_nan.
Proof.
  rewrite is_nan_SF. destruct (Prim2SF x); split; congruence.
Qed.

Lemma leb_negb_ltb (x y : float) :
  is_nan x = false -> is_nan y = false -> (x <=? y)%float = negb (y <? x)%float.
Proof.
  rewrite !is_nan_SF, FloatAxioms.leb_spec, FloatAxioms.ltb_spec. unfold SFleb, SFltb.
  rewrite (SFcompare_swap (Prim2SF x) (Prim2SF y)).
  destruct (Prim2SF x) as [sx|sx| |sx mx ex], (Prim2SF y) as [sy|sy| |sy my ey];
    try discriminate; intros _ _;
    destruct (SFcompare _ _) as [[| |]|] eqn:E; try reflexivity;
    simpl in E; try discriminate;
    destruct sx; try destruct sy; discriminate.
Qed.

Lemma ltb_leb (x y : float) : (x <? y)%float = true -> (x <=? y)%float = true.
Proof.
  rewrite FloatAxioms.leb_spec, FloatAxioms.ltb_spec. unfold SFleb, SFltb.
  now destruct (SFcompare _ _) as [[| |]|].
Qed.

Lemma leb_refl (x : float) : is_nan x = false -> (x <=? x)%float = true.
Proof.
  intros H. rewrite FloatAxioms.leb_spec. unfold SFleb.
  rewrite SFcompare_refl; [reflexivity | now apply not_nan_SF].
Qed.

Lemma leb_not_nan (x y : float) :
  (x <=? y)%float = true -> is_nan x = false /\ is_nan y = false.
Proof.
  rewrite FloatAxioms.leb_spec, !is_nan_SF. unfold SFleb.
  destruct (Prim2SF x), (Prim2SF y); simpl; auto; discriminate.
Qed.

Lemma ltb_not_nan (x y : float) :
  (x <? y)%float = true -> is_nan x = false /\ is_nan y = false.
Proof. intros H. now apply leb_not_nan, ltb_leb. Qed.

(** Two numbers that compare equal are the same double, or two zeros. *)
Lemma compare_Eq_SF (x y : spec_float) :
  SFcompare x y = Some Eq ->
  x = y \/ (exists s t, x = S754_zero s /\ y = S754_zero t).
Proof.
  destruct x as [sx|sx| |sx mx ex], y as [sy|sy| |sy my ey]; simpl;
    try discriminate; try (destruct sx; discriminate);
    try (destruct sy; discriminate).
  - right. eauto.
  - destruct sx, sy; try discriminate; auto.
  - destruct sx, sy; try discriminate;
      destruct (ex ?= ey)%Z eqn:E; try discriminate;
      apply Z.compare_eq in E; subst ey; intros H.
    + left. f_equal. apply Pos.compare_eq.
      change (Pos.compare mx my) with (PosDef.Pos.compare_cont Eq mx my).
      destruct (PosDef.Pos.compare_cont Eq mx my); auto; discriminate.
    + left. f_equal. apply Pos.compare_eq.
      change (Pos.compare mx my) with (PosDef.Pos.compare_cont Eq mx my).
      destruct (PosDef.Pos.compare_cont Eq mx my); auto; discriminate.
Qed.

(** ** [Math.max] and [Math.min] *)

Lemma Math_max_nan (a b : float) :
  is_nan a || is_nan b = true -> B64.Math_max a b = nan.
Proof. intros H. unfold B64.Math_max. now rewrite H. Qed.

Lemma Math_min_nan (a b : float) :
  is_nan a || is_nan b = true -> B64.Math_min a b = nan.
Proof. intros H. unfold B64.Math_min. now rewrite H. Qed.

Lemma Math_max_cases (a b : float) :
  is_nan a = false -> is_nan b = false ->
  (B64.Math_max a b = a /\ (b <=? a)%float = true) \/
  (B64.Math_max a b = b /\ (a <=? b)%float = true).
Proof.
  intros Ha Hb. unfold B64.Math_max. rewrite Ha, Hb. cbn [orb].
  destruct (a <? b)%float eqn:E1.
  - right. split; [reflexivity | now apply ltb_leb].
  - destruct (b <? a)%float eqn:E2.
    + left. split; [reflexivity | now apply ltb_leb].
    + destruct (B64.negative a).
      * right. split; [reflexivity|]. rewrite leb_negb_ltb by assumption. now rewrite E2.
      * left. split; [reflexivity|]. rewrite leb_negb_ltb by assumption. now rewrite E1.
Qed.

Lemma Math_min_cases (a b : float) :
  is_nan a = false -> is_nan b = false ->
  (B64.Math_min a b = a /\ (a <=? b)%float = true) \/
  (B64.Math_min a b = b /\ (b <=? a)%float = true).
Proof.
  intros Ha Hb. unfold B64.Math_min. rewrite Ha, Hb. cbn [orb].
  destruct (a <? b)%float eqn:E1.
  - left. split; [reflexivity | now apply ltb_leb].
  - destruct (b <? a)%float eqn:E2.
    + right. split; [reflexivity | now apply ltb_leb].
    + destruct (B64.negative a).
      * left. split; [reflexivity|]. rewrite leb_negb_ltb by assumption. now rewrite E2.
      * right. split; [reflexivity|]. rewrite leb_negb_ltb by assumption. now rewrite E1.
Qed.

Lemma Math_max_not_nan (a b : float) :
  is_nan a = false -> is_nan b = false -> is_nan (B64.Math_max a b) = false.
Proof.
  intros Ha Hb. destruct (Math_max_cases a b Ha Hb) as [[-> _]|[-> _]]; assumption.
Qed.

Lemma Math_min_not_nan (a b : float) :
  is_nan a = false -> is_nan b = false -> is_nan (B64.Math_min a b) = false.
Proof.
  intros Ha Hb. destruct (Math_min_cases a b Ha Hb) as [[-> _]|[-> _]]; assumption.
Qed.

(** [Math.max(a, b)] is one of its arguments and at least both. *)
Lemma Math_max_spec64 (a b : float) :
  is_nan a = false -> is_nan b = false ->
  (B64.Math_max a b = a \/ B64.Math_max a b = b) /\
  (a <=? B64.Math_max a b)%float = true /\
  (b <=? B64.Math_max a b)%float = true.
Proof.
  intros Ha Hb.
  destruct (Math_max_cases a b Ha Hb) as [[-> H]|[-> H]];
    repeat split; auto using leb_refl.
Qed.

Lemma Math_min_spec64 (a b : float) :
  is_nan a = false -> is_nan b = false ->
  (B64.Math_min a b = a \/ B64.Math_min a b = b) /\
  (B64.Math_min a b <=? a)%float = true /\
  (B64.Math_min a b <=? b)%float = true.
Proof.
  intros Ha Hb.
  destruct (Math_min_cases a b Ha Hb) as [[-> H]|[-> H]];
    repeat split; auto using leb_refl.
Qed.

(** A clamp [Math.min(hi, Math.max(lo, v))] of a number lands in
    [[lo, hi]]. *)
Lemma clamp_range64 (lo hi v : float) :
  (lo <=? hi)%float = true -> is_nan v = false ->
  (lo <=? B64.Math_min hi (B64.Math_max lo v))%float = true /\
  (B64.Math_min hi (B64.Math_max lo v) <=? hi)%float = true.
Proof.
  intros Hlh Hv. destruct (leb_not_nan _ _ Hlh) as [Hlo Hhi].
  destruct (Math_max_spec64 lo v Hlo Hv) as (_ & H1 & _).
  pose proof (Math_max_not_nan lo v Hlo Hv) as Hm.
  destruct (Math_min_cases hi (B64.Math_max lo v) Hhi Hm) as [[-> H]|[-> H]];
    split; auto using leb_refl.
Qed.

(** ** Whole numbers as doubles *)

Lemma digits2_pos_size (p : positive) : digits2_pos p = Pos.size p.
Proof. induction p; simpl; congruence. Qed.

Lemma size_bounds (p : positive) :
  (2 ^ (Z.pos (Pos.size p) - 1) <= Z.pos p < 2 ^ Z.pos (Pos.size p))%Z.
Proof.
  pose proof (Pos.size_gt p) as Hgt. pose proof (Pos.size_le p) as Hle.
  assert (H2 : forall q, Z.pos (2 ^ q) = (2 ^ Z.pos q)%Z).
  { intros q. now rewrite Pos2Z.inj_pow. }
  split.
  - assert (H : (2 ^ Z.pos (Pos.size p) <= 2 * Z.pos p)%Z).
    { rewrite <- H2. change (2 * Z.pos p)%Z with (Z.pos p~0). exact Hle. }
    replace (Z.pos (Pos.size p)) with (Z.succ (Z.pos (Pos.size p) - 1)) in H by lia.
    rewrite Z.pow_succ_r in H by lia. lia.
  - rewrite <- H2. exact Hgt.
Qed.

Lemma iter_xO_value (p n : positive) :
  Z.pos (Pos.iter xO p n) = (Z.pos p * 2 ^ Z.pos n)%Z.
Proof.
  induction n as [|n IH] using Pos.peano_ind.
  - simpl. lia.
  - rewrite Pos.iter_succ, Pos2Z.inj_succ, Z.pow_succ_r by lia.
    rewrite Pos2Z.inj_xO, IH. lia.
Qed.

Lemma iter_xO_size (p n : positive) :
  Pos.size (Pos.iter xO p n) = (Pos.size p + n)%positive.
Proof.
  induction n as [|n IH] using Pos.peano_ind.
  - simpl. lia.
  - rewrite Pos.iter_succ. simpl. rewrite IH. lia.
Qed.

(** The size of a positive number is fixed by the powers of two around
    it. *)
Lemma size_unique (p : positive) (d : Z) :
  (2 ^ (d - 1) <= Z.pos p < 2 ^ d)%Z -> (1 <= d)%Z -> Z.pos (Pos.size p) = d.
Proof.
  intros [Hlo Hhi] Hd. pose proof (size_bounds p) as [Slo Shi].
  destruct (Z.lt_trichotomy (Z.pos (Pos.size p)) d) as [H|[H|H]]; [|exact H|].
  - assert (2 ^ Z.pos (Pos.size p) <= 2 ^ (d - 1))%Z
      by (apply Z.pow_le_mono_r; lia). lia.
  - assert (2 ^ d <= 2 ^ (Z.pos (Pos.size p) - 1))%Z
      by (apply Z.pow_le_mono_r; lia). lia.
Qed.

(** What a double is made of, when it is valid. *)
Lemma valid_finite (x : float) s m e :
  Prim2SF x = S754_finite s m e ->
  (Z.pos (Pos.size m) <= 53)%Z /\ (-1074 <= e <= 971)%Z /\
  ((-1074 < e)%Z -> Z.pos (Pos.size m) = 53%Z).
Proof.
  intros E. pose proof (Prim2SF_valid x) as V. rewrite E in V.
  cbn [valid_binary] in V. unfold bounded, canonical_mantissa, fexp, emin in V.
  rewrite digits2_pos_size in V.
  apply andb_true_iff in V as [V1 V2].
  apply Z.eqb_eq in V1. apply Z.leb_le in V2.
  change (3 - emax - prec)%Z with (-1074)%Z in V1.
  change prec with 53%Z in V1. change (emax - prec)%Z with 971%Z in V2.
  lia.
Qed.

Lemma valid_mantissa (x : float) s m e :
  Prim2SF x = S754_finite s m e -> (Z.pos m < 2 ^ 53)%Z.
Proof.
  intros E. destruct (valid_finite x s m e E) as (Hd & _).
  pose proof (size_bounds m) as [_ H].
  assert (2 ^ Z.pos (Pos.size m) <= 2 ^ 53)%Z by (apply Z.pow_le_mono_r; lia).
  lia.
Qed.

(** The double of a positive integer below [2^53]: the integer itself,
    shifted to 53 bits. *)
Lemma binary_round_small (s : bool) (p : positive) :
  (Z.pos p < 2 ^ 53)%Z ->
  exists m,
    binary_round prec emax s p 0 = S754_finite s m (Z.pos (Pos.size p) - 53) /\
    Z.pos m = (Z.pos p * 2 ^ (53 - Z.pos (Pos.size p)))%Z /\
    Z.pos (Pos.size m) = 53%Z.
Proof.
  intros Hp. pose proof (size_bounds p) as [Slo Shi].
  assert (Hd : (Z.pos (Pos.size p) <= 53)%Z).
  { destruct (Z.le_gt_cases (Z.pos (Pos.size p)) 53) as [H|H]; [exact H|].
    assert (2 ^ 53 <= 2 ^ (Z.pos (Pos.size p) - 1))%Z
      by (apply Z.pow_le_mono_r; lia). lia. }
  unfold binary_round, shl_align, fexp, emin.
  rewrite digits2_pos_size.
  change (3 - emax - prec)%Z with (-1074)%Z. change prec with 53%Z.
  rewrite Z.add_0_r, Z.max_l, Z.sub_0_r by lia.
  set (d := Z.pos (Pos.size p)) in *.
  assert (Haux : forall m e, Z.pos (Pos.size m) = 53%Z -> (-1074 <= e <= 971)%Z ->
            binary_round_aux 53 emax s (Z.pos m) e loc_Exact = S754_finite s m e).
  { intros m e Hm He.
    unfold binary_round_aux, shr_fexp, fexp, emin. cbn [Zdigits2 shr_record_of_loc].
    rewrite digits2_pos_size, Hm.
    change (3 - emax - 53)%Z with (-1074)%Z.
    replace (Z.max (53 + e - 53) (-1074) - e)%Z with 0%Z by lia.
    cbn [shr shr_m loc_of_shr_record round_nearest_even Zdigits2 shr_record_of_loc].
    rewrite digits2_pos_size, Hm.
    replace (Z.max (53 + e - 53) (-1074) - e)%Z with 0%Z by lia.
    cbn [shr shr_m].
    change (emax - 53)%Z with 971%Z.
    destruct (Z.leb_spec e 971); [reflexivity | lia]. }
  destruct (d - 53)%Z as [|q|q] eqn:E; [| lia |].
  - exists p. rewrite Haux by (fold d; lia).
    replace (53 - d)%Z with 0%Z by lia. rewrite Z.mul_1_r.
    repeat split. fold d. lia.
  - exists (Pos.iter xO p q).
    assert (Hs : Z.pos (Pos.size (Pos.iter xO p q)) = 53%Z).
    { rewrite iter_xO_size, Pos2Z.inj_add. fold d. lia. }
    rewrite Haux by (auto; lia).
    split; [reflexivity|]. split; [|exact Hs].
    rewrite iter_xO_value. f_equal. f_equal. lia.
Qed.

Lemma of_uint63_small (p : positive) :
  (Z.pos p < 2 ^ 53)%Z ->
  exists m,
    Prim2SF (of_uint63 (Uint63.of_Z (Z.pos p)))
    = S754_finite false m (Z.pos (Pos.size p) - 53) /\
    Z.pos m = (Z.pos p * 2 ^ (53 - Z.pos (Pos.size p)))%Z /\
    Z.pos (Pos.size m) = 53%Z.
Proof.
  intros Hp. rewrite of_uint63_spec, Uint63.of_Z_spec.
  rewrite Z.mod_small.
  - cbn [binary_normalize]. now apply binary_round_small.
  - split; [lia|]. eapply Z.lt_trans; [exact Hp|]. reflexivity.
Qed.

Lemma of_int_shape (z : Z) :
  (Z.abs z < 2 ^ 53)%Z -> whole_shape z (Prim2SF (B64.of_int z)).
Proof.
  intros Hz. unfold B64.of_int. destruct z as [|p|p].
  - cbn. constructor. reflexivity.
  - cbn [Z.ltb Z.compare]. destruct (of_uint63_small p Hz) as (m & -> & Hm & _).
    now apply (whole_finite _ false p m).
  - cbn [Z.ltb Z.compare Z.opp]. rewrite opp_spec.
    destruct (of_uint63_small p Hz) as (m & -> & Hm & _).
    now apply (whole_finite _ true p m).
Qed.

(** Doubles of integers compare as the integers do. *)
Lemma whole_compare (a b : Z) (x y : spec_float) :
  whole_shape a x -> whole_shape b y -> SFcompare x y = Some (a ?= b)%Z.
Proof.
  intros [->|sa pa ma -> Hma] [->|sb pb mb -> Hmb]; unfold SFcompare.
  - reflexivity.
  - now destruct sb.
  - now destruct sa.
  - pose proof (size_bounds pa) as [La Ha]. pose proof (size_bounds pb) as [Lb Hb].
    set (da := Z.pos (Pos.size pa)) in *. set (db := Z.pos (Pos.size pb)) in *.
    assert (Hlt : forall p q dp dq : Z,
              (2 ^ (dp - 1) <= p < 2 ^ dp)%Z -> (2 ^ (dq - 1) <= q < 2 ^ dq)%Z ->
              (dp < dq)%Z -> (p < q)%Z).
    { intros p q dp dq Hp Hq Hd.
      assert (2 ^ dp <= 2 ^ (dq - 1))%Z.
      { destruct (Z.le_gt_cases 0 dp).
        - apply Z.pow_le_mono_r; lia.
        - rewrite (Z.pow_neg_r 2 dp) by lia. apply Z.pow_nonneg. lia. }
      lia. }
    assert (Heq : da = db -> (Z.pos ma ?= Z.pos mb)%Z = (Z.pos pa ?= Z.pos pb)%Z).
    { intros E. rewrite Hma, Hmb. fold da db. rewrite E.
      assert (0 < 2 ^ (53 - db))%Z.
      { destruct (Z.le_gt_cases 0 (53 - db)) as [H|H].
        - apply Z.pow_pos_nonneg; lia.
        - rewrite (Z.pow_neg_r 2 (53 - db)) in Hmb by lia. lia. }
      destruct (Z.compare_spec (Z.pos pa) (Z.pos pb)) as [E1|E1|E1].
      - rewrite E1. apply Z.compare_refl.
      - apply Z.compare_lt_iff. nia.
      - apply Z.compare_gt_iff. nia. }
    change (PosDef.Pos.compare_cont Eq ma mb) with (Z.pos ma ?= Z.pos mb)%Z.
    destruct sa, sb; cbn [cond_Zopp Z.opp]; f_equal.
    + change (Z.neg pa ?= Z.neg pb)%Z with (CompOpp (Z.pos pa ?= Z.pos pb)%Z).
      destruct (Z.compare_spec (da - 53) (db - 53)) as [E|E|E].
      * rewrite Heq by lia. reflexivity.
      * assert (Z.pos pa < Z.pos pb)%Z by (apply (Hlt _ _ da db); auto; lia).
        apply Z.compare_lt_iff in H. now rewrite H.
      * assert (Z.pos pb < Z.pos pa)%Z by (apply (Hlt _ _ db da); auto; lia).
        apply Z.compare_gt_iff in H. now rewrite H.
    + destruct (Z.compare_spec (da - 53) (db - 53)) as [E|E|E].
      * rewrite Heq by lia. reflexivity.
      * assert (Z.pos pa < Z.pos pb)%Z by (apply (Hlt _ _ da db); auto; lia).
        apply Z.compare_lt_iff in H. now rewrite H.
      * assert (Z.pos pb < Z.pos pa)%Z by (apply (Hlt _ _ db da); auto; lia).
        apply Z.compare_gt_iff in H. now rewrite H.
Qed.

Lemma of_int_compare (a b : Z) :
  (Z.abs a < 2 ^ 53)%Z -> (Z.abs b < 2 ^ 53)%Z ->
  SFcompare (Prim2SF (B64.of_int a)) (Prim2SF (B64.of_int b)) = Some (a ?= b)%Z.
Proof. intros Ha Hb. apply whole_compare; now apply of_int_shape. Qed.

Lemma of_int_ltb (a b : Z) :
  (Z.abs a < 2 ^ 53)%Z -> (Z.abs b < 2 ^ 53)%Z ->
  (B64.of_int a <? B64.of_int b)%float = (a <? b)%Z.
Proof.
  intros Ha Hb. rewrite FloatAxioms.ltb_spec. unfold SFltb, Z.ltb.
  rewrite of_int_compare by assumption. reflexivity.
Qed.

Lemma of_int_not_nan (a : Z) :
  (Z.abs a < 2 ^ 53)%Z -> is_nan (B64.of_int a) = false.
Proof.
  intros Ha. rewrite is_nan_SF. now destruct (of_int_shape a Ha).
Qed.

Lemma of_int_negative (a : Z) :
  (Z.abs a < 2 ^ 53)%Z -> B64.negative (B64.of_int a) = (a <? 0)%Z.
Proof.
  intros Ha. unfold B64.negative.
  destruct (of_int_shape a Ha) as [->|s p m -> _]; [reflexivity|].
  now destruct s.
Qed.

Lemma Math_max_of_int (a b : Z) :
  (Z.abs a < 2 ^ 53)%Z -> (Z.abs b < 2 ^ 53)%Z ->
  B64.Math_max (B64.of_int a) (B64.of_int b) = B64.of_int (Z.max a b).
Proof.
  intros Ha Hb. unfold B64.Math_max.
  rewrite !of_int_not_nan, !of_int_ltb by assumption. cbn [orb].
  destruct (Z.ltb_spec a b); [now rewrite Z.max_r by lia|].
  destruct (Z.ltb_spec b a); [now rewrite Z.max_l by lia|].
  assert (a = b) as -> by lia. rewrite Z.max_id. now destruct (B64.negative _).
Qed.

Lemma Math_min_of_int (a b : Z) :
  (Z.abs a < 2 ^ 53)%Z -> (Z.abs b < 2 ^ 53)%Z ->
  B64.Math_min (B64.of_int a) (B64.of_int b) = B64.of_int (Z.min a b).
Proof.
  intros Ha Hb. unfold B64.Math_min.
  rewrite !of_int_not_nan, !of_int_ltb by assumption. cbn [orb].
  destruct (Z.ltb_spec a b); [now rewrite Z.min_l by lia|].
  destruct (Z.ltb_spec b a); [now rewrite Z.min_r by lia|].
  assert (a = b) as -> by lia. rewrite Z.min_id. now destruct (B64.negative _).
Qed.

(** ** [Math.round] *)

Lemma SF_zero_inv (x : float) s :
  Prim2SF x = S754_zero s -> x = if s then neg_zero else zero.
Proof. intros E. rewrite <- (SF2Prim_Prim2SF x), E. now destruct s. Qed.

Lemma SF_infinity_inv (x : float) s :
  Prim2SF x = S754_infinity s -> x = if s then neg_infinity else infinity.
Proof. intros E. rewrite <- (SF2Prim_Prim2SF x), E. now destruct s. Qed.

Lemma SF_nan_inv (x : float) : Prim2SF x = S754_nan -> x = nan.
Proof. intros E. now rewrite <- (SF2Prim_Prim2SF x), E. Qed.

Lemma nearest_bound s m e :
  (e < 0)%Z -> (Z.pos m < 2 ^ 53)%Z -> (Z.abs (B64.nearest s m e) <= 2 ^ 52)%Z.
Proof.
  intros He Hm. unfold B64.nearest.
  destruct (Z.leb_spec 0 e); [lia|].
  rewrite Z.shiftr_div_pow2 by lia.
  replace (1 - e)%Z with (Z.succ (- e)) by lia.
  rewrite Z.pow_succ_r by lia.
  assert (HE : (2 <= 2 ^ (- e))%Z).
  { change 2%Z with (2 ^ 1)%Z at 1. apply Z.pow_le_mono_r; lia. }
  set (E := (2 ^ (- e))%Z) in *.
  set (n := cond_Zopp s (Z.pos m)).
  assert (Hn : (- 2 ^ 53 < n < 2 ^ 53)%Z) by (subst n; destruct s; cbn; lia).
  change (2 ^ 53)%Z with 9007199254740992%Z in *.
  change (2 ^ 52)%Z with 4503599627370496%Z.
  assert (Hu : ((2 * n + E) / (2 * E) < 4503599627370496 + 1)%Z).
  { apply Z.div_lt_upper_bound; nia. }
  assert (Hl : (- 4503599627370496 <= (2 * n + E) / (2 * E))%Z).
  { apply Z.div_le_lower_bound; nia. }
  lia.
Qed.

Lemma nearest_large s m e :
  (0 <= e)%Z -> B64.nearest s m e = (cond_Zopp s (Z.pos m) * 2 ^ e)%Z.
Proof. intros He. unfold B64.nearest. destruct (Z.leb_spec 0 e); [reflexivity | lia]. Qed.

(** ** The sanitised frame rate *)

Lemma one_SF : Prim2SF 1 = S754_finite false 4503599627370496 (-52).
Proof. reflexivity. Qed.

Lemma sixty_SF : Prim2SF 60 = S754_finite false 8444249301319680 (-47).
Proof. reflexivity. Qed.

(** The frame rate of a call whose [fps] is a number: a whole number from 1
    to 60, the rounded [fps] brought into that range. *)
Lemma sanitizedFps_whole (o : B64.Options) :
  is_nan (B64.fps o) = false ->
  exists n : Z,
    (1 <= n <= 60)%Z /\
    B64.sanitizedFps o = B64.of_int n /\
    (forall k, B64.nearest_integer (B64.fps o) = Some k ->
               n = Z.min 60 (Z.max 1 k)).
Proof.
  intros Hnan. unfold B64.sanitizedFps, B64.nearest_integer.
  set (x := B64.fps o) in *. clearbody x.
  destruct (Prim2SF x) as [s|s| |s m e] eqn:E.
  - apply SF_zero_inv in E. subst x. exists 1%Z. split; [lia|].
    split; [now destruct s|]. intros k Hk.
    assert (k = 0%Z) by (destruct s; cbn in Hk; congruence). subst k. reflexivity.
  - apply SF_infinity_inv in E. subst x. destruct s.
    + exists 1%Z. split; [lia|]. split; [reflexivity|]. intros k Hk. discriminate.
    + exists 60%Z. split; [lia|]. split; [reflexivity|]. intros k Hk. discriminate.
  - rewrite is_nan_SF, E in Hnan. discriminate.
  - destruct (valid_finite x s m e E) as (Hsz & He & Hnorm).
    pose proof (valid_mantissa x s m e E) as Hm.
    destruct (Z.leb_spec 0 e) as [Hpos|Hneg].
    + assert (Hr : B64.Math_round x = x).
      { unfold B64.Math_round. rewrite E.
        destruct (Z.leb_spec 0 e); [reflexivity | lia]. }
      rewrite Hr. pose proof (size_bounds m) as [Hlo _].
      rewrite Hnorm in Hlo by lia. change (2 ^ (53 - 1))%Z with 4503599627370496%Z in Hlo.
      assert (H2 : (0 < 2 ^ e)%Z) by (apply Z.pow_pos_nonneg; lia).
      destruct s.
      * exists 1%Z. split; [lia|]. split.
        -- assert (Hmax : B64.Math_max 1 x = 1).
           { unfold B64.Math_max. rewrite Hnan. cbn [is_nan orb].
             rewrite !FloatAxioms.ltb_spec, one_SF, E. reflexivity. }
           rewrite Hmax. reflexivity.
        -- intros k Hk. injection Hk as <-. rewrite nearest_large by lia.
           cbn [cond_Zopp]. nia.
      * exists 60%Z. split; [lia|]. split.
        -- assert (Hmax : B64.Math_max 1 x = x).
           { unfold B64.Math_max. rewrite Hnan. cbn [is_nan orb].
             rewrite !FloatAxioms.ltb_spec, one_SF, E. unfold SFltb, SFcompare.
             destruct (Z.compare_spec (-52) e); try lia. reflexivity. }
           rewrite Hmax. unfold B64.Math_min. rewrite Hnan. cbn [is_nan orb].
           rewrite !FloatAxioms.ltb_spec, sixty_SF, E. unfold SFltb, SFcompare.
           destruct (Z.compare_spec (-47) e); try lia. reflexivity.
        -- intros k Hk. injection Hk as <-. rewrite nearest_large by lia.
           cbn [cond_Zopp]. nia.
    + pose proof (nearest_bound s m e Hneg Hm) as Hb.
      set (k := B64.nearest s m e) in *.
      exists (Z.min 60 (Z.max 1 k)). split; [lia|]. split.
      * unfold B64.Math_round. rewrite E. fold k.
        destruct (Z.leb_spec 0 e); [lia|].
        destruct (Z.eqb_spec k 0) as [->|Hk].
        -- now destruct s.
        -- change 1 with (B64.of_int 1). change 60 with (B64.of_int 60).
           change (2 ^ 52)%Z with 4503599627370496%Z in Hb.
           rewrite Math_max_of_int, Math_min_of_int;
             change (2 ^ 53)%Z with 9007199254740992%Z; try lia. reflexivity.
      * intros k' Hk'. injection Hk' as <-. reflexivity.
Qed.

Lemma sanitizedFps_range64 (o : B64.Options) :
  is_nan (B64.fps o) = false ->
  (1 <=? B64.sanitizedFps o)%float = true /\
  (B64.sanitizedFps o <=? 60)%float = true.
Proof.
  intros H. unfold B64.sanitizedFps. apply clamp_range64; [reflexivity|].
  unfold B64.Math_round.
  destruct (Prim2SF (B64.fps o)) as [s|s| |s m e] eqn:E; try assumption.
  destruct (Z.leb_spec 0 e); [assumption|].
  destruct (Z.eqb_spec (B64.nearest s m e) 0); [now destruct s|].
  apply of_int_not_nan.
  pose proof (nearest_bound s m e ltac:(lia) (valid_mantissa _ s m e E)).
  change (2 ^ 52)%Z with 4503599627370496%Z in H1.
  change (2 ^ 53)%Z with 9007199254740992%Z. lia.
Qed.

(** ** Doubles on a line: the order of doubles as an order of integers *)

Lemma pow2_pos (n : Z) : (0 <= n)%Z -> (0 < 2 ^ n)%Z.
Proof. intros H. apply Z.pow_pos_nonneg; lia. Qed.

Lemma pow2_split (a b : Z) :
  (0 <= a)%Z -> (0 <= b)%Z -> (2 ^ (a + b) = 2 ^ a * 2 ^ b)%Z.
Proof. intros. apply Z.pow_add_r; lia. Qed.

Lemma pow2_le (a b : Z) : (0 <= a <= b)%Z -> (2 ^ a <= 2 ^ b)%Z.
Proof. intros. apply Z.pow_le_mono_r; lia. Qed.

Lemma valid_SF (x : float) : valid_binary (Prim2SF x) = true.
Proof. apply Prim2SF_valid. Qed.

Lemma valid_finite_SF s m e :
  valid_binary (S754_finite s m e) = true ->
  (Z.pos (Pos.size m) <= 53)%Z /\ (-1074 <= e <= 971)%Z /\
  ((-1074 < e)%Z -> Z.pos (Pos.size m) = 53%Z).
Proof.
  intros V. cbn [valid_binary] in V. unfold bounded, canonical_mantissa, fexp, emin in V.
  rewrite digits2_pos_size in V.
  apply andb_true_iff in V as [V1 V2].
  apply Z.eqb_eq in V1. apply Z.leb_le in V2.
  change (3 - emax - prec)%Z with (-1074)%Z in V1.
  change prec with 53%Z in V1. change (emax - prec)%Z with 971%Z in V2.
  lia.
Qed.

(** The mantissa of a valid double against the powers of two. *)
Lemma valid_mantissa_SF s m e :
  valid_binary (S754_finite s m e) = true ->
  (Z.pos m < 2 ^ 53)%Z /\ ((-1074 < e)%Z -> (2 ^ 52 <= Z.pos m)%Z).
Proof.
  intros V. destruct (valid_finite_SF s m e V) as (Hd & _ & Hn).
  pose proof (size_bounds m) as [Hlo Hhi]. split.
  - assert (2 ^ Z.pos (Pos.size m) <= 2 ^ 53)%Z by (apply pow2_le; lia). lia.
  - intros He. rewrite (Hn He) in Hlo. exact Hlo.
Qed.

Lemma SFord_finite_pos s m e :
  valid_binary (S754_finite s m e) = true ->
  (0 < Z.pos m * 2 ^ (e + 1074) < 2 ^ 2100)%Z.
Proof.
  intros V. destruct (valid_finite_SF s m e V) as (_ & He & _).
  destruct (valid_mantissa_SF s m e V) as (Hm & _).
  assert (H1 : (0 < 2 ^ (e + 1074))%Z) by (apply pow2_pos; lia).
  assert (H2 : (2 ^ (e + 1074) <= 2 ^ 2045)%Z) by (apply pow2_le; lia).
  split; [apply Z.mul_pos_pos; lia|].
  replace 2100%Z with (53 + 2047)%Z by lia.
  rewrite (pow2_split 53 2047) by lia.
  assert (H3 : (2 ^ 2045 < 2 ^ 2047)%Z) by (apply Z.pow_lt_mono_r; lia).
  assert (H4 : (0 < 2 ^ 53)%Z) by (apply pow2_pos; lia).
  generalize dependent (2 ^ 2045)%Z. generalize dependent (2 ^ 2047)%Z.
  generalize dependent (2 ^ 53)%Z. generalize dependent (2 ^ (e + 1074))%Z.
  intros. nia.
Qed.

Lemma SFcompare_ord (x y : spec_float) :
  valid_binary x = true -> valid_binary y = true ->
  x <> S754_nan -> y <> S754_nan ->
  SFcompare x y = Some (B64.SFord x ?= B64.SFord y)%Z.
Proof.
  intros Vx Vy Nx Ny.
  assert (HP : (0 < 2 ^ 2100)%Z) by (apply pow2_pos; lia).
  pose proof SFord_finite_pos as Hfin.
  remember (2 ^ 2100)%Z as P eqn:EP in *.
  destruct x as [sx|sx| |sx mx ex], y as [sy|sy| |sy my ey];
    try congruence; unfold SFcompare, B64.SFord; rewrite <- ?EP; clear EP.
  - reflexivity.
  - f_equal. destruct sy; cbn [cond_Zopp]; symmetry;
      [apply Z.compare_gt_iff | apply Z.compare_lt_iff]; lia.
  - pose proof (Hfin sy my ey Vy). f_equal.
    destruct sy; cbn [cond_Zopp]; symmetry;
      [apply Z.compare_gt_iff | apply Z.compare_lt_iff]; lia.
  - f_equal. destruct sx; cbn [cond_Zopp]; symmetry;
      [apply Z.compare_lt_iff | apply Z.compare_gt_iff]; lia.
  - f_equal. destruct sx, sy; cbn [cond_Zopp]; symmetry;
      try apply Z.compare_refl;
      [apply Z.compare_lt_iff | apply Z.compare_gt_iff]; lia.
  - pose proof (Hfin sy my ey Vy). f_equal.
    destruct sx, sy; cbn [cond_Zopp]; symmetry;
      [apply Z.compare_lt_iff | apply Z.compare_lt_iff
       | apply Z.compare_gt_iff | apply Z.compare_gt_iff]; lia.
  - pose proof (Hfin sx mx ex Vx). f_equal.
    destruct sx; cbn [cond_Zopp]; symmetry;
      [apply Z.compare_lt_iff | apply Z.compare_gt_iff]; lia.
  - pose proof (Hfin sx mx ex Vx). f_equal.
    destruct sx, sy; cbn [cond_Zopp]; symmetry;
      [apply Z.compare_gt_iff | apply Z.compare_lt_iff
       | apply Z.compare_gt_iff | apply Z.compare_lt_iff]; lia.
  - pose proof (Hfin sx mx ex Vx) as Px.
    pose proof (Hfin sy my ey Vy) as Py.
    destruct (valid_finite_SF sx mx ex Vx) as (_ & Hex & _).
    destruct (valid_finite_SF sy my ey Vy) as (_ & Hey & _).
    destruct (valid_mantissa_SF sx mx ex Vx) as (Hmx & Hnx).
    destruct (valid_mantissa_SF sy my ey Vy) as (Hmy & Hny).
    change (PosDef.Pos.compare_cont Eq mx my) with (Z.pos mx ?= Z.pos my)%Z.
    assert (Hlex : match (ex ?= ey)%Z with
                   | Eq => (Z.pos mx ?= Z.pos my)%Z
                   | Lt => Lt
                   | Gt => Gt
                   end
                   = (Z.pos mx * 2 ^ (ex + 1074) ?= Z.pos my * 2 ^ (ey + 1074))%Z).
    { assert (Hstep : forall m1 e1 m2 e2 : Z,
                (0 < m1 < 2 ^ 53)%Z -> (2 ^ 52 <= m2)%Z ->
                (-1074 <= e1 < e2)%Z ->
                (m1 * 2 ^ (e1 + 1074) < m2 * 2 ^ (e2 + 1074))%Z).
      { intros m1 e1 m2 e2 H1 H2 He.
        replace (e2 + 1074)%Z with ((e2 - e1) + (e1 + 1074))%Z by lia.
        rewrite (pow2_split (e2 - e1) (e1 + 1074)) by lia.
        assert (0 < 2 ^ (e1 + 1074))%Z by (apply pow2_pos; lia).
        assert (2 ^ 1 <= 2 ^ (e2 - e1))%Z by (apply pow2_le; lia).
        change (2 ^ 1)%Z with 2%Z in *.
        change (2 ^ 53)%Z with 9007199254740992%Z in *.
        change (2 ^ 52)%Z with 4503599627370496%Z in *.
        assert (m1 < m2 * 2 ^ (e2 - e1))%Z by nia.
        rewrite Z.mul_assoc. now apply Z.mul_lt_mono_pos_r. }
      destruct (Z.compare_spec ex ey) as [E|E|E]; symmetry.
      - subst ey. assert (0 < 2 ^ (ex + 1074))%Z by (apply pow2_pos; lia).
        destruct (Z.compare_spec (Z.pos mx) (Z.pos my)) as [E1|E1|E1].
        + rewrite E1. apply Z.compare_refl.
        + apply Z.compare_lt_iff. nia.
        + apply Z.compare_gt_iff. nia.
      - apply Z.compare_lt_iff. apply Hstep; [lia | apply Hny; lia | lia].
      - apply Z.compare_gt_iff.
        apply Hstep; [lia | apply Hnx; lia | lia]. }
    f_equal. destruct sx, sy; cbn [cond_Zopp].
    + rewrite Z.compare_opp.
      rewrite (Z.compare_antisym (Z.pos mx * 2 ^ (ex + 1074))
                 (Z.pos my * 2 ^ (ey + 1074))), <- Hlex.
      now destruct (ex ?= ey)%Z.
    + symmetry. apply Z.compare_lt_iff. lia.
    + symmetry. apply Z.compare_gt_iff. lia.
    + exact Hlex.
Qed.

Lemma ltb_ord (x y : float) :
  is_nan x = false -> is_nan y = false ->
  (x <? y) = (B64.ord x <? B64.ord y)%Z.
Proof.
  intros Hx Hy. rewrite FloatAxioms.ltb_spec. unfold SFltb, B64.ord, Z.ltb.
  rewrite (SFcompare_ord _ _ (valid_SF x) (valid_SF y))
    by now apply not_nan_SF.
  now destruct (_ ?= _)%Z.
Qed.

Lemma leb_ord (x y : float) :
  is_nan x = false -> is_nan y = false ->
  (x <=? y) = (B64.ord x <=? B64.ord y)%Z.
Proof.
  intros Hx Hy. rewrite FloatAxioms.leb_spec. unfold SFleb, B64.ord, Z.leb.
  rewrite (SFcompare_ord _ _ (valid_SF x) (valid_SF y))
    by now apply not_nan_SF.
  now destruct (_ ?= _)%Z.
Qed.

Lemma eqb_ord (x y : float) :
  is_nan x = false -> is_nan y = false ->
  (x =? y) = (B64.ord x =? B64.ord y)%Z.
Proof.
  intros Hx Hy. rewrite FloatAxioms.eqb_spec. unfold SFeqb, B64.ord.
  rewrite (SFcompare_ord _ _ (valid_SF x) (valid_SF y))
    by now apply not_nan_SF.
  destruct (Z.compare_spec (B64.SFord (Prim2SF x)) (B64.SFord (Prim2SF y))),
    (Z.eqb_spec (B64.SFord (Prim2SF x)) (B64.SFord (Prim2SF y)));
    try reflexivity; lia.
Qed.

Lemma leb_true_ord (x y : float) :
  (x <=? y) = true <->
  is_nan x = false /\ is_nan y = false /\ (B64.ord x <= B64.ord y)%Z.
Proof.
  split.
  - intros H. destruct (leb_not_nan _ _ H) as [Hx Hy].
    rewrite leb_ord in H by assumption. apply Z.leb_le in H. auto.
  - intros (Hx & Hy & H). rewrite leb_ord by assumption. now apply Z.leb_le.
Qed.

Lemma ltb_true_ord (x y : float) :
  (x <? y) = true <->
  is_nan x = false /\ is_nan y = false /\ (B64.ord x < B64.ord y)%Z.
Proof.
  split.
  - intros H. destruct (ltb_not_nan _ _ H) as [Hx Hy].
    rewrite ltb_ord in H by assumption. apply Z.ltb_lt in H. auto.
  - intros (Hx & Hy & H). rewrite ltb_ord by assumption. now apply Z.ltb_lt.
Qed.

Lemma leb_trans (x y z : float) :
  (x <=? y) = true -> (y <=? z) = true -> (x <=? z) = true.
Proof.
  rewrite !leb_true_ord. intros (? & ? & ?) (? & ? & ?). repeat split; auto. lia.
Qed.

Lemma ltb_leb_trans (x y z : float) :
  (x <? y) = true -> (y <=? z) = true -> (x <? z) = true.
Proof.
  rewrite !leb_true_ord, !ltb_true_ord.
  intros (? & ? & ?) (? & ? & ?). repeat split; auto. lia.
Qed.

Lemma leb_ltb_trans (x y z : float) :
  (x <=? y) = true -> (y <? z) = true -> (x <? z) = true.
Proof.
  rewrite !leb_true_ord, !ltb_true_ord.
  intros (? & ? & ?) (? & ? & ?). repeat split; auto. lia.
Qed.

(** ** Rounding, as [SpecFloat] computes it *)

Lemma shr_1_m (r : shr_record) :
  (0 <= shr_m r)%Z -> shr_m (shr_1 r) = Z.div2 (shr_m r).
Proof.
  destruct r as [m b s]. cbn [shr_m]. intros H.
  destruct m as [|[p|p|]|p]; try reflexivity. lia.
Qed.

Lemma iter_shr_1_m (p : positive) (r : shr_record) :
  (0 <= shr_m r)%Z ->
  shr_m (SpecFloat.iter_pos shr_1 p r) = Z.shiftr (shr_m r) (Z.pos p).
Proof.
  revert r. induction p as [p IH|p IH|]; intros r Hr; cbn [SpecFloat.iter_pos].
  - assert (H1 : (0 <= shr_m (shr_1 r))%Z).
    { rewrite shr_1_m by exact Hr. apply Z.div2_nonneg. exact Hr. }
    assert (H2 : (0 <= shr_m (SpecFloat.iter_pos shr_1 p (shr_1 r)))%Z).
    { rewrite IH by exact H1. now apply Z.shiftr_nonneg. }
    rewrite IH, IH, shr_1_m, Z.div2_spec, !Z.shiftr_shiftr by (auto; lia).
    f_equal. lia.
  - assert (H2 : (0 <= shr_m (SpecFloat.iter_pos shr_1 p r))%Z).
    { rewrite IH by exact Hr. now apply Z.shiftr_nonneg. }
    rewrite IH, IH, !Z.shiftr_shiftr by (auto; lia). f_equal. lia.
  - rewrite shr_1_m, Z.div2_spec by exact Hr. reflexivity.
Qed.

Lemma shr_spec (r : shr_record) (e n : Z) :
  (0 <= shr_m r)%Z ->
  shr_m (fst (shr r e n)) = Z.shiftr (shr_m r) (Z.max 0 n) /\
  snd (shr r e n) = (e + Z.max 0 n)%Z.
Proof.
  intros Hr. destruct n as [|p|p]; cbn [shr fst snd].
  - rewrite Z.max_l, Z.shiftr_0_r by lia. split; [reflexivity | lia].
  - rewrite Z.max_r by lia. split; [now apply iter_shr_1_m | reflexivity].
  - rewrite Z.max_l, Z.shiftr_0_r by lia. split; [reflexivity | lia].
Qed.

Lemma shr_record_of_loc_m (m : Z) (l : location) :
  shr_m (shr_record_of_loc m l) = m.
Proof. destruct l as [|[| |]]; reflexivity. Qed.

Lemma round_nearest_even_range (m : Z) (l : location) :
  (m <= round_nearest_even m l <= m + 1)%Z.
Proof.
  unfold round_nearest_even. destruct l as [|[| |]]; try lia.
  destruct (Z.even m); lia.
Qed.

(** [binary_round_aux] on a mantissa that is not negative: a first shift to
    the precision, one unit added or not, a second shift. *)
Lemma binary_round_aux_spec (s : bool) (mx ex : Z) (lx : location) :
  (0 <= mx)%Z ->
  exists M1 : Z,
    let n1 := Z.max 0 (fexp prec emax (Zdigits2 mx + ex) - ex) in
    let e1 := (ex + n1)%Z in
    let n2 := Z.max 0 (fexp prec emax (Zdigits2 M1 + e1) - e1) in
    (Z.shiftr mx n1 <= M1 <= Z.shiftr mx n1 + 1)%Z /\
    binary_round_aux prec emax s mx ex lx
    = match Z.shiftr M1 n2 with
      | Z0 => S754_zero s
      | Z.pos m =>
          if (e1 + n2 <=? 971)%Z then S754_finite s m (e1 + n2)
          else S754_infinity s
      | Z.neg _ => S754_nan
      end.
Proof.
  intros Hm. unfold binary_round_aux, shr_fexp.
  pose proof (shr_spec (shr_record_of_loc mx lx) ex
                (fexp prec emax (Zdigits2 mx + ex) - ex)) as H1.
  rewrite shr_record_of_loc_m in H1. specialize (H1 Hm).
  destruct (shr (shr_record_of_loc mx lx) ex
              (fexp prec emax (Zdigits2 mx + ex) - ex)) as [mrs' e'].
  cbn [fst snd] in H1. destruct H1 as [H1 He'].
  set (M1 := round_nearest_even (shr_m mrs') (loc_of_shr_record mrs')).
  pose proof (round_nearest_even_range (shr_m mrs') (loc_of_shr_record mrs')) as HM1.
  fold M1 in HM1.
  assert (H0 : (0 <= shr_m mrs')%Z) by (rewrite H1; now apply Z.shiftr_nonneg).
  pose proof (shr_spec (shr_record_of_loc M1 loc_Exact) e'
                (fexp prec emax (Zdigits2 M1 + e') - e')) as H2.
  rewrite shr_record_of_loc_m in H2. specialize (H2 ltac:(lia)).
  destruct (shr (shr_record_of_loc M1 loc_Exact) e'
              (fexp prec emax (Zdigits2 M1 + e') - e')) as [mrs'' e''].
  cbn [fst snd] in H2. destruct H2 as [H2 He''].
  exists M1. cbv zeta. rewrite <- He', <- H1. split; [exact HM1|].
  rewrite H2, He''. reflexivity.
Qed.

(** The result has the sign asked for and is no [NaN]. *)
Lemma binary_round_aux_class (s : bool) (mx ex : Z) (lx : location) :
  (0 <= mx)%Z ->
  binary_round_aux prec emax s mx ex lx = S754_zero s \/
  binary_round_aux prec emax s mx ex lx = S754_infinity s \/
  exists m e, binary_round_aux prec emax s mx ex lx = S754_finite s m e.
Proof.
  intros Hm. destruct (binary_round_aux_spec s mx ex lx Hm) as (M1 & HM1 & ->).
  cbv zeta in *.
  assert (H : (0 <= Z.shiftr M1
                      (Z.max 0
                         (fexp prec emax
                            (Zdigits2 M1
                             + (ex + Z.max 0 (fexp prec emax (Zdigits2 mx + ex) - ex)))
                          - (ex + Z.max 0 (fexp prec emax (Zdigits2 mx + ex) - ex)))))%Z).
  { apply Z.shiftr_nonneg.
    assert (0 <= Z.shiftr mx (Z.max 0 (fexp prec emax (Zdigits2 mx + ex) - ex)))%Z
      by now apply Z.shiftr_nonneg.
    lia. }
  destruct (Z.shiftr M1 _) as [|m|m]; [now left| |lia].
  destruct (_ <=? 971)%Z; [right; right; eauto | now right; left].
Qed.

(** A shift to the precision keeps a positive mantissa positive, when the
    exponent is at least that of the subnormal numbers. *)
Lemma shift_keeps_positive (m e : Z) :
  (0 < m)%Z -> (-1074 <= e)%Z ->
  (0 < Z.shiftr m (Z.max 0 (fexp prec emax (Zdigits2 m + e) - e)))%Z.
Proof.
  intros Hm He. destruct m as [|p|p]; try lia.
  cbn [Zdigits2]. rewrite digits2_pos_size.
  unfold fexp, emin. change (3 - emax - prec)%Z with (-1074)%Z.
  change prec with 53%Z.
  pose proof (size_bounds p) as [Hlo Hhi].
  set (d := Z.pos (Pos.size p)) in *.
  assert (Hd : (1 <= d)%Z) by (subst d; lia).
  set (n := Z.max 0 (Z.max (d + e - 53) (-1074) - e)).
  assert (Hn : (0 <= n <= d - 1)%Z) by (subst n; lia).
  rewrite Z.shiftr_div_pow2 by lia.
  apply Z.div_str_pos. split; [apply pow2_pos; lia|].
  assert (2 ^ n <= 2 ^ (d - 1))%Z by (apply pow2_le; lia). lia.
Qed.

Lemma binary_round_aux_positive (s : bool) (m : positive) (e : Z) :
  (-1074 <= e)%Z ->
  binary_round_aux prec emax s (Z.pos m) e loc_Exact = S754_infinity s \/
  exists m' e', binary_round_aux prec emax s (Z.pos m) e loc_Exact
                = S754_finite s m' e'.
Proof.
  intros He.
  destruct (binary_round_aux_spec s (Z.pos m) e loc_Exact ltac:(lia))
    as (M1 & HM1 & ->). cbv zeta in *.
  pose proof (shift_keeps_positive (Z.pos m) e ltac:(lia) He) as H1.
  set (n1 := Z.max 0 (fexp prec emax (Zdigits2 (Z.pos m) + e) - e)) in *.
  assert (He1 : (-1074 <= e + n1)%Z) by (subst n1; lia).
  pose proof (shift_keeps_positive M1 (e + n1) ltac:(lia) He1) as H2.
  destruct (Z.shiftr M1 _) as [|m'|m']; try lia.
  destruct (_ <=? 971)%Z; [right; eauto | now left].
Qed.

Lemma shl_align_exponent (m : positive) (e e' : Z) :
  (-1074 <= e)%Z -> (-1074 <= e')%Z -> (-1074 <= snd (shl_align m e e'))%Z.
Proof.
  intros He He'. unfold shl_align. destruct (e' - e)%Z; cbn [snd]; lia.
Qed.

Lemma binary_round_positive (s : bool) (m : positive) (e : Z) :
  (-1074 <= e)%Z ->
  binary_round prec emax s m e = S754_infinity s \/
  exists m' e', binary_round prec emax s m e = S754_finite s m' e'.
Proof.
  intros He. unfold binary_round.
  pose proof (shl_align_exponent m e (fexp prec emax (Z.pos (digits2_pos m) + e)) He)
    as H.
  destruct (shl_align m e (fexp prec emax (Z.pos (digits2_pos m) + e))) as [mz ez].
  cbn [snd] in H. apply binary_round_aux_positive. apply H.
  unfold fexp, emin. change (3 - emax - prec)%Z with (-1074)%Z. lia.
Qed.

(** The sign of what [binary_normalize] returns is the sign of the integer
    it is given. *)
Lemma binary_normalize_class (z e : Z) :
  (-1074 <= e)%Z ->
  match z with
  | Z0 => binary_normalize prec emax z e false = S754_zero false
  | Z.pos _ =>
      binary_normalize prec emax z e false = S754_infinity false \/
      exists m' e', binary_normalize prec emax z e false = S754_finite false m' e'
  | Z.neg _ =>
      binary_normalize prec emax z e false = S754_infinity true \/
      exists m' e', binary_normalize prec emax z e false = S754_finite true m' e'
  end.
Proof.
  intros He. destruct z as [|p|p]; cbn [binary_normalize].
  - reflexivity.
  - now apply binary_round_positive.
  - now apply binary_round_positive.
Qed.

(** ** The sign of a difference and of a quotient *)

(** A number that is neither [NaN] nor infinite. *)
Lemma ord_finite (x : float) s m e :
  Prim2SF x = S754_finite s m e ->
  B64.ord x = cond_Zopp s (Z.pos m * 2 ^ (e + 1074)) /\
  (0 < Z.pos m * 2 ^ (e + 1074))%Z /\ (-1074 <= e)%Z.
Proof.
  intros E. pose proof (valid_SF x) as V. rewrite E in V.
  destruct (valid_finite_SF s m e V) as (_ & He & _).
  unfold B64.ord. rewrite E. split; [reflexivity|]. split; [|lia].
  apply Z.mul_pos_pos; [lia | apply pow2_pos; lia].
Qed.

Lemma shl_align_value (m : positive) (e e' : Z) :
  (e' <= e)%Z ->
  Z.pos (fst (shl_align m e e')) = (Z.pos m * 2 ^ (e - e'))%Z.
Proof.
  intros H. unfold shl_align. destruct (e' - e)%Z as [|p|p] eqn:E; cbn [fst].
  - replace (e - e')%Z with 0%Z by lia. lia.
  - lia.
  - rewrite iter_xO_value. f_equal. f_equal. lia.
Qed.

Lemma limited_not_nan (x : float) : B64.limited x = true -> is_nan x = false.
Proof.
  unfold B64.limited. rewrite is_nan_SF. now destruct (Prim2SF x).
Qed.

(** The sign of a result of [binary_normalize], read on the line of
    doubles. *)
Lemma normalized_sign (r : float) (z e : Z) :
  (-1074 <= e)%Z ->
  Prim2SF r = binary_normalize prec emax z e false ->
  is_nan r = false /\ (B64.ord r ?= 0)%Z = (z ?= 0)%Z.
Proof.
  intros He E. pose proof (binary_normalize_class z e He) as H.
  rewrite <- E in H. rewrite is_nan_SF.
  destruct z as [|p|p].
  - unfold B64.ord. rewrite H. split; reflexivity.
  - destruct H as [H|(m' & e' & H)].
    + unfold B64.ord. rewrite H. split; reflexivity.
    + destruct (ord_finite r _ _ _ H) as (-> & Hp & _). rewrite H.
      split; [reflexivity|]. cbn [cond_Zopp]. now apply Z.compare_gt_iff.
  - destruct H as [H|(m' & e' & H)].
    + unfold B64.ord. rewrite H. split; reflexivity.
    + destruct (ord_finite r _ _ _ H) as (-> & Hp & _). rewrite H.
      split; [reflexivity|]. cbn [cond_Zopp]. apply Z.compare_lt_iff. lia.
Qed.

(** For two numbers that are neither [NaN] nor infinite, the difference is
    a number, and it is negative, zero or positive as the first is below,
    equal to or above the second. *)
Lemma sub_sign (x y : float) :
  B64.limited x = true -> B64.limited y = true ->
  is_nan (x - y) = false /\
  (B64.ord (x - y) ?= 0)%Z = (B64.ord x ?= B64.ord y)%Z.
Proof.
  unfold B64.limited. intros Hx Hy.
  destruct (Prim2SF x) as [sx|sx| |sx mx ex] eqn:Ex; try discriminate;
    destruct (Prim2SF y) as [sy|sy| |sy my ey] eqn:Ey; try discriminate.
  - rewrite is_nan_SF. unfold B64.ord at 1. rewrite sub_spec, Ex, Ey.
    unfold B64.ord. rewrite Ex, Ey. now destruct sx, sy.
  - destruct (ord_finite y _ _ _ Ey) as (Oy & Py & _).
    rewrite is_nan_SF. unfold B64.ord at 1. rewrite sub_spec, Ex, Ey.
    unfold B64.ord at 1. rewrite Ex, Oy. cbn [SF64sub SFsub B64.SFord].
    split; [reflexivity|].
    destruct sy; cbn [negb cond_Zopp].
    + transitivity Gt; [|symmetry]; apply Z.compare_gt_iff; lia.
    + transitivity Lt; [|symmetry]; apply Z.compare_lt_iff; lia.
  - destruct (ord_finite x _ _ _ Ex) as (Ox & Px & _).
    rewrite is_nan_SF. unfold B64.ord at 1. rewrite sub_spec, Ex, Ey.
    unfold B64.ord at 2. rewrite Ey, Ox. cbn [SF64sub SFsub B64.SFord].
    split; [reflexivity|]. reflexivity.
  - destruct (ord_finite x _ _ _ Ex) as (Ox & Px & Hex).
    destruct (ord_finite y _ _ _ Ey) as (Oy & Py & Hey).
    assert (E : Prim2SF (x - y)
                = binary_normalize prec emax
                    (cond_Zopp sx (Z.pos (fst (shl_align mx ex (Z.min ex ey))))
                     - cond_Zopp sy (Z.pos (fst (shl_align my ey (Z.min ex ey)))))
                    (Z.min ex ey) false).
    { rewrite sub_spec, Ex, Ey. reflexivity. }
    destruct (normalized_sign (x - y) _ (Z.min ex ey) ltac:(lia) E) as [Hn Hs].
    split; [exact Hn|]. rewrite Hs, Ox, Oy.
    rewrite !shl_align_value by lia.
    set (ez := Z.min ex ey).
    assert (Hp : (0 < 2 ^ (ez + 1074))%Z) by (apply pow2_pos; lia).
    assert (Hx' : (Z.pos mx * 2 ^ (ex + 1074)
                   = Z.pos mx * 2 ^ (ex - ez) * 2 ^ (ez + 1074))%Z).
    { rewrite <- Z.mul_assoc, <- pow2_split by lia. f_equal. f_equal. lia. }
    assert (Hy' : (Z.pos my * 2 ^ (ey + 1074)
                   = Z.pos my * 2 ^ (ey - ez) * 2 ^ (ez + 1074))%Z).
    { rewrite <- Z.mul_assoc, <- pow2_split by lia. f_equal. f_equal. lia. }
    rewrite Hx', Hy'.
    set (A := (Z.pos mx * 2 ^ (ex - ez))%Z). set (B := (Z.pos my * 2 ^ (ey - ez))%Z).
    set (P := (2 ^ (ez + 1074))%Z) in *.
    assert (Hsx : cond_Zopp sx (A * P) = (cond_Zopp sx A * P)%Z)
      by (destruct sx; cbn [cond_Zopp]; lia).
    assert (Hsy : cond_Zopp sy (B * P) = (cond_Zopp sy B * P)%Z)
      by (destruct sy; cbn [cond_Zopp]; lia).
    rewrite Hsx, Hsy.
    destruct (Z.compare_spec (cond_Zopp sx A - cond_Zopp sy B) 0) as [H|H|H];
      symmetry.
    + apply Z.compare_eq_iff. nia.
    + apply Z.compare_lt_iff. nia.
    + apply Z.compare_gt_iff. nia.
Qed.

Lemma sub_negative (x y : float) :
  B64.limited x = true -> B64.limited y = true ->
  (x - y <? 0) = (x <? y).
Proof.
  intros Hx Hy. destruct (sub_sign x y Hx Hy) as [Hn Hs].
  rewrite !ltb_ord; auto using B64.limited, limited_not_nan.
  change (B64.ord 0) with 0%Z. unfold Z.ltb. now rewrite Hs.
Qed.

Lemma sub_positive (x y : float) :
  B64.limited x = true -> B64.limited y = true ->
  (0 <? x - y) = (y <? x).
Proof.
  intros Hx Hy. destruct (sub_sign x y Hx Hy) as [Hn Hs].
  rewrite !ltb_ord; auto using limited_not_nan.
  change (B64.ord 0) with 0%Z. unfold Z.ltb.
  rewrite (Z.compare_antisym (B64.ord (x - y)) 0), Hs.
  now rewrite (Z.compare_antisym (B64.ord x) (B64.ord y)).
Qed.

Lemma sub_zero (x y : float) :
  B64.limited x = true -> B64.limited y = true ->
  is_zero (x - y) = (x =? y).
Proof.
  intros Hx Hy. destruct (sub_sign x y Hx Hy) as [Hn Hs].
  unfold is_zero. rewrite !eqb_ord; auto using limited_not_nan.
  change (B64.ord zero) with 0%Z.
  destruct (Z.eqb_spec (B64.ord (x - y)) 0) as [E|E],
    (Z.eqb_spec (B64.ord x) (B64.ord y)) as [E'|E']; try reflexivity.
  - apply Z.compare_eq_iff in E. rewrite Hs in E. apply Z.compare_eq_iff in E.
    contradiction.
  - apply Z.compare_eq_iff in E'. rewrite <- Hs in E'.
    apply Z.compare_eq_iff in E'. contradiction.
Qed.

Lemma ord_zero_SF (x : float) :
  is_nan x = false -> B64.ord x = 0%Z -> exists s, Prim2SF x = S754_zero s.
Proof.
  rewrite is_nan_SF. intros Hn H0.
  destruct (Prim2SF x) as [s|s| |s m e] eqn:E; try discriminate; eauto.
  - exfalso. unfold B64.ord in H0. rewrite E in H0. cbn [B64.SFord] in H0.
    assert (0 < 2 ^ 2100)%Z by (apply pow2_pos; lia).
    remember (2 ^ 2100)%Z as P. destruct s; cbn [cond_Zopp] in H0; lia.
  - exfalso. destruct (ord_finite x s m e E) as (Hx & Hp & _).
    rewrite Hx in H0. destruct s; cbn [cond_Zopp] in H0; lia.
Qed.

(** Two numbers at the same place of the line, zero apart, are the same
    double. *)
Lemma ord_inj (x y : float) :
  is_nan x = false -> is_nan y = false ->
  B64.ord x = B64.ord y -> B64.ord x <> 0%Z -> x = y.
Proof.
  intros Hx Hy E Hnz. apply Prim2SF_inj.
  assert (H : SFcompare (Prim2SF x) (Prim2SF y) = Some Eq).
  { rewrite (SFcompare_ord _ _ (valid_SF x) (valid_SF y))
      by now apply not_nan_SF.
    f_equal. apply Z.compare_eq_iff. exact E. }
  apply compare_Eq_SF in H as [H|(s & t & H1 & H2)]; [exact H|].
  exfalso. apply Hnz. unfold B64.ord. now rewrite H1.
Qed.

(** The quotient of a number by a positive one is a number on the same side
    of zero. *)
Lemma div_sign (x y : float) my ey :
  is_nan x = false -> Prim2SF y = S754_finite false my ey ->
  is_nan (x / y) = false /\
  ((B64.ord x <= 0)%Z -> (B64.ord (x / y) <= 0)%Z) /\
  ((0 <= B64.ord x)%Z -> (0 <= B64.ord (x / y))%Z).
Proof.
  intros Hx Ey. rewrite is_nan_SF in Hx.
  assert (HP : (0 < 2 ^ 2100)%Z) by (apply pow2_pos; lia).
  destruct (Prim2SF x) as [sx|sx| |sx mx ex] eqn:Ex; try discriminate.
  - rewrite is_nan_SF. unfold B64.ord. rewrite div_spec, Ex, Ey.
    cbn. repeat split; lia.
  - rewrite is_nan_SF. unfold B64.ord. rewrite div_spec, Ex, Ey.
    cbn [SF64div SFdiv B64.SFord xorb]. rewrite xorb_false_r.
    remember (2 ^ 2100)%Z as P.
    split; [reflexivity|]. destruct sx; cbn [cond_Zopp]; split; lia.
  - destruct (ord_finite x _ _ _ Ex) as (Ox & Px & _).
    assert (E : exists mz ez lz,
               (0 <= mz)%Z /\
               Prim2SF (x / y) = binary_round_aux prec emax sx mz ez lz).
    { rewrite div_spec, Ex, Ey. cbn [SF64div SFdiv]. rewrite xorb_false_r.
      unfold SFdiv_core_binary.
      set (m' := match (ex - ey - _)%Z with
                 | Z0 => Z.pos mx
                 | Z.pos _ => Z.shiftl (Z.pos mx) _
                 | Z.neg _ => 0%Z
                 end).
      assert (Hm' : (0 <= m')%Z).
      { subst m'. destruct (ex - ey - _)%Z; try lia.
        apply Z.shiftl_nonneg. lia. }
      pose proof (Z.div_pos m' (Z.pos my) Hm' ltac:(lia)) as Hq.
      unfold Z.div in Hq.
      destruct (Z.div_eucl m' (Z.pos my)) as [q r].
      eexists _, _, _. split; [exact Hq | reflexivity]. }
    destruct E as (mz & ez & lz & Hmz & E).
    rewrite is_nan_SF.
    destruct (binary_round_aux_class sx mz ez lz Hmz) as [H|[H|(m & e & H)]];
      rewrite H in E.
    + unfold B64.ord. rewrite E. cbn. repeat split; lia.
    + unfold B64.ord at 2 4. rewrite E. cbn [B64.SFord].
      remember (2 ^ 2100)%Z as P. rewrite Ox.
      split; [reflexivity|]. destruct sx; cbn [cond_Zopp]; split; lia.
    + destruct (ord_finite (x / y) _ _ _ E) as (Or & Pr & _).
      rewrite E, Or, Ox. split; [reflexivity|].
      destruct sx; cbn [cond_Zopp]; split; lia.
Qed.

(** ** Clamping *)

Lemma Math_max_low (v lo : float) :
  is_nan v = false -> (B64.ord v <= B64.ord lo)%Z -> B64.negative lo = false ->
  is_nan lo = false -> B64.Math_max v lo = lo.
Proof.
  intros Hv Hle Hneg Hlo. unfold B64.Math_max. rewrite Hv, Hlo. cbn [orb].
  rewrite !ltb_ord by assumption.
  destruct (Z.ltb_spec (B64.ord v) (B64.ord lo)); [reflexivity|].
  destruct (Z.ltb_spec (B64.ord lo) (B64.ord v)); [lia|].
  destruct (B64.negative v) eqn:Nv; [reflexivity|].
  assert (E : B64.ord v = B64.ord lo) by lia.
  destruct (Z.eq_dec (B64.ord v) 0) as [Z0|NZ].
  - destruct (ord_zero_SF v Hv Z0) as [s Hs].
    destruct (ord_zero_SF lo Hlo ltac:(lia)) as [t Ht].
    unfold B64.negative in Nv, Hneg. rewrite Hs in Nv. rewrite Ht in Hneg.
    subst s t. apply Prim2SF_inj. congruence.
  - now apply ord_inj.
Qed.

Lemma Math_max_high (v lo : float) :
  is_nan v = false -> is_nan lo = false ->
  (B64.ord lo < B64.ord v)%Z -> B64.Math_max v lo = v.
Proof.
  intros Hv Hlo Hlt. unfold B64.Math_max. rewrite Hv, Hlo. cbn [orb].
  rewrite !ltb_ord by assumption.
  destruct (Z.ltb_spec (B64.ord v) (B64.ord lo)); [lia|].
  destruct (Z.ltb_spec (B64.ord lo) (B64.ord v)); [reflexivity | lia].
Qed.

Lemma Math_min_low (v hi : float) :
  is_nan v = false -> is_nan hi = false ->
  (B64.ord v <= B64.ord hi)%Z -> B64.ord hi <> 0%Z -> B64.Math_min v hi = v.
Proof.
  intros Hv Hhi Hle Hnz. unfold B64.Math_min. rewrite Hv, Hhi. cbn [orb].
  rewrite !ltb_ord by assumption.
  destruct (Z.ltb_spec (B64.ord v) (B64.ord hi)); [reflexivity|].
  destruct (Z.ltb_spec (B64.ord hi) (B64.ord v)); [lia|].
  assert (E : B64.ord v = B64.ord hi) by lia.
  assert (v = hi) as -> by (apply ord_inj; auto; lia).
  now destruct (B64.negative hi).
Qed.

Lemma Math_min_high (v hi : float) :
  is_nan v = false -> is_nan hi = false ->
  (B64.ord hi <= B64.ord v)%Z -> B64.ord hi <> 0%Z -> B64.Math_min v hi = hi.
Proof.
  intros Hv Hhi Hle Hnz. unfold B64.Math_min. rewrite Hv, Hhi. cbn [orb].
  rewrite !ltb_ord by assumption.
  destruct (Z.ltb_spec (B64.ord v) (B64.ord hi)); [lia|].
  destruct (Z.ltb_spec (B64.ord hi) (B64.ord v)); [reflexivity|].
  assert (E : B64.ord v = B64.ord hi) by lia.
  assert (v = hi) as -> by (apply ord_inj; auto; lia).
  now destruct (B64.negative hi).
Qed.

(** A number at or below zero clamps to [+0]. *)
Lemma clamp_nonpositive (v hi : float) :
  is_nan v = false -> (B64.ord v <= 0)%Z ->
  is_nan hi = false -> (0 < B64.ord hi)%Z ->
  B64.clamp v 0 hi = 0.
Proof.
  intros Hv Hle Hhi Hpos. unfold B64.clamp.
  rewrite (Math_max_low v 0) by (auto; reflexivity).
  apply Math_min_low; auto; try reflexivity.
  - change (B64.ord 0) with 0%Z. lia.
  - lia.
Qed.

(** A number at or above the upper bound clamps to it. *)
Lemma clamp_above (v hi : float) :
  is_nan v = false -> is_nan hi = false ->
  (0 < B64.ord hi <= B64.ord v)%Z ->
  B64.clamp v 0 hi = hi.
Proof.
  intros Hv Hhi Hle. unfold B64.clamp.
  rewrite (Math_max_high v 0) by (auto; change (B64.ord 0) with 0%Z; lia).
  apply Math_min_high; auto; lia.
Qed.

(** A positive number at or below the upper bound is left as it is. *)
Lemma clamp_inside (v hi : float) :
  is_nan v = false -> is_nan hi = false ->
  (0 < B64.ord v <= B64.ord hi)%Z ->
  B64.clamp v 0 hi = v.
Proof.
  intros Hv Hhi Hle. unfold B64.clamp.
  rewrite (Math_max_high v 0) by (auto; change (B64.ord 0) with 0%Z; lia).
  apply Math_min_low; auto; lia.
Qed.

Lemma clamp_nan (v lo hi : float) : is_nan v = true -> B64.clamp v lo hi = nan.
Proof.
  intros H. unfold B64.clamp.
  rewrite (Math_max_nan v lo) by (now rewrite H). reflexivity.
Qed.

(** ** The product by 255 around 1 *)

Lemma SF_255 : Prim2SF 255 = S754_finite false 8972014882652160 (-45).
Proof. reflexivity. Qed.

Lemma ord_255 : B64.ord 255 = (8972014882652160 * 2 ^ 1029)%Z.
Proof. unfold B64.ord. rewrite SF_255. reflexivity. Qed.

Lemma ord_1 : B64.ord 1 = (2 ^ 1074)%Z.
Proof.
  unfold B64.ord. rewrite one_SF. cbn [B64.SFord cond_Zopp].
  change 4503599627370496%Z with (2 ^ 52)%Z.
  rewrite <- pow2_split by lia. reflexivity.
Qed.

Lemma pow2_lt_inv (a b : Z) : (0 <= b)%Z -> (2 ^ a < 2 ^ b)%Z -> (a < b)%Z.
Proof. intros Hb H. apply (Z.pow_lt_mono_r_iff 2); lia. Qed.

Lemma mul255_SF (v : float) s m e :
  Prim2SF v = S754_finite s m e ->
  Prim2SF (v * 255)
  = binary_round_aux prec emax s (Z.pos m * 8972014882652160) (e - 45) loc_Exact.
Proof.
  intros E. rewrite mul_spec, E, SF_255. cbn [SF64mul SFmul].
  rewrite xorb_false_r. reflexivity.
Qed.

(** The product of a negative number by 255 is at or below zero. *)
Lemma mul255_negative (v : float) m e :
  Prim2SF v = S754_finite true m e ->
  is_nan (v * 255) = false /\ (B64.ord (v * 255) <= 0)%Z.
Proof.
  intros E. pose proof (mul255_SF v true m e E) as H.
  rewrite is_nan_SF.
  destruct (binary_round_aux_class true (Z.pos m * 8972014882652160) (e - 45)
              loc_Exact ltac:(lia)) as [H1|[H1|(m' & e' & H1)]];
    rewrite H1 in H.
  - unfold B64.ord. rewrite H. cbn. split; [reflexivity | lia].
  - unfold B64.ord. rewrite H. cbn [B64.SFord cond_Zopp].
    assert (0 < 2 ^ 2100)%Z by (apply pow2_pos; lia).
    split; [reflexivity | lia].
  - destruct (ord_finite _ _ _ _ H) as (-> & Hp & _). rewrite H.
    cbn [cond_Zopp]. split; [reflexivity | lia].
Qed.

(** Below 1, the product by 255 is a number from [+0] to 255. *)
Lemma mul255_below (v : float) m e :
  Prim2SF v = S754_finite false m e -> (B64.ord v < B64.ord 1)%Z ->
  is_nan (v * 255) = false /\ B64.negative (v * 255) = false /\
  (0 <= B64.ord (v * 255) <= B64.ord 255)%Z.
Proof.
  intros E Hlt. rewrite ord_1 in Hlt. rewrite ord_255.
  destruct (ord_finite v _ _ _ E) as (Ov & Pv & He).
  rewrite Ov in Hlt. cbn [cond_Zopp] in Hlt.
  pose proof (mul255_SF v false m e E) as H.
  set (K := 8972014882652160%Z) in *.
  assert (HK : (2 ^ 52 <= K < 2 ^ 53)%Z) by (subst K; split; [apply Z.leb_le | apply Z.ltb_lt]; reflexivity).
  (* e is negative and m is below 2^(-e) *)
  assert (He0 : (e < 0)%Z).
  { destruct (Z.lt_ge_cases e 0) as [H0|H0]; [exact H0|]. exfalso.
    assert (2 ^ 1074 <= 2 ^ (e + 1074))%Z by (apply pow2_le; lia).
    assert (0 < 2 ^ 1074)%Z by (apply pow2_pos; lia).
    generalize dependent (2 ^ 1074)%Z. generalize dependent (2 ^ (e + 1074))%Z.
    intros. nia. }
  assert (Hm : (Z.pos m < 2 ^ (- e))%Z).
  { replace 1074%Z with (- e + (e + 1074))%Z in Hlt at 2 by lia.
    rewrite (pow2_split (- e) (e + 1074)) in Hlt by lia.
    assert (0 < 2 ^ (e + 1074))%Z by (apply pow2_pos; lia).
    generalize dependent (2 ^ (e + 1074))%Z. generalize dependent (2 ^ (- e))%Z.
    intros. nia. }
  destruct (binary_round_aux_spec false (Z.pos m * K) (e - 45) loc_Exact ltac:(lia))
    as (M1 & HM1 & Hr). cbv zeta in HM1, Hr. rewrite Hr in H. clear Hr.
  set (M := (Z.pos m * K)%Z) in *.
  assert (HMpos : (0 < M)%Z) by (subst M; lia).
  (* the size of the exact product *)
  assert (Hsize : (Zdigits2 M + e <= 53)%Z).
  { assert (HM : (M < 2 ^ (53 - e))%Z).
    { replace (53 - e)%Z with (53 + - e)%Z by lia.
      rewrite (pow2_split 53 (- e)) by lia. subst M.
      assert (0 < 2 ^ (- e))%Z by (apply pow2_pos; lia).
      generalize dependent (2 ^ (- e))%Z. generalize dependent (2 ^ 53)%Z.
      intros. nia. }
    destruct M as [|p|p] eqn:EM; try lia.
    cbn [Zdigits2]. rewrite digits2_pos_size.
    pose proof (size_bounds p) as [Hlo _].
    assert (2 ^ (Z.pos (Pos.size p) - 1) < 2 ^ (53 - e))%Z by lia.
    apply pow2_lt_inv in H0; lia. }
  assert (Hdig : (53 <= Zdigits2 M)%Z).
  { destruct M as [|p|p] eqn:EM; try lia.
    cbn [Zdigits2]. rewrite digits2_pos_size.
    pose proof (size_bounds p) as [_ Hhi].
    assert (2 ^ 52 < 2 ^ Z.pos (Pos.size p))%Z.
    { assert (K <= Z.pos p)%Z by (rewrite <- EM; subst M; nia). lia. }
    apply pow2_lt_inv in H0; lia. }
  unfold fexp, emin in HM1, H. change (3 - emax - prec)%Z with (-1074)%Z in HM1, H.
  change prec with 53%Z in HM1, H.
  set (n1 := Z.max 0 (Z.max (Zdigits2 M + (e - 45) - 53) (-1074) - (e - 45))) in *.
  set (e1 := (e - 45 + n1)%Z) in *.
  assert (Hn1 : (0 <= n1)%Z) by (subst n1; lia).
  assert (He1 : (-1074 <= e1 <= -45)%Z) by (subst e1 n1; lia).
  set (n2 := Z.max 0 (Z.max (Zdigits2 M1 + e1 - 53) (-1074) - e1)) in *.
  assert (Hn2 : (0 <= n2)%Z) by (subst n2; lia).
  (* the mantissa after the first shift is below 255 * 2^(-e1) *)
  assert (HT : (M1 <= K * 2 ^ (- 45 - e1))%Z).
  { assert (Z.shiftr M n1 < K * 2 ^ (- 45 - e1))%Z; [|lia].
    rewrite Z.shiftr_div_pow2 by lia.
    apply Z.div_lt_upper_bound; [apply pow2_pos; lia|].
    rewrite Z.mul_comm, <- Z.mul_assoc, <- pow2_split by lia.
    replace (- 45 - e1 + n1)%Z with (- e)%Z by (subst e1; lia).
    subst M. rewrite (Z.mul_comm K). apply Z.mul_lt_mono_pos_r; lia. }
  assert (HM1pos : (0 <= M1)%Z).
  { assert (0 <= Z.shiftr M n1)%Z by (apply Z.shiftr_nonneg; lia). lia. }
  assert (Hq : (Z.shiftr M1 n2 * 2 ^ n2 <= M1)%Z).
  { rewrite Z.shiftr_div_pow2 by lia. rewrite Z.mul_comm.
    apply Z.mul_div_le. apply pow2_pos; lia. }
  assert (Hbound : forall q, (0 <= q)%Z -> (q * 2 ^ n2 <= M1)%Z ->
            (q * 2 ^ (e1 + n2 + 1074) <= K * 2 ^ 1029)%Z).
  { intros q Hq0 Hq1.
    replace (e1 + n2 + 1074)%Z with (n2 + (e1 + 1074))%Z by lia.
    rewrite (pow2_split n2 (e1 + 1074)) by lia.
    replace 1029%Z with (- 45 - e1 + (e1 + 1074))%Z by lia.
    rewrite (pow2_split (- 45 - e1) (e1 + 1074)) by lia.
    rewrite !Z.mul_assoc. apply Z.mul_le_mono_nonneg_r; [apply Z.pow_nonneg; lia|].
    lia. }
  assert (Hsmall : (0 < Z.shiftr M1 n2)%Z -> (e1 + n2 < 8)%Z).
  { intros Hpos.
    assert (H1 : (2 ^ n2 <= K * 2 ^ (- 45 - e1))%Z).
    { assert (0 < 2 ^ n2)%Z by (apply pow2_pos; lia). nia. }
    assert (H2 : (K * 2 ^ (- 45 - e1) < 2 ^ (8 - e1))%Z).
    { replace (8 - e1)%Z with (53 + (- 45 - e1))%Z by lia.
      rewrite (pow2_split 53 (- 45 - e1)) by lia.
      apply Z.mul_lt_mono_pos_r; [apply pow2_pos; lia | lia]. }
    assert (H3 : (2 ^ n2 < 2 ^ (8 - e1))%Z) by lia.
    apply pow2_lt_inv in H3; lia. }
  assert (HK0 : (0 <= K * 2 ^ 1029)%Z).
  { apply Z.mul_nonneg_nonneg; [lia | apply Z.pow_nonneg; lia]. }
  clearbody K. generalize dependent (K * 2 ^ 1029)%Z. intros B255 Hbound HK0.
  rewrite is_nan_SF. unfold B64.negative, B64.ord. rewrite H.
  destruct (Z.shiftr M1 n2) as [|mm|mm] eqn:Emm.
  - cbn [B64.SFord]. split; [reflexivity|]. split; [reflexivity|]. lia.
  - specialize (Hsmall ltac:(lia)).
    destruct (Z.leb_spec (e1 + n2) 971); [|lia].
    split; [reflexivity|]. split; [reflexivity|].
    cbn [B64.SFord cond_Zopp].
    split; [apply Z.mul_nonneg_nonneg; [lia | apply Z.pow_nonneg; lia]|].
    apply Hbound; lia.
  - exfalso. assert (0 <= Z.shiftr M1 n2)%Z by (apply Z.shiftr_nonneg; lia). lia.
Qed.

(** Above 1, the product by 255 is a number at or above 255. *)
Lemma mul255_above (v : float) m e :
  Prim2SF v = S754_finite false m e -> (B64.ord 1 < B64.ord v)%Z ->
  is_nan (v * 255) = false /\ (B64.ord 255 <= B64.ord (v * 255))%Z.
Proof.
  intros E Hlt. rewrite ord_1 in Hlt. rewrite ord_255.
  destruct (ord_finite v _ _ _ E) as (Ov & Pv & He).
  rewrite Ov in Hlt. cbn [cond_Zopp] in Hlt.
  pose proof (valid_SF v) as Vv. rewrite E in Vv.
  destruct (valid_mantissa_SF _ _ _ Vv) as (Hm53 & _).
  pose proof (mul255_SF v false m e E) as H.
  set (K := 8972014882652160%Z) in *.
  assert (HK : (2 ^ 52 <= K < 2 ^ 53)%Z) by (subst K; split; [apply Z.leb_le | apply Z.ltb_lt]; reflexivity).
  assert (HP : (0 < 2 ^ 2100)%Z) by (apply pow2_pos; lia).
  assert (Hbig : (K * 2 ^ 1029 < 2 ^ 1082)%Z).
  { replace 1082%Z with (53 + 1029)%Z by lia. rewrite (pow2_split 53 1029) by lia.
    apply Z.mul_lt_mono_pos_r; [apply pow2_pos; lia | lia]. }
  (* the exponent of v is at least -52 *)
  assert (He52 : (-52 <= e)%Z).
  { destruct (Z.le_gt_cases (-52) e) as [H0|H0]; [exact H0|]. exfalso.
    assert (2 ^ (e + 1074 + 53) <= 2 ^ 1074)%Z by (apply pow2_le; lia).
    rewrite (pow2_split (e + 1074) 53) in H1 by lia.
    assert (0 < 2 ^ (e + 1074))%Z by (apply pow2_pos; lia).
    generalize dependent (2 ^ 1074)%Z. generalize dependent (2 ^ (e + 1074))%Z.
    generalize dependent (2 ^ 53)%Z. intros. nia. }
  destruct (binary_round_aux_positive false (m * 8972014882652160) (e - 45)
              ltac:(lia)) as [Hinf|(mm & ee & Hfin)].
  { change (Z.pos (m * 8972014882652160)) with (Z.pos m * K)%Z in Hinf.
    rewrite Hinf in H. rewrite is_nan_SF. unfold B64.ord. rewrite H.
    cbn [B64.SFord cond_Zopp]. split; [reflexivity|].
    assert (2 ^ 1082 <= 2 ^ 2100)%Z by (apply pow2_le; lia). lia. }
  change (Z.pos (m * 8972014882652160)) with (Z.pos m * K)%Z in Hfin.
  destruct (binary_round_aux_spec false (Z.pos m * K) (e - 45) loc_Exact ltac:(lia))
    as (M1 & HM1 & Hr). cbv zeta in HM1, Hr.
  rewrite Hfin in H, Hr.
  destruct (ord_finite _ _ _ _ H) as (Or & Pr & Hee).
  pose proof (valid_SF (v * 255)) as Vr. rewrite H in Vr.
  destruct (valid_mantissa_SF _ _ _ Vr) as (_ & Hnorm).
  rewrite is_nan_SF, H, Or. cbn [cond_Zopp]. split; [reflexivity|].
  destruct (Z.le_gt_cases (-44) ee) as [Hhigh|Hlow].
  - (* a result of exponent above that of 255 *)
    specialize (Hnorm ltac:(lia)).
    assert (2 ^ 1030 <= 2 ^ (ee + 1074))%Z by (apply pow2_le; lia).
    assert (2 ^ 1082 <= Z.pos mm * 2 ^ (ee + 1074))%Z; [|lia].
    replace 1082%Z with (52 + 1030)%Z by lia. rewrite (pow2_split 52 1030) by lia.
    apply Z.mul_le_mono_nonneg; try lia; apply Z.pow_nonneg; lia.
  - (* a result of the exponent of 255 or below: count the shifts *)
    set (M := (Z.pos m * K)%Z) in *.
    unfold fexp, emin in HM1, Hr. change (3 - emax - prec)%Z with (-1074)%Z in HM1, Hr.
    change prec with 53%Z in HM1, Hr.
    set (n1 := Z.max 0 (Z.max (Zdigits2 M + (e - 45) - 53) (-1074) - (e - 45))) in *.
    set (e1 := (e - 45 + n1)%Z) in *.
    set (n2 := Z.max 0 (Z.max (Zdigits2 M1 + e1 - 53) (-1074) - e1)) in *.
    assert (Hn1 : (0 <= n1)%Z) by (subst n1; lia).
    assert (Hn2 : (0 <= n2)%Z) by (subst n2; lia).
    assert (HM1pos : (0 <= Z.shiftr M n1)%Z) by (apply Z.shiftr_nonneg; subst M; lia).
    destruct (Z.shiftr M1 n2) as [|mq|mq] eqn:Emq; try discriminate.
    destruct (e1 + n2 <=? 971)%Z; try discriminate.
    injection Hr as Hmm Hee'. subst mq.
    set (j := (- 45 - ee)%Z).
    assert (Hj : (0 <= j)%Z) by (subst j; lia).
    assert (Hn : (n1 + n2 + j = - e)%Z) by (subst j e1; lia).
    (* m is above 2^(n1+n2+j) *)
    assert (Hmbig : (2 ^ (n1 + n2 + j) < Z.pos m)%Z).
    { rewrite Hn.
      replace 1074%Z with (- e + (e + 1074))%Z in Hlt at 1 by lia.
      rewrite (pow2_split (- e) (e + 1074)) in Hlt by lia.
      assert (0 < 2 ^ (e + 1074))%Z by (apply pow2_pos; lia).
      generalize dependent (2 ^ (e + 1074))%Z. generalize dependent (2 ^ (- e))%Z.
      intros. nia. }
    assert (Hlow' : (K * 2 ^ j <= Z.pos mm)%Z).
    { rewrite <- Emq. rewrite Z.shiftr_div_pow2 by lia.
      apply Z.div_le_lower_bound; [apply pow2_pos; lia|].
      assert (Hs1 : (2 ^ n2 * (K * 2 ^ j) <= Z.shiftr M n1)%Z).
      { rewrite Z.shiftr_div_pow2 by lia.
        apply Z.div_le_lower_bound; [apply pow2_pos; lia|].
        subst M.
        replace (2 ^ n1 * (2 ^ n2 * (K * 2 ^ j)))%Z
          with (2 ^ (n1 + n2 + j) * K)%Z.
        - apply Z.mul_le_mono_nonneg_r; lia.
        - rewrite (pow2_split (n1 + n2) j), (pow2_split n1 n2) by lia. ring. }
      lia. }
    replace 1029%Z with (j + (ee + 1074))%Z by (subst j; lia).
    rewrite (pow2_split j (ee + 1074)) by lia.
    rewrite Z.mul_assoc. apply Z.mul_le_mono_nonneg_r; [apply Z.pow_nonneg; lia|].
    exact Hlow'.
Qed.

(** ** [Math.round] around 0 and 255 *)

Lemma of_int_ord_compare (a b : Z) :
  (Z.abs a < 2 ^ 53)%Z -> (Z.abs b < 2 ^ 53)%Z ->
  (B64.ord (B64.of_int a) ?= B64.ord (B64.of_int b))%Z = (a ?= b)%Z.
Proof.
  intros Ha Hb. pose proof (of_int_compare a b Ha Hb) as H.
  rewrite (SFcompare_ord _ _ (valid_SF _) (valid_SF _)) in H
    by (apply not_nan_SF; now apply of_int_not_nan).
  now injection H.
Qed.

Lemma compare_le (a b c d : Z) :
  (a ?= b)%Z = (c ?= d)%Z -> (c <= d)%Z -> (a <= b)%Z.
Proof. unfold Z.le. now intros ->. Qed.

Lemma nearest_small s m e :
  (e < 0)%Z ->
  B64.nearest s m e
  = ((2 * cond_Zopp s (Z.pos m) + 2 ^ (- e)) / (2 * 2 ^ (- e)))%Z.
Proof.
  intros He. unfold B64.nearest. destruct (Z.leb_spec 0 e); [lia|].
  rewrite Z.shiftr_div_pow2 by lia.
  replace (1 - e)%Z with (Z.succ (- e)) by lia.
  now rewrite Z.pow_succ_r by lia.
Qed.

(** What [Math.round] returns for a number that is neither whole already nor
    rounded to zero. *)
Lemma Math_round_finite (x : float) s m e :
  Prim2SF x = S754_finite s m e -> (e < 0)%Z ->
  B64.Math_round x
  = if (B64.nearest s m e =? 0)%Z then (if s then neg_zero else zero)
    else B64.of_int (B64.nearest s m e).
Proof.
  intros E He. unfold B64.Math_round. rewrite E.
  destruct (Z.leb_spec 0 e); [lia | reflexivity].
Qed.

Lemma Math_round_whole (x : float) s m e :
  Prim2SF x = S754_finite s m e -> (0 <= e)%Z -> B64.Math_round x = x.
Proof.
  intros E He. unfold B64.Math_round. rewrite E.
  destruct (Z.leb_spec 0 e); [reflexivity | lia].
Qed.

Lemma ord_255_scaled : B64.ord 255 = (255 * 2 ^ 1074)%Z.
Proof.
  rewrite ord_255. change 8972014882652160%Z with (255 * 2 ^ 45)%Z.
  rewrite <- Z.mul_assoc, <- pow2_split by lia. reflexivity.
Qed.

(** A scaled mantissa against a whole number [c]. *)
Lemma scaled_le (m c e : Z) :
  (-1074 <= e < 0)%Z ->
  (m * 2 ^ (e + 1074) <= c * 2 ^ 1074)%Z <-> (m <= c * 2 ^ (- e))%Z.
Proof.
  intros He. replace 1074%Z with (- e + (e + 1074))%Z at 2 by lia.
  rewrite (pow2_split (- e) (e + 1074)), Z.mul_assoc by lia.
  assert (0 < 2 ^ (e + 1074))%Z by (apply pow2_pos; lia).
  split; intros H0.
  - eapply Z.mul_le_mono_pos_r; eauto.
  - apply Z.mul_le_mono_nonneg_r; lia.
Qed.

Lemma scaled_ge (m c e : Z) :
  (-1074 <= e < 0)%Z ->
  (c * 2 ^ 1074 <= m * 2 ^ (e + 1074))%Z <-> (c * 2 ^ (- e) <= m)%Z.
Proof.
  intros He. replace 1074%Z with (- e + (e + 1074))%Z at 1 by lia.
  rewrite (pow2_split (- e) (e + 1074)), Z.mul_assoc by lia.
  assert (0 < 2 ^ (e + 1074))%Z by (apply pow2_pos; lia).
  split; intros H0.
  - eapply Z.mul_le_mono_pos_r; eauto.
  - apply Z.mul_le_mono_nonneg_r; lia.
Qed.

Lemma ord_255_pos : (0 < B64.ord 255)%Z.
Proof.
  rewrite ord_255_scaled. apply Z.mul_pos_pos; [lia | apply pow2_pos; lia].
Qed.

(** From [+0] to 255, [Math.round] stays from [+0] to 255. *)
Lemma Math_round_below_255 (x : float) :
  is_nan x = false -> B64.negative x = false ->
  (0 <= B64.ord x <= B64.ord 255)%Z ->
  is_nan (B64.Math_round x) = false /\
  B64.negative (B64.Math_round x) = false /\
  (0 <= B64.ord (B64.Math_round x) <= B64.ord 255)%Z.
Proof.
  intros Hn Hs Hx. pose proof ord_255_pos as P255.
  rewrite is_nan_SF in Hn. unfold B64.negative in Hs.
  destruct (Prim2SF x) as [s|s| |s m e] eqn:E; try discriminate.
  - assert (Hr : B64.Math_round x = x) by (unfold B64.Math_round; now rewrite E).
    rewrite Hr, is_nan_SF. unfold B64.negative. rewrite E. auto.
  - assert (Hr : B64.Math_round x = x) by (unfold B64.Math_round; now rewrite E).
    rewrite Hr, is_nan_SF. unfold B64.negative. rewrite E. auto.
  - subst s. destruct (Z.le_gt_cases 0 e) as [He|He].
    + rewrite (Math_round_whole x _ _ _ E He), is_nan_SF.
      unfold B64.negative. rewrite E. auto.
    + destruct (ord_finite x _ _ _ E) as (Ox & Px & He').
      rewrite Ox, ord_255_scaled in Hx. cbn [cond_Zopp] in Hx.
      pose proof (nearest_bound false m e He (valid_mantissa x _ _ _ E)) as Hb.
      assert (Hk : (0 <= B64.nearest false m e <= 255)%Z).
      { rewrite nearest_small by exact He. cbn [cond_Zopp].
        assert (Hm : (Z.pos m <= 255 * 2 ^ (- e))%Z) by (apply scaled_le; lia).
        assert (0 < 2 ^ (- e))%Z by (apply pow2_pos; lia).
        split.
        - apply Z.div_pos; lia.
        - assert ((2 * Z.pos m + 2 ^ (- e)) / (2 * 2 ^ (- e)) < 256)%Z; [|lia].
          apply Z.div_lt_upper_bound; lia. }
      rewrite (Math_round_finite x _ _ _ E He).
      destruct (Z.eqb_spec (B64.nearest false m e) 0) as [K0|K0].
      * repeat split; try reflexivity. change (B64.ord zero) with 0%Z. lia.
      * cbv beta iota.
        assert (Hlt : (Z.abs (B64.nearest false m e) < 2 ^ 53)%Z).
        { change (2 ^ 53)%Z with 9007199254740992%Z. lia. }
        split; [now apply of_int_not_nan|].
        split; [rewrite of_int_negative by exact Hlt; apply Z.ltb_ge; lia|].
        pose proof (of_int_ord_compare (B64.nearest false m e) 0 Hlt eq_refl) as H0.
        pose proof (of_int_ord_compare (B64.nearest false m e) 255 Hlt eq_refl) as H1.
        change (B64.ord (B64.of_int 0)) with 0%Z in H0.
        change (B64.of_int 255) with 255 in H1.
        assert (C0 : (B64.nearest false m e ?= 0)%Z = Gt)
          by (apply Z.compare_gt_iff; lia).
        rewrite C0 in H0. apply Z.compare_gt_iff in H0.
        split; [lia|]. apply (compare_le _ _ _ _ H1). lia.
Qed.

(** At or above 255, [Math.round] stays at or above 255. *)
Lemma Math_round_above_255 (x : float) :
  is_nan x = false -> (B64.ord 255 <= B64.ord x)%Z ->
  is_nan (B64.Math_round x) = false /\
  (B64.ord 255 <= B64.ord (B64.Math_round x))%Z.
Proof.
  intros Hn Hx. pose proof ord_255_pos as P255.
  pose proof Hn as Hn'. rewrite is_nan_SF in Hn.
  destruct (Prim2SF x) as [s|s| |s m e] eqn:E; try discriminate.
  - exfalso. unfold B64.ord at 2 in Hx. rewrite E in Hx. cbn in Hx. lia.
  - assert (Hr : B64.Math_round x = x) by (unfold B64.Math_round; now rewrite E).
    rewrite Hr. auto.
  - destruct (Z.le_gt_cases 0 e) as [He|He].
    + rewrite (Math_round_whole x _ _ _ E He). auto.
    + destruct (ord_finite x _ _ _ E) as (Ox & Px & He').
      rewrite Ox in Hx. destruct s; cbn [cond_Zopp] in Hx; [lia|].
      rewrite ord_255_scaled in Hx.
      pose proof (nearest_bound false m e He (valid_mantissa x _ _ _ E)) as Hb.
      assert (Hk : (255 <= B64.nearest false m e)%Z).
      { rewrite nearest_small by exact He. cbn [cond_Zopp].
        assert (Hm : (255 * 2 ^ (- e) <= Z.pos m)%Z) by (apply scaled_ge; lia).
        assert (0 < 2 ^ (- e))%Z by (apply pow2_pos; lia).
        apply Z.div_le_lower_bound; lia. }
      rewrite (Math_round_finite x _ _ _ E He).
      destruct (Z.eqb_spec (B64.nearest false m e) 0) as [K0|K0]; [lia|].
      cbv beta iota.
      assert (Hlt : (Z.abs (B64.nearest false m e) < 2 ^ 53)%Z).
      { change (2 ^ 53)%Z with 9007199254740992%Z.
        change (2 ^ 52)%Z with 4503599627370496%Z in Hb. lia. }
      split; [now apply of_int_not_nan|].
      pose proof (of_int_ord_compare 255 (B64.nearest false m e) eq_refl Hlt) as H1.
      change (B64.of_int 255) with 255 in H1.
      apply (compare_le _ _ _ _ H1). lia.
Qed.

(** At or below zero, [Math.round] stays at or below zero. *)
Lemma Math_round_nonpositive (x : float) :
  is_nan x = false -> (B64.ord x <= 0)%Z ->
  is_nan (B64.Math_round x) = false /\ (B64.ord (B64.Math_round x) <= 0)%Z.
Proof.
  intros Hn Hx. pose proof Hn as Hn'. rewrite is_nan_SF in Hn.
  destruct (Prim2SF x) as [s|s| |s m e] eqn:E; try discriminate.
  - assert (Hr : B64.Math_round x = x) by (unfold B64.Math_round; now rewrite E).
    rewrite Hr. auto.
  - assert (Hr : B64.Math_round x = x) by (unfold B64.Math_round; now rewrite E).
    rewrite Hr. auto.
  - destruct (Z.le_gt_cases 0 e) as [He|He].
    + rewrite (Math_round_whole x _ _ _ E He). auto.
    + destruct (ord_finite x _ _ _ E) as (Ox & Px & He').
      rewrite Ox in Hx. destruct s; cbn [cond_Zopp] in Hx; [|lia].
      pose proof (nearest_bound true m e He (valid_mantissa x _ _ _ E)) as Hb.
      assert (Hk : (B64.nearest true m e <= 0)%Z).
      { rewrite nearest_small by exact He. cbn [cond_Zopp].
        assert (0 < 2 ^ (- e))%Z by (apply pow2_pos; lia).
        assert ((2 * - Z.pos m + 2 ^ (- e)) / (2 * 2 ^ (- e)) < 1)%Z; [|lia].
        apply Z.div_lt_upper_bound; lia. }
      rewrite (Math_round_finite x _ _ _ E He).
      destruct (Z.eqb_spec (B64.nearest true m e) 0) as [K0|K0].
      * split; [reflexivity|]. change (B64.ord neg_zero) with 0%Z. lia.
      * cbv beta iota.
        assert (Hlt : (Z.abs (B64.nearest true m e) < 2 ^ 53)%Z).
        { change (2 ^ 53)%Z with 9007199254740992%Z.
          change (2 ^ 52)%Z with 4503599627370496%Z in Hb. lia. }
        split; [now apply of_int_not_nan|].
        pose proof (of_int_ord_compare (B64.nearest true m e) 0 Hlt eq_refl) as H0.
        change (B64.ord (B64.of_int 0)) with 0%Z in H0.
        apply (compare_le _ _ _ _ H0). lia.
Qed.

(** ** Clamping before or after the scaling to bytes *)

(** Clamping the height to [0,1] and then scaling by 255 and rounding, as
    the code does, gives the double that scaling by 255, rounding and then
    clamping to [0,255] gives: for every double, [NaN], the infinities and
    the heights a rounding error away from [0,1] included. *)
Lemma round_clamp64 (v : float) :
  B64.Math_round (B64.clamp v 0 1 * 255)
  = B64.clamp (B64.Math_round (v * 255)) 0 255.
Proof.
  pose proof ord_255_pos as P255.
  assert (P1 : (0 < B64.ord 1)%Z) by (rewrite ord_1; apply pow2_pos; lia).
  destruct (Prim2SF v) as [s|s| |[|] m e] eqn:E.
  - apply SF_zero_inv in E. subst v. now destruct s.
  - apply SF_infinity_inv in E. subst v. now destruct s.
  - apply SF_nan_inv in E. subst v. reflexivity.
  - (* negative *)
    destruct (ord_finite v _ _ _ E) as (Ov & Pv & _). cbn [cond_Zopp] in Ov.
    assert (Hn : is_nan v = false) by (rewrite is_nan_SF, E; reflexivity).
    rewrite (clamp_nonpositive v 1) by (auto; lia).
    destruct (mul255_negative v m e E) as [Hp Hple].
    destruct (Math_round_nonpositive _ Hp Hple) as [Hr Hrle].
    rewrite (clamp_nonpositive _ 255) by (auto; lia). reflexivity.
  - (* positive *)
    destruct (ord_finite v _ _ _ E) as (Ov & Pv & _). cbn [cond_Zopp] in Ov.
    assert (Hn : is_nan v = false) by (rewrite is_nan_SF, E; reflexivity).
    destruct (Z.lt_trichotomy (B64.ord v) (B64.ord 1)) as [Hlt|[Heq|Hgt]].
    + rewrite (clamp_inside v 1) by (auto; lia).
      destruct (mul255_below v m e E Hlt) as (Hp & Hs & Hr).
      destruct (Math_round_below_255 _ Hp Hs Hr) as (Hrn & Hrs & Hrr).
      destruct (Z.eq_dec (B64.ord (B64.Math_round (v * 255))) 0) as [Z0|NZ].
      * destruct (ord_zero_SF _ Hrn Z0) as [t Ht].
        unfold B64.negative in Hrs. rewrite Ht in Hrs. subst t.
        apply SF_zero_inv in Ht. rewrite Ht. reflexivity.
      * rewrite clamp_inside; auto; lia.
    + assert (v = 1) as -> by (apply ord_inj; auto; lia). reflexivity.
    + rewrite (clamp_above v 1) by (auto; lia).
      destruct (mul255_above v m e E Hgt) as (Hp & Hr).
      destruct (Math_round_above_255 _ Hp Hr) as (Hrn & Hrr).
      rewrite clamp_above by (auto; lia). reflexivity.
Qed.

(** ** The sanitised duration, scale and frame count *)

Lemma nan_leb (x : float) : (nan <=? x) = false.
Proof. now rewrite FloatAxioms.leb_spec. Qed.

Lemma leb_nan (x : float) : (x <=? nan) = false.
Proof.
  rewrite FloatAxioms.leb_spec. change (Prim2SF nan) with S754_nan.
  unfold SFleb. now destruct (Prim2SF x).
Qed.

Lemma is_finite_not_nan (x : float) : is_finite x = true -> is_nan x = false.
Proof.
  unfold is_finite. intros H. apply negb_true_iff, orb_false_iff in H. tauto.
Qed.

Lemma sanitizedScale_range64 (o : B64.Options) :
  (0.1 <=? B64.sanitizedScale o) = true /\ (B64.sanitizedScale o <=? 1) = true.
Proof.
  unfold B64.sanitizedScale. apply clamp_range64; [reflexivity|].
  unfold B64.Number_isFinite.
  destruct (is_finite (B64.scale o)) eqn:E; [now apply is_finite_not_nan | reflexivity].
Qed.

Lemma sanitizedDuration_spec (o : B64.Options) :
  is_nan (B64.duration o) = false ->
  (B64.sanitizedDuration o = 0.5 \/ B64.sanitizedDuration o = B64.duration o) /\
  (0.5 <=? B64.sanitizedDuration o) = true /\
  (B64.duration o <=? B64.sanitizedDuration o) = true.
Proof. intros H. now apply Math_max_spec64. Qed.

Lemma one_le_not_le_zero (x : float) : (1 <=? x) = true -> (x <=? 0) = false.
Proof.
  rewrite !FloatAxioms.leb_spec, one_SF. change (Prim2SF 0) with (S754_zero false).
  unfold SFleb. destruct (Prim2SF x) as [s|s| |s m e]; cbn; try discriminate.
  - now destruct s.
  - now destruct s.
Qed.

Lemma Math_max_1_positive (x : float) : (B64.Math_max 1 x <=? 0) = false.
Proof.
  destruct (is_nan x) eqn:E.
  - rewrite Math_max_nan by (rewrite E; apply orb_true_r). apply nan_leb.
  - apply one_le_not_le_zero. now apply Math_max_spec64.
Qed.

Lemma frameCount_positive (o : B64.Options) : (B64.frameCount o <=? B64.count 0) = false.
Proof. apply Math_max_1_positive. Qed.

(** ** One tick of the sampling loop *)

Lemma step64_ext canvas o o' s tick :
  B64.sanitizedDuration o = B64.sanitizedDuration o' ->
  B64.sanitizedFps o = B64.sanitizedFps o' ->
  B64.sanitizedScale o = B64.sanitizedScale o' ->
  B64.step canvas o s tick = B64.step canvas o' s tick.
Proof.
  intros Hd Hf Hs.
  unfold B64.step, B64.captureFrame, B64.frameCount, B64.delayMs,
    B64.frameIntervalMs, B64.targetWidth, B64.targetHeight.
  now rewrite Hd, Hf, Hs.
Qed.

Lemma sampling_loop64_ext canvas o o' s ticks :
  B64.sanitizedDuration o = B64.sanitizedDuration o' ->
  B64.sanitizedFps o = B64.sanitizedFps o' ->
  B64.sanitizedScale o = B64.sanitizedScale o' ->
  B64.sampling_loop canvas o s ticks = B64.sampling_loop canvas o' s ticks.
Proof.
  intros Hd Hf Hs. revert s.
  induction ticks as [|tick ticks IH]; intros s; simpl; [reflexivity|].
  rewrite (step64_ext canvas o o' s tick Hd Hf Hs).
  destruct (B64.step canvas o' s tick) as [s' [|]]; [reflexivity | apply IH].
Qed.

Lemma captureGif64_ext encoder_bytes env ticks o o' :
  B64.sanitizedDuration o = B64.sanitizedDuration o' ->
  B64.sanitizedFps o = B64.sanitizedFps o' ->
  B64.sanitizedScale o = B64.sanitizedScale o' ->
  B64.captureGif encoder_bytes env ticks o = B64.captureGif encoder_bytes env ticks o'.
Proof.
  intros Hd Hf Hs. unfold B64.captureGif.
  destruct (B64.canvasRef env) as [canvas|]; [|reflexivity].
  now rewrite (sampling_loop64_ext canvas o o' _ ticks Hd Hf Hs).
Qed.

Lemma captureGif64_rejections encoder_bytes env ticks o :
  match B64.captureGif encoder_bytes env ticks o with
  | Rejected message => In message environment_failures
  | _ => True
  end.
Proof.
  unfold B64.captureGif, environment_failures.
  destruct (B64.canvasRef env) as [canvas|]; [|simpl; auto].
  destruct (B64.stateRef env); [|simpl; auto].
  destruct (B64.fullCtx env); [|simpl; auto].
  destruct (B64.scaledCtx env); [|simpl; auto 6]. cbn [negb].
  destruct (B64.sampling_loop canvas o B64.sampling_start ticks) as [s [|]]; [|exact I].
  destruct (encoder_bytes (B64.frames s)) as [bytes|]; [|simpl; auto 6].
  destruct (Nat.eqb (length bytes) 0); simpl; auto 6.
Qed.

Lemma pair_if64 {A B} (b : bool) (a : A) (x y : B) :
  (if b then (a, x) else (a, y)) = (a, if b then x else y).
Proof. now destruct b. Qed.

(** What [step] does to a loop that has not resolved: at most one capture,
    taken while the count test fails, and [resolve()] exactly when one of
    the two tests holds. *)
Lemma step64_spec canvas o s tick t0 :
  (s = B64.sampling_start /\ t0 = B64.now tick /\ is_nan (B64.now tick) = false)
  \/ (B64.well o t0 s) ->
  exists s',
    B64.step canvas o s tick
    = (s', if (B64.frameCount o <=? B64.count (B64.captured s'))
              || (B64.limit o <=? B64.now tick - t0)
           then Resolve else Reschedule) /\
    (B64.captured s <= B64.captured s' <= S (B64.captured s))%nat /\
    (1 <= B64.captured s')%nat /\
    B64.startTime s' = t0 /\
    B64.frameIndex s' = B64.captured s' /\
    length (B64.frames s') = B64.captured s' /\
    (forall j, (j < B64.captured s')%nat ->
               (B64.frameCount o <=? B64.count j) = false).
Proof.
  intros [(-> & -> & Hnow)|(H1 & Hst & Hfi & Hlen & Hall)]; unfold B64.step.
  - cbn [B64.captured B64.sampling_start]. rewrite frameCount_positive.
    cbn [Nat.eqb B64.nextCapture]. rewrite (leb_refl _ Hnow).
    cbn [B64.captureFrame B64.captured B64.startTime B64.nextCapture
           B64.frameIndex B64.frames].
    rewrite pair_if64. take_state. split; [reflexivity|].
    cbn [B64.captured B64.startTime B64.frameIndex B64.frames
           B64.sampling_start app length].
    repeat split; try lia.
    intros j Hj. assert (j = O) as -> by lia. apply frameCount_positive.
  - rewrite (Hall (B64.captured s)) by lia.
    destruct (Nat.eqb_spec (B64.captured s) 0) as [E|_]; [lia|].
    destruct (B64.nextCapture s <=? B64.now tick).
    + cbn [B64.captureFrame B64.captured B64.startTime B64.nextCapture
             B64.frameIndex B64.frames].
      rewrite pair_if64. take_state. rewrite Hst. split; [reflexivity|].
      cbn [B64.captured B64.startTime B64.frameIndex B64.frames].
      rewrite length_app, Hlen, Hfi. cbn [length].
      repeat split; try lia. intros j Hj. apply Hall. lia.
    + rewrite pair_if64. exists s. rewrite Hst. split; [reflexivity|].
      repeat split; try lia; auto. intros j Hj. apply Hall. lia.
Qed.

Lemma sampling_loop64_app canvas o s l1 l2 :
  B64.sampling_loop canvas o s (l1 ++ l2) =
  match B64.sampling_loop canvas o s l1 with
  | (s', true) => (s', true)
  | (s', false) => B64.sampling_loop canvas o s' l2
  end.
Proof.
  revert s. induction l1 as [|tick l1 IH]; intros s; simpl; [reflexivity|].
  destruct (B64.step canvas o s tick) as [s' [|]]; [reflexivity | apply IH].
Qed.

Lemma after_ticks64_S canvas o f n :
  B64.after_ticks canvas o f (S n) =
  match B64.after_ticks canvas o f n with
  | (s, true) => (s, true)
  | (s, false) =>
      match B64.step canvas o s (f n) with
      | (s', Resolve) => (s', true)
      | (s', Reschedule) => (s', false)
      end
  end.
Proof.
  unfold B64.after_ticks, B64.prefix. rewrite seq_S, map_app, sampling_loop64_app.
  destruct (B64.sampling_loop _ _ _ _) as [s [|]]; [reflexivity|].
  simpl. now destruct (B64.step canvas o s (f n)) as [s' [|]].
Qed.

Lemma running_state64 canvas o f n s :
  is_nan (B64.now (f O)) = false ->
  B64.after_ticks canvas o f n = (s, false) ->
  (n = O /\ s = B64.sampling_start)
  \/ ((1 <= n)%nat /\ B64.well o (B64.now (f O)) s).
Proof.
  intros Hnow. revert s. induction n as [|n IH]; intros s H.
  - left. split; [reflexivity|]. unfold B64.after_ticks in H. simpl in H. congruence.
  - right. split; [lia|]. rewrite after_ticks64_S in H.
    destruct (B64.after_ticks canvas o f n) as [s0 [|]] eqn:E; [discriminate|].
    assert (Hpre : (s0 = B64.sampling_start /\ B64.now (f O) = B64.now (f n)
                    /\ is_nan (B64.now (f n)) = false)
                   \/ B64.well o (B64.now (f O)) s0).
    { destruct (IH s0 eq_refl) as [[-> ->]|[_ Hw]]; auto. }
    destruct (step64_spec canvas o s0 (f n) (B64.now (f O)) Hpre)
      as (s' & Hstep & _ & H1 & Hst & Hfi & Hlen & Hall).
    rewrite Hstep in H.
    destruct ((B64.frameCount o <=? B64.count (B64.captured s'))
              || (B64.limit o <=? B64.now (f n) - B64.now (f O))) eqn:Hb;
      [discriminate|].
    injection H as <-. apply orb_false_iff in Hb as [Hb _].
    repeat split; auto.
    intros j Hj. destruct (Nat.eq_dec j (B64.captured s')) as [->|Hne];
      [exact Hb | apply Hall; lia].
Qed.

Lemma resolved64_mono canvas o f n m :
  (n <= m)%nat ->
  snd (B64.after_ticks canvas o f n) = true ->
  snd (B64.after_ticks canvas o f m) = true.
Proof.
  induction 1 as [|m _ IH]; intros H; [exact H|].
  specialize (IH H). rewrite after_ticks64_S.
  destruct (B64.after_ticks canvas o f m) as [s [|]]; [reflexivity | discriminate].
Qed.

(** What happens at tick [j] of a loop that is still running. *)
Lemma tick64_spec canvas o f j :
  is_nan (B64.now (f O)) = false ->
  snd (B64.after_ticks canvas o f j) = false ->
  (B64.captured (fst (B64.after_ticks canvas o f j)) <= B64.captured_at canvas o f j
   <= S (B64.captured (fst (B64.after_ticks canvas o f j))))%nat /\
  (1 <= B64.captured_at canvas o f j)%nat /\
  (forall i, (i < B64.captured_at canvas o f j)%nat ->
             (B64.frameCount o <=? B64.count i) = false) /\
  length (B64.frames (fst (B64.after_ticks canvas o f (S j))))
  = B64.captured_at canvas o f j /\
  snd (B64.after_ticks canvas o f (S j)) = B64.stop_condition canvas o f j.
Proof.
  intros Hnow Hrun. unfold B64.stop_condition, B64.captured_at, B64.elapsed.
  rewrite after_ticks64_S.
  destruct (B64.after_ticks canvas o f j) as [s b] eqn:E. simpl in Hrun. subst b.
  assert (Hpre : (s = B64.sampling_start /\ B64.now (f O) = B64.now (f j)
                  /\ is_nan (B64.now (f j)) = false)
                 \/ B64.well o (B64.now (f O)) s).
  { destruct (running_state64 canvas o f j s Hnow E) as [[-> ->]|[_ Hw]]; auto. }
  destruct (step64_spec canvas o s (f j) (B64.now (f O)) Hpre)
    as (s' & Hstep & Hcap & H1 & _ & _ & Hlen & Hall).
  rewrite Hstep. cbn [fst].
  destruct ((B64.frameCount o <=? B64.count (B64.captured s'))
            || (B64.limit o <=? B64.now (f j) - B64.now (f O))) eqn:Hb;
    cbn [fst snd]; rewrite ?Hb; repeat split; try lia; auto.
Qed.

Lemma sub_not_nan (a x y : float) :
  (a <=? x - y) = true -> is_nan x = false /\ is_nan y = false.
Proof.
  intros H. apply leb_not_nan in H as [_ H].
  rewrite !is_nan_SF in *. rewrite sub_spec in H.
  destruct (Prim2SF x), (Prim2SF y); auto; discriminate.
Qed.

Lemma resolved64_by_limit canvas o f n :
  (B64.limit o <=? B64.elapsed f n) = true ->
  snd (B64.after_ticks canvas o f (S n)) = true.
Proof.
  intros H. destruct (snd (B64.after_ticks canvas o f n)) eqn:E.
  - eapply resolved64_mono; [|exact E]. lia.
  - destruct (sub_not_nan _ _ _ H) as [_ Hnow].
    destruct (tick64_spec canvas o f n Hnow E) as (_ & _ & _ & _ & ->).
    unfold B64.stop_condition. rewrite H. apply orb_true_r.
Qed.

Lemma first_resolved64 canvas o f n :
  snd (B64.after_ticks canvas o f (S n)) = true ->
  exists k, (k <= n)%nat /\ B64.stops_at canvas o f k.
Proof.
  induction n as [|n IH]; intros H.
  - exists O. split; [lia|]. split; [|exact H].
    intros j Hj. assert (j = O) as -> by lia. reflexivity.
  - destruct (snd (B64.after_ticks canvas o f (S n))) eqn:E.
    + destruct (IH eq_refl) as (k & Hk & Hs). exists k. split; [lia | exact Hs].
    + exists (S n). split; [lia|]. split; [|exact H].
      intros j Hj. destruct (snd (B64.after_ticks canvas o f j)) eqn:Ej; [|reflexivity].
      rewrite (resolved64_mono canvas o f j (S n) Hj Ej) in E. discriminate.
Qed.

(** With a frame count and a bound that are [NaN], no test of [step] ever
    holds. *)
Lemma step64_nan canvas o s tick :
  B64.frameCount o = nan -> B64.limit o = nan ->
  snd (B64.step canvas o s tick) = Reschedule.
Proof.
  intros Hc Hl. unfold B64.step. fold (B64.limit o). rewrite Hc, Hl, !nan_leb.
  cbn [orb]. reflexivity.
Qed.

Lemma sampling_loop64_nan canvas o s ticks :
  B64.frameCount o = nan -> B64.limit o = nan ->
  snd (B64.sampling_loop canvas o s ticks) = false.
Proof.
  intros Hc Hl. revert s.
  induction ticks as [|tick ticks IH]; intros s; simpl; [reflexivity|].
  pose proof (step64_nan canvas o s tick Hc Hl) as H.
  destruct (B64.step canvas o s tick) as [s' [|]]; [discriminate | apply IH].
Qed.

(** The frames written so far only grow, one [captureFrame] at a time. *)
Lemma step64_frames (P : B64.Frame -> Prop) canvas o s tick :
  (forall s0 tick0, P (last (B64.frames (B64.captureFrame canvas o tick0 s0))
                         (B64.mkFrame 0 0 0 None 0 0 0))) ->
  Forall P (B64.frames s) -> Forall P (B64.frames (fst (B64.step canvas o s tick))).
Proof.
  intros Hnew Hs. unfold B64.step.
  destruct (_ <=? _); [exact Hs|].
  match goal with
  | |- context [if (B64.nextCapture ?st <=? _) then _ else _] =>
      set (s1 := st)
  end.
  assert (H1 : Forall P (B64.frames s1)).
  { subst s1. now destruct (Nat.eqb (B64.captured s) 0). }
  clearbody s1.
  destruct (B64.nextCapture s1 <=? B64.now tick).
  - match goal with
    | |- context [if ?b then _ else _] => destruct b
    end; cbn [fst B64.frames].
    all: specialize (Hnew s1 tick); cbn [B64.captureFrame B64.frames] in *;
      rewrite last_last in Hnew; apply Forall_app; split; auto.
  - match goal with
    | |- context [if ?b then _ else _] => destruct b
    end; exact H1.
Qed.

Lemma sampling_loop64_frames (P : B64.Frame -> Prop) canvas o s ticks :
  (forall s0 tick0, P (last (B64.frames (B64.captureFrame canvas o tick0 s0))
                         (B64.mkFrame 0 0 0 None 0 0 0))) ->
  Forall P (B64.frames s) ->
  Forall P (B64.frames (fst (B64.sampling_loop canvas o s ticks))).
Proof.
  intros Hnew. revert s.
  induction ticks as [|tick ticks IH]; intros s Hs; simpl; [exact Hs|].
  pose proof (step64_frames P canvas o s tick Hnew Hs) as H.
  destruct (B64.step canvas o s tick) as [s' [|]]; [exact H | now apply IH].
Qed.

(** ** CaptureController in binary64: the claims *)

Lemma Math_max_1_ge (r : float) : (1 <=? r) = true -> B64.Math_max 1 r = r.
Proof.
  intros H. destruct (leb_not_nan _ _ H) as [_ Hr].
  unfold B64.Math_max. rewrite Hr. cbn [is_nan orb].
  destruct (1 <? r) eqn:E1; [reflexivity|].
  rewrite leb_negb_ltb in H by auto. apply negb_true_iff in H. rewrite H.
  change (B64.negative 1) with false. cbv beta iota.
  apply Prim2SF_inj.
  rewrite FloatAxioms.ltb_spec in E1, H. unfold SFltb in *.
  pose proof (SFcompare_swap (Prim2SF 1) (Prim2SF r)) as Hs.
  destruct (SFcompare (Prim2SF 1) (Prim2SF r)) as [[| |]|] eqn:Ec;
    try discriminate.
  - apply compare_Eq_SF in Ec as [Ec|(s & t & Ec & _)]; [exact Ec|].
    rewrite one_SF in Ec. discriminate.
  - rewrite Hs in H. discriminate.
  - rewrite !is_nan_SF in *. rewrite one_SF in Ec.
    destruct (Prim2SF r); try discriminate; simpl in Ec; discriminate.
Qed.

(** C1, as the code has it, in binary64.  Whatever the parameters and the
    clock (delayed or skipped ticks included), provided that at some tick the
    code's own test [now - startTime >= sanitizedDuration * 1000 +
    frameIntervalMs] holds: the loop resolves after finitely many ticks, at
    the first tick at which one of its two tests holds (the count
    [frameCount] is reached, or the elapsed time is at or over the bound);
    it captures at most one frame per tick, at least one frame, each of them
    while the count test fails, hence no more frames than any count that
    passes the test; for [duration = 0.5] and [fps = 60] the frame count is
    [round(0.5 * 60) = 30] and at most 30 frames are captured. *)
Theorem C1_sampling_loop_stops
    (canvas : B64.Canvas) (o : B64.Options) (f : nat -> B64.Tick) (n : nat) :
  (B64.limit o <=? B64.elapsed f n) = true ->
  exists k,
    (k <= n)%nat /\
    B64.stops_at canvas o f k /\
    B64.stop_condition canvas o f k = true /\
    (forall j, (j < k)%nat -> B64.stop_condition canvas o f j = false) /\
    (forall j, (j <= k)%nat ->
       (B64.captured_at canvas o f j
        <= S (B64.captured (fst (B64.after_ticks canvas o f j))))%nat) /\
    (1 <= B64.captured_at canvas o f k)%nat /\
    (forall j, (j < B64.captured_at canvas o f k)%nat ->
               (B64.frameCount o <=? B64.count j) = false) /\
    (forall m, (B64.frameCount o <=? B64.count m) = true ->
               (B64.captured_at canvas o f k <= m)%nat) /\
    length (B64.frames (fst (B64.after_ticks canvas o f (S k))))
    = B64.captured_at canvas o f k /\
    (B64.duration o = 0.5 -> B64.fps o = 60 ->
     B64.frameCount o = B64.Math_round (0.5 * 60) /\
     B64.frameCount o = B64.count 30 /\
     (B64.captured_at canvas o f k <= 30)%nat).
Proof.
  intros Hlimit.
  destruct (sub_not_nan _ _ _ Hlimit) as [_ Hnow].
  destruct (first_resolved64 canvas o f n (resolved64_by_limit canvas o f n Hlimit))
    as (k & Hk & Hrun & Hstop).
  exists k. split; [exact Hk|]. split; [now split|].
  destruct (tick64_spec canvas o f k Hnow (Hrun k (Nat.le_refl k)))
    as (_ & H1 & Hall & Hlen & Hiff).
  assert (Hmost : forall m, (B64.frameCount o <=? B64.count m) = true ->
                            (B64.captured_at canvas o f k <= m)%nat).
  { intros m Hm. destruct (Nat.le_gt_cases (B64.captured_at canvas o f k) m) as [H|H];
      [exact H|]. rewrite (Hall m H) in Hm. discriminate. }
  split; [now rewrite <- Hiff|].
  split.
  { intros j Hj.
    destruct (tick64_spec canvas o f j Hnow (Hrun j (Nat.lt_le_incl _ _ Hj)))
      as (_ & _ & _ & _ & <-).
    apply Hrun. lia. }
  split.
  { intros j Hj. now apply (tick64_spec canvas o f j Hnow (Hrun j Hj)). }
  repeat (split; [assumption|]).
  intros Hd Hf.
  assert (Hfc : B64.frameCount o = 30).
  { destruct o as [d r s]. cbn [B64.duration B64.fps] in Hd, Hf. subst d r.
    reflexivity. }
  split; [rewrite Hfc; reflexivity|]. split; [rewrite Hfc; reflexivity|].
  apply Hmost. rewrite Hfc. reflexivity.
Qed.

(** Half a second at 60 frames per second, on a clock throttled to one tick
    every 100 ms: at the tick at 600 ms the test of the bound holds. *)
Lemma C1_throttled_clock_witness :
  (B64.limit (B64.mkOptions 0.5 60 1)
   <=? B64.elapsed (B64.throttled 100 (B64.mkCanvas 4 4)) 6) = true /\
  exists k,
    (k <= 6)%nat /\
    B64.stops_at (B64.mkCanvas 4 4) (B64.mkOptions 0.5 60 1)
      (B64.throttled 100 (B64.mkCanvas 4 4)) k.
Proof.
  assert (H : (B64.limit (B64.mkOptions 0.5 60 1)
               <=? B64.elapsed (B64.throttled 100 (B64.mkCanvas 4 4)) 6) = true)
    by reflexivity.
  split; [exact H|].
  destruct (C1_sampling_loop_stops (B64.mkCanvas 4 4) (B64.mkOptions 0.5 60 1)
              (B64.throttled 100 (B64.mkCanvas 4 4)) 6 H) as (k & Hk & Hs & _).
  exists k. split; [exact Hk | exact Hs].
Defined.

(** C1, as stated, fails.  (1) With [fps = NaN] the frame interval, the
    frame count and the bound are [NaN], every comparison of [step] is
    false, and a two-second capture never resolves, whatever the clock.
    (2) The loop also resolves when the elapsed time is exactly the bound,
    not over it, with fewer than [frameCount] frames: three seconds at 1 fps
    with ticks at 0 and 4000 ms stop after 2 of 3 frames. *)
Lemma C1_nan_fps_never_stops :
  (forall canvas f n,
     snd (B64.after_ticks canvas (B64.mkOptions 2 nan 1) f n) = false) /\
  (snd (B64.after_ticks (B64.mkCanvas 4 4) (B64.mkOptions 3 1 1)
          (B64.throttled 4000 (B64.mkCanvas 4 4)) 2) = true /\
   B64.captured_at (B64.mkCanvas 4 4) (B64.mkOptions 3 1 1)
     (B64.throttled 4000 (B64.mkCanvas 4 4)) 1 = 2%nat /\
   B64.frameCount (B64.mkOptions 3 1 1) = 3 /\
   (B64.limit (B64.mkOptions 3 1 1)
    <? B64.elapsed (B64.throttled 4000 (B64.mkCanvas 4 4)) 1) = false).
Proof.
  split.
  - intros canvas f n. apply sampling_loop64_nan; reflexivity.
  - repeat split.
Qed.






(** C8, as the code has it, in binary64.  Every frame of a capture is read
    back at the size the surface had when the call started and written at
    [max(1, round(width * scale))] by [max(1, round(height * scale))]
    pixels, the products being those of doubles, whatever the surface is at
    later ticks; this is [round(width * scale)] by [round(height * scale)]
    as soon as neither rounds below 1. *)
Theorem C8_frames_have_the_target_size
    (canvas : B64.Canvas) (o : B64.Options) (ticks : list B64.Tick) :
  Forall
    (fun frame =>
       B64.frame_width frame
       = B64.Math_max 1 (B64.Math_round (B64.width canvas * B64.sanitizedScale o)) /\
       B64.frame_height frame
       = B64.Math_max 1 (B64.Math_round (B64.height canvas * B64.sanitizedScale o)) /\
       B64.read_width frame = B64.width canvas /\
       B64.read_height frame = B64.height canvas /\
       ((1 <=? B64.Math_round (B64.width canvas * B64.sanitizedScale o)) = true ->
        (1 <=? B64.Math_round (B64.height canvas * B64.sanitizedScale o)) = true ->
        B64.frame_width frame
        = B64.Math_round (B64.width canvas * B64.sanitizedScale o) /\
        B64.frame_height frame
        = B64.Math_round (B64.height canvas * B64.sanitizedScale o)))
    (B64.frames (fst (B64.sampling_loop canvas o B64.sampling_start ticks))).
Proof.
  apply sampling_loop64_frames; [|constructor].
  intros s0 tick0. cbn [B64.captureFrame B64.frames]. rewrite last_last.
  cbn [B64.frame_width B64.frame_height B64.read_width B64.read_height].
  unfold B64.targetWidth, B64.targetHeight.
  repeat (split; [reflexivity|]).
  intros Hw Hh. now rewrite !Math_max_1_ge by assumption.
Qed.

(** C8, as stated, fails: a 4 x 4 surface captured at scale 0.1 (below 1)
    gives 1 x 1 frames, while [round(4 * 0.1)] is 0. *)
Lemma C8_tiny_surface_is_one_pixel :
  (B64.sanitizedScale (B64.mkOptions 0.5 1 0.1) <? 1) = true /\
  exists frame,
    B64.frames (fst (B64.sampling_loop (B64.mkCanvas 4 4) (B64.mkOptions 0.5 1 0.1)
                       B64.sampling_start [B64.mkTick 0 (B64.mkCanvas 4 4)]))
    = [frame] /\
    B64.frame_width frame = 1 /\
    B64.frame_height frame = 1 /\
    B64.Math_round (B64.width (B64.mkCanvas 4 4)
                    * B64.sanitizedScale (B64.mkOptions 0.5 1 0.1)) = 0.
Proof.
  split; [reflexivity|].
  eexists. split; [reflexivity|]. repeat split.
Qed.

(** ** The frames of a run, in binary64 *)

Lemma step64_inv (I : B64.Sampling -> Prop) canvas o s tick :
  (forall s0 t, I s0 ->
     I (B64.mkSampling (B64.captured s0) t t (B64.frameIndex s0) (B64.frames s0))) ->
  (forall s0 c t n, I s0 ->
     I (B64.mkSampling c (B64.startTime s0) n
          (B64.frameIndex (B64.captureFrame canvas o t s0))
          (B64.frames (B64.captureFrame canvas o t s0)))) ->
  I s -> I (fst (B64.step canvas o s tick)).
Proof.
  intros Hstart Hcap Hs. unfold B64.step.
  destruct (_ <=? _); [exact Hs|].
  match goal with
  | |- context [if (B64.nextCapture ?st <=? _) then _ else _] =>
      set (s1 := st)
  end.
  assert (H1 : I s1).
  { subst s1. destruct (Nat.eqb (B64.captured s) 0); [now apply Hstart | exact Hs]. }
  clearbody s1.
  destruct (B64.nextCapture s1 <=? B64.now tick).
  - match goal with
    | |- context [if ?b then _ else _] => destruct b
    end; cbn [fst]; apply (Hcap s1 _ tick _ H1).
  - match goal with
    | |- context [if ?b then _ else _] => destruct b
    end; exact H1.
Qed.

Lemma sampling_loop64_inv (I : B64.Sampling -> Prop) canvas o s ticks :
  (forall s0 t, I s0 ->
     I (B64.mkSampling (B64.captured s0) t t (B64.frameIndex s0) (B64.frames s0))) ->
  (forall s0 c t n, I s0 ->
     I (B64.mkSampling c (B64.startTime s0) n
          (B64.frameIndex (B64.captureFrame canvas o t s0))
          (B64.frames (B64.captureFrame canvas o t s0)))) ->
  I s -> I (fst (B64.sampling_loop canvas o s ticks)).
Proof.
  intros Hstart Hcap. revert s.
  induction ticks as [|tick ticks IH]; intros s Hs; simpl; [exact Hs|].
  pose proof (step64_inv I canvas o s tick Hstart Hcap Hs) as H.
  destruct (B64.step canvas o s tick) as [s' [|]]; [exact H | now apply IH].
Qed.

Lemma frames_marked_kept canvas o ticks :
  B64.frames_marked o
    (fst (B64.sampling_loop canvas o B64.sampling_start ticks)).
Proof.
  apply sampling_loop64_inv.
  - intros s0 t H. exact H.
  - intros s0 c t n (Hi & Hd & Hm). unfold B64.frames_marked.
    cbn [B64.captureFrame B64.frameIndex B64.frames].
    split; [rewrite length_app, Hi; cbn [length]; lia|].
    split; [apply Forall_app; split; [exact Hd | repeat constructor]|].
    rewrite Hi. destruct (B64.frames s0) as [|first rest]; cbn [app length Nat.eqb].
    + split; [reflexivity | constructor].
    + destruct Hm as [H0 Hrest]. split; [exact H0|].
      apply Forall_app. split; [exact Hrest | repeat constructor].
  - unfold B64.frames_marked. cbn. repeat split; constructor.
Qed.

Lemma delay_table : forallb B64.delay_in_range (seq 1 60) = true.
Proof. vm_compute. reflexivity. Qed.

Lemma delayMs_whole (o : B64.Options) :
  is_nan (B64.fps o) = false ->
  exists d : Z,
    B64.delayMs o = B64.of_int d /\ (17 <= d <= 1000)%Z.
Proof.
  intros Hnan. destruct (sanitizedFps_whole o Hnan) as (n & Hn & Hfps & _).
  pose proof delay_table as T. rewrite forallb_forall in T.
  specialize (T (Z.to_nat n)).
  assert (Hin : In (Z.to_nat n) (seq 1 60)) by (apply in_seq; lia).
  apply T in Hin. unfold B64.delay_in_range in Hin.
  rewrite Z2Nat.id in Hin by lia.
  apply andb_true_iff in Hin as [Hin H3]. apply andb_true_iff in Hin as [H1 H2].
  apply FloatAxioms.Leibniz.eqb_spec in H1.
  apply Z.leb_le in H2, H3.
  unfold B64.delayMs, B64.frameIntervalMs. rewrite Hfps.
  eexists. split; [exact H1|]. lia.
Qed.

(** X7. Every frame handed to the encoder carries the same delay,
    [delayMs = max(0, round(1000 / sanitizedFps))]; the first frame written,
    and no other, carries the repeat marker 0 (loop for ever); and for an
    [fps] that is a number the delay is a whole number of milliseconds
    between 17 and 1000. *)
Theorem frames_carry_the_delay_and_one_loop_marker
    (canvas : B64.Canvas) (o : B64.Options) (f : nat -> B64.Tick) (n : nat) :
  Forall (fun frame => B64.frame_delay frame = B64.delayMs o)
    (B64.frames (fst (B64.after_ticks canvas o f n))) /\
  match B64.frames (fst (B64.after_ticks canvas o f n)) with
  | [] => True
  | first :: rest =>
      B64.frame_repeat first = Some 0 /\
      Forall (fun frame => B64.frame_repeat frame = None) rest
  end /\
  B64.delayMs o = B64.Math_max 0 (B64.Math_round (1000 / B64.sanitizedFps o)) /\
  (is_nan (B64.fps o) = false ->
   exists d : Z, B64.delayMs o = B64.of_int d /\ (17 <= d <= 1000)%Z).
Proof.
  destruct (frames_marked_kept canvas o (B64.prefix f n)) as (_ & Hd & Hm).
  split; [exact Hd|]. split; [exact Hm|]. split; [reflexivity|].
  apply delayMs_whole.
Qed.

(** * RampSampler in binary64 *)

(** ** Numbers of the unit interval *)

Lemma eqb_of_le (a b : float) :
  (a <=? b) = true -> (a <? b) = false -> (a =? b) = true.
Proof.
  intros Hle Hlt. destruct (leb_not_nan _ _ Hle) as [Ha Hb].
  rewrite leb_ord in Hle by assumption. rewrite ltb_ord in Hlt by assumption.
  rewrite eqb_ord by assumption.
  apply Z.leb_le in Hle. apply Z.ltb_ge in Hlt. apply Z.eqb_eq. lia.
Qed.

Lemma eqb_leb (a b : float) : (a =? b) = true -> (a <=? b) = true /\ (b <=? a) = true.
Proof.
  intros H.
  assert (Hn : is_nan a = false /\ is_nan b = false).
  { rewrite FloatAxioms.eqb_spec in H. rewrite !is_nan_SF. unfold SFeqb in H.
    destruct (Prim2SF a), (Prim2SF b); auto; discriminate. }
  destruct Hn as [Ha Hb]. rewrite eqb_ord in H by assumption.
  rewrite !leb_ord by assumption. apply Z.eqb_eq in H. split; apply Z.leb_le; lia.
Qed.

Lemma eqb_sym (a b : float) : (a =? b) = true -> (b =? a) = true.
Proof.
  intros H. destruct (eqb_leb _ _ H) as [H1 H2].
  destruct (leb_not_nan _ _ H1) as [Ha Hb].
  rewrite eqb_ord in * by assumption. apply Z.eqb_eq in H. apply Z.eqb_eq. lia.
Qed.

Lemma not_ltb_leb (a b : float) :
  is_nan a = false -> is_nan b = false -> (a <? b) = false -> (b <=? a) = true.
Proof.
  intros Ha Hb H. rewrite leb_negb_ltb by assumption. now rewrite H.
Qed.

Lemma clamp_unit (v : float) :
  is_nan v = false ->
  (0 <=? B64.clamp v 0 1) = true /\ (B64.clamp v 0 1 <=? 1) = true.
Proof.
  intros Hv. unfold B64.clamp.
  assert (H0 : is_nan 0 = false) by reflexivity.
  assert (H1 : is_nan 1 = false) by reflexivity.
  assert (H01 : (0 <=? 1) = true) by reflexivity.
  destruct (Math_max_cases v 0 Hv H0) as [[-> Hm]|[-> Hm]];
    [destruct (Math_min_cases v 1 Hv H1) as [[-> Hn]|[-> Hn]]
    |destruct (Math_min_cases 0 1 H0 H1) as [[-> Hn]|[-> Hn]]];
    split; auto.
Qed.

Lemma unit_limited (v : float) :
  (0 <=? v) = true -> (v <=? 1) = true -> B64.limited v = true.
Proof.
  rewrite !FloatAxioms.leb_spec, one_SF. change (Prim2SF 0) with (S754_zero false).
  unfold B64.limited, SFleb. destruct (Prim2SF v) as [s|s| |s m e]; auto;
    try destruct s; cbn; intros; discriminate.
Qed.

Lemma in_unit_x_limited (p : B64.xy) : B64.in_unit p -> B64.limited (B64.xof p) = true.
Proof. intros [[H0 H1] _]. now apply unit_limited. Qed.

Lemma in_unit_y_limited (p : B64.xy) : B64.in_unit p -> B64.limited (B64.yof p) = true.
Proof. intros [_ [H0 H1]]. now apply unit_limited. Qed.

Lemma in_unit_x_number (p : B64.xy) : B64.in_unit p -> is_nan (B64.xof p) = false.
Proof. intros H. now apply limited_not_nan, in_unit_x_limited. Qed.

(** ** Sorting and the flat extension *)

Lemma insert64_length a l : length (B64.insert a l) = S (length l).
Proof.
  induction l as [|b l IH]; simpl; auto.
  destruct (0 <? _); simpl; auto.
Qed.

Lemma sort_by_x64_length l : length (B64.sort_by_x l) = length l.
Proof. induction l; simpl; auto. now rewrite insert64_length, IHl. Qed.

Lemma insert64_perm a l : Permutation (a :: l) (B64.insert a l).
Proof.
  induction l as [|b l IH]; simpl; auto.
  destruct (0 <? _); auto.
  rewrite perm_swap. now constructor.
Qed.

Lemma sort_by_x64_perm l : Permutation l (B64.sort_by_x l).
Proof.
  induction l as [|a l IH]; simpl; auto.
  rewrite <- insert64_perm. now constructor.
Qed.

Lemma insert64_sorted a l :
  B64.in_unit a -> Forall B64.in_unit l ->
  StronglySorted B64.le_x l -> StronglySorted B64.le_x (B64.insert a l).
Proof.
  intros Ha Hl Hs. induction Hs as [|b l Hs IH Hb]; simpl.
  - repeat constructor.
  - inversion_clear Hl as [|? ? Hbu Hlu].
    rewrite sub_positive by auto using in_unit_x_limited.
    destruct (B64.xof b <? B64.xof a) eqn:E.
    + constructor; auto.
      rewrite <- insert64_perm. constructor; auto. unfold B64.le_x.
      now apply ltb_leb.
    + assert (Hab : B64.le_x a b).
      { unfold B64.le_x. apply not_ltb_leb; auto using in_unit_x_number. }
      constructor; [now constructor|].
      constructor; auto.
      eapply Forall_impl; [|exact Hb]. unfold B64.le_x in *. intros c Hc.
      eapply leb_trans; eauto.
Qed.

Lemma sort_by_x64_sorted l :
  Forall B64.in_unit l -> StronglySorted B64.le_x (B64.sort_by_x l).
Proof.
  induction 1 as [|a l Ha Hl IH]; simpl; [constructor|].
  apply insert64_sorted; auto.
  eapply Permutation_Forall; [apply sort_by_x64_perm | exact Hl].
Qed.

Lemma clamped64_in_unit points :
  Forall B64.numeric points -> Forall B64.in_unit (B64.clamped points).
Proof.
  intros H. unfold B64.clamped. apply Forall_map.
  eapply Forall_impl; [|exact H]. intros p [Hx Hy].
  split; now apply clamp_unit.
Qed.

Lemma sorted_points64_in_unit points :
  Forall B64.numeric points -> Forall B64.in_unit (B64.sorted_points points).
Proof.
  intros H. eapply Permutation_Forall;
    [apply sort_by_x64_perm | now apply clamped64_in_unit].
Qed.

(** The flat extension never fails on a non-empty ramp; it yields at least
    two points, from [x = 0] to [x = 1], still in the unit square and still
    sorted. *)
Lemma normalize64_spec sorted :
  sorted <> [] -> Forall B64.in_unit sorted -> StronglySorted B64.le_x sorted ->
  exists normalized,
    B64.normalize sorted = Some normalized /\
    (2 <= length normalized)%nat /\
    (B64.xat normalized 0 =? 0) = true /\
    (B64.xat normalized (length normalized - 1) =? 1) = true /\
    Forall B64.in_unit normalized /\
    StronglySorted B64.le_x normalized.
Proof.
  intros Hne Hunit Hsorted.
  destruct (exists_last Hne) as (body & last & Hlast).
  destruct sorted as [|first rest]; [congruence|].
  assert (Hfirst : B64.in_unit first) by now inversion Hunit.
  assert (Hl : B64.in_unit last).
  { rewrite Hlast in Hunit. apply Forall_app in Hunit as [_ H].
    now inversion H. }
  assert (Hnth : nth_error (first :: rest) (length (first :: rest) - 1)
                 = Some last).
  { rewrite Hlast, length_app. simpl.
    replace (length body + 1 - 1)%nat with (length body) by lia.
    rewrite nth_error_app2, Nat.sub_diag by lia. reflexivity. }
  unfold B64.normalize. cbn [nth_error bind]. rewrite Hnth. cbn [bind].
  eexists. split; [reflexivity|].
  pose proof Hfirst as Hfirst'. pose proof Hl as Hl'.
  destruct Hfirst as [[Hfx0 Hfx1] Hfy], Hl as [[Hlx0 Hlx1] Hly].
  assert (Hall0 : forall y0, Forall (fun a => B64.le_x a (1, y0)) (first :: rest)).
  { intros y0. eapply Forall_impl; [|exact Hunit].
    intros a [[_ Ha] _]. exact Ha. }
  assert (Hall1 : forall y0, Forall (B64.le_x (0, y0)) (first :: rest)).
  { intros y0. eapply Forall_impl; [|exact Hunit].
    intros a [[Ha _] _]. exact Ha. }
  assert (U0 : forall y0, (0 <=? y0) = true /\ (y0 <=? 1) = true ->
                          B64.in_unit (0, y0)).
  { intros y0 Hy. split; [split; reflexivity | exact Hy]. }
  assert (U1 : forall y0, (0 <=? y0) = true /\ (y0 <=? 1) = true ->
                          B64.in_unit (1, y0)).
  { intros y0 Hy. split; [split; reflexivity | exact Hy]. }
  destruct (0 <? B64.xof first) eqn:H0; destruct (B64.xof last <? 1) eqn:H1;
    cbv beta iota zeta.
  - split; [|split; [|split; [|split]]].
    + simpl. rewrite length_app. simpl. lia.
    + reflexivity.
    + change ((0, B64.yof first) :: first :: rest)
        with ([(0, B64.yof first)] ++ first :: rest).
      rewrite <- app_assoc, app_assoc.
      unfold B64.xat. rewrite nth_last_snoc. reflexivity.
    + apply Forall_app. split.
      * constructor; [now apply U0 | assumption].
      * constructor; [now apply U1 | constructor].
    + apply StronglySorted_snoc.
      * constructor; auto.
      * constructor; [reflexivity | now apply Hall0].
  - split; [|split; [|split; [|split]]].
    + simpl. lia.
    + reflexivity.
    + rewrite Hlast.
      change ((0, B64.yof first) :: body ++ [last])
        with (((0, B64.yof first) :: body) ++ [last]).
      unfold B64.xat. rewrite nth_last_snoc. now apply eqb_of_le.
    + constructor; [now apply U0 | assumption].
    + constructor; auto.
  - split; [|split; [|split; [|split]]].
    + rewrite length_app. simpl. lia.
    + unfold B64.xat. simpl. apply eqb_sym. now apply eqb_of_le.
    + unfold B64.xat. rewrite nth_last_snoc. reflexivity.
    + apply Forall_app. split; [assumption|].
      constructor; [now apply U1 | constructor].
    + apply StronglySorted_snoc; auto.
  - assert (E0 : (B64.xof first =? 0) = true).
    { apply eqb_sym. now apply eqb_of_le. }
    assert (E1 : (B64.xof last =? 1) = true) by now apply eqb_of_le.
    split; [|split; [|split; [|split]]].
    + destruct rest as [|second rest]; [|simpl; lia].
      destruct body as [|b body]; simpl in Hlast.
      * injection Hlast as ->. exfalso.
        destruct (eqb_leb _ _ E0) as [Ha _]. destruct (eqb_leb _ _ E1) as [_ Hb].
        pose proof (leb_trans _ _ _ Hb Ha) as Hc. discriminate.
      * injection Hlast as _ Hnil. now destruct body.
    + exact E0.
    + rewrite Hlast. unfold B64.xat. rewrite nth_last_snoc. exact E1.
    + assumption.
    + assumption.
Qed.

Lemma normalize64_extends sorted normalized :
  B64.normalize sorted = Some normalized -> B64.extends sorted normalized.
Proof.
  unfold B64.normalize. destruct sorted as [|first body]; [discriminate|].
  cbn [nth_error bind].
  destruct (nth_error (first :: body) (length (first :: body) - 1))
    as [last|] eqn:E; [|discriminate].
  cbn [bind]. intros H. injection H as <-.
  exists first, body, last,
    (if 0 <? B64.xof first then [(0, B64.yof first)] else []),
    (if B64.xof last <? 1 then [(1, B64.yof last)] else []).
  split; [reflexivity|]. split; [now apply nth_error_last|].
  split; [|split; reflexivity].
  destruct (0 <? B64.xof first), (B64.xof last <? 1); cbn [app];
    rewrite ?app_nil_r; reflexivity.
Qed.

(** ** The segment cursor *)

Lemma advance64_ge fuel normalized t segment :
  (segment <= B64.advance fuel normalized t segment)%nat.
Proof.
  revert segment. induction fuel as [|fuel IH]; intros segment; simpl.
  - lia.
  - destruct (_ && _); [specialize (IH (S segment))|]; lia.
Qed.

Lemma advance64_bound fuel normalized t segment :
  (B64.advance fuel normalized t segment
   <= Nat.max segment (length normalized - 2))%nat.
Proof.
  revert segment. induction fuel as [|fuel IH]; intros segment; simpl.
  - lia.
  - destruct (Z.ltb_spec (Z.of_nat segment) (Z.of_nat (length normalized) - 2));
      simpl; [|lia].
    destruct (nth_error _ _) as [p|]; [|lia].
    destruct (_ <? _); [specialize (IH (S segment))|]; lia.
Qed.

Lemma advance64_left fuel normalized t segment :
  (B64.xat normalized segment <=? t) = true ->
  (B64.xat normalized (B64.advance fuel normalized t segment) <=? t) = true.
Proof.
  revert segment. induction fuel as [|fuel IH]; intros segment H; simpl; auto.
  destruct (Z.ltb_spec (Z.of_nat segment) (Z.of_nat (length normalized) - 2));
    simpl; auto.
  destruct (nth_error normalized (segment + 1)) as [p|] eqn:E; auto.
  destruct (B64.xof p <? t) eqn:Ep; auto.
  apply IH. unfold B64.xat. rewrite Nat.add_1_r in E.
  rewrite (nth_error_nth _ _ B64.origin E). now apply ltb_leb.
Qed.

Lemma advance64_skipped fuel normalized t segment k :
  (segment <= k < B64.advance fuel normalized t segment)%nat ->
  (B64.xat normalized (S k) <? t) = true.
Proof.
  revert segment. induction fuel as [|fuel IH]; intros segment; simpl; [lia|].
  destruct (Z.ltb_spec (Z.of_nat segment) (Z.of_nat (length normalized) - 2));
    simpl; [|lia].
  destruct (nth_error normalized (segment + 1)) as [p|] eqn:E; [|lia].
  destruct (B64.xof p <? t) eqn:Ep; [|lia].
  intros Hk. destruct (Nat.eq_dec k segment) as [->|Hne].
  - unfold B64.xat. rewrite Nat.add_1_r in E.
    now rewrite (nth_error_nth _ _ B64.origin E).
  - apply (IH (S segment)). lia.
Qed.

Lemma advance64_exit fuel normalized t segment :
  is_nan t = false -> Forall B64.in_unit normalized ->
  (length normalized <= fuel + segment + 2)%nat ->
  (B64.advance fuel normalized t segment + 2 < length normalized)%nat ->
  (t <=? B64.xat normalized (S (B64.advance fuel normalized t segment))) = true.
Proof.
  intros Ht Hu. revert segment. induction fuel as [|fuel IH]; intros segment Hfuel; simpl.
  - lia.
  - destruct (Z.ltb_spec (Z.of_nat segment) (Z.of_nat (length normalized) - 2));
      simpl; [|lia].
    destruct (nth_error normalized (segment + 1)) as [p|] eqn:E.
    + destruct (B64.xof p <? t) eqn:Ep.
      * apply IH. lia.
      * intros _. unfold B64.xat. rewrite Nat.add_1_r in E.
        rewrite (nth_error_nth _ _ B64.origin E).
        apply not_ltb_leb; auto. apply in_unit_x_number.
        rewrite Forall_forall in Hu. apply Hu. eapply nth_error_In; eauto.
    + apply nth_error_None in E. lia.
Qed.

Lemma cursor_after64_S normalized size n :
  B64.cursor_after normalized size (S n) =
  B64.advance (length normalized) normalized (B64.sample_t size n)
    (B64.cursor_after normalized size n).
Proof.
  unfold B64.cursor_after. rewrite seq_S, fold_left_app. reflexivity.
Qed.

Lemma cursor_after64_bound normalized size n :
  (2 <= length normalized)%nat ->
  (B64.cursor_after normalized size n + 2 <= length normalized)%nat.
Proof.
  intros H. induction n as [|n IH].
  - unfold B64.cursor_after. simpl. lia.
  - rewrite cursor_after64_S.
    pose proof (advance64_bound (length normalized) normalized
                  (B64.sample_t size n) (B64.cursor_after normalized size n)).
    lia.
Qed.

Lemma cursor_after64_mono normalized size n m :
  (n <= m)%nat ->
  (B64.cursor_after normalized size n <= B64.cursor_after normalized size m)%nat.
Proof.
  induction 1 as [|m _ IH]; [lia|].
  rewrite cursor_after64_S.
  pose proof (advance64_ge (length normalized) normalized (B64.sample_t size m)
                (B64.cursor_after normalized size m)).
  lia.
Qed.

(** ** The sampling loop of the ramp *)

Lemma sample_loop64_app normalized size st l1 l2 :
  B64.sample_loop normalized size st (l1 ++ l2) =
  (st' <- B64.sample_loop normalized size st l1 ;;
   B64.sample_loop normalized size st' l2).
Proof.
  revert st. induction l1 as [|i l1 IH]; intros st; simpl; [reflexivity|].
  destruct (B64.sample_step normalized size st i); simpl; auto.
Qed.

Lemma sample_step64_eq normalized size n samples :
  (2 <= length normalized)%nat ->
  B64.sample_step normalized size (B64.cursor_after normalized size n, samples) n =
  Some (B64.cursor_after normalized size (S n),
        store samples n
          (B64.truncate
             (B64.sample_value
                (nth (B64.cursor_after normalized size (S n)) normalized B64.origin)
                (nth (S (B64.cursor_after normalized size (S n))) normalized B64.origin)
                (B64.sample_t size n)))).
Proof.
  intros Hlen. unfold B64.sample_step. rewrite <- cursor_after64_S.
  pose proof (cursor_after64_bound normalized size (S n) Hlen) as Hb.
  set (segment := B64.cursor_after normalized size (S n)) in *.
  rewrite (nth_error_nth' normalized B64.origin) by lia. simpl.
  rewrite Nat.add_1_r.
  rewrite (nth_error_nth' normalized B64.origin) by lia. simpl.
  reflexivity.
Qed.

Lemma sample_loop64_seq normalized size n :
  (2 <= length normalized)%nat -> (n <= size)%nat ->
  B64.sample_loop normalized size (O, new_Uint8Array size) (seq 0 n) =
  Some (B64.cursor_after normalized size n,
        map (B64.entry normalized size) (seq 0 n) ++ repeat 0%Z (size - n)).
Proof.
  intros Hlen. induction n as [|n IH]; intros Hn.
  - simpl. rewrite Nat.sub_0_r. reflexivity.
  - rewrite seq_S, sample_loop64_app, IH by lia.
    cbn [bind B64.sample_loop Nat.add].
    rewrite sample_step64_eq by assumption. cbn [bind].
    replace (size - n)%nat with (S (size - S n)) by lia.
    cbn [repeat].
    rewrite (store_at _ _ _ _ n) by now rewrite length_map, length_seq.
    rewrite map_app, <- app_assoc. reflexivity.
Qed.

Lemma lut64_entry normalized size i :
  (i < size)%nat ->
  nth_error (map (B64.entry normalized size) (seq 0 size)) i
  = Some (B64.entry normalized size i).
Proof.
  intros Hi. apply map_nth_error.
  rewrite (nth_error_nth' _ O) by now rewrite length_seq.
  now rewrite seq_nth.
Qed.

(** ** The sample instants *)

Lemma instants_table : forallb B64.instant_ok (seq 0 256) = true.
Proof. vm_compute. reflexivity. Qed.

Lemma instant64 (i : nat) :
  (i < 256)%nat ->
  (0 <=? B64.sample_t 256 i) = true /\
  (B64.sample_t 256 i <=? 1) = true /\
  ((S i < 256)%nat -> (B64.sample_t 256 i <=? B64.sample_t 256 (S i)) = true).
Proof.
  intros Hi. pose proof instants_table as T. rewrite forallb_forall in T.
  specialize (T i ltac:(apply in_seq; lia)). unfold B64.instant_ok in T.
  apply andb_true_iff in T as [T T3]. apply andb_true_iff in T as [T1 T2].
  split; [exact T1|]. split; [exact T2|]. intros Hs.
  apply orb_true_iff in T3 as [T3|T3]; [exact T3|].
  apply Nat.eqb_eq in T3. lia.
Qed.

Lemma instant64_limited (i : nat) :
  (i < 256)%nat -> B64.limited (B64.sample_t 256 i) = true.
Proof. intros Hi. destruct (instant64 i Hi) as (H0 & H1 & _). now apply unit_limited. Qed.

(** ** Interpolation: the code against the specification's reading *)

Lemma one_SF_finite : Prim2SF 1 = S754_finite false 4503599627370496 (-52).
Proof. reflexivity. Qed.

(** The ratio of the code is the ratio of the specification: in a segment
    of zero width the span falls back to 1 and [t - left.x], at or below
    zero, clamps to 0. *)
Lemma ratio64_spec (left right : B64.xy) (t : float) :
  B64.in_unit left -> B64.in_unit right -> B64.limited t = true ->
  (t <=? B64.xof right) = true ->
  B64.clamp ((t - B64.xof left) / B64.or_else (B64.xof right - B64.xof left) 1) 0 1
  = B64.spec_ratio left right t.
Proof.
  intros Hl Hr Ht Hle. unfold B64.spec_ratio, B64.or_else.
  pose proof (in_unit_x_limited _ Hl) as Ll.
  pose proof (in_unit_x_limited _ Hr) as Lr.
  destruct (sub_sign (B64.xof right) (B64.xof left) Lr Ll) as [Hn _].
  rewrite Hn, (sub_zero _ _ Lr Ll). cbn [orb].
  destruct (B64.xof left =? B64.xof right) eqn:E.
  - rewrite (eqb_sym _ _ E).
    destruct (sub_sign t (B64.xof left) Ht Ll) as [Hn' Hs].
    assert (Hneg : (B64.ord (t - B64.xof left) <= 0)%Z).
    { destruct (eqb_leb _ _ E) as [_ Hrl].
      pose proof (leb_trans _ _ _ Hle Hrl) as Htl.
      apply leb_true_ord in Htl as (_ & _ & Htl).
      exact (compare_le _ _ _ _ Hs Htl). }
    destruct (div_sign (t - B64.xof left) 1 _ _ Hn' one_SF_finite) as (Hq & Hq0 & _).
    apply clamp_nonpositive; auto.
    rewrite ord_1. apply pow2_pos. lia.
  - assert (E' : (B64.xof right =? B64.xof left) = false).
    { destruct (B64.xof right =? B64.xof left) eqn:E'; [|reflexivity].
      apply eqb_sym in E'. congruence. }
    rewrite E'. reflexivity.
Qed.

Lemma sample_value64_spec (left right : B64.xy) (t : float) :
  B64.in_unit left -> B64.in_unit right -> B64.limited t = true ->
  (t <=? B64.xof right) = true ->
  B64.ToUint8 (B64.sample_value left right t) = B64.spec_entry left right t.
Proof.
  intros Hl Hr Ht Hle. unfold B64.sample_value, B64.spec_entry. cbv zeta.
  rewrite round_clamp64. now rewrite (ratio64_spec left right t Hl Hr Ht Hle).
Qed.

(** ** Where the cursor stands *)

Lemma cursor_left64 normalized n :
  (B64.xat normalized 0 <=? 0) = true -> (n < 256)%nat ->
  (B64.xat normalized (B64.cursor_after normalized 256 n) <=? B64.sample_t 256 n)
  = true /\
  (B64.xat normalized (B64.cursor_after normalized 256 (S n)) <=? B64.sample_t 256 n)
  = true.
Proof.
  intros H0. induction n as [|n IH]; intros Hn.
  - assert (H : (B64.xat normalized (B64.cursor_after normalized 256 0)
                 <=? B64.sample_t 256 0) = true).
    { destruct (instant64 O Hn) as (Ht & _). unfold B64.cursor_after. simpl.
      eapply leb_trans; eauto. }
    split; [exact H|]. rewrite cursor_after64_S. now apply advance64_left.
  - destruct IH as [_ IH]; [lia|].
    assert (H : (B64.xat normalized (B64.cursor_after normalized 256 (S n))
                 <=? B64.sample_t 256 (S n)) = true).
    { destruct (instant64 n ltac:(lia)) as (_ & _ & Hm).
      eapply leb_trans; [exact IH | apply Hm; lia]. }
    split; [exact H|]. rewrite (cursor_after64_S _ _ (S n)).
    now apply advance64_left.
Qed.

Lemma cursor_right64 normalized n :
  (2 <= length normalized)%nat -> Forall B64.in_unit normalized ->
  (1 <=? B64.xat normalized (length normalized - 1)) = true -> (n < 256)%nat ->
  (B64.sample_t 256 n
   <=? B64.xat normalized (S (B64.cursor_after normalized 256 (S n)))) = true.
Proof.
  intros Hlen Hu Hlast Hn.
  pose proof (cursor_after64_bound normalized 256 (S n) Hlen) as Hb.
  destruct (instant64 n Hn) as (H0 & H1 & _).
  destruct (Nat.eq_dec (B64.cursor_after normalized 256 (S n) + 2)
              (length normalized)) as [E|E].
  - replace (S (B64.cursor_after normalized 256 (S n)))
      with (length normalized - 1)%nat by lia.
    eapply leb_trans; eauto.
  - rewrite cursor_after64_S in *. apply advance64_exit; auto; try lia.
    now apply limited_not_nan, instant64_limited.
Qed.

(** ** The sampler as a whole *)

Lemma sorted_points64_nonempty points :
  points <> [] -> B64.sorted_points points <> [].
Proof.
  intros H E. apply (f_equal (@length _)) in E.
  unfold B64.sorted_points, B64.clamped in E.
  rewrite sort_by_x64_length, length_map in E.
  destruct points; [congruence | discriminate].
Qed.

Lemma generate64_nonempty points size :
  points <> [] -> Forall B64.numeric points ->
  exists normalized,
    B64.normalize (B64.sorted_points points) = Some normalized /\
    (2 <= length normalized)%nat /\
    (B64.xat normalized 0 =? 0) = true /\
    (B64.xat normalized (length normalized - 1) =? 1) = true /\
    Forall B64.in_unit normalized /\
    StronglySorted B64.le_x normalized /\
    B64.generateRampTextureData points size
    = Some (map (B64.entry normalized size) (seq 0 size)).
Proof.
  intros Hne Hnum.
  destruct (normalize64_spec (B64.sorted_points points))
    as (normalized & Hn & Hlen & H0 & H1 & Hu & Hs).
  - now apply sorted_points64_nonempty.
  - now apply sorted_points64_in_unit.
  - apply sort_by_x64_sorted. now apply clamped64_in_unit.
  - exists normalized. repeat (split; [assumption|]).
    unfold B64.generateRampTextureData. destruct points as [|p points]; [congruence|].
    rewrite Hn. cbn [bind].
    rewrite sample_loop64_seq by (auto; lia). cbn [bind snd].
    rewrite Nat.sub_diag. simpl repeat. now rewrite app_nil_r.
Qed.



